(** * achilles::math (math.hpp): a shallow embedding over IEEE-754 binary32

    The header defines scalar helpers, the vector types [float2], [float3],
    [float4], the [quaternion] type and the 4x4 matrix type [float4x4].
    Every [f32] of the header is modelled as a binary32 value of the
    Standard Library's [SpecFloat] (precision 24, emax 128, round to nearest
    even); every C++ expression is bracketed the way the C++ grammar parses
    it and each operator rounds once (no contraction into fused
    multiply-add, no excess precision).

    Functions of <cmath> ([acos], [asin], [atan2], [tan]) are not part of
    the header: they are section variables. *)

From Stdlib Require Import Reals Qreals Lra.
From Stdlib Require Import ZArith QArith Qabs Qpower Bool List Lia Lqa.
From Stdlib Require Import Floats.SpecFloat.
Import ListNotations.

Local Open Scope Z_scope.

(** ** Binary32 arithmetic *)

Module F32.

(** Modelled from the spec: [types.hpp] is not part of the sources; the
    specification fixes [f32] as a single-precision float, [u32] as its
    32-bit pattern. *)
Definition prec : Z := 24.
Definition emax : Z := 128.

Definition f32 : Type := spec_float.

Definition add : f32 -> f32 -> f32 := SFadd prec emax.
Definition sub : f32 -> f32 -> f32 := SFsub prec emax.
Definition mul : f32 -> f32 -> f32 := SFmul prec emax.
Definition div : f32 -> f32 -> f32 := SFdiv prec emax.
Definition neg : f32 -> f32 := SFopp.

(** Comparisons: every comparison with a NaN is false. *)
Definition eqb : f32 -> f32 -> bool := SFeqb.
Definition ltb : f32 -> f32 -> bool := SFltb.
Definition leb : f32 -> f32 -> bool := SFleb.
Definition gtb (a b : f32) : bool :=
  match SFcompare a b with Some Gt => true | _ => false end.
Definition geb (a b : f32) : bool :=
  match SFcompare a b with Some (Gt | Eq) => true | _ => false end.
Definition neb (a b : f32) : bool := negb (eqb a b).

Definition is_nan (x : f32) : bool :=
  match x with S754_nan => true | _ => false end.

Definition is_finite (x : f32) : bool :=
  match x with S754_zero _ | S754_finite _ _ _ => true | _ => false end.

Definition is_zero (x : f32) : bool :=
  match x with S754_zero _ => true | _ => false end.

Definition valid (x : f32) : bool := valid_binary prec emax x.

(** The value of a decimal literal [digits * 10^-scale], rounded once to
    the nearest binary32 (what a C++ compiler does with [1.5f]). *)
Definition of_decimal (digits : positive) (scale : N) : f32 :=
  SFdiv prec emax (S754_finite false digits 0)
                  (S754_finite false (Z.to_pos (10 ^ Z.of_N scale)) 0).

Definition zero : f32 := S754_zero false.

(** The exact rational value of a finite float (0 for the others). *)
Definition to_Q (x : f32) : Q :=
  match x with
  | S754_finite s m e => (inject_Z (cond_Zopp s (Zpos m)) * 2 ^ e)%Q
  | _ => 0%Q
  end.

(** The bit pattern of a float, and back (the [union { f32 f; u32 i; }]
    of [fisqrt]).  A NaN has no payload in [spec_float]: it is given the
    pattern of the default quiet NaN. *)
Definition sign_bit (s : bool) : Z := if s then 2147483648 else 0.

Definition to_bits (x : f32) : Z :=
  match x with
  | S754_zero s => sign_bit s
  | S754_infinity s => sign_bit s + 2139095040
  | S754_nan => 2143289344
  | S754_finite s m e =>
      sign_bit s +
      (if Zpos m <? 8388608 then Zpos m
       else Z.shiftl (e + 150) 23 + (Zpos m - 8388608))
  end.

Definition of_bits (i : Z) : f32 :=
  let s := Z.testbit i 31 in
  let e := Z.land (Z.shiftr i 23) 255 in
  let m := Z.land i 8388607 in
  if e =? 0 then
    match m with Zpos p => S754_finite s p (-149) | _ => S754_zero s end
  else if e =? 255 then
    (if m =? 0 then S754_infinity s else S754_nan)
  else
    match Z.lor m 8388608 with
    | Zpos p => S754_finite s p (e - 150)
    | _ => S754_nan
    end.

End F32.

Export F32.

Declare Scope f32_scope.
Delimit Scope f32_scope with f32.
Bind Scope f32_scope with f32.
Infix "+" := F32.add : f32_scope.
Infix "-" := F32.sub : f32_scope.
Infix "*" := F32.mul : f32_scope.
Infix "/" := F32.div : f32_scope.
Notation "- x" := (F32.neg x) : f32_scope.
Infix "==" := F32.eqb (at level 70, no associativity) : f32_scope.
Infix "<?" := F32.ltb : f32_scope.
Infix ">?" := F32.gtb : f32_scope.
Infix ">=?" := F32.geb : f32_scope.

(** ** Literals of the header *)

Definition f0 : f32 := F32.zero.                       (* 0.0f *)
Definition f1 : f32 := S754_finite false 8388608 (-23).   (* 1.0f *)
Definition f2 : f32 := S754_finite false 8388608 (-22).   (* 2.0f *)
Definition f4 : f32 := S754_finite false 8388608 (-21).   (* 4 *)
Definition f_half : f32 := S754_finite false 8388608 (-24).  (* 0.5f *)
Definition f_milli : f32 := S754_finite false 8589935 (-33).  (* 0.001f *)
Definition fisqrt_c1 : f32 := S754_finite false 11810359 (-24). (* 0.703952253f *)
Definition fisqrt_c2 : f32 := S754_finite false 10021218 (-22). (* 2.38924456f *)

Definition TAU : f32 := S754_finite false 13176795 (-21).  (* 6.28318530717958647692f *)
Definition EPSILON : f32 := S754_finite false 8796093 (-43). (* 0.000001f *)

(** ** Scalar helpers *)

Local Open Scope f32_scope.

(** [u8] and [u64] values are integers in their range; storing a [u64]
    into a [u8] keeps the low eight bits. *)
Definition u8_of_u64 (n : Z) : Z := (n mod 256)%Z.

Definition fisqrt (n : f32) : f32 :=
  let conv_i := F32.to_bits n in
  let conv_i := ((1595932665 - Z.shiftr conv_i 1) mod 4294967296)%Z in
  let conv_f := F32.of_bits conv_i in
  conv_f * (fisqrt_c1 * (fisqrt_c2 - n * conv_f * conv_f)).

Definition sign (n : f32) : f32 := if n >=? f0 then f1 else - f1.

Definition abs (n : f32) : f32 := if n <? f0 then - n else n.

Definition nearlyEqual (a b epsilon : f32) : bool :=
  if a == b then true
  else let diff := abs (a - b) in diff <? epsilon.

Definition max (a b : f32) : f32 := if a >? b then a else b.

Definition min (a b : f32) : f32 := if a >? b then b else a.

Definition lerp (a b t : f32) : f32 := (f1 - t) * a + t * b.

Definition clamp (a min max : f32) : f32 :=
  if a >? max then max else if a <? min then min else a.

Definition clamp01 (a : f32) : f32 := clamp a f0 f1.

Definition clampi (a min max : Z) : Z :=
  if (a >? max)%Z then max else if (a <? min)%Z then min else a.

Definition inverseLerp (a b c : f32) : f32 :=
  if a == b then f0 else (c - a) / (b - a).

(** ** float2 *)

Record float2 : Type := mkfloat2 { float2_x : f32; float2_y : f32 }.

(** [values[index]] of the union: defined for the indices of the array. *)
Definition float2_values (v : float2) (index : Z) : option f32 :=
  match index with
  | 0%Z => Some (float2_x v)
  | 1%Z => Some (float2_y v)
  | _ => None
  end.

Definition float2_eq (a other : float2) : bool :=
  (float2_x a == float2_x other) && (float2_y a == float2_y other).

Definition float2_index (v : float2) (index : Z) : option f32 :=
  let index := u8_of_u64 (clampi index 0 1) in
  float2_values v index.

Definition float2_sub (a b : float2) : float2 :=
  mkfloat2 (float2_x a - float2_x b) (float2_y a - float2_y b).

Definition float2_sqrMagnitude (a : float2) : f32 :=
  (float2_x a * float2_x a) + (float2_y a * float2_y a).

Definition float2_normalized (a : float2) : float2 :=
  let mag := float2_sqrMagnitude a in
  let root := fisqrt mag in
  mkfloat2 (float2_x a * root) (float2_y a * root).

Definition float2_dot (a v : float2) : f32 :=
  (float2_x a * float2_x v) + (float2_y a * float2_y v).

Definition float2_inverseLerp (a b c : float2) : f32 :=
  if float2_eq a b then f0
  else
    let ab := float2_sub b a in
    if float2_sqrMagnitude ab == f0 then f0
    else
      let ac := float2_sub c a in
      if float2_sqrMagnitude ac == f0 then f0
      else float2_dot ac ab / float2_dot ab ab.

(** ** float3 *)

Record float3 : Type :=
  mkfloat3 { float3_x : f32; float3_y : f32; float3_z : f32 }.

Definition float3_values (v : float3) (index : Z) : option f32 :=
  match index with
  | 0%Z => Some (float3_x v)
  | 1%Z => Some (float3_y v)
  | 2%Z => Some (float3_z v)
  | _ => None
  end.

Definition float3_eq (a other : float3) : bool :=
  (float3_x a == float3_x other) && (float3_y a == float3_y other)
  && (float3_z a == float3_z other).

Definition float3_index (v : float3) (index : Z) : option f32 :=
  let index := u8_of_u64 (clampi index 0 2) in
  float3_values v index.

Definition float3_sub (a b : float3) : float3 :=
  mkfloat3 (float3_x a - float3_x b) (float3_y a - float3_y b)
           (float3_z a - float3_z b).

(** [operator *=(f32)] *)
Definition float3_mul_assign (a : float3) (scalar : f32) : float3 :=
  let a := mkfloat3 (float3_x a * scalar) (float3_y a) (float3_z a) in
  let a := mkfloat3 (float3_x a) (float3_y a * scalar) (float3_z a) in
  mkfloat3 (float3_x a) (float3_y a) (float3_z a * scalar).

Definition float3_dot (a v : float3) : f32 :=
  (float3_x a * float3_x v) + (float3_y a * float3_y v)
  + (float3_z a * float3_z v).

Definition float3_cross (a v : float3) : float3 :=
  mkfloat3 ((float3_y a * float3_z v) - (float3_z a * float3_y v))
           ((float3_z a * float3_x v) - (float3_x a * float3_z v))
           ((float3_x a * float3_y v) - (float3_y a * float3_x v)).

Definition float3_sqrMagnitude (a : float3) : f32 :=
  (float3_x a * float3_x a) + (float3_y a * float3_y a)
  + (float3_z a * float3_z a).

(** [normalize()] updates the three fields in turn; [root] is computed
    before the first store. *)
Definition float3_normalize (a : float3) : float3 :=
  let mag := float3_sqrMagnitude a in
  let root := fisqrt mag in
  let a := mkfloat3 (float3_x a * root) (float3_y a) (float3_z a) in
  let a := mkfloat3 (float3_x a) (float3_y a * root) (float3_z a) in
  mkfloat3 (float3_x a) (float3_y a) (float3_z a * root).

Definition float3_normalized (a : float3) : float3 :=
  let mag := float3_sqrMagnitude a in
  let root := fisqrt mag in
  mkfloat3 (float3_x a * root) (float3_y a * root) (float3_z a * root).

Definition float3_zero : float3 := mkfloat3 f0 f0 f0.
Definition float3_up : float3 := mkfloat3 f0 f1 f0.

Definition float3_inverseLerp (a b c : float3) : f32 :=
  if float3_eq a b then f0
  else
    let ab := float3_sub b a in
    if float3_sqrMagnitude ab == f0 then f0
    else
      let ac := float3_sub c a in
      if float3_sqrMagnitude ac == f0 then f0
      else float3_dot ac ab / float3_dot ab ab.

(** ** float4 *)

Record float4 : Type :=
  mkfloat4 { float4_x : f32; float4_y : f32; float4_z : f32; float4_w : f32 }.

Definition float4_values (v : float4) (index : Z) : option f32 :=
  match index with
  | 0%Z => Some (float4_x v)
  | 1%Z => Some (float4_y v)
  | 2%Z => Some (float4_z v)
  | 3%Z => Some (float4_w v)
  | _ => None
  end.

Definition float4_eq (a other : float4) : bool :=
  (float4_x a == float4_x other) && (float4_y a == float4_y other)
  && (float4_z a == float4_z other) && (float4_w a == float4_w other).

Definition float4_index (v : float4) (index : Z) : option f32 :=
  let index := u8_of_u64 (clampi index 0 3) in
  float4_values v index.

(** [float3::operator float4()]: [float4(x, y, z)], the fourth argument
    of the constructor defaults to [0.0f]. *)
Definition float4_of_float3 (v : float3) : float4 :=
  mkfloat4 (float3_x v) (float3_y v) (float3_z v) f0.

(** [explicit float4::operator float3()] *)
Definition float3_of_float4 (v : float4) : float3 :=
  mkfloat3 (float4_x v) (float4_y v) (float4_z v).

Definition float4_sub (a b : float4) : float4 :=
  mkfloat4 (float4_x a - float4_x b) (float4_y a - float4_y b)
           (float4_z a - float4_z b) (float4_w a - float4_w b).

Definition float4_dot (a v : float4) : f32 :=
  (float4_x a * float4_x v) + (float4_y a * float4_y v)
  + (float4_z a * float4_z v) + (float4_w a * float4_w v).

Definition float4_sqrMagnitude (a : float4) : f32 :=
  (float4_x a * float4_x a) + (float4_y a * float4_y a)
  + (float4_z a * float4_z a) + (float4_w a * float4_w a).

Definition float4_inverseLerp (a b c : float4) : f32 :=
  if float4_eq a b then f0
  else
    let ab := float4_sub b a in
    if float4_sqrMagnitude ab == f0 then f0
    else
      let ac := float4_sub c a in
      if float4_sqrMagnitude ac == f0 then f0
      else float4_dot ac ab / float4_dot ab ab.

(** ** quaternion *)

Record quaternion : Type :=
  mkquaternion { quaternion_x : f32; quaternion_y : f32;
                 quaternion_z : f32; quaternion_w : f32 }.

(** [scalar] names the same storage as [w] in the union. *)
Definition quaternion_scalar (q : quaternion) : f32 := quaternion_w q.

Definition quaternion_set_x (q : quaternion) (v : f32) : quaternion :=
  mkquaternion v (quaternion_y q) (quaternion_z q) (quaternion_w q).
Definition quaternion_set_y (q : quaternion) (v : f32) : quaternion :=
  mkquaternion (quaternion_x q) v (quaternion_z q) (quaternion_w q).
Definition quaternion_set_z (q : quaternion) (v : f32) : quaternion :=
  mkquaternion (quaternion_x q) (quaternion_y q) v (quaternion_w q).
Definition quaternion_set_w (q : quaternion) (v : f32) : quaternion :=
  mkquaternion (quaternion_x q) (quaternion_y q) (quaternion_z q) v.

Definition quaternion_inversed (q : quaternion) : quaternion :=
  mkquaternion (- quaternion_x q) (- quaternion_y q) (- quaternion_z q)
               (quaternion_w q).

(** [operator *(quaternion)] *)
Definition quaternion_mul (this q : quaternion) : quaternion :=
  mkquaternion
    (quaternion_w this * quaternion_x q + quaternion_x this * quaternion_w q
     + quaternion_y this * quaternion_z q - quaternion_z this * quaternion_y q)
    (quaternion_w this * quaternion_y q + quaternion_y this * quaternion_w q
     + quaternion_z this * quaternion_x q - quaternion_x this * quaternion_z q)
    (quaternion_w this * quaternion_z q + quaternion_z this * quaternion_w q
     + quaternion_x this * quaternion_y q - quaternion_y this * quaternion_x q)
    (quaternion_w this * quaternion_w q - quaternion_x this * quaternion_x q
     - quaternion_y this * quaternion_y q - quaternion_z this * quaternion_z q).

(** [operator *=(quaternion)]: four assignments to the fields of [*this],
    each reading the object as the previous assignments left it. *)
Definition quaternion_mul_assign (this q : quaternion) : quaternion :=
  let this := quaternion_set_x this
    (quaternion_w this * quaternion_x q + quaternion_x this * quaternion_w q
     + quaternion_y this * quaternion_z q - quaternion_z this * quaternion_y q) in
  let this := quaternion_set_y this
    (quaternion_w this * quaternion_y q + quaternion_y this * quaternion_w q
     + quaternion_z this * quaternion_x q - quaternion_x this * quaternion_z q) in
  let this := quaternion_set_z this
    (quaternion_w this * quaternion_z q + quaternion_z this * quaternion_w q
     + quaternion_x this * quaternion_y q - quaternion_y this * quaternion_x q) in
  let this := quaternion_set_w this
    (quaternion_w this * quaternion_w q - quaternion_x this * quaternion_x q
     - quaternion_y this * quaternion_y q - quaternion_z this * quaternion_z q) in
  this.

(** [operator *(float3)] *)
Definition quaternion_rotate (q : quaternion) (v : float3) : float3 :=
  let x2 := quaternion_x q + quaternion_x q in
  let y2 := quaternion_y q + quaternion_y q in
  let z2 := quaternion_z q + quaternion_z q in
  let yy := quaternion_y q * y2 in
  let xy := quaternion_x q * y2 in
  let xz := quaternion_x q * z2 in
  let yz := quaternion_y q * z2 in
  let zz := quaternion_z q * z2 in
  let wz := quaternion_w q * z2 in
  let wy := quaternion_w q * y2 in
  let wx := quaternion_w q * x2 in
  let xx := quaternion_x q * x2 in
  mkfloat3
    ((f1 - yy - zz) * float3_x v + (xy - wz) * float3_y v + (xz + wy) * float3_z v)
    ((xy + wz) * float3_x v + (f1 - xx - zz) * float3_y v + (yz - wx) * float3_z v)
    ((xz - wy) * float3_x v + (yz + wx) * float3_y v + (f1 - xx - yy) * float3_z v).

Definition quaternion_sqrMagnitude (q : quaternion) : f32 :=
  quaternion_x q * quaternion_x q + quaternion_y q * quaternion_y q
  + quaternion_z q * quaternion_z q + quaternion_w q * quaternion_w q.

Definition quaternion_normalized (q : quaternion) : quaternion :=
  let mag := quaternion_sqrMagnitude q in
  let root := fisqrt mag in
  mkquaternion (quaternion_x q * root) (quaternion_y q * root)
               (quaternion_z q * root) (quaternion_w q * root).

Section Cmath_quaternion.

(** [std::acos], [std::asin] and [std::atan2] on [float]. *)
Variable acosf : f32 -> f32.
Variable asinf : f32 -> f32.
Variable atan2f : f32 -> f32 -> f32.

(** The two out-parameters are returned as a pair (angle, axis). *)
Definition quaternion_toAngleAxis (this : quaternion) : f32 * float3 :=
  let q := if quaternion_scalar this >? f1
           then quaternion_normalized this
           else this in
  let outAngle := f2 * acosf (quaternion_scalar q) in
  let s := fisqrt (f1 - quaternion_scalar q * quaternion_scalar q) in
  let outAxis := mkfloat3 (quaternion_x q) (quaternion_y q) (quaternion_z q) in
  if nearlyEqual s f0 f_milli then (outAngle, outAxis)
  else (outAngle, float3_mul_assign outAxis s).

Definition quaternion_toEulerAngles (q : quaternion) : float3 :=
  let x := quaternion_x q in
  let y := quaternion_y q in
  let z := quaternion_z q in
  let w := quaternion_w q in
  let result := mkfloat3 f0 f0 f0 in
  let xsc := f2 * (w * x + y * z) in
  let xcc := f1 - f2 * (x * x + y * y) in
  let result := mkfloat3 (atan2f xsc xcc) (float3_y result) (float3_z result) in
  let sin := f2 * (w * y - z * x) in
  let result :=
    if abs sin >=? f1
    then mkfloat3 (float3_x result) ((TAU / f4) * sign sin) (float3_z result)
    else mkfloat3 (float3_x result) (asinf sin) (float3_z result) in
  let zsc := f2 * (w * z + x * y) in
  let zcc := f1 - f2 * (y * y + z * z) in
  let result := mkfloat3 (float3_x result) (float3_y result) (atan2f zsc zcc) in
  result.

End Cmath_quaternion.

(** ** float4x4 *)

Record float4x4 : Type :=
  mkfloat4x4 { rows_a : float4; rows_b : float4; rows_c : float4; rows_d : float4 }.

(** [values[r][c]] of the union: row [r] of [rows], component [c];
    defined when both indices are inside the array. *)
Definition float4x4_row (m : float4x4) (r : Z) : option float4 :=
  match r with
  | 0%Z => Some (rows_a m)
  | 1%Z => Some (rows_b m)
  | 2%Z => Some (rows_c m)
  | 3%Z => Some (rows_d m)
  | _ => None
  end.

Definition float4x4_values (m : float4x4) (r c : Z) : option f32 :=
  match float4x4_row m r with
  | Some v => float4_values v c
  | None => None
  end.

(** [values[r][c] = x] *)
Definition float4_store (v : float4) (c : Z) (x : f32) : option float4 :=
  match c with
  | 0%Z => Some (mkfloat4 x (float4_y v) (float4_z v) (float4_w v))
  | 1%Z => Some (mkfloat4 (float4_x v) x (float4_z v) (float4_w v))
  | 2%Z => Some (mkfloat4 (float4_x v) (float4_y v) x (float4_w v))
  | 3%Z => Some (mkfloat4 (float4_x v) (float4_y v) (float4_z v) x)
  | _ => None
  end.

Definition float4x4_store (m : float4x4) (r c : Z) (x : f32) : option float4x4 :=
  match r with
  | 0%Z => option_map (fun v => mkfloat4x4 v (rows_b m) (rows_c m) (rows_d m))
                      (float4_store (rows_a m) c x)
  | 1%Z => option_map (fun v => mkfloat4x4 (rows_a m) v (rows_c m) (rows_d m))
                      (float4_store (rows_b m) c x)
  | 2%Z => option_map (fun v => mkfloat4x4 (rows_a m) (rows_b m) v (rows_d m))
                      (float4_store (rows_c m) c x)
  | 3%Z => option_map (fun v => mkfloat4x4 (rows_a m) (rows_b m) (rows_c m) v)
                      (float4_store (rows_d m) c x)
  | _ => None
  end.

(** Reads at constant indices, [values[i][j]] with [i], [j] literals. *)
Definition m00 (m : float4x4) : f32 := float4_x (rows_a m).
Definition m01 (m : float4x4) : f32 := float4_y (rows_a m).
Definition m02 (m : float4x4) : f32 := float4_z (rows_a m).
Definition m03 (m : float4x4) : f32 := float4_w (rows_a m).
Definition m10 (m : float4x4) : f32 := float4_x (rows_b m).
Definition m11 (m : float4x4) : f32 := float4_y (rows_b m).
Definition m12 (m : float4x4) : f32 := float4_z (rows_b m).
Definition m13 (m : float4x4) : f32 := float4_w (rows_b m).
Definition m20 (m : float4x4) : f32 := float4_x (rows_c m).
Definition m21 (m : float4x4) : f32 := float4_y (rows_c m).
Definition m22 (m : float4x4) : f32 := float4_z (rows_c m).
Definition m23 (m : float4x4) : f32 := float4_w (rows_c m).
Definition m30 (m : float4x4) : f32 := float4_x (rows_d m).
Definition m31 (m : float4x4) : f32 := float4_y (rows_d m).
Definition m32 (m : float4x4) : f32 := float4_z (rows_d m).
Definition m33 (m : float4x4) : f32 := float4_w (rows_d m).

Definition float4x4_getColumn (m : float4x4) (index : Z) : option float4 :=
  let index := u8_of_u64 (clampi index 0 3) in
  match float4x4_values m 0 index, float4x4_values m 1 index,
        float4x4_values m 2 index, float4x4_values m 3 index with
  | Some a, Some b, Some c, Some d => Some (mkfloat4 a b c d)
  | _, _, _, _ => None
  end.

Definition float4x4_setColumn (m : float4x4) (index : Z) (value : float4)
  : option float4x4 :=
  let index := u8_of_u64 (clampi index 0 3) in
  match float4x4_store m 0 index (float4_x value) with
  | None => None
  | Some m =>
  match float4x4_store m 1 index (float4_y value) with
  | None => None
  | Some m =>
  match float4x4_store m 2 index (float4_z value) with
  | None => None
  | Some m => float4x4_store m 3 index (float4_w value)
  end end end.

(** [operator *(float4)] *)
Definition float4x4_mul_float4 (m : float4x4) (v : float4) : float4 :=
  mkfloat4 (float4_dot (rows_a m) v) (float4_dot (rows_b m) v)
           (float4_dot (rows_c m) v) (float4_dot (rows_d m) v).

(** [operator *(float3)] *)
Definition float4x4_mul_float3 (m : float4x4) (v : float3) : float3 :=
  float3_of_float4
    (float4x4_mul_float4 m (mkfloat4 (float3_x v) (float3_y v) (float3_z v) f1)).

(** [rows.a.dot(v)] with [v] a [float3]: the argument is converted by
    [float3::operator float4()]. *)
Definition float4x4_perspectiveMul (m : float4x4) (v : float3) : float3 :=
  let result := mkfloat3 (float4_dot (rows_a m) (float4_of_float3 v))
                         (float4_dot (rows_b m) (float4_of_float3 v))
                         (float4_dot (rows_c m) (float4_of_float3 v)) in
  let w := float4_dot (rows_d m) (float4_of_float3 v) in
  let w := f1 / w in
  let result := mkfloat3 (float3_x result * w) (float3_y result) (float3_z result) in
  let result := mkfloat3 (float3_x result) (float3_y result * w) (float3_z result) in
  let result := mkfloat3 (float3_x result) (float3_y result) (float3_z result * w) in
  result.

Definition float4x4_fromRotation (q : quaternion) : float4x4 :=
  let x2 := quaternion_x q + quaternion_x q in
  let y2 := quaternion_y q + quaternion_y q in
  let z2 := quaternion_z q + quaternion_z q in
  let yy := quaternion_y q * y2 in
  let xy := quaternion_x q * y2 in
  let xz := quaternion_x q * z2 in
  let yz := quaternion_y q * z2 in
  let zz := quaternion_z q * z2 in
  let wz := quaternion_w q * z2 in
  let wy := quaternion_w q * y2 in
  let wx := quaternion_w q * x2 in
  let xx := quaternion_x q * x2 in
  mkfloat4x4
    (mkfloat4 (f1 - yy - zz) (xy - wz) (xz + wy) f0)
    (mkfloat4 (xy + wz) (f1 - xx - zz) (yz - wx) f0)
    (mkfloat4 (xz - wy) (yz + wx) (f1 - xx - yy) f0)
    (mkfloat4 f0 f0 f0 f1).

Definition float4x4_transposed (m : float4x4) : float4x4 :=
  mkfloat4x4
    (mkfloat4 (m00 m) (m10 m) (m20 m) (m30 m))
    (mkfloat4 (m01 m) (m11 m) (m21 m) (m31 m))
    (mkfloat4 (m02 m) (m12 m) (m22 m) (m32 m))
    (mkfloat4 (m03 m) (m13 m) (m23 m) (m33 m)).

Section Cmath_float4x4.

(** [std::tan] on [float]. *)
Variable tanf : f32 -> f32.

Definition float4x4_perspectiveGL (fov aspectRatio near far : f32) : float4x4 :=
  let tangent := tanf (fov * f_half) in
  let yScale := f1 / tangent in
  let xScale := yScale / aspectRatio in
  let a := - (far + near) / (far - near) in
  let h := (f2 * far * near) / (far - near) in
  mkfloat4x4
    (mkfloat4 xScale f0 f0 f0)
    (mkfloat4 f0 yScale f0 f0)
    (mkfloat4 f0 f0 a f1)
    (mkfloat4 f0 f0 h f0).

End Cmath_float4x4.

Definition float4x4_orthoGL (left right bottom top near far : f32) : float4x4 :=
  mkfloat4x4
    (mkfloat4 (f2 / (right - left)) f0 f0 f0)
    (mkfloat4 f0 (f2 / (top - bottom)) f0 f0)
    (mkfloat4 f0 f0 (- f2 / (far - near)) f0)
    (mkfloat4 (- (right + left) / (right - left))
              (- (top + bottom) / (top - bottom))
              (- (far + near) / (far - near))
              f0).

Definition float4x4_orthoDX (width height near far : f32) : float4x4 :=
  let range := f1 / (far - near) in
  mkfloat4x4
    (mkfloat4 (f2 / width) f0 f0 f0)
    (mkfloat4 f0 (f2 / height) f0 f0)
    (mkfloat4 f0 f0 range f0)
    (mkfloat4 f0 f0 (- range * near) f1).

Definition float4x4_toRotation (m : float4x4) : quaternion :=
  let trace := m00 m + m11 m + m22 m in
  if trace >? f0 then
    let root := fisqrt (trace + f1) * f_half in
    mkquaternion ((m12 m - m21 m) * root)
                 ((m20 m - m02 m) * root)
                 ((m01 m - m10 m) * root)
                 (root * (trace + f1))
  else if (m00 m >? m11 m) && (m00 m >? m22 m) then
    let trace1 := m00 m - m11 m - m22 m + f1 in
    let root := fisqrt trace1 * f_half in
    mkquaternion (root * trace1)
                 ((m01 m + m10 m) * root)
                 ((m20 m + m02 m) * root)
                 ((m12 m - m21 m) * root)
  else if m11 m >? m22 m then
    let trace1 := - m00 m + m11 m - m22 m + f1 in
    let root := fisqrt trace1 * f_half in
    mkquaternion ((m01 m + m10 m) * root)
                 (root * trace1)
                 ((m12 m + m21 m) * root)
                 ((m20 m - m02 m) * root)
  else
    let trace1 := - m00 m - m11 m + m22 m + f1 in
    let root := fisqrt trace1 * f_half in
    mkquaternion ((m20 m + m02 m) * root)
                 ((m12 m + m21 m) * root)
                 (root * trace1)
                 ((m01 m - m10 m) * root).

Definition float4x4_lookAt (point eye up : float3) : float4x4 :=
  let up := float3_normalize up in
  let zaxis := float3_normalized (float3_sub point eye) in
  let xaxis := float3_normalized (float3_cross up zaxis) in
  let yaxis := float3_cross zaxis xaxis in
  let w := mkfloat4 (- float3_dot xaxis eye) (- float3_dot yaxis eye)
                    (- float3_dot zaxis eye) f1 in
  mkfloat4x4 (float4_of_float3 xaxis) (float4_of_float3 yaxis)
             (float4_of_float3 zaxis) w.

Definition quaternion_lookRotation (point eye up : float3) : quaternion :=
  float4x4_toRotation (float4x4_lookAt point eye up).

(** ** Further functions of the header *)

(** *** Scalar helpers *)

Definition lerpClamped (a b t : f32) : f32 :=
  let t := clamp01 t in
  (f1 - t) * a + t * b.

Definition inverseLerpClamped (a b c : f32) : f32 :=
  if a == b then f0 else clamp01 ((c - a) / (b - a)).

Definition remap (inMin inMax outMin outMax c : f32) : f32 :=
  let t := inverseLerp inMin inMax c in
  lerp outMin outMax t.

(** [u32] arithmetic wraps modulo 2^32; [%] by zero has no result. *)
Definition u32_of (n : Z) : Z := (n mod 4294967296)%Z.

Definition wrap (n min max : Z) : option Z :=
  let range := u32_of (max - min + 1) in
  if (range =? 0)%Z then None
  else
    let n := (u32_of (n - min + 1) mod range)%Z in
    let n := u32_of (n + min) in
    Some n.

Definition wrapr (n min max : Z) : option Z :=
  let range := u32_of (max - min + 1) in
  if (range =? 0)%Z then None
  else
    let n := (u32_of ((u32_of (n - min) mod range) + range) mod range)%Z in
    let n := u32_of (n + min) in
    Some n.

(** *** float2, float3, float4 *)

Definition float2_add (a b : float2) : float2 :=
  mkfloat2 (float2_x a + float2_x b) (float2_y a + float2_y b).

(** [operator *(f32 scalar, float2 v)]: each component times the scalar. *)
Definition float2_scale (scalar : f32) (v : float2) : float2 :=
  mkfloat2 (float2_x v * scalar) (float2_y v * scalar).

Definition float2_det (a v : float2) : f32 :=
  (float2_x a * float2_x v) - (float2_y a * float2_y v).

Definition float2_normalize (a : float2) : float2 :=
  let mag := float2_sqrMagnitude a in
  let root := fisqrt mag in
  let a := mkfloat2 (float2_x a * root) (float2_y a) in
  mkfloat2 (float2_x a) (float2_y a * root).

(** [(1 - t) * a + t * b] on vectors. *)
Definition float2_lerp (a b : float2) (t : f32) : float2 :=
  float2_add (float2_scale (f1 - t) a) (float2_scale t b).

Definition float3_neg (a : float3) : float3 :=
  mkfloat3 (- float3_x a) (- float3_y a) (- float3_z a).

Definition float3_add (a b : float3) : float3 :=
  mkfloat3 (float3_x a + float3_x b) (float3_y a + float3_y b)
           (float3_z a + float3_z b).

Definition float3_scale (scalar : f32) (v : float3) : float3 :=
  mkfloat3 (float3_x v * scalar) (float3_y v * scalar) (float3_z v * scalar).

Definition float3_lerp (a b : float3) (t : f32) : float3 :=
  float3_add (float3_scale (f1 - t) a) (float3_scale t b).

Definition float4_add (a b : float4) : float4 :=
  mkfloat4 (float4_x a + float4_x b) (float4_y a + float4_y b)
           (float4_z a + float4_z b) (float4_w a + float4_w b).

Definition float4_scale (scalar : f32) (v : float4) : float4 :=
  mkfloat4 (float4_x v * scalar) (float4_y v * scalar)
           (float4_z v * scalar) (float4_w v * scalar).

Definition float4_lerp (a b : float4) (t : f32) : float4 :=
  float4_add (float4_scale (f1 - t) a) (float4_scale t b).

Definition float4_normalize (a : float4) : float4 :=
  let mag := float4_sqrMagnitude a in
  let root := fisqrt mag in
  let a := mkfloat4 (float4_x a * root) (float4_y a) (float4_z a) (float4_w a) in
  let a := mkfloat4 (float4_x a) (float4_y a * root) (float4_z a) (float4_w a) in
  let a := mkfloat4 (float4_x a) (float4_y a) (float4_z a * root) (float4_w a) in
  mkfloat4 (float4_x a) (float4_y a) (float4_z a) (float4_w a * root).

Definition float4_normalized (a : float4) : float4 :=
  let mag := float4_sqrMagnitude a in
  let root := fisqrt mag in
  mkfloat4 (float4_x a * root) (float4_y a * root)
           (float4_z a * root) (float4_w a * root).

(** *** quaternion *)

(** [inverse()]: [x *= -1; y *= -1; z *= -1], the integer [-1] converted
    to [-1.0f]. *)
Definition quaternion_inverse (q : quaternion) : quaternion :=
  let q := quaternion_set_x q (quaternion_x q * - f1) in
  let q := quaternion_set_y q (quaternion_y q * - f1) in
  let q := quaternion_set_z q (quaternion_z q * - f1) in
  q.

Definition quaternion_dot (this q : quaternion) : f32 :=
  quaternion_x this * quaternion_x q + quaternion_y this * quaternion_y q
  + quaternion_z this * quaternion_z q + quaternion_w this * quaternion_w q.

Definition quaternion_normalize (q : quaternion) : quaternion :=
  let mag := quaternion_sqrMagnitude q in
  let root := fisqrt mag in
  let q := quaternion_set_x q (quaternion_x q * root) in
  let q := quaternion_set_y q (quaternion_y q * root) in
  let q := quaternion_set_z q (quaternion_z q * root) in
  let q := quaternion_set_w q (quaternion_w q * root) in
  q.

(** *** float4x4 *)

(** [operator *(float4x4)]: the four columns of [m] are read with
    [getColumn] at the indices 0 to 3. *)
Definition float4x4_mul (this m : float4x4) : option float4x4 :=
  match float4x4_getColumn m 0, float4x4_getColumn m 1,
        float4x4_getColumn m 2, float4x4_getColumn m 3 with
  | Some ma, Some mb, Some mc, Some md =>
      Some (mkfloat4x4
              (mkfloat4 (float4_dot (rows_a this) ma) (float4_dot (rows_a this) mb)
                        (float4_dot (rows_a this) mc) (float4_dot (rows_a this) md))
              (mkfloat4 (float4_dot (rows_b this) ma) (float4_dot (rows_b this) mb)
                        (float4_dot (rows_b this) mc) (float4_dot (rows_b this) md))
              (mkfloat4 (float4_dot (rows_c this) ma) (float4_dot (rows_c this) mb)
                        (float4_dot (rows_c this) mc) (float4_dot (rows_c this) md))
              (mkfloat4 (float4_dot (rows_d this) ma) (float4_dot (rows_d this) mb)
                        (float4_dot (rows_d this) mc) (float4_dot (rows_d this) md)))
  | _, _, _, _ => None
  end.

(** One row of [operator *=]: [row = float4 { row.dot(m.getColumn(0)), ... }]. *)
Definition float4x4_row_times (row : float4) (m : float4x4) : option float4 :=
  match float4x4_getColumn m 0, float4x4_getColumn m 1,
        float4x4_getColumn m 2, float4x4_getColumn m 3 with
  | Some c0, Some c1, Some c2, Some c3 =>
      Some (mkfloat4 (float4_dot row c0) (float4_dot row c1)
                     (float4_dot row c2) (float4_dot row c3))
  | _, _, _, _ => None
  end.

(** [operator *=(float4x4)]: the four rows of [*this] are replaced in turn;
    [m] is a copy (passed by value). *)
Definition float4x4_mul_assign (this m : float4x4) : option float4x4 :=
  match float4x4_row_times (rows_a this) m with
  | None => None
  | Some a =>
      let this := mkfloat4x4 a (rows_b this) (rows_c this) (rows_d this) in
      match float4x4_row_times (rows_b this) m with
      | None => None
      | Some b =>
          let this := mkfloat4x4 (rows_a this) b (rows_c this) (rows_d this) in
          match float4x4_row_times (rows_c this) m with
          | None => None
          | Some c =>
              let this := mkfloat4x4 (rows_a this) (rows_b this) c (rows_d this) in
              match float4x4_row_times (rows_d this) m with
              | None => None
              | Some d =>
                  Some (mkfloat4x4 (rows_a this) (rows_b this) (rows_c this) d)
              end
          end
      end
  end.

(** [transpose()], in place: the four rows are copied first. *)
Definition float4x4_transpose (this : float4x4) : float4x4 :=
  let a := rows_a this in
  let b := rows_b this in
  let c := rows_c this in
  let d := rows_d this in
  let this := mkfloat4x4 (mkfloat4 (float4_x a) (float4_x b) (float4_x c) (float4_x d))
                         (rows_b this) (rows_c this) (rows_d this) in
  let this := mkfloat4x4 (rows_a this)
                         (mkfloat4 (float4_y a) (float4_y b) (float4_y c) (float4_y d))
                         (rows_c this) (rows_d this) in
  let this := mkfloat4x4 (rows_a this) (rows_b this)
                         (mkfloat4 (float4_z a) (float4_z b) (float4_z c) (float4_z d))
                         (rows_d this) in
  mkfloat4x4 (rows_a this) (rows_b this) (rows_c this)
             (mkfloat4 (float4_w a) (float4_w b) (float4_w c) (float4_w d)).

(** [static transpose(float4x4 m)] *)
Definition float4x4_transpose_of (m : float4x4) : float4x4 :=
  mkfloat4x4
    (mkfloat4 (m00 m) (m10 m) (m20 m) (m30 m))
    (mkfloat4 (m01 m) (m11 m) (m21 m) (m31 m))
    (mkfloat4 (m02 m) (m12 m) (m22 m) (m32 m))
    (mkfloat4 (m03 m) (m13 m) (m23 m) (m33 m)).

Definition float4x4_translation (m : float4x4) : float4x4 :=
  mkfloat4x4 (mkfloat4 f1 f0 f0 (m03 m)) (mkfloat4 f0 f1 f0 (m13 m))
             (mkfloat4 f0 f0 f1 (m23 m)) (mkfloat4 f0 f0 f0 f1).

(** [float4x4 { (float3) rows.a, (float3) rows.b, (float3) rows.c }]: each
    [float3] is converted back to a [float4] with [w = 0], the fourth row
    is the default (0, 0, 0, 1). *)
Definition float4x4_rotationAndScale (m : float4x4) : float4x4 :=
  mkfloat4x4 (float4_of_float3 (float3_of_float4 (rows_a m)))
             (float4_of_float3 (float3_of_float4 (rows_b m)))
             (float4_of_float3 (float3_of_float4 (rows_c m)))
             (mkfloat4 f0 f0 f0 f1).

Definition float4x4_scale (s : float3) : float4x4 :=
  mkfloat4x4 (mkfloat4 (float3_x s) f0 f0 f0) (mkfloat4 f0 (float3_y s) f0 f0)
             (mkfloat4 f0 f0 (float3_z s) f0) (mkfloat4 f0 f0 f0 f1).

Definition float4x4_translate (t : float3) : float4x4 :=
  mkfloat4x4 (mkfloat4 f1 f0 f0 (float3_x t)) (mkfloat4 f0 f1 f0 (float3_y t))
             (mkfloat4 f0 f0 f1 (float3_z t)) (mkfloat4 f0 f0 f0 f1).

(** *** Division of a vector and a scalar *)

(** [float2::operator /(f32 scalar)] *)
Definition float2_div (a : float2) (scalar : f32) : float2 :=
  mkfloat2 (float2_x a / scalar) (float2_y a / scalar).

(** [operator /(f32 scalar, float2 v)] *)
Definition float2_div_scalar_first (scalar : f32) (v : float2) : float2 :=
  mkfloat2 (float2_x v / scalar) (float2_y v / scalar).

Definition float3_div (a : float3) (scalar : f32) : float3 :=
  mkfloat3 (float3_x a / scalar) (float3_y a / scalar) (float3_z a / scalar).

Definition float3_div_scalar_first (scalar : f32) (v : float3) : float3 :=
  mkfloat3 (float3_x v / scalar) (float3_y v / scalar) (float3_z v / scalar).

Definition float4_div (a : float4) (scalar : f32) : float4 :=
  mkfloat4 (float4_x a / scalar) (float4_y a / scalar)
           (float4_z a / scalar) (float4_w a / scalar).

Definition float4_div_scalar_first (scalar : f32) (v : float4) : float4 :=
  mkfloat4 (float4_x v / scalar) (float4_y v / scalar)
           (float4_z v / scalar) (float4_w v / scalar).

(** ** Vocabulary of the properties *)

(** [x] is a finite float within [tol] of the rational [q]. *)
Definition f32_near (tol : Q) (x : f32) (q : Q) : bool :=
  F32.is_finite x && Qle_bool (Qabs (F32.to_Q x - q)) tol.

(** Two floats are finite and within [tol] of each other. *)
Definition f32_close (tol : Q) (x y : f32) : bool :=
  F32.is_finite x && F32.is_finite y
  && Qle_bool (Qabs (F32.to_Q x - F32.to_Q y)) tol.

Definition float4_close (tol : Q) (u v : float4) : bool :=
  f32_close tol (float4_x u) (float4_x v) && f32_close tol (float4_y u) (float4_y v)
  && f32_close tol (float4_z u) (float4_z v) && f32_close tol (float4_w u) (float4_w v).

Definition float4x4_close (tol : Q) (m n : float4x4) : bool :=
  float4_close tol (rows_a m) (rows_a n) && float4_close tol (rows_b m) (rows_b n)
  && float4_close tol (rows_c m) (rows_c n) && float4_close tol (rows_d m) (rows_d n).

Definition float4x4_identity : float4x4 :=
  mkfloat4x4 (mkfloat4 f1 f0 f0 f0) (mkfloat4 f0 f1 f0 f0)
             (mkfloat4 f0 f0 f1 f0) (mkfloat4 f0 f0 f0 f1).

Definition float2_finite (v : float2) : bool :=
  F32.is_finite (float2_x v) && F32.is_finite (float2_y v).
Definition float3_finite (v : float3) : bool :=
  F32.is_finite (float3_x v) && F32.is_finite (float3_y v)
  && F32.is_finite (float3_z v).
Definition float4_finite (v : float4) : bool :=
  F32.is_finite (float4_x v) && F32.is_finite (float4_y v)
  && F32.is_finite (float4_z v) && F32.is_finite (float4_w v).

(** A quarter turn, [TAU / 4] as a binary32 (1.5707964). *)
Definition quarter_turn : f32 := S754_finite false 13176795 (-23).

(** The three diagonal entries a rotation extraction can take as dominant. *)
Inductive axis : Type := AxisX | AxisY | AxisZ.

Definition diagonal (m : float4x4) (ax : axis) : f32 :=
  match ax with AxisX => m00 m | AxisY => m11 m | AxisZ => m22 m end.

(** The diagonal combination of an axis: its own entry minus the other two. *)
Definition diagonal_combination (m : float4x4) (ax : axis) : f32 :=
  match ax with
  | AxisX => m00 m - m11 m - m22 m
  | AxisY => - m00 m + m11 m - m22 m
  | AxisZ => - m00 m - m11 m + m22 m
  end.

(** The quaternion with dominant component [ax], in the words of the
    specification: [s = fisqrt(combination + 1) / 2] (a product with
    [0.5f]), the dominant component [s * (combination + 1)], the two other
    vector components from the symmetric off-diagonal sums, the scalar from
    the remaining off-diagonal difference. *)
Definition dominant_quaternion (m : float4x4) (ax : axis) : quaternion :=
  let t := diagonal_combination m ax + f1 in
  let s := fisqrt t * f_half in
  match ax with
  | AxisX => mkquaternion (s * t) ((m01 m + m10 m) * s) ((m20 m + m02 m) * s)
                          ((m12 m - m21 m) * s)
  | AxisY => mkquaternion ((m01 m + m10 m) * s) (s * t) ((m12 m + m21 m) * s)
                          ((m20 m - m02 m) * s)
  | AxisZ => mkquaternion ((m20 m + m02 m) * s) ((m12 m + m21 m) * s) (s * t)
                          ((m01 m - m10 m) * s)
  end.

(** The trace-positive case in the words of the specification. *)
Definition trace_quaternion (m : float4x4) : quaternion :=
  let trace := m00 m + m11 m + m22 m in
  let s := fisqrt (trace + f1) * f_half in
  mkquaternion ((m12 m - m21 m) * s) ((m20 m - m02 m) * s)
               ((m01 m - m10 m) * s) (s * (trace + f1)).

(** The view matrix in the words of the specification, from the three
    axes. *)
Definition view_matrix (right up forward eye : float3) : float4x4 :=
  mkfloat4x4 (float4_of_float3 right) (float4_of_float3 up)
             (float4_of_float3 forward)
             (mkfloat4 (- float3_dot right eye) (- float3_dot up eye)
                       (- float3_dot forward eye) f1).

(** Column [k] of a matrix, and a matrix with column [k] replaced (the
    columns are numbered 0 to 3; a larger [k] names the last one). *)
Definition float4x4_column (m : float4x4) (k : Z) : float4 :=
  match k with
  | 0%Z => mkfloat4 (m00 m) (m10 m) (m20 m) (m30 m)
  | 1%Z => mkfloat4 (m01 m) (m11 m) (m21 m) (m31 m)
  | 2%Z => mkfloat4 (m02 m) (m12 m) (m22 m) (m32 m)
  | _ => mkfloat4 (m03 m) (m13 m) (m23 m) (m33 m)
  end.

Definition float4_with (v : float4) (k : Z) (x : f32) : float4 :=
  match k with
  | 0%Z => mkfloat4 x (float4_y v) (float4_z v) (float4_w v)
  | 1%Z => mkfloat4 (float4_x v) x (float4_z v) (float4_w v)
  | 2%Z => mkfloat4 (float4_x v) (float4_y v) x (float4_w v)
  | _ => mkfloat4 (float4_x v) (float4_y v) (float4_z v) x
  end.

Definition float4x4_with_column (m : float4x4) (k : Z) (value : float4) : float4x4 :=
  mkfloat4x4 (float4_with (rows_a m) k (float4_x value))
             (float4_with (rows_b m) k (float4_y value))
             (float4_with (rows_c m) k (float4_z value))
             (float4_with (rows_d m) k (float4_w value)).

(** The pitch sine term of [toEulerAngles], [2.0f * (w * y - z * x)]. *)
Definition pitch_sine (q : quaternion) : f32 :=
  f2 * (quaternion_w q * quaternion_y q - quaternion_z q * quaternion_x q).

(** Sample inputs. *)

(** The rotation by a quarter turn about Z, as [fromRotation] lays a
    rotation out (rows applied to a column vector). *)
Definition rotation_z90 : float4x4 :=
  mkfloat4x4 (mkfloat4 f0 (- f1) f0 f0) (mkfloat4 f1 f0 f0 f0)
             (mkfloat4 f0 f0 f1 f0) (mkfloat4 f0 f0 f0 f1).

(** The rotation by a third of a turn about (1,1,1): x to y to z to x. *)
Definition rotation_cycle : float4x4 :=
  mkfloat4x4 (mkfloat4 f0 f0 f1 f0) (mkfloat4 f1 f0 f0 f0)
             (mkfloat4 f0 f1 f0 f0) (mkfloat4 f0 f0 f0 f1).

(** The rotations of the unit quaternions (0.8, 0.4, 0.4, 0.2) and
    (0.4, 0.8, 0.4, 0.2), whose largest diagonal entries are m00 and m11. *)
Definition rotation_x_dominant : float4x4 :=
  float4x4_fromRotation
    (mkquaternion (F32.of_decimal 8 1) (F32.of_decimal 4 1)
                  (F32.of_decimal 4 1) (F32.of_decimal 2 1)).

Definition rotation_y_dominant : float4x4 :=
  float4x4_fromRotation
    (mkquaternion (F32.of_decimal 4 1) (F32.of_decimal 8 1)
                  (F32.of_decimal 4 1) (F32.of_decimal 2 1)).

(** The half turn about X. *)
Definition rotation_x180 : float4x4 :=
  mkfloat4x4 (mkfloat4 f1 f0 f0 f0) (mkfloat4 f0 (- f1) f0 f0)
             (mkfloat4 f0 f0 (- f1) f0) (mkfloat4 f0 f0 f0 f1).

(** 2^-20 *)
Definition f_2pow_m20 : f32 := S754_finite false 8388608 (-43).
Definition f3 : f32 := S754_finite false 12582912 (-22).   (* 3.0f *)

(** ** Vocabulary of the error analysis of [fisqrt] *)

Local Close Scope f32_scope.
Local Open Scope Z_scope.

(** The state of [shr] after [n] shifts of the integer [M]: the mantissa
    is the quotient by [2^n], the round bit tells whether the remainder is
    at least half, the sticky bit whether the rest of it is not zero. *)
Definition shr_inv (M n : Z) (mrs : shr_record) : Prop :=
  0 <= shr_m mrs
  /\ exists rem,
      M = shr_m mrs * 2 ^ n + rem
      /\ 0 <= rem < 2 ^ n
      /\ (shr_r mrs = true <-> 2 ^ n <= 2 * rem)
      /\ (shr_s mrs = false -> 2 * rem = 0 \/ 2 * rem = 2 ^ n).

Local Open Scope Q_scope.

Definition pow2 (z : Z) : Q := 2 ^ z.

(** The unit roundoff of binary32. *)
Definition f32_eps : Q := 1 # 16777216.

(** A positive normal number: a positive finite float with a mantissa of
    24 digits. *)
Definition pos_normal (x : f32) : Prop :=
  exists (m : positive) (e : Z),
    x = S754_finite false m e /\ (2 ^ 23 <= Zpos m < 2 ^ 24)%Z.

Local Close Scope Q_scope.

(** The seed of [fisqrt]: [conv.f] after [conv.i = 0x5F1FFFF9ul - (conv.i >> 1)]. *)
Definition fisqrt_seed (n : f32) : f32 :=
  F32.of_bits ((1595932665 - Z.shiftr (F32.to_bits n) 1) mod 4294967296).

(** The integer whose bits are the seed of a normal number. *)
Definition seed_bits (m : positive) (e : Z) : Z :=
  1595932665 - ((e + 150) * 2 ^ 23 + (Zpos m - 2 ^ 23)) / 2.

Local Open Scope Q_scope.

(** The value encoded by the bits of a positive normal number. *)
Definition bits_value (J : Z) : Q :=
  inject_Z (2 ^ 23 + J mod 2 ^ 23) * pow2 (J / 2 ^ 23 - 150).

(** [x] is a positive normal number whose value lies between [lo * 2^z]
    and [hi * 2^z]. *)
Definition encl (x : f32) (z : Z) (lo hi : Q) : Prop :=
  pos_normal x /\ lo * pow2 z <= F32.to_Q x /\ F32.to_Q x <= hi * pow2 z.

(** The check of one chunk of mantissas [ma .. mb] at the exponent [e0]:
    interval arithmetic on the five operations of [fisqrt], each widened
    by the unit roundoff. *)
Definition fisqrt_chunk_ok (delta : Q) (e0 : Z) (ma mb : positive) : bool :=
  let N1 := F32.to_Q (S754_finite false ma e0) in
  let N2 := F32.to_Q (S754_finite false mb e0) in
  let Y1 := F32.to_Q (fisqrt_seed (S754_finite false mb e0)) in
  let Y2 := F32.to_Q (fisqrt_seed (S754_finite false ma e0)) in
  let C1 := F32.to_Q fisqrt_c1 in
  let C2 := F32.to_Q fisqrt_c2 in
  let P1 := N1 * Y1 * (1 - f32_eps) in
  let P2 := N2 * Y2 * (1 + f32_eps) in
  let T1 := P1 * Y1 * (1 - f32_eps) in
  let T2 := P2 * Y2 * (1 + f32_eps) in
  let U1 := (C2 - T2) * (1 - f32_eps) in
  let U2 := (C2 - T1) * (1 + f32_eps) in
  let V1 := C1 * U1 * (1 - f32_eps) in
  let V2 := C1 * U2 * (1 + f32_eps) in
  let R1 := Y1 * V1 * (1 - f32_eps) in
  let R2 := Y2 * V2 * (1 + f32_eps) in
  Qle_bool (1 # 8) N1 && Qle_bool (1 # 8) Y1
  && Qle_bool (1 # 8) (N1 * Y1) && Qle_bool (N2 * Y2) 8
  && Qle_bool (1 # 8) P1
  && Qle_bool (1 # 8) (P1 * Y1) && Qle_bool (P2 * Y2) 8
  && Qle_bool (1 # 8) (C2 - T2) && Qle_bool (C2 - T1) 8
  && Qle_bool (1 # 8) U1
  && Qle_bool (1 # 8) (C1 * U1) && Qle_bool (C1 * U2) 8
  && Qle_bool (1 # 8) V1
  && Qle_bool (1 # 8) (Y1 * V1) && Qle_bool (Y2 * V2) 8
  && Qle_bool 0 R1
  && Qle_bool ((1 - delta) * (1 - delta)) (R1 * R1 * N1)
  && Qle_bool (R2 * R2 * N2) ((1 + delta) * (1 + delta)).

(** The bound proved on the relative error of [fisqrt]. *)
Definition fisqrt_delta : Q := 17 # 10000.

(** The check of [count] consecutive chunks of 8192 mantissas from [ma]. *)
Fixpoint fisqrt_chunks_ok (e0 : Z) (count : nat) (ma : positive) : bool :=
  match count with
  | O => true
  | S c => fisqrt_chunk_ok fisqrt_delta e0 ma (ma + 8191)
           && fisqrt_chunks_ok e0 c (ma + 8192)
  end.

(** A positive normal binary32: sign 0, a mantissa of 24 digits and an
    exponent of the normal range (values from 2^-126 up to, not including,
    2^128). *)
Definition is_pos_normal (x : f32) : bool :=
  match x with
  | S754_finite false m e =>
      (8388608 <=? Zpos m)%Z && (Zpos m <? 16777216)%Z
      && (-149 <=? e)%Z && (e <=? 104)%Z
  | _ => false
  end.

Local Close Scope Q_scope.

(** The value of a finite float as a real number. *)
Definition to_R (x : f32) : R := Q2R (F32.to_Q x).

(** ** Vocabulary of the further properties *)

(** The default quaternion, [quaternion()]: the identity rotation. *)
Definition quaternion_default : quaternion := mkquaternion f0 f0 f0 f1.

(** Two floats are the same, up to the sign of a zero. *)
Definition f32_same (x y : f32) : Prop :=
  x = y \/ (F32.is_zero x = true /\ F32.is_zero y = true).

Definition float3_same (u v : float3) : Prop :=
  f32_same (float3_x u) (float3_x v) /\ f32_same (float3_y u) (float3_y v)
  /\ f32_same (float3_z u) (float3_z v).

Definition float4_same (u v : float4) : Prop :=
  f32_same (float4_x u) (float4_x v) /\ f32_same (float4_y u) (float4_y v)
  /\ f32_same (float4_z u) (float4_z v) /\ f32_same (float4_w u) (float4_w v).

Definition quaternion_same (p q : quaternion) : Prop :=
  f32_same (quaternion_x p) (quaternion_x q)
  /\ f32_same (quaternion_y p) (quaternion_y q)
  /\ f32_same (quaternion_z p) (quaternion_z q)
  /\ f32_same (quaternion_w p) (quaternion_w q).

Definition float4x4_same (m n : float4x4) : Prop :=
  float4_same (rows_a m) (rows_a n) /\ float4_same (rows_b m) (rows_b n)
  /\ float4_same (rows_c m) (rows_c n) /\ float4_same (rows_d m) (rows_d n).

(** Every component is a valid binary32 that is not an infinity or a NaN. *)
Definition f32_regular (x : f32) : bool := F32.valid x && F32.is_finite x.

Definition float3_regular (v : float3) : bool :=
  f32_regular (float3_x v) && f32_regular (float3_y v)
  && f32_regular (float3_z v).

Definition float4_regular (v : float4) : bool :=
  f32_regular (float4_x v) && f32_regular (float4_y v)
  && f32_regular (float4_z v) && f32_regular (float4_w v).

Definition quaternion_regular (q : quaternion) : bool :=
  f32_regular (quaternion_x q) && f32_regular (quaternion_y q)
  && f32_regular (quaternion_z q) && f32_regular (quaternion_w q).

Definition float4x4_regular (m : float4x4) : bool :=
  float4_regular (rows_a m) && float4_regular (rows_b m)
  && float4_regular (rows_c m) && float4_regular (rows_d m).

(** A component that [normalize] handles without overflow or underflow:
    a zero, or a normal number of magnitude between 2^-60 and 2^61. *)
Definition f32_moderate (x : f32) : bool :=
  match x with
  | S754_zero _ => true
  | S754_finite _ m e =>
      (8388608 <=? Zpos m) && (Zpos m <? 16777216) && (-83 <=? e) && (e <=? 37)
  | _ => false
  end.

Local Open Scope Q_scope.

(** [s] approximates the non-negative rational [X] from a sum of squares:
    both are zero, or [s] is a positive normal number between [X * lo] and
    [X * hi]. *)
Definition approx (lo hi : Q) (s : f32) (X : Q) : Prop :=
  (s = S754_zero false /\ X == 0)
  \/ (pos_normal s /\ pow2 (-120) <= X
      /\ X * lo <= F32.to_Q s /\ F32.to_Q s <= X * hi).

Local Close Scope Q_scope.

Definition float2_is_zero (v : float2) : bool :=
  F32.is_zero (float2_x v) && F32.is_zero (float2_y v).
Definition float3_is_zero (v : float3) : bool :=
  F32.is_zero (float3_x v) && F32.is_zero (float3_y v)
  && F32.is_zero (float3_z v).
Definition float4_is_zero (v : float4) : bool :=
  F32.is_zero (float4_x v) && F32.is_zero (float4_y v)
  && F32.is_zero (float4_z v) && F32.is_zero (float4_w v).
Definition quaternion_is_zero (q : quaternion) : bool :=
  F32.is_zero (quaternion_x q) && F32.is_zero (quaternion_y q)
  && F32.is_zero (quaternion_z q) && F32.is_zero (quaternion_w q).

Definition float2_moderate (v : float2) : bool :=
  f32_moderate (float2_x v) && f32_moderate (float2_y v).
Definition float3_moderate (v : float3) : bool :=
  f32_moderate (float3_x v) && f32_moderate (float3_y v)
  && f32_moderate (float3_z v).
Definition float4_moderate (v : float4) : bool :=
  f32_moderate (float4_x v) && f32_moderate (float4_y v)
  && f32_moderate (float4_z v) && f32_moderate (float4_w v).
Definition quaternion_moderate (q : quaternion) : bool :=
  f32_moderate (quaternion_x q) && f32_moderate (quaternion_y q)
  && f32_moderate (quaternion_z q) && f32_moderate (quaternion_w q).

(** The Euclidean length of a vector of finite floats, as a real number. *)
Definition float2_length (v : float2) : R :=
  sqrt (to_R (float2_x v) * to_R (float2_x v)
        + to_R (float2_y v) * to_R (float2_y v)).
Definition float3_length (v : float3) : R :=
  sqrt (to_R (float3_x v) * to_R (float3_x v)
        + to_R (float3_y v) * to_R (float3_y v)
        + to_R (float3_z v) * to_R (float3_z v)).
Definition float4_length (v : float4) : R :=
  sqrt (to_R (float4_x v) * to_R (float4_x v)
        + to_R (float4_y v) * to_R (float4_y v)
        + to_R (float4_z v) * to_R (float4_z v)
        + to_R (float4_w v) * to_R (float4_w v)).
Definition quaternion_length (q : quaternion) : R :=
  sqrt (to_R (quaternion_x q) * to_R (quaternion_x q)
        + to_R (quaternion_y q) * to_R (quaternion_y q)
        + to_R (quaternion_z q) * to_R (quaternion_z q)
        + to_R (quaternion_w q) * to_R (quaternion_w q)).

(** [u] is [v] scaled by [rho], up to one rounding. *)
Definition f32_scaled (rho : Q) (u v : f32) : Prop :=
  F32.is_finite u = true
  /\ (Qabs (F32.to_Q u - rho * F32.to_Q v)
      <= f32_eps * rho * Qabs (F32.to_Q v))%Q.

Local Open Scope Q_scope.

Definition lo4 : Q :=
  (1 - f32_eps) * (1 - f32_eps) * (1 - f32_eps) * (1 - f32_eps).
Definition hi4 : Q :=
  (1 + f32_eps) * (1 + f32_eps) * (1 + f32_eps) * (1 + f32_eps).

Local Close Scope Q_scope.

Local Open Scope Q_scope.

(** A valid finite float of magnitude at most [B]. *)
Definition f32_within (B : Q) (x : f32) : bool :=
  f32_regular x && Qle_bool (Qabs (F32.to_Q x)) B.
Definition float3_within (B : Q) (v : float3) : bool :=
  f32_within B (float3_x v) && f32_within B (float3_y v)
  && f32_within B (float3_z v).

(** The inner product of the values of two vectors of finite floats, and
    the squared length of one, as rational numbers (no rounding). *)
Definition float3_inner (u v : float3) : Q :=
  F32.to_Q (float3_x u) * F32.to_Q (float3_x v)
  + F32.to_Q (float3_y u) * F32.to_Q (float3_y v)
  + F32.to_Q (float3_z u) * F32.to_Q (float3_z v).
Definition float3_length2 (v : float3) : Q := float3_inner v v.

(** A vector of three rational numbers, with the exact operations; the
    cross product follows the layout of [float3::cross]. *)
Record qvec : Type := mkqvec { qx : Q; qy : Q; qz : Q }.

Definition float3_value (v : float3) : qvec :=
  mkqvec (F32.to_Q (float3_x v)) (F32.to_Q (float3_y v))
         (F32.to_Q (float3_z v)).
Definition qvec_sub (a b : qvec) : qvec :=
  mkqvec (qx a - qx b) (qy a - qy b) (qz a - qz b).
Definition qvec_scale (r : Q) (a : qvec) : qvec :=
  mkqvec (r * qx a) (r * qy a) (r * qz a).
Definition qvec_cross (a b : qvec) : qvec :=
  mkqvec (qy a * qz b - qz a * qy b) (qz a * qx b - qx a * qz b)
         (qx a * qy b - qy a * qx b).
Definition qvec_length2 (a : qvec) : Q :=
  qx a * qx a + qy a * qy a + qz a * qz a.

(** Each component of the float vector [v] is within [tol] of the
    component of [q]. *)
Definition qvec_close (tol : Q) (v : float3) (q : qvec) : Prop :=
  Qabs (F32.to_Q (float3_x v) - qx q) <= tol
  /\ Qabs (F32.to_Q (float3_y v) - qy q) <= tol
  /\ Qabs (F32.to_Q (float3_z v) - qz q) <= tol.

(** The inputs of [lookAt] away from overflow, underflow and the degenerate
    directions, stated on the exact values of the inputs: the components of
    the three points are valid finite floats of magnitude at most [2^60],
    those of [eye] at most [B]; [up] has a squared length of at least
    [2^-100] and the exact difference [point - eye] of at least [2^-99];
    and the sine of the angle between [up] and [point - eye] is at least
    [2^-6] (about 0.9 degrees), as the squared length of their exact cross
    product against the product of their squared lengths. *)
Definition lookAt_well_posed (B : Q) (point eye up : float3) : bool :=
  let D := qvec_sub (float3_value point) (float3_value eye) in
  float3_within (pow2 60) point && float3_within B eye
  && Qle_bool B (pow2 60) && float3_within (pow2 60) up
  && Qle_bool (pow2 (-100)) (float3_length2 up)
  && Qle_bool (pow2 (-99)) (qvec_length2 D)
  && Qle_bool (pow2 (-12) * (float3_length2 up * qvec_length2 D))
       (qvec_length2 (qvec_cross (float3_value up) D)).

Local Close Scope Q_scope.

(** * Properties *)

(** ** Indexing ([operator []], [getColumn], [setColumn]) *)

Lemma clampi_min (idx hi : Z) :
  0 <= idx -> 0 <= hi -> clampi idx 0 hi = Z.min idx hi.
Proof.
  intros Hidx Hhi. unfold clampi.
  destruct (idx >? hi) eqn:Hgt.
  - apply Z.gtb_lt in Hgt. lia.
  - assert (idx <= hi) by (destruct (Z.gtb_spec idx hi); [discriminate | lia]).
    destruct (idx <? 0) eqn:Hlt.
    + apply Z.ltb_lt in Hlt. lia.
    + lia.
Qed.

Lemma clamped_index (idx hi : Z) :
  0 <= idx -> 0 <= hi < 256 -> u8_of_u64 (clampi idx 0 hi) = Z.min idx hi.
Proof.
  intros Hidx Hhi. rewrite clampi_min by lia.
  unfold u8_of_u64. apply Z.mod_small. lia.
Qed.

Lemma index_cases (idx : Z) :
  0 <= idx ->
  Z.min idx 3 = 0 \/ Z.min idx 3 = 1 \/ Z.min idx 3 = 2 \/ Z.min idx 3 = 3.
Proof. lia. Qed.

(** C10: for every index a [u8] can hold, [operator []] of [float2],
    [float3] and [float4] reads the component at the index clamped to
    0..1, 0..2 and 0..3, and [getColumn] / [setColumn] read and write the
    column at the index clamped to 0..3: every array access is inside its
    array (the result is [Some]), and an index past the end reaches the last
    component or column. *)
Theorem index_clamped_total (idx : Z) (Hidx : 0 <= idx < 256) :
  (forall v : float2,
      float2_index v idx = float2_values v (Z.min idx 1)
      /\ float2_index v idx = Some (if idx =? 0 then float2_x v else float2_y v))
  /\ (forall v : float3,
      float3_index v idx = float3_values v (Z.min idx 2)
      /\ float3_index v idx
         = Some (if idx =? 0 then float3_x v
                 else if idx =? 1 then float3_y v else float3_z v))
  /\ (forall v : float4,
      float4_index v idx = float4_values v (Z.min idx 3)
      /\ float4_index v idx
         = Some (if idx =? 0 then float4_x v
                 else if idx =? 1 then float4_y v
                 else if idx =? 2 then float4_z v else float4_w v))
  /\ (forall m : float4x4,
      float4x4_getColumn m idx = Some (float4x4_column m (Z.min idx 3)))
  /\ (forall (m : float4x4) (value : float4),
      float4x4_setColumn m idx value
      = Some (float4x4_with_column m (Z.min idx 3) value)).
Proof.
  repeat split; intros.
  - unfold float2_index. now rewrite clamped_index by lia.
  - unfold float2_index. rewrite clamped_index by lia.
    assert (H : Z.min idx 1 = 0 /\ idx = 0 \/ Z.min idx 1 = 1 /\ idx <> 0) by lia.
    destruct H as [[-> ->] | [-> H]]; [reflexivity |].
    apply Z.eqb_neq in H. now rewrite H.
  - unfold float3_index. now rewrite clamped_index by lia.
  - unfold float3_index. rewrite clamped_index by lia.
    assert (H : Z.min idx 2 = 0 /\ idx = 0 \/ Z.min idx 2 = 1 /\ idx = 1
                \/ Z.min idx 2 = 2 /\ idx <> 0 /\ idx <> 1) by lia.
    destruct H as [[-> ->] | [[-> ->] | [-> [H0 H1]]]]; try reflexivity.
    apply Z.eqb_neq in H0, H1. now rewrite H0, H1.
  - unfold float4_index. now rewrite clamped_index by lia.
  - unfold float4_index. rewrite clamped_index by lia.
    assert (H : Z.min idx 3 = 0 /\ idx = 0 \/ Z.min idx 3 = 1 /\ idx = 1
                \/ Z.min idx 3 = 2 /\ idx = 2
                \/ Z.min idx 3 = 3 /\ idx <> 0 /\ idx <> 1 /\ idx <> 2) by lia.
    destruct H as [[-> ->] | [[-> ->] | [[-> ->] | [-> [H0 [H1 H2]]]]]];
      try reflexivity.
    apply Z.eqb_neq in H0, H1, H2. now rewrite H0, H1, H2.
  - unfold float4x4_getColumn. rewrite clamped_index by lia.
    destruct (index_cases idx) as [E | [E | [E | E]]]; [lia | rewrite E ..];
      reflexivity.
  - unfold float4x4_setColumn. rewrite clamped_index by lia.
    destruct (index_cases idx) as [E | [E | [E | E]]]; [lia | rewrite E ..];
      reflexivity.
Qed.

(** The index 200 is out of range for every type: it reaches the last
    component and the last column. *)
Lemma index_clamped_total_witness :
  float2_index (mkfloat2 f1 f2) 200 = Some f2
  /\ float4x4_getColumn float4x4_identity 200 = Some (mkfloat4 f0 f0 f0 f1).
Proof.
  assert (H : 0 <= 200 < 256) by lia.
  destruct (index_clamped_total 200 H) as (H2 & _ & _ & Hget & _).
  split.
  - exact (proj2 (H2 (mkfloat2 f1 f2))).
  - exact (Hget float4x4_identity).
Defined.

(** ** Quaternion product: [operator *] against [operator *=] *)

(** The first assignment of [operator *=] computes the same [x] as
    [operator *]; the later ones read the [x] (then [y], then [z]) already
    overwritten. *)
Lemma quaternion_mul_assign_x (p q : quaternion) :
  quaternion_x (quaternion_mul_assign p q) = quaternion_x (quaternion_mul p q).
Proof. reflexivity. Qed.

Lemma quaternion_mul_assign_y (p q : quaternion) :
  quaternion_y (quaternion_mul_assign p q)
  = F32.sub (F32.add (F32.add (F32.mul (quaternion_w p) (quaternion_y q))
                              (F32.mul (quaternion_y p) (quaternion_w q)))
                     (F32.mul (quaternion_z p) (quaternion_x q)))
            (F32.mul (quaternion_x (quaternion_mul p q)) (quaternion_z q)).
Proof. reflexivity. Qed.

(** C5 (not met by the code): for p = (1,0,0,0) and
    q = (0,0,1,0) the pure product [p * q] is (0,-1,0,0), while [p *= q]
    leaves p = (0,0,0,0): the assignment to [y] reads the [x] that the
    first assignment has already replaced. *)
Theorem quaternion_mul_assign_differs :
  let p := mkquaternion f1 f0 f0 f0 in
  let q := mkquaternion f0 f0 f1 f0 in
  quaternion_mul p q = mkquaternion f0 (F32.neg f1) f0 f0
  /\ quaternion_mul_assign p q = mkquaternion f0 f0 f0 f0
  /\ quaternion_mul_assign p q <> quaternion_mul p q.
Proof.
  cbv zeta. repeat split; try (vm_compute; reflexivity).
  vm_compute. discriminate.
Qed.

(** ** Euler angles: the pitch singularity *)

Lemma sign_cases (s : f32) :
  sign s = (if F32.geb s f0 then f1 else F32.neg f1).
Proof. reflexivity. Qed.

Lemma quarter_turn_signed (s : f32) :
  F32.mul (F32.div TAU f4) (sign s)
  = (if F32.geb s f0 then quarter_turn else F32.neg quarter_turn).
Proof. rewrite sign_cases. destruct (F32.geb s f0); vm_compute; reflexivity. Qed.

(** ** Comparisons of binary32 values *)

Lemma compare_cont_eq (m n : positive) :
  Pos.compare_cont Eq m n = Eq -> m = n.
Proof. apply Pos.compare_eq. Qed.

(** Equality to a finite float: both are zeros, or they are the same
    finite float. *)
Lemma eqb_finite_inv (x y : f32) :
  F32.is_finite x = true -> F32.eqb y x = true ->
  (F32.is_zero x = true /\ F32.is_zero y = true)
  \/ (exists s m e, x = S754_finite s m e /\ y = S754_finite s m e).
Proof.
  unfold F32.eqb, SFeqb.
  destruct x as [sx | sx | | sx mx ex], y as [sy | sy | | sy my ey];
    cbn; intros Hf H; try discriminate Hf; try (now left);
    try (destruct sx, sy; discriminate H).
  right. exists sx, mx, ex. split; [reflexivity |].
  destruct sy, sx; try discriminate H;
    destruct (Z.compare_spec ey ex) as [E | E | E]; try discriminate H;
    destruct (Pos.compare_cont Eq my mx) eqn:C; try discriminate H;
    apply compare_cont_eq in C; now subst.
Qed.

Lemma sub_self (s : bool) (m : positive) (e : Z) :
  F32.sub (S754_finite s m e) (S754_finite s m e) = S754_zero false.
Proof.
  unfold F32.sub, SFsub. now rewrite Z.sub_diag.
Qed.

Lemma sub_zero_zero (x y : f32) :
  F32.is_zero x = true -> F32.is_zero y = true ->
  F32.is_zero (F32.sub y x) = true.
Proof.
  destruct x as [sx | | |], y as [sy | | |]; try discriminate.
  now destruct sx, sy.
Qed.

(** Subtracting a finite float from one that compares equal gives a zero. *)
Lemma sub_eqb_zero (x y : f32) :
  F32.is_finite x = true -> F32.eqb y x = true ->
  F32.is_zero (F32.sub y x) = true.
Proof.
  intros Hf He.
  destruct (eqb_finite_inv x y Hf He) as [[Hx Hy] | (s & m & e & -> & ->)].
  - now apply sub_zero_zero.
  - now rewrite sub_self.
Qed.

Lemma mul_zero_zero (x y : f32) :
  F32.is_zero x = true -> F32.is_zero y = true ->
  F32.is_zero (F32.mul x y) = true.
Proof. destruct x, y; try discriminate; reflexivity. Qed.

Lemma add_zero_zero (x y : f32) :
  F32.is_zero x = true -> F32.is_zero y = true ->
  F32.is_zero (F32.add x y) = true.
Proof.
  destruct x as [sx | | |], y as [sy | | |]; try discriminate.
  now destruct sx, sy.
Qed.

Lemma zero_eqb_f0 (x : f32) : F32.is_zero x = true -> F32.eqb x f0 = true.
Proof. destruct x; try discriminate; reflexivity. Qed.

(** ** Inverse interpolation of vectors *)

Lemma float2_probe_at_first (a c : float2) :
  float2_finite a = true -> float2_eq c a = true ->
  F32.eqb (float2_sqrMagnitude (float2_sub c a)) f0 = true.
Proof.
  unfold float2_finite, float2_eq. intros Hf He.
  apply andb_prop in Hf as [Hx Hy]. apply andb_prop in He as [Ex Ey].
  apply zero_eqb_f0. unfold float2_sqrMagnitude, float2_sub; cbn.
  apply add_zero_zero; apply mul_zero_zero; now apply sub_eqb_zero.
Qed.

Lemma float3_probe_at_first (a c : float3) :
  float3_finite a = true -> float3_eq c a = true ->
  F32.eqb (float3_sqrMagnitude (float3_sub c a)) f0 = true.
Proof.
  unfold float3_finite, float3_eq. intros Hf He.
  apply andb_prop in Hf as [Hf Hz]. apply andb_prop in Hf as [Hx Hy].
  apply andb_prop in He as [He Ez]. apply andb_prop in He as [Ex Ey].
  apply zero_eqb_f0. unfold float3_sqrMagnitude, float3_sub; cbn.
  repeat apply add_zero_zero; apply mul_zero_zero; now apply sub_eqb_zero.
Qed.

Lemma float4_probe_at_first (a c : float4) :
  float4_finite a = true -> float4_eq c a = true ->
  F32.eqb (float4_sqrMagnitude (float4_sub c a)) f0 = true.
Proof.
  unfold float4_finite, float4_eq. intros Hf He.
  apply andb_prop in Hf as [Hf Hw]. apply andb_prop in Hf as [Hf Hz].
  apply andb_prop in Hf as [Hx Hy].
  apply andb_prop in He as [He Ew]. apply andb_prop in He as [He Ez].
  apply andb_prop in He as [Ex Ey].
  apply zero_eqb_f0. unfold float4_sqrMagnitude, float4_sub; cbn.
  repeat apply add_zero_zero; apply mul_zero_zero; now apply sub_eqb_zero.
Qed.

(** C6, as the code has it: the vector [inverseLerp] of [float2], [float3]
    and [float4] returns 0 when the two reference points compare equal, and
    when the probe compares equal to the first reference point (whose
    components are finite).  A probe at the second reference point is not
    among the degenerate inputs. *)
Theorem inverseLerp_degenerate :
  (forall a b c : float2,
      float2_eq a b = true \/ (float2_finite a = true /\ float2_eq c a = true) ->
      float2_inverseLerp a b c = f0)
  /\ (forall a b c : float3,
      float3_eq a b = true \/ (float3_finite a = true /\ float3_eq c a = true) ->
      float3_inverseLerp a b c = f0)
  /\ (forall a b c : float4,
      float4_eq a b = true \/ (float4_finite a = true /\ float4_eq c a = true) ->
      float4_inverseLerp a b c = f0).
Proof.
  repeat split; intros a b c [H | [Hf He]].
  - unfold float2_inverseLerp. now rewrite H.
  - unfold float2_inverseLerp.
    rewrite (float2_probe_at_first a c Hf He).
    destruct (float2_eq a b); [reflexivity |].
    now destruct (F32.eqb (float2_sqrMagnitude (float2_sub b a)) f0).
  - unfold float3_inverseLerp. now rewrite H.
  - unfold float3_inverseLerp.
    rewrite (float3_probe_at_first a c Hf He).
    destruct (float3_eq a b); [reflexivity |].
    now destruct (F32.eqb (float3_sqrMagnitude (float3_sub b a)) f0).
  - unfold float4_inverseLerp. now rewrite H.
  - unfold float4_inverseLerp.
    rewrite (float4_probe_at_first a c Hf He).
    destruct (float4_eq a b); [reflexivity |].
    now destruct (F32.eqb (float4_sqrMagnitude (float4_sub b a)) f0).
Qed.

(** The probe at the first reference point, a = c = (1, 2), b = (4, 1). *)
Lemma inverseLerp_degenerate_witness :
  float2_inverseLerp (mkfloat2 f1 f2) (mkfloat2 f4 f1) (mkfloat2 f1 f2) = f0.
Proof.
  apply (proj1 inverseLerp_degenerate). right. split; reflexivity.
Defined.

(** C6, as stated, fails: with a = (0,0) and b = c = (1,0) (and the same
    points padded with zeros in [float3] and [float4]) the probe coincides
    with the second endpoint and the result is 1, not 0. *)
Lemma inverseLerp_probe_at_second :
  float2_inverseLerp (mkfloat2 f0 f0) (mkfloat2 f1 f0) (mkfloat2 f1 f0) = f1
  /\ float3_inverseLerp (mkfloat3 f0 f0 f0) (mkfloat3 f1 f0 f0) (mkfloat3 f1 f0 f0) = f1
  /\ float4_inverseLerp (mkfloat4 f0 f0 f0 f0) (mkfloat4 f1 f0 f0 f0)
                        (mkfloat4 f1 f0 f0 f0) = f1
  /\ f1 <> f0.
Proof. repeat split; try (vm_compute; reflexivity). discriminate. Qed.

(** ** The order of binary32 values *)

(** A key that embeds the floats that are not NaN into triples of integers
    ordered lexicographically: the class (negative infinity, negative,
    zero, positive, positive infinity), then exponent and mantissa. *)
Definition order_key (x : f32) : Z * Z * Z :=
  match x with
  | S754_zero _ => (0, 0, 0)
  | S754_infinity s => (if s then -2 else 2, 0, 0)
  | S754_nan => (0, 0, 0)
  | S754_finite s m e =>
      if s then (-1, - e, - Zpos m) else (1, e, Zpos m)
  end.

Definition key_lt (k l : Z * Z * Z) : Prop :=
  let '(k1, k2, k3) := k in
  let '(l1, l2, l3) := l in
  k1 < l1 \/ (k1 = l1 /\ (k2 < l2 \/ (k2 = l2 /\ k3 < l3))).

Definition key_le (k l : Z * Z * Z) : Prop := key_lt k l \/ k = l.

Lemma compare_key (x y : f32) :
  F32.is_nan x = false -> F32.is_nan y = false ->
  exists c, SFcompare x y = Some c
    /\ (c = Lt <-> key_lt (order_key x) (order_key y))
    /\ (c = Gt <-> key_lt (order_key y) (order_key x))
    /\ (c = Eq <-> order_key x = order_key y).
Proof.
  destruct x as [sx | sx | | sx mx ex], y as [sy | sy | | sy my ey];
    try discriminate; intros _ _; cbn -[Z.compare];
    try (destruct sx); try (destruct sy);
    try (eexists; split; [reflexivity |];
         unfold key_lt; cbn; repeat split; intros H;
         try discriminate H; try reflexivity; try lia; try congruence;
         fail).
  - (* both negative *)
    change (Pos.compare_cont Eq mx my) with (Pos.compare mx my).
    destruct (Z.compare_spec ex ey) as [E | E | E];
      [destruct (Pos.compare_spec mx my) as [M | M | M] | |];
      (eexists; split; [reflexivity |]);
      unfold key_lt; cbn; repeat split; intros H;
      try discriminate H; try reflexivity; try lia;
      try (injection H; lia); try (f_equal; lia); try congruence.
  - (* both positive *)
    change (Pos.compare_cont Eq mx my) with (Pos.compare mx my).
    destruct (Z.compare_spec ex ey) as [E | E | E];
      [destruct (Pos.compare_spec mx my) as [M | M | M] | |];
      (eexists; split; [reflexivity |]);
      unfold key_lt; cbn; repeat split; intros H;
      try discriminate H; try reflexivity; try lia;
      try (injection H; lia); try (f_equal; lia); try congruence.
Qed.

Lemma gtb_key (x y : f32) :
  F32.is_nan x = false -> F32.is_nan y = false ->
  (F32.gtb x y = true <-> key_lt (order_key y) (order_key x)).
Proof.
  intros Hx Hy. destruct (compare_key x y Hx Hy) as (c & Hc & _ & Hgt & _).
  unfold F32.gtb. rewrite Hc. rewrite <- Hgt.
  destruct c; split; intros H; try discriminate H; reflexivity.
Qed.

Lemma leb_key (x y : f32) :
  F32.is_nan x = false -> F32.is_nan y = false ->
  (F32.leb x y = true <-> key_le (order_key x) (order_key y)).
Proof.
  intros Hx Hy. destruct (compare_key x y Hx Hy) as (c & Hc & Hlt & Hgt & Heq).
  unfold F32.leb, SFleb, key_le. rewrite Hc.
  destruct c; split; intros H; try reflexivity.
  - right. now apply Heq.
  - left. now apply Hlt.
  - discriminate H.
  - exfalso. assert (G : key_lt (order_key y) (order_key x)) by now apply Hgt.
    destruct H as [H | H].
    + revert H G. unfold key_lt.
      destruct (order_key x) as [[a1 a2] a3], (order_key y) as [[b1 b2] b3]. lia.
    + revert G. rewrite H. unfold key_lt.
      destruct (order_key y) as [[b1 b2] b3]. lia.
Qed.

Lemma key_not_lt_le (k l : Z * Z * Z) : ~ key_lt l k -> key_le k l.
Proof.
  unfold key_le, key_lt. destruct k as [[a1 a2] a3], l as [[b1 b2] b3].
  intros H.
  destruct (Z.eq_dec a1 b1) as [E1 | N1];
    [destruct (Z.eq_dec a2 b2) as [E2 | N2];
       [destruct (Z.eq_dec a3 b3) as [E3 | N3] | ] | ].
  - right. congruence.
  - left. lia.
  - left. lia.
  - left. lia.
Qed.

Lemma key_lt_le (k l : Z * Z * Z) : key_lt k l -> key_le k l.
Proof. now left. Qed.

Lemma key_le_lt_trans (k l n : Z * Z * Z) : key_le k l -> key_lt l n -> key_lt k n.
Proof.
  intros [H | ->]; [| trivial]. revert H. unfold key_lt.
  destruct k as [[a1 a2] a3], l as [[b1 b2] b3], n as [[c1 c2] c3]. lia.
Qed.

Lemma leb_refl (x : f32) : F32.is_nan x = false -> F32.leb x x = true.
Proof. intros H. apply leb_key; trivial. now right. Qed.

(** ** Rotation matrix to quaternion: the branch selection *)

(** The branch taken when the trace is not positive. *)
Lemma toRotation_dominant (m : float4x4) :
  F32.gtb (F32.add (F32.add (m00 m) (m11 m)) (m22 m)) f0 = false ->
  float4x4_toRotation m
  = dominant_quaternion m
      (if F32.gtb (m00 m) (m11 m) && F32.gtb (m00 m) (m22 m) then AxisX
       else if F32.gtb (m11 m) (m22 m) then AxisY else AxisZ).
Proof.
  intros H. unfold float4x4_toRotation. cbv zeta. rewrite H.
  destruct (F32.gtb (m00 m) (m11 m) && F32.gtb (m00 m) (m22 m));
    [reflexivity |].
  destruct (F32.gtb (m11 m) (m22 m)); reflexivity.
Qed.

(** The selected diagonal entry is at least the two others. *)
Lemma selected_axis_largest (m : float4x4) (ax' : axis) :
  F32.is_nan (m00 m) = false -> F32.is_nan (m11 m) = false ->
  F32.is_nan (m22 m) = false ->
  F32.leb (diagonal m ax')
          (diagonal m
             (if F32.gtb (m00 m) (m11 m) && F32.gtb (m00 m) (m22 m) then AxisX
              else if F32.gtb (m11 m) (m22 m) then AxisY else AxisZ))
  = true.
Proof.
  intros N0 N1 N2.
  pose proof (gtb_key (m00 m) (m11 m) N0 N1) as G01.
  pose proof (gtb_key (m00 m) (m22 m) N0 N2) as G02.
  pose proof (gtb_key (m11 m) (m22 m) N1 N2) as G12.
  destruct (F32.gtb (m00 m) (m11 m)) eqn:E01;
    destruct (F32.gtb (m00 m) (m22 m)) eqn:E02;
    destruct (F32.gtb (m11 m) (m22 m)) eqn:E12; cbn [andb];
    destruct ax'; cbn [diagonal];
    try (apply leb_refl; assumption);
    apply leb_key; trivial;
    repeat match goal with
           | H : true = true <-> _ |- _ => apply proj1 in H; specialize (H eq_refl)
           | H : false = true <-> ?P |- _ =>
               assert (~ P) by (intros K; apply H in K; discriminate K); clear H
           end;
    try (apply key_lt_le; assumption);
    try (apply key_not_lt_le; assumption).
  (* the two remaining combinations of comparisons are impossible *)
  all: exfalso; unfold key_lt in *;
    destruct (order_key (m00 m)) as [[a1 a2] a3],
             (order_key (m11 m)) as [[b1 b2] b3],
             (order_key (m22 m)) as [[c1 c2] c3]; lia.
Qed.

(** C3: [toRotation] computes the trace m00 + m11 + m22.  When the trace
    is positive the result is the trace-positive quaternion
    ([s = fisqrt(trace + 1) * 0.5], the vector part from the three
    off-diagonal differences times [s], [w = s * (trace + 1)]).  Otherwise
    the result is the quaternion of a dominant axis whose diagonal entry is
    at least the two others (when no diagonal entry is a NaN). *)
Theorem toRotation_branch_select (m : float4x4) :
  (F32.gtb (F32.add (F32.add (m00 m) (m11 m)) (m22 m)) f0 = true ->
     float4x4_toRotation m = trace_quaternion m)
  /\ (F32.gtb (F32.add (F32.add (m00 m) (m11 m)) (m22 m)) f0 = false ->
     exists ax : axis,
       float4x4_toRotation m = dominant_quaternion m ax
       /\ (F32.is_nan (m00 m) = false -> F32.is_nan (m11 m) = false ->
           F32.is_nan (m22 m) = false ->
           forall ax' : axis, F32.leb (diagonal m ax') (diagonal m ax) = true)).
Proof.
  split; intros H.
  - unfold float4x4_toRotation, trace_quaternion. cbv zeta. now rewrite H.
  - eexists. split.
    + now apply toRotation_dominant.
    + intros N0 N1 N2 ax'. now apply selected_axis_largest.
Qed.

(** The half turn about X has trace -1: its extraction is that of a
    dominant axis. *)
Lemma toRotation_branch_select_witness :
  exists ax : axis,
    float4x4_toRotation rotation_x180 = dominant_quaternion rotation_x180 ax
    /\ forall ax' : axis,
         F32.leb (diagonal rotation_x180 ax') (diagonal rotation_x180 ax) = true.
Proof.
  destruct (proj2 (toRotation_branch_select rotation_x180) eq_refl)
    as (ax & Hq & Hmax).
  exists ax. split; [exact Hq |].
  exact (Hmax eq_refl eq_refl eq_refl).
Defined.

(** ** Quaternion to angle and axis *)

Section AngleAxis.

Variable acosf : f32 -> f32.

(** What [toAngleAxis] returns when the scalar part is not above 1: the
    test that keeps the raw axis looks at [fisqrt(1 - w*w)] itself. *)
Lemma toAngleAxis_unnormalized (q : quaternion) :
  F32.gtb (quaternion_w q) f1 = false ->
  quaternion_toAngleAxis acosf q
  = (F32.mul f2 (acosf (quaternion_w q)),
     let s := fisqrt (F32.sub f1 (F32.mul (quaternion_w q) (quaternion_w q))) in
     let v := mkfloat3 (quaternion_x q) (quaternion_y q) (quaternion_z q) in
     if nearlyEqual s f0 f_milli then v else float3_mul_assign v s).
Proof.
  intros H. unfold quaternion_toAngleAxis, quaternion_scalar. cbv zeta.
  rewrite H. now destruct (nearlyEqual _ f0 f_milli).
Qed.

(** When the scalar part is above 1 the same is computed from the
    normalized quaternion. *)
Lemma toAngleAxis_normalizes (q : quaternion) :
  F32.gtb (quaternion_w q) f1 = true ->
  quaternion_toAngleAxis acosf q
  = (let n := quaternion_normalized q in
     (F32.mul f2 (acosf (quaternion_w n)),
      let s := fisqrt (F32.sub f1 (F32.mul (quaternion_w n) (quaternion_w n))) in
      let v := mkfloat3 (quaternion_x n) (quaternion_y n) (quaternion_z n) in
      if nearlyEqual s f0 f_milli then v else float3_mul_assign v s)).
Proof.
  intros H. unfold quaternion_toAngleAxis, quaternion_scalar. cbv zeta.
  rewrite H. now destruct (nearlyEqual _ f0 f_milli).
Qed.

(** C4 (not met by the code): for the quaternion
    (2^-20, 0, 0, 1), whose [1 - w*w] is exactly 0 (a rotation angle of 0),
    the axis is not left as the vector part (2^-20, 0, 0): [fisqrt(0)] is
    about 1.9e19, which is not within 0.001 of 0, so the axis is scaled by
    it to about (1.8e13, 0, 0). *)
Theorem toAngleAxis_zero_angle :
  let q := mkquaternion f_2pow_m20 f0 f0 f1 in
  F32.sub f1 (F32.mul (quaternion_w q) (quaternion_w q)) = f0
  /\ fisqrt f0 = S754_finite false 8818068 41
  /\ nearlyEqual (fisqrt f0) f0 f_milli = false
  /\ snd (quaternion_toAngleAxis acosf q)
     = mkfloat3 (S754_finite false 8818068 21) f0 f0
  /\ snd (quaternion_toAngleAxis acosf q) <> mkfloat3 f_2pow_m20 f0 f0.
Proof.
  cbv zeta. repeat split; try (vm_compute; reflexivity).
  vm_compute. discriminate.
Qed.

End AngleAxis.

(** ** Rotation matrix to quaternion and back *)

(** C1 (not met by the code): on a rotation of each of the four
    branches of [toRotation] (trace positive: a quarter turn about Z; m22
    taken as dominant: the cyclic permutation of the axes; m00 and m11
    dominant: the rotations of (0.8,0.4,0.4,0.2) and (0.4,0.8,0.4,0.2)),
    [fromRotation(toRotation(R))] is within 0.01 of the transpose of R in
    every entry, and not within 0.01 of R. *)
Theorem fromRotation_toRotation_transposes :
  Forall (fun R : float4x4 =>
            float4x4_close (1 # 100)
              (float4x4_fromRotation (float4x4_toRotation R))
              (float4x4_transposed R) = true
            /\ float4x4_close (1 # 100)
                 (float4x4_fromRotation (float4x4_toRotation R)) R = false)
         [rotation_z90; rotation_cycle; rotation_x_dominant; rotation_y_dominant]
  /\ F32.gtb (F32.add (F32.add (m00 rotation_z90) (m11 rotation_z90))
                      (m22 rotation_z90)) f0 = true
  /\ float4x4_toRotation rotation_cycle
     = dominant_quaternion rotation_cycle AxisZ
  /\ float4x4_toRotation rotation_x_dominant
     = dominant_quaternion rotation_x_dominant AxisX
  /\ float4x4_toRotation rotation_y_dominant
     = dominant_quaternion rotation_y_dominant AxisY.
Proof.
  split; [| repeat split; vm_compute; reflexivity].
  repeat constructor; vm_compute; reflexivity.
Qed.

(** The quarter turn about Z in detail: the quaternion extracted is
    (0, 0, -0.7075, 0.7075), the conjugate of the rotation's own
    (0, 0, 0.7071, 0.7071), and the entry m01 = -1 comes back as 1.001. *)
Lemma toRotation_z90 :
  float4x4_toRotation rotation_z90
  = mkquaternion f0 f0 (S754_finite true 11869370 (-24))
                 (S754_finite false 11869370 (-24))
  /\ m01 rotation_z90 = F32.neg f1
  /\ m01 (float4x4_fromRotation (float4x4_toRotation rotation_z90))
     = S754_finite false 8397218 (-23).
Proof. repeat split; vm_compute; reflexivity. Qed.

(** ** Projection matrices *)

Section Projection.

Variable tanf : f32 -> f32.

(** The depth that [perspectiveMul] computes from a [perspectiveGL]
    matrix: the third row gives [a * z], the fourth [h * z], whatever the
    field of view and the aspect ratio. *)
Lemma perspectiveGL_depth (fov aspectRatio near far : f32) (v : float3) :
  float3_z (float4x4_perspectiveMul
              (float4x4_perspectiveGL tanf fov aspectRatio near far) v)
  = let a := F32.div (F32.neg (F32.add far near)) (F32.sub far near) in
    let h := F32.div (F32.mul (F32.mul f2 far) near) (F32.sub far near) in
    let row v c := F32.add (F32.add (F32.add (F32.mul f0 (float3_x v))
                                             (F32.mul f0 (float3_y v)))
                                    (F32.mul c (float3_z v))) in
    F32.mul (row v a (F32.mul f1 f0))
            (F32.div f1 (row v h (F32.mul f0 f0))).
Proof. reflexivity. Qed.

(** C8 (not met by the code): with near = 1 and far = 3 the
    centre of the near plane, taken at z = 1 or at z = -1, is mapped by
    [perspectiveMul] of the [perspectiveGL] matrix to the depth -0.6667,
    not -1; with near = 1, far = 2 and the frustum [-1,1] x [-1,1] the
    [orthoGL] matrix maps it to the depth -2 (z = 1) or 2 (z = -1) under
    [operator *], and to 0.6667 under [perspectiveMul]. *)
Theorem projection_near_plane_depth (fov aspectRatio : f32) :
  let P := float4x4_perspectiveGL tanf fov aspectRatio f1 f3 in
  let O := float4x4_orthoGL (F32.neg f1) f1 (F32.neg f1) f1 f1 f2 in
  float3_z (float4x4_perspectiveMul P (mkfloat3 f0 f0 f1))
    = S754_finite true 11184811 (-24)
  /\ float3_z (float4x4_perspectiveMul P (mkfloat3 f0 f0 (F32.neg f1)))
    = S754_finite true 11184811 (-24)
  /\ float4x4_mul_float3 O (mkfloat3 f0 f0 f1) = mkfloat3 f0 f0 (F32.neg f2)
  /\ float4x4_mul_float3 O (mkfloat3 f0 f0 (F32.neg f1)) = mkfloat3 f0 f0 f2
  /\ float4x4_mul_float4 O (mkfloat4 f0 f0 f1 f1)
    = mkfloat4 f0 f0 (F32.neg f2) (F32.neg f3)
  /\ float3_z (float4x4_perspectiveMul O (mkfloat3 f0 f0 f1))
    = S754_finite false 11184811 (-24)
  /\ f32_near (1 # 1000) (S754_finite true 11184811 (-24)) (- 2 # 3) = true
  /\ F32.eqb (S754_finite true 11184811 (-24)) (F32.neg f1) = false
  /\ F32.eqb (F32.neg f2) (F32.neg f1) = false
  /\ F32.eqb f2 (F32.neg f1) = false.
Proof.
  cbv zeta. repeat split; vm_compute; reflexivity.
Qed.

End Projection.

(** * The accuracy of [fisqrt] *)

(** ** Rounding to binary32: what [binary_round_aux] computes *)

Lemma digits2_pos_size (p : positive) : digits2_pos p = Pos.size p.
Proof. induction p; cbn; now rewrite ?IHp. Qed.

Lemma digits2_bounds (p : positive) :
  2 ^ (Zpos (digits2_pos p) - 1) <= Zpos p < 2 ^ Zpos (digits2_pos p).
Proof.
  rewrite digits2_pos_size. split.
  - pose proof (Pos.size_le p) as H.
    assert (H' : 2 ^ Zpos (Pos.size p) <= 2 * Zpos p).
    { change (2 * Zpos p) with (Zpos p~0). rewrite <- Pos2Z.inj_pow. exact H. }
    replace (Zpos (Pos.size p)) with (Z.succ (Zpos (Pos.size p) - 1)) in H' by lia.
    rewrite Z.pow_succ_r in H' by lia. lia.
  - pose proof (Pos.size_gt p) as H.
    rewrite <- Pos2Z.inj_pow. exact H.
Qed.

Lemma digits2_unique (p : positive) (k : Z) :
  2 ^ (k - 1) <= Zpos p < 2 ^ k -> Zpos (digits2_pos p) = k.
Proof.
  intros [Hlo Hhi]. pose proof (digits2_bounds p) as [Dlo Dhi].
  set (d := Zpos (digits2_pos p)) in *.
  assert (0 < k).
  { destruct (Z.ltb_spec 0 k); trivial.
    exfalso. destruct (Z.eq_dec k 0) as [-> | N].
    - change (2 ^ 0) with 1 in Hhi. lia.
    - rewrite Z.pow_neg_r in Hhi by lia. lia. }
  destruct (Z.lt_trichotomy d k) as [L | [E | G]]; trivial; exfalso.
  - assert (2 ^ d <= 2 ^ (k - 1)) by (apply Z.pow_le_mono_r; lia). lia.
  - assert (2 ^ k <= 2 ^ (d - 1)) by (apply Z.pow_le_mono_r; lia). lia.
Qed.

Lemma shr_inv_start (M : Z) :
  0 <= M -> shr_inv M 0 (shr_record_of_loc M loc_Exact).
Proof.
  intros H. split; [exact H |]. exists 0. cbn. repeat split; try lia.
Qed.

Lemma shr_1_inv (M n : Z) (mrs : shr_record) :
  0 <= n -> shr_inv M n mrs -> shr_inv M (n + 1) (shr_1 mrs).
Proof.
  intros Hn [Hm (rem & HM & Hrem & Hr & Hs)].
  unfold shr_inv. rewrite Z.pow_add_r, Z.pow_1_r by lia.
  assert (HP : 0 < 2 ^ n) by (apply Z.pow_pos_nonneg; lia).
  set (P := 2 ^ n) in *.
  destruct mrs as [m r s]. cbn [shr_m shr_r shr_s] in *.
  assert (Hs' : orb r s = false -> rem = 0).
  { intros H. apply orb_false_elim in H as [-> ->].
    destruct (Hs eq_refl) as [E | E]; [lia |].
    exfalso. assert (false = true) by (apply Hr; lia). discriminate. }
  destruct m as [| p | p]; [| destruct p as [p | p |] | lia];
    unfold shr_1; cbv beta iota zeta; cbn [shr_m shr_r shr_s];
    (split; [lia |]);
    [exists rem | exists (P + rem) | exists rem | exists (P + rem)];
    repeat split; try lia; try (intros K; discriminate K);
    try (intros K; specialize (Hs' K); lia).
Qed.

Lemma iter_shr_inv (M : Z) (p : positive) :
  forall (n : Z) (mrs : shr_record),
    0 <= n -> shr_inv M n mrs ->
    shr_inv M (n + Zpos p) (iter_pos shr_1 p mrs).
Proof.
  induction p as [p IH | p IH |]; intros n mrs Hn H; cbn [iter_pos].
  - replace (n + Zpos p~1) with (n + 1 + Zpos p + Zpos p) by lia.
    apply IH; [lia |]. apply IH; [lia |]. now apply shr_1_inv.
  - replace (n + Zpos p~0) with (n + Zpos p + Zpos p) by lia.
    apply IH; [lia |]. now apply IH.
  - now apply shr_1_inv.
Qed.

(** Rounding the shifted state to nearest even moves the mantissa by at
    most half a unit of the last place kept. *)
Lemma round_nearest_even_inv (M n : Z) (mrs : shr_record) :
  0 <= n -> shr_inv M n mrs ->
  let q := round_nearest_even (shr_m mrs) (loc_of_shr_record mrs) in
  shr_m mrs <= q <= shr_m mrs + 1
  /\ 2 * Z.abs (q * 2 ^ n - M) <= 2 ^ n.
Proof.
  intros Hn [Hm (rem & HM & Hrem & Hr & Hs)].
  assert (HP : 0 < 2 ^ n) by (apply Z.pow_pos_nonneg; lia).
  set (P := 2 ^ n) in *.
  destruct mrs as [m r s]. cbn [shr_m shr_r shr_s] in *.
  destruct r, s; unfold loc_of_shr_record, round_nearest_even;
    cbv beta iota zeta.
  - assert (P <= 2 * rem) by now apply Hr. split; [lia | nia].
  - assert (P <= 2 * rem) by now apply Hr.
    destruct (Hs eq_refl) as [E | E]; [lia |].
    destruct (Z.even m); split; try lia; nia.
  - assert (~ P <= 2 * rem) by (intros K; apply Hr in K; discriminate).
    split; [lia | nia].
  - assert (~ P <= 2 * rem) by (intros K; apply Hr in K; discriminate).
    split; [lia | nia].
Qed.

Lemma shr_inv_shr (M : Z) (mrs : shr_record) (e n : Z) :
  0 <= n -> shr_inv M 0 mrs ->
  shr_inv M n (fst (shr mrs e n)) /\ snd (shr mrs e n) = e + n.
Proof.
  intros Hn H. unfold shr. destruct n as [| p | p]; cbn [fst snd].
  - split; [exact H | lia].
  - split; [| reflexivity]. now apply (iter_shr_inv M p 0 mrs).
  - lia.
Qed.

Lemma fexp_normal (x : Z) :
  -149 <= x - 24 -> fexp prec emax x = x - 24.
Proof. intros H. unfold fexp, emin, prec, emax. lia. Qed.

(** Rounding an integer [M * 2^E] of at least 24 digits whose value lies
    in the range of the normal numbers: the result is a normal number
    within a relative distance [2^-24] of it. *)
Lemma round_exact_normal (s : bool) (M : positive) (E : Z) :
  24 <= Zpos (digits2_pos M) ->
  -149 <= E + Zpos (digits2_pos M) - 24 ->
  E + Zpos (digits2_pos M) <= 127 ->
  exists (q : positive) (e : Z),
    binary_round_aux prec emax s (Zpos M) E loc_Exact = S754_finite s q e
    /\ 2 ^ 23 <= Zpos q < 2 ^ 24
    /\ E <= e /\ -149 <= e <= 104
    /\ 2 ^ 24 * Z.abs (Zpos q * 2 ^ (e - E) - Zpos M) <= Zpos M.
Proof.
  intros Hd Hlo Hhi.
  pose proof (digits2_bounds M) as [Mlo Mhi].
  set (d := Zpos (digits2_pos M)) in *.
  set (n := d - 24).
  assert (Hn : 0 <= n) by (unfold n; lia).
  unfold binary_round_aux, shr_fexp.
  change (Zdigits2 (Zpos M)) with d.
  rewrite fexp_normal by lia.
  replace (d + E - 24 - E) with n by (unfold n; lia).
  destruct (shr_inv_shr (Zpos M) (shr_record_of_loc (Zpos M) loc_Exact) E n Hn)
    as [Hinv He']; [apply shr_inv_start; lia |].
  destruct (shr (shr_record_of_loc (Zpos M) loc_Exact) E n) as [mrs' e'].
  cbn [fst snd] in Hinv, He'. subst e'.
  destruct (round_nearest_even_inv (Zpos M) n mrs' Hn Hinv) as [Hq Hnear].
  destruct Hinv as [Hm' (rem & HM & Hrem & _ & _)].
  set (q' := round_nearest_even (shr_m mrs') (loc_of_shr_record mrs')) in *.
  assert (HP : 0 < 2 ^ n) by (apply Z.pow_pos_nonneg; lia).
  assert (Hd1 : 2 ^ (d - 1) = 2 ^ 23 * 2 ^ n).
  { rewrite <- Z.pow_add_r by lia. f_equal. unfold n. lia. }
  assert (Hd2 : 2 ^ d = 2 ^ 24 * 2 ^ n).
  { rewrite <- Z.pow_add_r by lia. f_equal. unfold n. lia. }
  rewrite Hd1 in Mlo. rewrite Hd2 in Mhi.
  set (P := 2 ^ n) in *.
  assert (Hm23 : 2 ^ 23 <= shr_m mrs' < 2 ^ 24) by (split; nia).
  assert (Hq' : 2 ^ 23 <= q' <= 2 ^ 24) by lia.
  destruct (Z.eq_dec q' (2 ^ 24)) as [Eq | Nq].
  - (* the rounding carried into a 25th digit *)
    rewrite Eq. change (Zdigits2 (2 ^ 24)) with 25.
    rewrite fexp_normal by lia.
    replace (25 + (E + n) - 24 - (E + n)) with 1 by lia.
    cbn [shr shr_record_of_loc iter_pos shr_1 shr_m].
    change (shr_m (shr_1 {| shr_m := 2 ^ 24; shr_r := false; shr_s := false |}))
      with (Zpos 8388608).
    assert (Hle : (E + n + 1 <=? emax - prec) = true)
      by (apply Z.leb_le; unfold emax, prec, n; lia).
    rewrite Hle. exists 8388608%positive, (E + n + 1).
    split; [reflexivity |]. split; [cbn; lia |].
    split; [lia |]. split; [unfold n; lia |].
    replace (E + n + 1 - E) with (n + 1) by lia.
    rewrite Z.pow_add_r, Z.pow_1_r by lia. fold P.
    rewrite Eq in Hnear. change (2 ^ 24) with 16777216 in *.
    change (2 ^ 23) with 8388608 in *. nia.
  - destruct q' as [| qp | qp] eqn:Eqp; try lia.
    assert (Hdig : Zdigits2 (Zpos qp) = 24).
    { cbn [Zdigits2]. apply digits2_unique. change (24 - 1) with 23. lia. }
    rewrite Hdig. rewrite fexp_normal by (unfold n; lia).
    replace (24 + (E + n) - 24 - (E + n)) with 0 by lia.
    cbn [shr shr_record_of_loc shr_m].
    assert (Hle : (E + n <=? emax - prec) = true)
      by (apply Z.leb_le; unfold emax, prec, n; lia).
    rewrite Hle. exists qp, (E + n).
    split; [reflexivity |]. split; [lia |].
    split; [lia |]. split; [unfold n; lia |].
    replace (E + n - E) with n by lia. fold P.
    change (2 ^ 24) with 16777216 in *.
    change (2 ^ 23) with 8388608 in *. nia.
Qed.

Local Open Scope Q_scope.

(** ** Values of binary32 numbers as rationals *)

Lemma pow2_pos (z : Z) : 0 < pow2 z.
Proof. apply Qpower_0_lt. reflexivity. Qed.

Lemma pow2_add (a b : Z) : pow2 (a + b) == pow2 a * pow2 b.
Proof. apply Qpower_plus. discriminate. Qed.

Lemma pow2_le (a b : Z) : (a <= b)%Z -> pow2 a <= pow2 b.
Proof. intros H. apply Qpower_le_compat_l; [exact H | discriminate]. Qed.

Lemma pow2_lt_inv (a b : Z) : pow2 a < pow2 b -> (a < b)%Z.
Proof. intros H. apply (Qpower_lt_compat_l_inv 2); [exact H | reflexivity]. Qed.

Lemma pow2_inject (n : Z) : (0 <= n)%Z -> inject_Z (2 ^ n) == pow2 n.
Proof. intros H. now rewrite Zpower_Qpower. Qed.

Lemma to_Q_finite (m : positive) (e : Z) :
  F32.to_Q (S754_finite false m e) = inject_Z (Zpos m) * pow2 e.
Proof. reflexivity. Qed.

Lemma scaled_bound (a b t : Q) :
  0 < t -> b * (1 - f32_eps) <= a -> a <= b * (1 + f32_eps) ->
  b * t * (1 - f32_eps) <= a * t /\ a * t <= b * t * (1 + f32_eps).
Proof.
  intros Ht H1 H2. split.
  - setoid_replace (b * t * (1 - f32_eps)) with (b * (1 - f32_eps) * t) by ring.
    apply Qmult_le_compat_r; [exact H1 | now apply Qlt_le_weak].
  - setoid_replace (b * t * (1 + f32_eps)) with (b * (1 + f32_eps) * t) by ring.
    apply Qmult_le_compat_r; [exact H2 | now apply Qlt_le_weak].
Qed.

(** From the integer statement of [round_exact_normal] to values. *)
Lemma round_value (q M : positive) (e E : Z) :
  (E <= e)%Z ->
  (2 ^ 24 * Z.abs (Zpos q * 2 ^ (e - E) - Zpos M) <= Zpos M)%Z ->
  inject_Z (Zpos M) * pow2 E * (1 - f32_eps) <= inject_Z (Zpos q) * pow2 e
  /\ inject_Z (Zpos q) * pow2 e <= inject_Z (Zpos M) * pow2 E * (1 + f32_eps).
Proof.
  intros He H.
  assert (Hv : inject_Z (Zpos q) * pow2 e
               == inject_Z (Zpos q * 2 ^ (e - E)) * pow2 E).
  { rewrite inject_Z_mult, pow2_inject by lia.
    rewrite <- Qmult_assoc, <- pow2_add.
    replace (e - E + E)%Z with e by lia. reflexivity. }
  rewrite Hv. set (qq := (Zpos q * 2 ^ (e - E))%Z) in *.
  assert (H1 : (16777216 * (qq - Zpos M) <= Zpos M)%Z)
    by (change (2 ^ 24)%Z with 16777216%Z in H; lia).
  assert (H2 : (16777216 * (Zpos M - qq) <= Zpos M)%Z)
    by (change (2 ^ 24)%Z with 16777216%Z in H; lia).
  rewrite Zle_Qle in H1, H2.
  unfold Z.sub in H1, H2.
  rewrite inject_Z_mult, inject_Z_plus, inject_Z_opp in H1, H2.
  apply scaled_bound; [apply pow2_pos | |]; unfold f32_eps.
  - change (inject_Z 16777216) with (16777216 # 1) in H2. lra.
  - change (inject_Z 16777216) with (16777216 # 1) in H1. lra.
Qed.

Lemma pos_normal_value (x : f32) :
  pos_normal x -> 0 < F32.to_Q x.
Proof.
  intros (m & e & -> & _). rewrite to_Q_finite.
  apply Qmult_lt_0_compat; [reflexivity | apply pow2_pos].
Qed.

Lemma inject_pos_bounds (M : positive) :
  pow2 (Zpos (digits2_pos M) - 1) <= inject_Z (Zpos M)
  /\ inject_Z (Zpos M) < pow2 (Zpos (digits2_pos M)).
Proof.
  destruct (digits2_bounds M) as [Hlo Hhi].
  rewrite Zle_Qle in Hlo. rewrite Zlt_Qlt in Hhi.
  rewrite pow2_inject in Hlo by lia. rewrite pow2_inject in Hhi by lia.
  now split.
Qed.

(** The exponent bounds of [round_exact_normal] from bounds on the value. *)
Lemma value_range_exponents (M : positive) (E : Z) :
  pow2 (-126) <= inject_Z (Zpos M) * pow2 E ->
  inject_Z (Zpos M) * pow2 E < pow2 127 ->
  (-149 <= E + Zpos (digits2_pos M) - 24)%Z
  /\ (E + Zpos (digits2_pos M) <= 127)%Z.
Proof.
  intros Hlo Hhi. destruct (inject_pos_bounds M) as [Mlo Mhi].
  set (d := Zpos (digits2_pos M)) in *.
  pose proof (pow2_pos E) as HE.
  split.
  - assert (H : pow2 (-126) < pow2 (d + E)).
    { eapply Qle_lt_trans; [exact Hlo |]. rewrite pow2_add.
      now apply Qmult_lt_compat_r. }
    apply pow2_lt_inv in H. lia.
  - assert (H : pow2 (d - 1 + E) < pow2 127).
    { eapply Qle_lt_trans; [| exact Hhi]. rewrite pow2_add.
      apply Qmult_le_compat_r; [exact Mlo | now apply Qlt_le_weak]. }
    apply pow2_lt_inv in H. lia.
Qed.

(** The rounding error of a product of positive normal numbers whose exact
    value is in the normal range. *)
Lemma mul_spec (a b : f32) :
  pos_normal a -> pos_normal b ->
  pow2 (-126) <= F32.to_Q a * F32.to_Q b ->
  F32.to_Q a * F32.to_Q b < pow2 127 ->
  pos_normal (F32.mul a b)
  /\ F32.to_Q a * F32.to_Q b * (1 - f32_eps) <= F32.to_Q (F32.mul a b)
  /\ F32.to_Q (F32.mul a b) <= F32.to_Q a * F32.to_Q b * (1 + f32_eps).
Proof.
  intros (ma & ea & -> & Ha) (mb & eb & -> & Hb).
  rewrite !to_Q_finite.
  assert (HX : inject_Z (Zpos ma) * pow2 ea * (inject_Z (Zpos mb) * pow2 eb)
               == inject_Z (Zpos (ma * mb)) * pow2 (ea + eb)).
  { rewrite Pos2Z.inj_mul, inject_Z_mult, pow2_add. ring. }
  rewrite HX. intros Hlo Hhi.
  destruct (value_range_exponents _ _ Hlo Hhi) as [Elo Ehi].
  assert (Hd : (24 <= Zpos (digits2_pos (ma * mb)))%Z).
  { destruct (digits2_bounds (ma * mb)) as [_ Dhi].
    destruct (Z.le_gt_cases 24 (Zpos (digits2_pos (ma * mb)))) as [L | G];
      [exact L | exfalso].
    assert ((2 ^ Zpos (digits2_pos (ma * mb)) <= 2 ^ 23)%Z)
      by (apply Z.pow_le_mono_r; lia).
    rewrite Pos2Z.inj_mul in Dhi.
    change (2 ^ 23)%Z with 8388608%Z in *. nia. }
  destruct (round_exact_normal false (ma * mb) (ea + eb) Hd Elo Ehi)
    as (q & e & Hr & Hq & He & _ & Hnear).
  unfold F32.mul, SFmul. cbn [xorb]. rewrite Hr.
  split; [exists q, e; split; [reflexivity | exact Hq] |].
  rewrite to_Q_finite. now apply round_value.
Qed.

(** *** Alignment and subtraction *)

Lemma iter_xO_pow (m d : positive) :
  Zpos (Pos.iter xO m d) = (Zpos m * 2 ^ Zpos d)%Z.
Proof.
  induction d as [| d IH] using Pos.peano_ind.
  - cbn. lia.
  - rewrite Pos.iter_succ, Pos2Z.inj_xO, IH, Pos2Z.inj_succ.
    rewrite Z.pow_succ_r by lia. lia.
Qed.

Lemma shl_align_le (m : positive) (e e' : Z) :
  (e' <= e)%Z ->
  Zpos (fst (shl_align m e e')) = (Zpos m * 2 ^ (e - e'))%Z
  /\ snd (shl_align m e e') = e'.
Proof.
  intros H. unfold shl_align.
  destruct (e' - e)%Z as [| d | d] eqn:E; cbn [fst snd]; try lia.
  - replace (e - e')%Z with 0%Z by lia. split; lia.
  - rewrite iter_xO_pow. replace (e - e')%Z with (Zpos d) by lia. split; lia.
Qed.

Lemma shl_align_ge (m : positive) (e e' : Z) :
  (e <= e')%Z -> shl_align m e e' = (m, e).
Proof.
  intros H. unfold shl_align.
  destruct (e' - e)%Z as [| d | d] eqn:E; try reflexivity. lia.
Qed.

Lemma value_shift (m : positive) (e e' : Z) :
  (e' <= e)%Z ->
  inject_Z (Zpos m) * pow2 e == inject_Z (Zpos m * 2 ^ (e - e')) * pow2 e'.
Proof.
  intros H. rewrite inject_Z_mult, pow2_inject by lia.
  rewrite <- Qmult_assoc, <- pow2_add.
  replace (e - e' + e')%Z with e by lia. reflexivity.
Qed.

(** Rounding any positive integer [M * 2^E] whose value is in the normal
    range. *)
Lemma binary_round_normal (s : bool) (M : positive) (E : Z) :
  pow2 (-126) <= inject_Z (Zpos M) * pow2 E ->
  inject_Z (Zpos M) * pow2 E < pow2 127 ->
  exists (q : positive) (e : Z),
    binary_round prec emax s M E = S754_finite s q e
    /\ (2 ^ 23 <= Zpos q < 2 ^ 24)%Z
    /\ inject_Z (Zpos M) * pow2 E * (1 - f32_eps) <= inject_Z (Zpos q) * pow2 e
    /\ inject_Z (Zpos q) * pow2 e <= inject_Z (Zpos M) * pow2 E * (1 + f32_eps).
Proof.
  intros Hlo Hhi.
  destruct (value_range_exponents _ _ Hlo Hhi) as [Elo Ehi].
  pose proof (digits2_bounds M) as [Mlo Mhi].
  unfold binary_round. rewrite fexp_normal by lia.
  set (d := Zpos (digits2_pos M)) in *.
  destruct (Z.le_gt_cases 24 d) as [L | G].
  - rewrite shl_align_ge by lia.
    destruct (round_exact_normal s M E L Elo Ehi)
      as (q & e & Hr & Hq & He & _ & Hnear).
    exists q, e. split; [exact Hr |]. split; [exact Hq |].
    now apply round_value.
  - destruct (shl_align_le M E (d + E - 24)) as [Hm He]; [lia |].
    destruct (shl_align M E (d + E - 24)) as [mz ez]. cbn [fst snd] in Hm, He.
    subst ez. replace (E - (d + E - 24))%Z with (24 - d)%Z in Hm by lia.
    assert (Hmz : (2 ^ 23 <= Zpos mz < 2 ^ 24)%Z).
    { rewrite Hm.
      assert (H23 : (2 ^ 23 = 2 ^ (d - 1) * 2 ^ (24 - d))%Z).
      { rewrite <- Z.pow_add_r by lia. f_equal. lia. }
      assert (H24 : (2 ^ 24 = 2 ^ d * 2 ^ (24 - d))%Z).
      { rewrite <- Z.pow_add_r by lia. f_equal. lia. }
      assert (0 < 2 ^ (24 - d))%Z by (apply Z.pow_pos_nonneg; lia).
      rewrite H23, H24. split; nia. }
    assert (Hdz : Zpos (digits2_pos mz) = 24%Z).
    { apply digits2_unique. change (24 - 1)%Z with 23%Z. exact Hmz. }
    assert (HX : inject_Z (Zpos M) * pow2 E
                 == inject_Z (Zpos mz) * pow2 (d + E - 24)).
    { rewrite Hm. rewrite (value_shift M E (d + E - 24)) by lia.
      replace (E - (d + E - 24))%Z with (24 - d)%Z by lia. reflexivity. }
    destruct (round_exact_normal s mz (d + E - 24))
      as (q & e & Hr & Hq & He & _ & Hnear); rewrite ?Hdz; try lia.
    exists q, e. split; [exact Hr |]. split; [exact Hq |].
    rewrite HX. now apply round_value.
Qed.

(** The rounding error of a difference of positive normal numbers whose
    exact value is positive and in the normal range. *)
Lemma sub_spec (a b : f32) :
  pos_normal a -> pos_normal b ->
  pow2 (-126) <= F32.to_Q a - F32.to_Q b ->
  F32.to_Q a - F32.to_Q b < pow2 127 ->
  pos_normal (F32.sub a b)
  /\ (F32.to_Q a - F32.to_Q b) * (1 - f32_eps) <= F32.to_Q (F32.sub a b)
  /\ F32.to_Q (F32.sub a b) <= (F32.to_Q a - F32.to_Q b) * (1 + f32_eps).
Proof.
  intros (ma & ea & -> & Ha) (mb & eb & -> & Hb).
  rewrite !to_Q_finite. intros Hlo Hhi.
  set (ez := Z.min ea eb).
  destruct (shl_align_le ma ea ez) as [Fa _]; [unfold ez; lia |].
  destruct (shl_align_le mb eb ez) as [Fb _]; [unfold ez; lia |].
  assert (HX : inject_Z (Zpos ma) * pow2 ea - inject_Z (Zpos mb) * pow2 eb
               == inject_Z (Zpos ma * 2 ^ (ea - ez) - Zpos mb * 2 ^ (eb - ez))
                  * pow2 ez).
  { rewrite (value_shift ma ea ez), (value_shift mb eb ez) by (unfold ez; lia).
    unfold Z.sub at 3. rewrite inject_Z_plus, inject_Z_opp. ring. }
  rewrite HX in Hlo, Hhi |- *.
  unfold F32.sub, SFsub. fold ez. cbn [cond_Zopp]. rewrite Fa, Fb.
  set (D := (Zpos ma * 2 ^ (ea - ez) - Zpos mb * 2 ^ (eb - ez))%Z) in *.
  assert (HD : (0 < D)%Z).
  { destruct (Z.lt_ge_cases 0 D) as [L | G]; [exact L | exfalso].
    assert (inject_Z D * pow2 ez <= 0).
    { rewrite <- (Qmult_0_l (pow2 ez)).
      apply Qmult_le_compat_r; [| apply Qlt_le_weak, pow2_pos].
      rewrite Zle_Qle in G. exact G. }
    pose proof (pow2_pos (-126)). lra. }
  destruct D as [| Dp | Dp]; try lia.
  cbn [binary_normalize].
  destruct (binary_round_normal false Dp ez Hlo Hhi)
    as (q & e & Hr & Hq & Hb1 & Hb2).
  rewrite Hr. split; [exists q, e; split; [reflexivity | exact Hq] |].
  rewrite to_Q_finite. now split.
Qed.

Local Close Scope Q_scope.

(** ** The bit pattern of a normal number, and the seed of [fisqrt] *)

Lemma lor_hidden_bit (f : Z) :
  0 <= f < 2 ^ 23 -> Z.lor f 8388608 = f + 8388608.
Proof.
  intros H.
  assert (L : Z.land f 8388608 = 0).
  { rewrite <- (Z.mod_small f (2 ^ 23)) by lia.
    rewrite <- Z.land_ones by lia.
    rewrite <- Z.land_assoc. change (Z.land (Z.ones 23) 8388608) with 0.
    apply Z.land_0_r. }
  rewrite <- Z.lxor_lor by exact L.
  symmetry. now apply Z.add_nocarry_lxor.
Qed.

Lemma of_bits_normal (J : Z) :
  2 ^ 23 <= J < 255 * 2 ^ 23 ->
  F32.of_bits J
  = S754_finite false (Z.to_pos (2 ^ 23 + J mod 2 ^ 23)) (J / 2 ^ 23 - 150).
Proof.
  intros HJ. unfold F32.of_bits.
  assert (HE : 1 <= J / 2 ^ 23 < 255).
  { split.
    - apply Z.div_le_lower_bound; lia.
    - apply Z.div_lt_upper_bound; lia. }
  assert (Hf : 0 <= J mod 2 ^ 23 < 2 ^ 23) by (apply Z.mod_pos_bound; lia).
  assert (Hs : Z.testbit J 31 = false).
  { apply Z.testbit_false; [lia |]. rewrite Z.div_small; [reflexivity |].
    change (2 ^ 31) with 2147483648. change (2 ^ 23) with 8388608 in HJ. lia. }
  assert (H1 : Z.land (Z.shiftr J 23) 255 = J / 2 ^ 23).
  { rewrite Z.shiftr_div_pow2 by lia. change 255 with (Z.ones 8).
    rewrite Z.land_ones by lia. apply Z.mod_small.
    change (2 ^ 8) with 256. lia. }
  assert (H2 : Z.land J 8388607 = J mod 2 ^ 23).
  { change 8388607 with (Z.ones 23). apply Z.land_ones. lia. }
  rewrite Hs, H1, H2.
  destruct (Z.eqb_spec (J / 2 ^ 23) 0) as [E | _]; [lia |].
  destruct (Z.eqb_spec (J / 2 ^ 23) 255) as [E | _]; [lia |].
  rewrite lor_hidden_bit by exact Hf.
  change (2 ^ 23) with 8388608 in *.
  destruct (J mod 8388608 + 8388608) as [| p | p] eqn:Ep; try lia.
  f_equal. replace (8388608 + J mod 8388608) with (Zpos p) by lia.
  reflexivity.
Qed.

Lemma to_bits_normal (m : positive) (e : Z) :
  2 ^ 23 <= Zpos m ->
  F32.to_bits (S754_finite false m e)
  = (e + 150) * 2 ^ 23 + (Zpos m - 2 ^ 23).
Proof.
  intros H. unfold F32.to_bits, F32.sign_bit.
  change (2 ^ 23) with 8388608 in *.
  destruct (Z.ltb_spec (Zpos m) 8388608) as [L | _]; [lia |].
  rewrite Z.shiftl_mul_pow2 by lia. change (2 ^ 23) with 8388608. lia.
Qed.

Lemma seed_bits_range (m : positive) (e : Z) :
  2 ^ 23 <= Zpos m < 2 ^ 24 -> -149 <= e <= 104 ->
  2 ^ 23 <= seed_bits m e < 255 * 2 ^ 23.
Proof.
  intros Hm He. unfold seed_bits.
  change (2 ^ 23) with 8388608 in *. change (2 ^ 24) with 16777216 in *.
  Z.div_mod_to_equations. lia.
Qed.

Lemma fisqrt_seed_normal (m : positive) (e : Z) :
  2 ^ 23 <= Zpos m < 2 ^ 24 -> -149 <= e <= 104 ->
  fisqrt_seed (S754_finite false m e)
  = S754_finite false (Z.to_pos (2 ^ 23 + seed_bits m e mod 2 ^ 23))
                (seed_bits m e / 2 ^ 23 - 150).
Proof.
  intros Hm He. unfold fisqrt_seed.
  rewrite to_bits_normal by lia. rewrite Z.shiftr_div_pow2 by lia.
  change (2 ^ 1) with 2. fold (seed_bits m e).
  pose proof (seed_bits_range m e Hm He) as HJ.
  rewrite Z.mod_small.
  - now apply of_bits_normal.
  - change (2 ^ 23) with 8388608 in HJ. lia.
Qed.

(** Four times the number, half the seed. *)
Lemma seed_bits_scale (m : positive) (e k : Z) :
  seed_bits m (e + 2 * k) = seed_bits m e - k * 2 ^ 23.
Proof.
  unfold seed_bits.
  replace ((e + 2 * k + 150) * 2 ^ 23 + (Zpos m - 2 ^ 23))
    with ((e + 150) * 2 ^ 23 + (Zpos m - 2 ^ 23) + (k * 2 ^ 23) * 2) by lia.
  rewrite Z.div_add by lia. lia.
Qed.

Lemma fisqrt_seed_scale (m : positive) (e k : Z) :
  2 ^ 23 <= Zpos m < 2 ^ 24 -> -149 <= e <= 104 -> -149 <= e + 2 * k <= 104 ->
  exists (my : positive) (ey : Z),
    fisqrt_seed (S754_finite false m e) = S754_finite false my ey
    /\ fisqrt_seed (S754_finite false m (e + 2 * k)) = S754_finite false my (ey - k)
    /\ 2 ^ 23 <= Zpos my < 2 ^ 24.
Proof.
  intros Hm He Hek.
  exists (Z.to_pos (2 ^ 23 + seed_bits m e mod 2 ^ 23)), (seed_bits m e / 2 ^ 23 - 150).
  split; [now apply fisqrt_seed_normal |].
  split.
  - rewrite fisqrt_seed_normal by assumption.
    rewrite seed_bits_scale.
    replace (seed_bits m e - k * 2 ^ 23) with (seed_bits m e + (- k) * 2 ^ 23) by lia.
    rewrite Z_mod_plus_full, Z.div_add by lia.
    f_equal. lia.
  - assert (0 <= seed_bits m e mod 2 ^ 23 < 2 ^ 23) by (apply Z.mod_pos_bound; lia).
    change (2 ^ 23) with 8388608 in *. change (2 ^ 24) with 16777216. lia.
Qed.

Local Open Scope Q_scope.

Lemma bits_value_mono (J1 J2 : Z) :
  (2 ^ 23 <= J1)%Z -> (J1 <= J2)%Z -> bits_value J1 <= bits_value J2.
Proof.
  intros H1 H12. unfold bits_value.
  assert (HE : (J1 / 2 ^ 23 <= J2 / 2 ^ 23)%Z) by (apply Z.div_le_mono; lia).
  pose proof (Z.div_mod J1 (2 ^ 23) ltac:(lia)) as D1.
  pose proof (Z.div_mod J2 (2 ^ 23) ltac:(lia)) as D2.
  pose proof (Z.mod_pos_bound J1 (2 ^ 23) ltac:(lia)) as B1.
  pose proof (Z.mod_pos_bound J2 (2 ^ 23) ltac:(lia)) as B2.
  set (E1 := (J1 / 2 ^ 23)%Z) in *. set (E2 := (J2 / 2 ^ 23)%Z) in *.
  set (f1 := (J1 mod 2 ^ 23)%Z) in *. set (f2 := (J2 mod 2 ^ 23)%Z) in *.
  destruct (Z.eq_dec E1 E2) as [E | N].
  - rewrite E. apply Qmult_le_compat_r; [| apply Qlt_le_weak, pow2_pos].
    rewrite <- Zle_Qle. nia.
  - apply Qle_trans with (pow2 24 * pow2 (E1 - 150)).
    + apply Qmult_le_compat_r; [| apply Qlt_le_weak, pow2_pos].
      rewrite <- pow2_inject by lia. rewrite <- Zle_Qle.
      change (2 ^ 24)%Z with (2 ^ 23 + 2 ^ 23)%Z. lia.
    + apply Qle_trans with (pow2 23 * pow2 (E2 - 150)).
      * rewrite <- !pow2_add. apply pow2_le. lia.
      * apply Qmult_le_compat_r; [| apply Qlt_le_weak, pow2_pos].
        rewrite <- pow2_inject by lia. rewrite <- Zle_Qle. lia.
Qed.

Lemma fisqrt_seed_value (m : positive) (e : Z) :
  (2 ^ 23 <= Zpos m < 2 ^ 24)%Z -> (-149 <= e <= 104)%Z ->
  F32.to_Q (fisqrt_seed (S754_finite false m e)) = bits_value (seed_bits m e).
Proof.
  intros Hm He. rewrite fisqrt_seed_normal by assumption.
  rewrite to_Q_finite. unfold bits_value.
  rewrite Z2Pos.id; [reflexivity |].
  pose proof (Z.mod_pos_bound (seed_bits m e) (2 ^ 23) ltac:(lia)). lia.
Qed.

(** A larger number has a smaller seed. *)
Lemma fisqrt_seed_antitone (m1 m2 : positive) (e : Z) :
  (2 ^ 23 <= Zpos m1)%Z -> (Zpos m1 <= Zpos m2)%Z -> (Zpos m2 < 2 ^ 24)%Z ->
  (-149 <= e <= 104)%Z ->
  F32.to_Q (fisqrt_seed (S754_finite false m2 e))
  <= F32.to_Q (fisqrt_seed (S754_finite false m1 e)).
Proof.
  intros H1 H12 H2 He.
  rewrite !fisqrt_seed_value by lia.
  apply bits_value_mono.
  - apply seed_bits_range; lia.
  - unfold seed_bits.
    assert (((e + 150) * 2 ^ 23 + (Zpos m1 - 2 ^ 23)) / 2
            <= ((e + 150) * 2 ^ 23 + (Zpos m2 - 2 ^ 23)) / 2)%Z
      by (apply Z.div_le_mono; lia).
    lia.
Qed.

(** ** Enclosures *)

Lemma encl_scale (x : f32) (z z' : Z) (lo hi : Q) :
  z = z' -> encl x z lo hi -> encl x z' lo hi.
Proof. now intros ->. Qed.

Lemma pow2_0 : pow2 0 == 1.
Proof. reflexivity. Qed.

Lemma eps_bounds : 0 < 1 - f32_eps /\ 0 < 1 + f32_eps.
Proof. unfold f32_eps. split; reflexivity. Qed.

Lemma encl_mul (a b : f32) (za zb : Z) (la ha lb hb : Q) :
  encl a za la ha -> encl b zb lb hb ->
  (1 # 8) <= la -> (1 # 8) <= lb ->
  (1 # 8) <= la * lb -> ha * hb <= 8 ->
  (-100 <= za + zb <= 100)%Z ->
  encl (F32.mul a b) (za + zb)
       (la * lb * (1 - f32_eps)) (ha * hb * (1 + f32_eps)).
Proof.
  intros (Na & La & Ha) (Nb & Lb & Hb) Pa Pb Plo Phi Hz.
  pose proof (pow2_pos za) as Za. pose proof (pow2_pos zb) as Zb.
  destruct eps_bounds as [Em Ep].
  assert (Xlo : la * lb * pow2 (za + zb) <= F32.to_Q a * F32.to_Q b).
  { rewrite pow2_add.
    setoid_replace (la * lb * (pow2 za * pow2 zb))
      with ((la * pow2 za) * (lb * pow2 zb)) by ring.
    apply Qmult_le_compat_nonneg; split; trivial;
      apply Qmult_le_0_compat; try lra; now apply Qlt_le_weak. }
  assert (Xhi : F32.to_Q a * F32.to_Q b <= ha * hb * pow2 (za + zb)).
  { rewrite pow2_add.
    setoid_replace (ha * hb * (pow2 za * pow2 zb))
      with ((ha * pow2 za) * (hb * pow2 zb)) by ring.
    pose proof (pos_normal_value a Na). pose proof (pos_normal_value b Nb).
    apply Qmult_le_compat_nonneg; split; trivial; now apply Qlt_le_weak. }
  pose proof (pow2_pos (za + zb)) as Zab.
  assert (Rlo : pow2 (-126) <= F32.to_Q a * F32.to_Q b).
  { eapply Qle_trans; [| exact Xlo].
    apply Qle_trans with ((1 # 8) * pow2 (za + zb)).
    - change (1 # 8) with (pow2 (-3)). rewrite <- pow2_add. apply pow2_le. lia.
    - apply Qmult_le_compat_r; [exact Plo | now apply Qlt_le_weak]. }
  assert (Rhi : F32.to_Q a * F32.to_Q b < pow2 127).
  { eapply Qle_lt_trans; [exact Xhi |].
    apply Qle_lt_trans with (8 * pow2 (za + zb)).
    - apply Qmult_le_compat_r; [exact Phi | now apply Qlt_le_weak].
    - change 8 with (pow2 3). rewrite <- pow2_add.
      apply Qpower_lt_compat_l; [lia | reflexivity]. }
  destruct (mul_spec a b Na Nb Rlo Rhi) as (N & L & H).
  split; [exact N |]. split.
  - eapply Qle_trans; [| exact L].
    setoid_replace (la * lb * (1 - f32_eps) * pow2 (za + zb))
      with (la * lb * pow2 (za + zb) * (1 - f32_eps)) by ring.
    apply Qmult_le_compat_r; [exact Xlo | now apply Qlt_le_weak].
  - eapply Qle_trans; [exact H |].
    setoid_replace (ha * hb * (1 + f32_eps) * pow2 (za + zb))
      with (ha * hb * pow2 (za + zb) * (1 + f32_eps)) by ring.
    apply Qmult_le_compat_r; [exact Xhi | now apply Qlt_le_weak].
Qed.

Lemma encl_sub (a b : f32) (la ha lb hb : Q) :
  encl a 0 la ha -> encl b 0 lb hb ->
  (1 # 8) <= la - hb -> ha - lb <= 8 ->
  encl (F32.sub a b) 0
       ((la - hb) * (1 - f32_eps)) ((ha - lb) * (1 + f32_eps)).
Proof.
  intros (Na & La & Ha) (Nb & Lb & Hb) Plo Phi.
  rewrite pow2_0, Qmult_1_r in La, Ha, Lb, Hb.
  destruct eps_bounds as [Em Ep].
  assert (Rlo : pow2 (-126) <= F32.to_Q a - F32.to_Q b).
  { apply Qle_trans with (1 # 8); [| lra].
    change (1 # 8) with (pow2 (-3)). apply pow2_le. lia. }
  assert (Rhi : F32.to_Q a - F32.to_Q b < pow2 127).
  { apply Qle_lt_trans with 8; [lra |].
    change 8 with (pow2 3). apply Qpower_lt_compat_l; [lia | reflexivity]. }
  destruct (sub_spec a b Na Nb Rlo Rhi) as (N & L & H).
  split; [exact N |]. rewrite pow2_0, !Qmult_1_r. split.
  - eapply Qle_trans; [| exact L].
    apply Qmult_le_compat_r; [lra | now apply Qlt_le_weak].
  - eapply Qle_trans; [exact H |].
    apply Qmult_le_compat_r; [lra | now apply Qlt_le_weak].
Qed.

Lemma fisqrt_unfold (n : f32) :
  fisqrt n
  = F32.mul (fisqrt_seed n)
      (F32.mul fisqrt_c1
         (F32.sub fisqrt_c2 (F32.mul (F32.mul n (fisqrt_seed n)) (fisqrt_seed n)))).
Proof. reflexivity. Qed.

Lemma encl_constant (c : f32) :
  pos_normal c -> encl c 0 (F32.to_Q c) (F32.to_Q c).
Proof.
  intros H. split; [exact H |]. rewrite pow2_0, Qmult_1_r.
  split; apply Qle_refl.
Qed.

Lemma Qmul3_le (a b c a' b' c' : Q) :
  0 <= a -> a <= a' -> 0 <= b -> b <= b' -> 0 <= c -> c <= c' ->
  a * b * c <= a' * b' * c'.
Proof.
  intros. apply Qmult_le_compat_nonneg; split; trivial.
  - apply Qmult_le_0_compat; trivial.
  - apply Qmult_le_compat_nonneg; split; trivial.
Qed.

Lemma fisqrt_chunk_sound (delta : Q) (e0 k : Z) (ma mb m : positive) :
  fisqrt_chunk_ok delta e0 ma mb = true ->
  (2 ^ 23 <= Zpos ma)%Z -> (Zpos ma <= Zpos m)%Z ->
  (Zpos m <= Zpos mb)%Z -> (Zpos mb < 2 ^ 24)%Z ->
  (-149 <= e0 <= 104)%Z -> (-149 <= e0 + 2 * k <= 104)%Z -> (-63 <= k <= 63)%Z ->
  let n := S754_finite false m (e0 + 2 * k) in
  pos_normal (fisqrt n)
  /\ (1 - delta) * (1 - delta) <= F32.to_Q (fisqrt n) * F32.to_Q (fisqrt n) * F32.to_Q n
  /\ F32.to_Q (fisqrt n) * F32.to_Q (fisqrt n) * F32.to_Q n <= (1 + delta) * (1 + delta).
Proof.
  intros Hok Ha Ham Hmb Hb He0 Hek Hk n.
  unfold fisqrt_chunk_ok in Hok. cbv zeta in Hok.
  repeat (apply andb_prop in Hok; destruct Hok as [Hok ?]).
  repeat match goal with
         | H : Qle_bool _ _ = true |- _ => apply Qle_bool_iff in H
         end.
  set (N1 := F32.to_Q (S754_finite false ma e0)) in *.
  set (N2 := F32.to_Q (S754_finite false mb e0)) in *.
  set (Y1 := F32.to_Q (fisqrt_seed (S754_finite false mb e0))) in *.
  set (Y2 := F32.to_Q (fisqrt_seed (S754_finite false ma e0))) in *.
  set (C1 := F32.to_Q fisqrt_c1) in *.
  set (C2 := F32.to_Q fisqrt_c2) in *.
  (* the number *)
  assert (En : encl n (2 * k) N1 N2).
  { split; [exists m, (e0 + 2 * k)%Z; split; [reflexivity | lia] |].
    unfold n, N1, N2. rewrite !to_Q_finite, pow2_add.
    pose proof (pow2_pos e0). pose proof (pow2_pos (2 * k)).
    split; rewrite Qmult_assoc; apply Qmult_le_compat_r;
      try (apply Qlt_le_weak; assumption);
      apply Qmult_le_compat_r; try (apply Qlt_le_weak; assumption);
      rewrite <- Zle_Qle; lia. }
  (* the seed *)
  destruct (fisqrt_seed_scale m e0 k) as (my & ey & Hs0 & Hsk & Hmy); try lia.
  assert (Ey : encl (fisqrt_seed n) (- k) Y1 Y2).
  { unfold n. rewrite Hsk.
    split; [exists my, (ey - k)%Z; split; [reflexivity | exact Hmy] |].
    rewrite to_Q_finite.
    replace (ey - k)%Z with (ey + - k)%Z by lia. rewrite pow2_add, Qmult_assoc.
    rewrite <- to_Q_finite, <- Hs0.
    pose proof (pow2_pos (- k)).
    split; apply Qmult_le_compat_r; try (apply Qlt_le_weak; assumption).
    - unfold Y1. apply fisqrt_seed_antitone; lia.
    - unfold Y2. apply fisqrt_seed_antitone; lia. }
  set (y0 := fisqrt_seed n) in *.
  (* the five operations *)
  pose proof (encl_mul n y0 _ _ _ _ _ _ En Ey) as Ep.
  do 5 (let H := fresh in
        match type of Ep with ?A -> _ =>
          assert (H : A) by (assumption || lia); specialize (Ep H); clear H
        end).
  pose proof (encl_mul _ y0 _ _ _ _ _ _ Ep Ey) as Et.
  do 5 (let H := fresh in
        match type of Et with ?A -> _ =>
          assert (H : A) by (assumption || lia); specialize (Et H); clear H
        end).
  apply (encl_scale _ _ 0%Z) in Et; [| lia].
  assert (Ec2 : encl fisqrt_c2 0 C2 C2)
    by (apply encl_constant; exists 10021218%positive, (-22)%Z;
        split; [reflexivity | cbn; lia]).
  assert (Ec1 : encl fisqrt_c1 0 C1 C1)
    by (apply encl_constant; exists 11810359%positive, (-24)%Z;
        split; [reflexivity | cbn; lia]).
  pose proof (encl_sub _ _ _ _ _ _ Ec2 Et) as Eu.
  do 2 (let H := fresh in
        match type of Eu with ?A -> _ =>
          assert (H : A) by assumption; specialize (Eu H); clear H
        end).
  assert (HC1 : (1 # 8) <= C1) by (apply Qle_bool_iff; reflexivity).
  pose proof (encl_mul _ _ _ _ _ _ _ _ Ec1 Eu) as Ev.
  do 5 (let H := fresh in
        match type of Ev with ?A -> _ =>
          assert (H : A) by (assumption || lia); specialize (Ev H); clear H
        end).
  pose proof (encl_mul _ _ _ _ _ _ _ _ Ey Ev) as Er.
  do 5 (let H := fresh in
        match type of Er with ?A -> _ =>
          assert (H : A) by (assumption || lia); specialize (Er H); clear H
        end).
  rewrite fisqrt_unfold. fold y0.
  destruct Er as (Nr & Lr & Hr). destruct En as (Nn & Ln & Hn).
  split; [exact Nr |].
  set (y := F32.mul y0 _) in *.
  set (R1 := Y1 * _ * (1 - f32_eps)) in *.
  set (R2 := Y2 * _ * (1 + f32_eps)) in *.
  set (z := (- k + (0 + 0))%Z) in *.
  pose proof (pow2_pos z) as Pz. pose proof (pow2_pos (2 * k)) as Pk.
  assert (Hunit : pow2 z * pow2 z * pow2 (2 * k) == 1).
  { rewrite <- !pow2_add. replace (z + z + 2 * k)%Z with 0%Z by (unfold z; lia).
    reflexivity. }
  assert (HN1 : 0 <= N1) by lra.
  assert (HR1 : 0 <= R1) by assumption.
  pose proof (pos_normal_value y Nr) as Py.
  pose proof (pos_normal_value n Nn) as Pn.
  split.
  - apply Qle_trans with (R1 * R1 * N1); [assumption |].
    setoid_replace (R1 * R1 * N1)
      with ((R1 * pow2 z) * (R1 * pow2 z) * (N1 * pow2 (2 * k)))
      by (setoid_replace ((R1 * pow2 z) * (R1 * pow2 z) * (N1 * pow2 (2 * k)))
            with (R1 * R1 * N1 * (pow2 z * pow2 z * pow2 (2 * k))) by ring;
          rewrite Hunit; ring).
    apply Qmul3_le; trivial;
      apply Qmult_le_0_compat; trivial; now apply Qlt_le_weak.
  - eapply Qle_trans; [| eassumption].
    setoid_replace (R2 * R2 * N2)
      with ((R2 * pow2 z) * (R2 * pow2 z) * (N2 * pow2 (2 * k)))
      by (setoid_replace ((R2 * pow2 z) * (R2 * pow2 z) * (N2 * pow2 (2 * k)))
            with (R2 * R2 * N2 * (pow2 z * pow2 z * pow2 (2 * k))) by ring;
          rewrite Hunit; ring).
    apply Qmul3_le; trivial; now apply Qlt_le_weak.
Qed.

Lemma fisqrt_chunks_sound (e0 : Z) (count : nat) :
  forall (ma m : positive),
    fisqrt_chunks_ok e0 count ma = true ->
    (Zpos ma <= Zpos m < Zpos ma + 8192 * Z.of_nat count)%Z ->
    exists a : positive,
      fisqrt_chunk_ok fisqrt_delta e0 a (a + 8191) = true
      /\ (Zpos ma <= Zpos a)%Z /\ (Zpos a <= Zpos m <= Zpos a + 8191)%Z
      /\ (Zpos a + 8191 < Zpos ma + 8192 * Z.of_nat count)%Z.
Proof.
  induction count as [| c IH]; intros ma m Hok Hm.
  - cbn in Hm. lia.
  - cbn [fisqrt_chunks_ok] in Hok. apply andb_prop in Hok as [H1 H2].
    destruct (Z.le_gt_cases (Zpos m) (Zpos ma + 8191)) as [L | G].
    + exists ma. repeat split; try lia. exact H1.
    + destruct (IH (ma + 8192)%positive m H2) as (a & Ha & A1 & A2 & A3).
      * rewrite Pos2Z.inj_add. lia.
      * exists a. rewrite Pos2Z.inj_add in A1, A3. repeat split; try lia.
        exact Ha.
Qed.

Lemma fisqrt_chunks_low : fisqrt_chunks_ok (-23) 1024 8388608 = true.
Proof. vm_compute. reflexivity. Qed.

Lemma fisqrt_chunks_high : fisqrt_chunks_ok (-22) 1024 8388608 = true.
Proof. vm_compute. reflexivity. Qed.

Lemma pos_normal_finite (x : f32) :
  pos_normal x -> F32.is_finite x = true.
Proof. now intros (m & e & -> & _). Qed.

(** In exact rational arithmetic: for every positive normal binary32 [n],
    [y = fisqrt n] is a positive finite float with
    (1 - 0.0017)^2 <= y^2 * n <= (1 + 0.0017)^2. *)
Lemma fisqrt_square_bounds (n : f32) :
  is_pos_normal n = true ->
  F32.is_finite (fisqrt n) = true
  /\ 0 < F32.to_Q (fisqrt n)
  /\ (1 - fisqrt_delta) * (1 - fisqrt_delta)
     <= F32.to_Q (fisqrt n) * F32.to_Q (fisqrt n) * F32.to_Q n
  /\ F32.to_Q (fisqrt n) * F32.to_Q (fisqrt n) * F32.to_Q n
     <= (1 + fisqrt_delta) * (1 + fisqrt_delta).
Proof.
  destruct n as [| | | [|] m e]; try discriminate. cbn [is_pos_normal].
  intros H. repeat (apply andb_prop in H; destruct H as [H ?]).
  apply Z.leb_le in H. apply Z.ltb_lt in H2.
  apply Z.leb_le in H1, H0.
  set (k := ((e + 23) / 2)%Z).
  set (r := ((e + 23) mod 2)%Z).
  assert (Hr : (0 <= r < 2)%Z) by (apply Z.mod_pos_bound; lia).
  assert (He : e = (-23 + r + 2 * k)%Z).
  { pose proof (Z.div_mod (e + 23) 2 ltac:(lia)). unfold r, k. lia. }
  assert (Hk : (-63 <= k <= 63)%Z) by lia.
  assert (Hchunks : fisqrt_chunks_ok (-23 + r) 1024 8388608 = true).
  { assert (Hr' : r = 0%Z \/ r = 1%Z) by lia.
    destruct Hr' as [-> | ->];
      [exact fisqrt_chunks_low | exact fisqrt_chunks_high]. }
  destruct (fisqrt_chunks_sound (-23 + r) 1024 8388608 m Hchunks)
    as (a & Hok & A1 & A2 & A3); [cbn; lia |].
  change (8192 * Z.of_nat 1024)%Z with 8388608%Z in A3.
  rewrite He.
  destruct (fisqrt_chunk_sound fisqrt_delta (-23 + r) k a (a + 8191) m Hok)
    as (Nr & Lo & Hi);
    rewrite ?Pos2Z.inj_add; try (change (2 ^ 23)%Z with 8388608%Z);
    try (change (2 ^ 24)%Z with 16777216%Z); try lia.
  split; [now apply pos_normal_finite |].
  split; [now apply pos_normal_value |].
  now split.
Qed.


Local Close Scope Q_scope.

(** ** The relative error as a real number *)

Local Open Scope R_scope.

Lemma square_bounds (t d : R) :
  0 < t -> 0 <= d < 1 ->
  (1 - d) * (1 - d) <= t * t <= (1 + d) * (1 + d) ->
  Rabs (t - 1) <= d.
Proof.
  intros Ht Hd [Hlo Hhi]. apply Rabs_le. split; Lra.nra.
Qed.

Lemma is_pos_normal_value (n : f32) :
  is_pos_normal n = true -> (0 < F32.to_Q n)%Q.
Proof.
  intros Hn. destruct n as [| | | [|] m e]; try discriminate.
  apply pos_normal_value. exists m, e. split; [reflexivity |].
  cbn in Hn. repeat (apply andb_prop in Hn; destruct Hn as [Hn ?]).
  apply Z.leb_le in Hn. apply Z.ltb_lt in H1.
  change (2 ^ 23)%Z with 8388608%Z. change (2 ^ 24)%Z with 16777216%Z. lia.
Qed.

(** C2: for every positive normal binary32 [n] (every positive float that
    is not denormal, infinite or NaN), [y = fisqrt n] is a positive finite
    float with |y * sqrt(n) - 1| <= 0.0017, that is
    |y - 1/sqrt(n)| <= 0.0017 * (1/sqrt(n)): the relative error against the
    exact reciprocal square root is at most 0.17%, below 0.2%. *)
Theorem fisqrt_relative_error (n : f32) :
  is_pos_normal n = true ->
  F32.is_finite (fisqrt n) = true
  /\ 0 < to_R n /\ 0 < to_R (fisqrt n)
  /\ Rabs (to_R (fisqrt n) * sqrt (to_R n) - 1) <= 17 / 10000
  /\ Rabs (to_R (fisqrt n) - / sqrt (to_R n)) <= 17 / 10000 * / sqrt (to_R n).
Proof.
  intros Hn.
  destruct (fisqrt_square_bounds n Hn) as (Hfin & Hy & Hlo & Hhi).
  pose proof (is_pos_normal_value n Hn) as HN.
  apply Qlt_Rlt in Hy, HN. apply Qle_Rle in Hlo, Hhi.
  rewrite !Q2R_mult in Hlo, Hhi. rewrite Q2R_minus in Hlo. rewrite Q2R_plus in Hhi.
  replace (Q2R 0) with 0 in Hy, HN by (unfold Q2R; cbn; Lra.lra).
  replace (Q2R 1) with 1 in Hlo, Hhi by (unfold Q2R; cbn; Lra.lra).
  replace (Q2R fisqrt_delta) with (17 / 10000) in Hlo, Hhi
    by (unfold Q2R, fisqrt_delta; cbn; Lra.lra).
  fold (to_R n) in *. fold (to_R (fisqrt n)) in *.
  set (N := to_R n) in *. set (Y := to_R (fisqrt n)) in *.
  assert (Hs : 0 < sqrt N) by (apply sqrt_lt_R0; exact HN).
  assert (Hss : sqrt N * sqrt N = N) by (apply sqrt_sqrt; Lra.lra).
  assert (Ht : Rabs (Y * sqrt N - 1) <= 17 / 10000).
  { apply square_bounds.
    - apply Rmult_lt_0_compat; assumption.
    - Lra.lra.
    - replace (Y * sqrt N * (Y * sqrt N)) with (Y * Y * N)
        by (rewrite <- Hss at 1; ring).
      Lra.lra. }
  split; [exact Hfin |]. split; [exact HN |]. split; [exact Hy |].
  split; [exact Ht |].
  replace (Y - / sqrt N) with ((Y * sqrt N - 1) * / sqrt N) by (field; Lra.lra).
  rewrite Rabs_mult, (Rabs_pos_eq (/ sqrt N)).
  - apply Rmult_le_compat_r; [| exact Ht].
    left. apply Rinv_0_lt_compat. exact Hs.
  - left. apply Rinv_0_lt_compat. exact Hs.
Qed.

(** The number 1, whose [fisqrt] is 1.0000818. *)
Lemma fisqrt_relative_error_witness :
  F32.is_finite (fisqrt f1) = true
  /\ 0 < to_R f1 /\ 0 < to_R (fisqrt f1)
  /\ Rabs (to_R (fisqrt f1) * sqrt (to_R f1) - 1) <= 17 / 10000
  /\ Rabs (to_R (fisqrt f1) - / sqrt (to_R f1)) <= 17 / 10000 * / sqrt (to_R f1).
Proof. apply fisqrt_relative_error. reflexivity. Defined.

Local Close Scope R_scope.

(** * Further properties of the header *)

(** ** Signs, commutativity and exact cases of the binary32 operations *)

Lemma neg_involutive (x : f32) : F32.neg (F32.neg x) = x.
Proof. destruct x as [s | s | | s m e]; cbn; now rewrite ?negb_involutive. Qed.

Lemma binary_round_aux_opp (s : bool) (m e : Z) (l : location) :
  binary_round_aux F32.prec F32.emax (negb s) m e l
  = SFopp (binary_round_aux F32.prec F32.emax s m e l).
Proof.
  unfold binary_round_aux.
  destruct (shr_fexp F32.prec F32.emax m e l) as [mrs' e'].
  destruct (shr_fexp F32.prec F32.emax _ e' loc_Exact) as [mrs'' e''].
  destruct (shr_m mrs''); [reflexivity | | reflexivity].
  destruct (e'' <=? F32.emax - F32.prec); reflexivity.
Qed.

Lemma binary_round_opp (s : bool) (m : positive) (e : Z) :
  binary_round F32.prec F32.emax (negb s) m e
  = SFopp (binary_round F32.prec F32.emax s m e).
Proof.
  unfold binary_round.
  destruct (shl_align m e _) as [mz ez].
  apply binary_round_aux_opp.
Qed.

Lemma binary_normalize_opp (m e : Z) :
  m <> 0 ->
  binary_normalize F32.prec F32.emax (- m) e false
  = SFopp (binary_normalize F32.prec F32.emax m e false).
Proof.
  intros Hm. destruct m as [| p | p]; [easy | |]; cbn [Z.opp binary_normalize].
  - apply (binary_round_opp false).
  - pose proof (binary_round_opp false p e) as H. cbn [negb] in H.
    rewrite H. symmetry. apply neg_involutive.
Qed.

Lemma f32_mul_comm (a b : f32) : F32.mul a b = F32.mul b a.
Proof.
  unfold F32.mul, SFmul.
  destruct a as [sa | sa | | sa ma ea], b as [sb | sb | | sb mb eb];
    try reflexivity; try (now rewrite xorb_comm).
  now rewrite xorb_comm, Pos.mul_comm, Z.add_comm.
Qed.

Lemma f32_add_comm (a b : f32) : F32.add a b = F32.add b a.
Proof.
  unfold F32.add, SFadd.
  destruct a as [sa | sa | | sa ma ea], b as [sb | sb | | sb mb eb];
    try reflexivity; try (now destruct sa, sb).
  now rewrite Z.min_comm, Z.add_comm.
Qed.

Lemma mul_neg_l (a b : f32) : F32.mul (F32.neg a) b = F32.neg (F32.mul a b).
Proof.
  unfold F32.mul, F32.neg, SFmul.
  destruct a as [sa | sa | | sa ma ea], b as [sb | sb | | sb mb eb];
    try reflexivity; cbn [SFopp]; try (now destruct sa, sb).
  replace (xorb (negb sa) sb) with (negb (xorb sa sb)) by now destruct sa, sb.
  apply binary_round_aux_opp.
Qed.

Lemma mul_neg_r (a b : f32) : F32.mul a (F32.neg b) = F32.neg (F32.mul a b).
Proof. now rewrite f32_mul_comm, mul_neg_l, f32_mul_comm. Qed.

Lemma mul_neg_neg (a b : f32) : F32.mul (F32.neg a) (F32.neg b) = F32.mul a b.
Proof. now rewrite mul_neg_l, mul_neg_r, neg_involutive. Qed.

(** Doubling commutes with negation (the two summands have one sign). *)
Lemma add_self_neg (x : f32) :
  F32.add (F32.neg x) (F32.neg x) = F32.neg (F32.add x x).
Proof.
  unfold F32.add, F32.neg, SFadd.
  destruct x as [s | s | | s m e]; try reflexivity; cbn [SFopp];
    try (now destruct s).
  rewrite Z.min_id.
  destruct (shl_align m e e) as [m' e'']. cbn [fst].
  rewrite <- binary_normalize_opp by (destruct s; easy).
  f_equal. destruct s; cbn [negb cond_Zopp]; lia.
Qed.

Lemma sub_neg_r (a b : f32) : F32.sub a (F32.neg b) = F32.add a b.
Proof.
  unfold F32.sub, F32.add, F32.neg, SFsub, SFadd.
  destruct a as [sa | sa | | sa ma ea], b as [sb | sb | | sb mb eb];
    try reflexivity; cbn [SFopp]; try (now destruct sa, sb);
    try (now rewrite negb_involutive).
Qed.

Lemma add_neg_r (a b : f32) : F32.add a (F32.neg b) = F32.sub a b.
Proof. now rewrite <- sub_neg_r, neg_involutive. Qed.

(** ** Rotation matrices of a quaternion and of its inverse *)

(** X1: for every quaternion [q], the rotation matrix of [q.inversed()] is
    exactly [fromRotation(q).transposed()], entry by entry as binary32
    values (no rounding differs, also for infinities and NaN). *)
Theorem fromRotation_inversed_transposed (q : quaternion) :
  float4x4_fromRotation (quaternion_inversed q)
  = float4x4_transposed (float4x4_fromRotation q).
Proof.
  destruct q as [x y z w].
  unfold float4x4_fromRotation, quaternion_inversed, float4x4_transposed,
    m00, m01, m02, m03, m10, m11, m12, m13, m20, m21, m22, m23,
    m30, m31, m32, m33.
  cbn [quaternion_x quaternion_y quaternion_z quaternion_w
       rows_a rows_b rows_c rows_d float4_x float4_y float4_z float4_w].
  rewrite !add_self_neg, !mul_neg_neg, !mul_neg_r, !sub_neg_r, !add_neg_r.
  reflexivity.
Qed.

(** ** Rotating a vector: the quaternion against its matrix *)

Lemma add_pzero_same (x : f32) : f32_same (F32.add x (S754_zero false)) x.
Proof.
  destruct x as [s | s | | s m e]; try (left; reflexivity).
  destruct s; [right; split; reflexivity | left; reflexivity].
Qed.

(** X2: for every quaternion [q] and vector [v], the matrix product
    [fromRotation(q) * v] has the components of [q * v], each with
    [0.0f * 1.0f] added last: the two results are the same binary32 values
    up to the sign of a zero. *)
Theorem rotate_agrees_with_matrix (q : quaternion) (v : float3) :
  float4x4_mul_float3 (float4x4_fromRotation q) v
  = mkfloat3 (F32.add (float3_x (quaternion_rotate q v)) (F32.mul f0 f1))
             (F32.add (float3_y (quaternion_rotate q v)) (F32.mul f0 f1))
             (F32.add (float3_z (quaternion_rotate q v)) (F32.mul f0 f1))
  /\ float3_same (float4x4_mul_float3 (float4x4_fromRotation q) v)
                 (quaternion_rotate q v).
Proof.
  assert (E : float4x4_mul_float3 (float4x4_fromRotation q) v
    = mkfloat3 (F32.add (float3_x (quaternion_rotate q v)) (F32.mul f0 f1))
               (F32.add (float3_y (quaternion_rotate q v)) (F32.mul f0 f1))
               (F32.add (float3_z (quaternion_rotate q v)) (F32.mul f0 f1)))
    by reflexivity.
  split; [exact E |]. rewrite E.
  change (F32.mul f0 f1) with (S754_zero false).
  unfold float3_same. cbn [float3_x float3_y float3_z].
  repeat split; apply add_pzero_same.
Qed.

(** ** The matrix product, in place and not *)

Lemma getColumn_const (m : float4x4) :
  float4x4_getColumn m 0 = Some (float4x4_column m 0)
  /\ float4x4_getColumn m 1 = Some (float4x4_column m 1)
  /\ float4x4_getColumn m 2 = Some (float4x4_column m 2)
  /\ float4x4_getColumn m 3 = Some (float4x4_column m 3).
Proof. repeat split. Qed.

(** X3: [operator *=(float4x4)] leaves in the object the matrix that
    [operator *] returns, for all operands (each row is replaced from its
    own old value and from the copy of [m]); both are defined, every
    [getColumn] they make is inside the array, and entry (i, j) is the dot
    product of row i of the left operand with column j of the right one. *)
Theorem float4x4_mul_assign_agrees (a m : float4x4) :
  float4x4_mul_assign a m = float4x4_mul a m
  /\ float4x4_mul a m
     = Some (mkfloat4x4
         (mkfloat4 (float4_dot (rows_a a) (float4x4_column m 0))
                   (float4_dot (rows_a a) (float4x4_column m 1))
                   (float4_dot (rows_a a) (float4x4_column m 2))
                   (float4_dot (rows_a a) (float4x4_column m 3)))
         (mkfloat4 (float4_dot (rows_b a) (float4x4_column m 0))
                   (float4_dot (rows_b a) (float4x4_column m 1))
                   (float4_dot (rows_b a) (float4x4_column m 2))
                   (float4_dot (rows_b a) (float4x4_column m 3)))
         (mkfloat4 (float4_dot (rows_c a) (float4x4_column m 0))
                   (float4_dot (rows_c a) (float4x4_column m 1))
                   (float4_dot (rows_c a) (float4x4_column m 2))
                   (float4_dot (rows_c a) (float4x4_column m 3)))
         (mkfloat4 (float4_dot (rows_d a) (float4x4_column m 0))
                   (float4_dot (rows_d a) (float4x4_column m 1))
                   (float4_dot (rows_d a) (float4x4_column m 2))
                   (float4_dot (rows_d a) (float4x4_column m 3)))).
Proof.
  destruct (getColumn_const m) as (G0 & G1 & G2 & G3).
  unfold float4x4_mul_assign, float4x4_row_times, float4x4_mul.
  rewrite G0, G1, G2, G3. split; reflexivity.
Qed.

(** ** Transposition *)

(** X4: the three transpositions of the header agree ([transpose()] in
    place, [transposed()] and the static [transpose(m)]), transposing twice
    gives the matrix back, and for every index a [u8] can hold column
    [idx] of the transpose is row [min idx 3] of the matrix. *)
Theorem transpose_round_trip (m : float4x4) (idx : Z) (Hidx : 0 <= idx < 256) :
  float4x4_transpose m = float4x4_transposed m
  /\ float4x4_transpose_of m = float4x4_transposed m
  /\ float4x4_transposed (float4x4_transposed m) = m
  /\ float4x4_getColumn (float4x4_transposed m) idx
     = float4x4_row m (Z.min idx 3).
Proof.
  destruct m as [[a0 a1 a2 a3] [b0 b1 b2 b3] [c0 c1 c2 c3] [d0 d1 d2 d3]].
  split; [reflexivity |]. split; [reflexivity |]. split; [reflexivity |].
  unfold float4x4_getColumn. rewrite clamped_index by lia.
  destruct (index_cases idx) as [E | [E | [E | E]]]; [lia | rewrite E ..];
    reflexivity.
Qed.

Lemma transpose_round_trip_witness :
  float4x4_getColumn (float4x4_transposed rotation_z90) 200
  = Some (rows_d rotation_z90).
Proof.
  assert (H : 0 <= 200 < 256) by lia.
  exact (proj2 (proj2 (proj2 (transpose_round_trip rotation_z90 200 H)))).
Defined.

(** ** Columns: writing then reading *)

(** X5: for all indices [i], [j] a [u8] can hold, after
    [setColumn(i, value)] the call [getColumn(j)] returns [value] when [i]
    and [j] name the same column (equal after clamping to 0..3), and the
    old column [j] otherwise; both calls stay inside the array. *)
Theorem setColumn_then_getColumn (m : float4x4) (value : float4) (i j : Z)
  (Hi : 0 <= i < 256) (Hj : 0 <= j < 256) :
  exists m' : float4x4,
    float4x4_setColumn m i value = Some m'
    /\ float4x4_getColumn m' j
       = Some (if Z.min i 3 =? Z.min j 3 then value
               else float4x4_column m (Z.min j 3)).
Proof.
  destruct m as [[a0 a1 a2 a3] [b0 b1 b2 b3] [c0 c1 c2 c3] [d0 d1 d2 d3]].
  destruct value as [v0 v1 v2 v3].
  unfold float4x4_setColumn, float4x4_getColumn.
  rewrite !clamped_index by lia.
  destruct (index_cases i) as [E | [E | [E | E]]]; [lia | rewrite E ..];
    (destruct (index_cases j) as [F | [F | [F | F]]]; [lia | rewrite F ..]);
    (eexists; split; [reflexivity | reflexivity]).
Qed.

Lemma setColumn_then_getColumn_witness :
  exists m' : float4x4,
    float4x4_setColumn float4x4_identity 7 (mkfloat4 f2 f2 f2 f2) = Some m'
    /\ float4x4_getColumn m' 3 = Some (mkfloat4 f2 f2 f2 f2).
Proof.
  assert (Hi : 0 <= 7 < 256) by lia. assert (Hj : 0 <= 3 < 256) by lia.
  exact (setColumn_then_getColumn float4x4_identity (mkfloat4 f2 f2 f2 f2)
           7 3 Hi Hj).
Defined.

(** ** What [toRotation] reads *)

(** X6: [toRotation] reads only the upper-left 3x3 block: two matrices
    with the same [rotationAndScale()] part (any translation column, any
    fourth row) give the same quaternion, and
    [m.rotationAndScale().toRotation()] is [m.toRotation()]. *)
Theorem toRotation_reads_rotation_block (m n : float4x4)
  (H : float4x4_rotationAndScale m = float4x4_rotationAndScale n) :
  float4x4_toRotation m = float4x4_toRotation n
  /\ float4x4_toRotation (float4x4_rotationAndScale m) = float4x4_toRotation m.
Proof.
  destruct m as [[a0 a1 a2 a3] [b0 b1 b2 b3] [c0 c1 c2 c3] [d0 d1 d2 d3]].
  destruct n as [[p0 p1 p2 p3] [q0 q1 q2 q3] [r0 r1 r2 r3] [s0 s1 s2 s3]].
  unfold float4x4_rotationAndScale, float4_of_float3, float3_of_float4 in H.
  cbn [rows_a rows_b rows_c rows_d float4_x float4_y float4_z float4_w
       float3_x float3_y float3_z] in H.
  injection H as -> -> -> -> -> -> -> -> ->.
  split; reflexivity.
Qed.

Lemma toRotation_reads_rotation_block_witness :
  float4x4_toRotation (float4x4_translate (mkfloat3 f1 f2 f4))
  = float4x4_toRotation float4x4_identity.
Proof.
  exact (proj1 (toRotation_reads_rotation_block
                  (float4x4_translate (mkfloat3 f1 f2 f4)) float4x4_identity
                  eq_refl)).
Defined.

(** ** Multiplying by one *)

(** Rounding [m * 2^k] at the exponent [e - k] gives back the float
    [(m, e)] when that float is valid: no bit is lost. *)
Lemma round_scaled_exact (s : bool) (m : positive) (e k : Z) :
  0 < k -> bounded prec emax m e = true ->
  binary_round_aux prec emax s (Zpos m * 2 ^ k) (e - k) loc_Exact
  = S754_finite s m e.
Proof.
  intros Hk Hb. unfold bounded, canonical_mantissa in Hb.
  apply andb_prop in Hb as [Hc He].
  apply Z.eqb_eq in Hc. apply Z.leb_le in He.
  pose proof (digits2_bounds m) as [Mlo Mhi].
  set (d := Zpos (digits2_pos m)) in *.
  assert (HP : 0 < 2 ^ k) by (apply Z.pow_pos_nonneg; lia).
  assert (HM : exists M : positive, Zpos m * 2 ^ k = Zpos M).
  { destruct (Zpos m * 2 ^ k) as [| M | M] eqn:E; try lia. now exists M. }
  destruct HM as [M HM].
  assert (Hd : Zpos (digits2_pos M) = d + k).
  { apply digits2_unique. rewrite <- HM.
    replace (d + k - 1) with (d - 1 + k) by lia.
    rewrite !Z.pow_add_r by lia. split; nia. }
  unfold binary_round_aux, shr_fexp. rewrite HM.
  change (Zdigits2 (Zpos M)) with (Zpos (digits2_pos M)). rewrite Hd.
  replace (d + k + (e - k)) with (d + e) by lia. rewrite Hc.
  replace (e - (e - k)) with k by lia.
  destruct (shr_inv_shr (Zpos M) (shr_record_of_loc (Zpos M) loc_Exact)
              (e - k) k) as [Hinv He']; [lia | apply shr_inv_start; lia |].
  destruct (shr (shr_record_of_loc (Zpos M) loc_Exact) (e - k) k) as [mrs' e'].
  cbn [fst snd] in Hinv, He'. subst e'.
  destruct (round_nearest_even_inv (Zpos M) k mrs') as [Hq Hnear];
    [lia | exact Hinv |].
  destruct Hinv as [Hm' (rem & HMr & Hrem & _ & _)].
  set (q' := round_nearest_even (shr_m mrs') (loc_of_shr_record mrs')) in *.
  rewrite <- HM in HMr, Hnear.
  assert (Hq' : q' = Zpos m) by nia.
  rewrite Hq'. change (Zdigits2 (Zpos m)) with d.
  replace (e - k + k) with e by lia. rewrite Hc, Z.sub_diag.
  cbn [shr shr_record_of_loc shr_m].
  assert (Hle : (e <=? emax - prec) = true) by (apply Z.leb_le; exact He).
  now rewrite Hle.
Qed.

Lemma mul_one_r (x : f32) : F32.valid x = true -> F32.mul x f1 = x.
Proof.
  destruct x as [s | s | | s m e]; intros Hv;
    try reflexivity; try (now destruct s).
  unfold F32.mul, SFmul, f1. rewrite xorb_false_r.
  change (Zpos (m * 8388608)) with (Zpos m * 2 ^ 23).
  change (e + -23) with (e - 23).
  apply round_scaled_exact; [lia | exact Hv].
Qed.

Lemma mul_one_l (x : f32) : F32.valid x = true -> F32.mul f1 x = x.
Proof. intros H. rewrite f32_mul_comm. now apply mul_one_r. Qed.

Lemma mul_neg_one_r (x : f32) :
  F32.valid x = true -> F32.mul x (F32.neg f1) = F32.neg x.
Proof. intros H. now rewrite mul_neg_r, mul_one_r. Qed.

(** ** Adding and multiplying zeros *)

Lemma f32_same_refl (x : f32) : f32_same x x.
Proof. now left. Qed.

Lemma same_add_zero (a x z : f32) :
  f32_same a x -> F32.is_zero z = true ->
  f32_same (F32.add a z) x /\ f32_same (F32.add z a) x.
Proof.
  intros [-> | [Ha Hx]] Hz.
  - destruct z as [sz | | |]; try discriminate Hz.
    destruct x as [s | s | | s m e];
      split; try (left; reflexivity);
      destruct s, sz; (right; split; reflexivity) || (left; reflexivity).
  - split; right; (split; [now apply add_zero_zero | exact Hx]).
Qed.

Lemma same_sub_zero (a x z : f32) :
  f32_same a x -> F32.is_zero z = true -> f32_same (F32.sub a z) x.
Proof.
  intros [-> | [Ha Hx]] Hz.
  - destruct z as [sz | | |]; try discriminate Hz.
    destruct x as [s | s | | s m e]; try (left; reflexivity).
    destruct s, sz; (right; split; reflexivity) || (left; reflexivity).
  - right. split; [now apply sub_zero_zero | exact Hx].
Qed.

Lemma mul_finite_zero (a z : f32) :
  F32.is_finite a = true -> F32.is_zero z = true ->
  F32.is_zero (F32.mul a z) = true /\ F32.is_zero (F32.mul z a) = true.
Proof.
  destruct a as [sa | | | sa ma ea], z as [sz | | |];
    try discriminate; intros _ _; split; reflexivity.
Qed.

Lemma regular_inv (x : f32) :
  f32_regular x = true -> F32.valid x = true /\ F32.is_finite x = true.
Proof. unfold f32_regular. intros H. now apply andb_prop in H. Qed.

Lemma mul_zero_of_finite_r (a z : f32) :
  F32.is_finite a = true -> F32.is_zero z = true ->
  F32.is_zero (F32.mul a z) = true.
Proof. intros Ha Hz. exact (proj1 (mul_finite_zero a z Ha Hz)). Qed.

Lemma mul_zero_of_finite_l (a z : f32) :
  F32.is_finite a = true -> F32.is_zero z = true ->
  F32.is_zero (F32.mul z a) = true.
Proof. intros Ha Hz. exact (proj2 (mul_finite_zero a z Ha Hz)). Qed.

Lemma same_add_zero_r (a x z : f32) :
  f32_same a x -> F32.is_zero z = true -> f32_same (F32.add a z) x.
Proof. intros H Hz. exact (proj1 (same_add_zero a x z H Hz)). Qed.

Lemma same_add_zero_l (a x z : f32) :
  f32_same a x -> F32.is_zero z = true -> f32_same (F32.add z a) x.
Proof. intros H Hz. exact (proj2 (same_add_zero a x z H Hz)). Qed.

Lemma same_zero (z x : f32) :
  F32.is_zero z = true -> F32.is_zero x = true -> f32_same z x.
Proof. intros Hz Hx. right. now split. Qed.

(** Sums and products in which all terms but one vanish. *)
Ltac solve_zero :=
  first [ reflexivity
        | assumption
        | apply mul_zero_of_finite_r; [assumption | reflexivity]
        | apply mul_zero_of_finite_l; [assumption | reflexivity]
        | apply add_zero_zero; solve_zero
        | apply sub_zero_zero; solve_zero ].

Ltac solve_same :=
  first [ apply f32_same_refl
        | rewrite mul_one_r by assumption; apply f32_same_refl
        | rewrite mul_one_l by assumption; apply f32_same_refl
        | apply same_sub_zero; [solve_same | solve_zero]
        | apply same_add_zero_r; [solve_same | solve_zero]
        | apply same_add_zero_l; [solve_same | solve_zero]
        | apply same_zero; solve_zero ].

(** ** Sign and absolute value *)

(** X7: [sign] only returns [1.0f] or [-1.0f]: it is [1.0f] for both
    zeros and [-1.0f] for a NaN; and for every valid binary32 [n],
    infinities and NaN included, [abs(n) * sign(n)] is exactly [n]. *)
Theorem abs_times_sign (n : f32) (Hn : F32.valid n = true) :
  (sign n = f1 \/ sign n = F32.neg f1)
  /\ (F32.is_zero n = true -> sign n = f1)
  /\ (F32.is_nan n = true -> sign n = F32.neg f1)
  /\ F32.mul (abs n) (sign n) = n.
Proof.
  destruct n as [s | s | | s m e].
  - split; [left; reflexivity |]. split; [reflexivity |].
    split; [discriminate | now destruct s].
  - split; [destruct s; (left; reflexivity) || (right; reflexivity) |].
    split; [discriminate |]. split; [discriminate | now destruct s].
  - split; [right; reflexivity |]. split; [discriminate |].
    split; reflexivity.
  - split; [destruct s; (left; reflexivity) || (right; reflexivity) |].
    split; [discriminate |]. split; [discriminate |]. destruct s.
    + change (abs (S754_finite true m e)) with (F32.neg (S754_finite true m e)).
      change (sign (S754_finite true m e)) with (F32.neg f1).
      rewrite mul_neg_neg. now apply mul_one_r.
    + change (abs (S754_finite false m e)) with (S754_finite false m e).
      change (sign (S754_finite false m e)) with f1.
      now apply mul_one_r.
Qed.

Lemma abs_times_sign_witness :
  F32.mul (abs (F32.neg f_milli)) (sign (F32.neg f_milli)) = F32.neg f_milli.
Proof.
  exact (proj2 (proj2 (proj2 (abs_times_sign (F32.neg f_milli) eq_refl)))).
Defined.

(** ** The inverse of a quaternion, in place and not *)

(** X8: on valid binary32 components, [inverse()] (which multiplies x, y
    and z by [-1]) leaves the quaternion that [inversed()] returns, and
    inverting twice gives the quaternion back exactly. *)
Theorem quaternion_inverse_agrees (q : quaternion)
  (Hx : F32.valid (quaternion_x q) = true)
  (Hy : F32.valid (quaternion_y q) = true)
  (Hz : F32.valid (quaternion_z q) = true) :
  quaternion_inverse q = quaternion_inversed q
  /\ quaternion_inversed (quaternion_inversed q) = q
  /\ quaternion_inverse (quaternion_inverse q) = q.
Proof.
  destruct q as [x y z w]. cbn [quaternion_x quaternion_y quaternion_z] in *.
  assert (E : forall a b c d,
             F32.valid a = true -> F32.valid b = true -> F32.valid c = true ->
             quaternion_inverse (mkquaternion a b c d)
             = mkquaternion (F32.neg a) (F32.neg b) (F32.neg c) d).
  { intros a b c d Ha Hb Hc.
    unfold quaternion_inverse, quaternion_set_x, quaternion_set_y,
      quaternion_set_z.
    cbn [quaternion_x quaternion_y quaternion_z quaternion_w].
    now rewrite !mul_neg_one_r. }
  assert (V : forall a, F32.valid a = true -> F32.valid (F32.neg a) = true)
    by (intros [s | s | | s m e] H; exact H).
  split; [| split].
  - now rewrite E.
  - unfold quaternion_inversed.
    cbn [quaternion_x quaternion_y quaternion_z quaternion_w].
    now rewrite !neg_involutive.
  - rewrite E by assumption. rewrite E by (apply V; assumption).
    now rewrite !neg_involutive.
Qed.

Lemma quaternion_inverse_agrees_witness :
  quaternion_inverse (mkquaternion f1 f2 f_milli f4)
  = quaternion_inversed (mkquaternion f1 f2 f_milli f4).
Proof.
  exact (proj1 (quaternion_inverse_agrees (mkquaternion f1 f2 f_milli f4)
                  eq_refl eq_refl eq_refl)).
Defined.

(** ** The default quaternion is neutral *)

(** X9: for every quaternion [q] whose components are valid finite
    binary32 values, [q * quaternion()] and [quaternion() * q] have the
    components of [q], up to the sign of a zero: the products with the
    default quaternion (0, 0, 0, 1) round nothing. *)
Theorem quaternion_default_neutral (q : quaternion)
  (Hq : quaternion_regular q = true) :
  quaternion_same (quaternion_mul q quaternion_default) q
  /\ quaternion_same (quaternion_mul quaternion_default q) q.
Proof.
  destruct q as [x y z w]. unfold quaternion_regular in Hq.
  cbn [quaternion_x quaternion_y quaternion_z quaternion_w] in Hq.
  apply andb_prop in Hq as [Hq Hw]. apply andb_prop in Hq as [Hq Hz].
  apply andb_prop in Hq as [Hx Hy].
  apply regular_inv in Hx as [Vx Fx]. apply regular_inv in Hy as [Vy Fy].
  apply regular_inv in Hz as [Vz Fz]. apply regular_inv in Hw as [Vw Fw].
  unfold quaternion_same, quaternion_mul, quaternion_default.
  cbn [quaternion_x quaternion_y quaternion_z quaternion_w].
  repeat split; solve_same.
Qed.

Lemma quaternion_default_neutral_witness :
  quaternion_same
    (quaternion_mul (mkquaternion f_half (F32.neg f_half) f0 f_milli)
                    quaternion_default)
    (mkquaternion f_half (F32.neg f_half) f0 f_milli).
Proof.
  exact (proj1 (quaternion_default_neutral
                  (mkquaternion f_half (F32.neg f_half) f0 f_milli) eq_refl)).
Defined.

(** ** A matrix from its translation and its rotation and scale *)

(** X10: for every matrix [m] with valid finite entries, the product
    [m.translation() * m.rotationAndScale()] is defined and is [m] with the
    fourth row replaced by (0, 0, 0, 1), up to the sign of a zero: the two
    parts recompose an affine matrix without rounding. *)
Theorem translation_times_rotationAndScale (m : float4x4)
  (Hm : float4x4_regular m = true) :
  exists p : float4x4,
    float4x4_mul (float4x4_translation m) (float4x4_rotationAndScale m) = Some p
    /\ float4x4_same p
         (mkfloat4x4 (rows_a m) (rows_b m) (rows_c m) (mkfloat4 f0 f0 f0 f1)).
Proof.
  destruct m as [[a0 a1 a2 a3] [b0 b1 b2 b3] [c0 c1 c2 c3] [d0 d1 d2 d3]].
  unfold float4x4_regular, float4_regular in Hm.
  cbn [rows_a rows_b rows_c rows_d float4_x float4_y float4_z float4_w] in Hm.
  repeat match goal with
         | H : _ && _ = true |- _ => apply andb_prop in H as [? ?]
         end.
  repeat match goal with
         | H : f32_regular _ = true |- _ => apply regular_inv in H as [? ?]
         end.
  eexists. split; [reflexivity |].
  unfold float4x4_same, float4_same, float4_dot, float4x4_translation,
    float4x4_rotationAndScale, float4_of_float3, float3_of_float4,
    m03, m13, m23.
  cbn [rows_a rows_b rows_c rows_d float4_x float4_y float4_z float4_w
       float3_x float3_y float3_z].
  repeat split; solve_same.
Qed.

Lemma translation_times_rotationAndScale_witness :
  exists p : float4x4,
    float4x4_mul (float4x4_translation rotation_z90)
                 (float4x4_rotationAndScale rotation_z90) = Some p
    /\ float4x4_same p
         (mkfloat4x4 (rows_a rotation_z90) (rows_b rotation_z90)
                     (rows_c rotation_z90) (mkfloat4 f0 f0 f0 f1)).
Proof. exact (translation_times_rotationAndScale rotation_z90 eq_refl). Defined.

(** ** Clamping and the order of binary32 values *)

Lemma ltb_key (x y : f32) :
  F32.is_nan x = false -> F32.is_nan y = false ->
  (F32.ltb x y = true <-> key_lt (order_key x) (order_key y)).
Proof.
  intros Hx Hy. destruct (compare_key x y Hx Hy) as (c & Hc & Hlt & _ & _).
  unfold F32.ltb, SFltb. rewrite Hc. rewrite <- Hlt.
  destruct c; split; intros H; try discriminate H; reflexivity.
Qed.

Lemma gtb_false_le (x y : f32) :
  F32.is_nan x = false -> F32.is_nan y = false ->
  F32.gtb x y = false -> F32.leb x y = true.
Proof.
  intros Hx Hy H. apply leb_key; trivial. apply key_not_lt_le.
  intros K. apply (gtb_key x y Hx Hy) in K. congruence.
Qed.

Lemma ltb_false_le (x y : f32) :
  F32.is_nan x = false -> F32.is_nan y = false ->
  F32.ltb x y = false -> F32.leb y x = true.
Proof.
  intros Hx Hy H. apply leb_key; trivial. apply key_not_lt_le.
  intros K. apply (ltb_key x y Hx Hy) in K. congruence.
Qed.

Lemma key_lt_irrefl_le (k l : Z * Z * Z) : key_le k l -> key_lt l k -> False.
Proof.
  unfold key_le, key_lt. destruct k as [[a1 a2] a3], l as [[b1 b2] b3].
  intros [H | H]; [lia | injection H as -> -> ->; lia].
Qed.

Lemma leb_gtb_false (x y : f32) :
  F32.is_nan x = false -> F32.is_nan y = false ->
  F32.leb x y = true -> F32.gtb x y = false.
Proof.
  intros Hx Hy H. destruct (F32.gtb x y) eqn:G; [exfalso | reflexivity].
  apply (leb_key x y Hx Hy) in H. apply (gtb_key x y Hx Hy) in G.
  exact (key_lt_irrefl_le _ _ H G).
Qed.

Lemma leb_ltb_false (x y : f32) :
  F32.is_nan x = false -> F32.is_nan y = false ->
  F32.leb x y = true -> F32.ltb y x = false.
Proof.
  intros Hx Hy H. destruct (F32.ltb y x) eqn:G; [exfalso | reflexivity].
  apply (leb_key x y Hx Hy) in H. apply (ltb_key y x Hy Hx) in G.
  exact (key_lt_irrefl_le _ _ H G).
Qed.

(** X11: [clamp(a, min, max)] with [min <= max] and no NaN among the
    three: the result lies between [min] and [max], and it is [a] itself
    when [a] already does. *)
Theorem clamp_in_range (a lo hi : f32)
  (Ha : F32.is_nan a = false) (Hlo : F32.is_nan lo = false)
  (Hhi : F32.is_nan hi = false) (Hle : F32.leb lo hi = true) :
  F32.leb lo (clamp a lo hi) = true /\ F32.leb (clamp a lo hi) hi = true
  /\ (F32.leb lo a = true -> F32.leb a hi = true -> clamp a lo hi = a).
Proof.
  unfold clamp.
  destruct (F32.gtb a hi) eqn:G; [| destruct (F32.ltb a lo) eqn:L].
  - split; [exact Hle |]. split; [now apply leb_refl |].
    intros _ K. rewrite (leb_gtb_false a hi Ha Hhi K) in G. discriminate G.
  - split; [now apply leb_refl |]. split; [exact Hle |].
    intros K _. rewrite (leb_ltb_false lo a Hlo Ha K) in L. discriminate L.
  - split; [now apply ltb_false_le |]. split; [now apply gtb_false_le |].
    reflexivity.
Qed.

Lemma clamp_in_range_witness :
  F32.leb f_milli (clamp f4 f_milli f2) = true
  /\ F32.leb (clamp f4 f_milli f2) f2 = true.
Proof.
  destruct (clamp_in_range f4 f_milli f2 eq_refl eq_refl eq_refl eq_refl)
    as (H1 & H2 & _).
  split; [exact H1 | exact H2].
Defined.

Lemma clamp01_cases (x : f32) :
  (F32.is_nan x = true /\ clamp01 x = x)
  \/ (F32.is_nan x = false
      /\ F32.leb f0 (clamp01 x) = true /\ F32.leb (clamp01 x) f1 = true).
Proof.
  destruct (F32.is_nan x) eqn:N.
  - left. split; [reflexivity |]. destruct x; try discriminate N. reflexivity.
  - right. split; [reflexivity |]. unfold clamp01, clamp.
    destruct (F32.gtb x f1) eqn:G; [| destruct (F32.ltb x f0) eqn:L].
    + split; reflexivity.
    + split; reflexivity.
    + split; [now apply ltb_false_le | now apply gtb_false_le].
Qed.

(** X12: [clamp01] and [inverseLerpClamped] never leave the unit
    interval: [clamp01(x)] is [x] when [x] is a NaN and lies in [0, 1]
    otherwise, and [inverseLerpClamped(a, b, c)] is a NaN or lies in
    [0, 1], for all arguments. *)
Theorem clamped_in_unit_interval (x a b c : f32) :
  ((F32.is_nan x = true /\ clamp01 x = x)
   \/ (F32.is_nan x = false
       /\ F32.leb f0 (clamp01 x) = true /\ F32.leb (clamp01 x) f1 = true))
  /\ (F32.is_nan (inverseLerpClamped a b c) = true
      \/ (F32.leb f0 (inverseLerpClamped a b c) = true
          /\ F32.leb (inverseLerpClamped a b c) f1 = true)).
Proof.
  split; [apply clamp01_cases |].
  unfold inverseLerpClamped. destruct (F32.eqb a b).
  - right. split; reflexivity.
  - destruct (clamp01_cases (F32.div (F32.sub c a) (F32.sub b a)))
      as [[N E] | (_ & H1 & H2)].
    + left. now rewrite E.
    + right. now split.
Qed.

(** X13: [max] and [min] on floats that are not NaN bound both
    arguments and return one of them each; when either argument is a NaN,
    [max(a, b)] is [b] and [min(a, b)] is [a]. *)
Theorem max_min_order (a b : f32) :
  if F32.is_nan a || F32.is_nan b
  then max a b = b /\ min a b = a
  else F32.leb a (max a b) = true /\ F32.leb b (max a b) = true
       /\ F32.leb (min a b) a = true /\ F32.leb (min a b) b = true
       /\ ((max a b = a /\ min a b = b) \/ (max a b = b /\ min a b = a)).
Proof.
  destruct (F32.is_nan a) eqn:Na; [| destruct (F32.is_nan b) eqn:Nb];
    cbn [orb].
  - destruct a; try discriminate Na. split; reflexivity.
  - destruct b; try discriminate Nb. unfold max, min, F32.gtb.
    destruct a; split; reflexivity.
  - unfold max, min. destruct (F32.gtb a b) eqn:G.
    + assert (L : F32.leb b a = true).
      { apply leb_key; trivial. apply key_lt_le. now apply gtb_key. }
      repeat split; try (now apply leb_refl); try exact L. now left.
    + assert (L : F32.leb a b = true) by now apply gtb_false_le.
      repeat split; try (now apply leb_refl); try exact L. now right.
Qed.

(** ** Interpolation at and beyond its end points *)

Lemma sub_one_zero (z : f32) : F32.is_zero z = true -> F32.sub f1 z = f1.
Proof. destruct z; try discriminate. reflexivity. Qed.

Lemma lerp_at_zero (a b z : f32) :
  f32_regular a = true -> f32_regular b = true -> F32.is_zero z = true ->
  f32_same (lerp a b z) a.
Proof.
  intros Ha Hb Hz.
  apply regular_inv in Ha as [Va Fa]. apply regular_inv in Hb as [Vb Fb].
  unfold lerp. rewrite sub_one_zero by exact Hz.
  apply same_add_zero_r; [solve_same |].
  now apply mul_zero_of_finite_l.
Qed.

Lemma lerp_at_one (a b : f32) :
  f32_regular a = true -> f32_regular b = true ->
  f32_same (lerp a b f1) b.
Proof.
  intros Ha Hb.
  apply regular_inv in Ha as [Va Fa]. apply regular_inv in Hb as [Vb Fb].
  unfold lerp. change (F32.sub f1 f1) with f0. solve_same.
Qed.

(** A float that is at most zero is clamped to a zero, one that is at
    least one to [1.0f]. *)
Lemma clamp01_low (t : f32) :
  F32.is_nan t = false -> F32.leb t f0 = true ->
  F32.is_zero (clamp01 t) = true.
Proof.
  intros Ht H. unfold clamp01, clamp.
  assert (G : F32.gtb t f1 = false).
  { destruct (F32.gtb t f1) eqn:G; [exfalso | reflexivity].
    apply (leb_key t f0 Ht eq_refl) in H. apply (gtb_key t f1 Ht eq_refl) in G.
    revert H G. unfold key_le, key_lt. cbn [order_key f0 f1 F32.zero].
    destruct (order_key t) as [[k1 k2] k3].
    intros [H | H]; [lia | injection H as -> -> ->; lia]. }
  rewrite G. destruct (F32.ltb t f0) eqn:L; [reflexivity |].
  destruct t as [s | s | | s m e]; try discriminate Ht; try reflexivity;
    destruct s; try discriminate H; discriminate L.
Qed.

Lemma clamp01_high (t : f32) :
  F32.is_nan t = false -> F32.leb f1 t = true -> clamp01 t = f1.
Proof.
  intros Ht H. unfold clamp01, clamp.
  destruct (F32.gtb t f1) eqn:G; [reflexivity |].
  assert (E : t = f1).
  { pose proof (gtb_false_le t f1 Ht eq_refl G) as K.
    apply (leb_key f1 t eq_refl Ht) in H. apply (leb_key t f1 Ht eq_refl) in K.
    assert (Ek : order_key t = order_key f1).
    { destruct K as [K | K]; [| exact K].
      exfalso. exact (key_lt_irrefl_le _ _ H K). }
    destruct t as [s | s | | s m e]; try discriminate Ht;
      try (destruct s; discriminate Ek).
    cbn [order_key f1] in Ek. destruct s; injection Ek as E1 E2; try lia.
    unfold f1. f_equal; congruence. }
  subst t. reflexivity.
Qed.

(** X14: for valid finite [a] and [b], [lerp(a, b, 0)] is [a] and
    [lerp(a, b, 1)] is [b], and [lerpClamped] saturates: for every [t <= 0]
    it returns [a], for every [t >= 1] (infinities included) it returns
    [b]; all up to the sign of a zero. *)
Theorem lerp_end_points (a b t : f32)
  (Ha : f32_regular a = true) (Hb : f32_regular b = true)
  (Ht : F32.is_nan t = false) :
  f32_same (lerp a b f0) a /\ f32_same (lerp a b f1) b
  /\ (F32.leb t f0 = true -> f32_same (lerpClamped a b t) a)
  /\ (F32.leb f1 t = true -> f32_same (lerpClamped a b t) b).
Proof.
  split; [now apply lerp_at_zero |]. split; [now apply lerp_at_one |].
  split; intros H.
  - change (lerpClamped a b t) with (lerp a b (clamp01 t)).
    apply lerp_at_zero; trivial. now apply clamp01_low.
  - change (lerpClamped a b t) with (lerp a b (clamp01 t)).
    rewrite clamp01_high by assumption. now apply lerp_at_one.
Qed.

Lemma lerp_end_points_witness :
  f32_same (lerp f_milli f4 f0) f_milli
  /\ f32_same (lerpClamped f_milli f4 (S754_infinity false)) f4.
Proof.
  destruct (lerp_end_points f_milli f4 (S754_infinity false)
              eq_refl eq_refl eq_refl) as (H0 & _ & _ & H1).
  split; [exact H0 | exact (H1 eq_refl)].
Defined.

(** ** Inverse interpolation and remapping at the end points *)

Lemma div_eucl_mul (m : positive) (k : Z) :
  0 <= k -> Z.div_eucl (Z.shiftl (Zpos m) k) (Zpos m) = (2 ^ k, 0).
Proof.
  intros Hk. rewrite Z.shiftl_mul_pow2 by exact Hk.
  pose proof (Z.div_mul (2 ^ k) (Zpos m)) as Hq.
  pose proof (Z.mod_mul (2 ^ k) (Zpos m)) as Hr.
  unfold Z.div, Z.modulo in Hq, Hr.
  rewrite (Z.mul_comm (Zpos m)).
  destruct (Z.div_eucl (2 ^ k * Zpos m) (Zpos m)) as [q r].
  f_equal; [apply Hq | apply Hr]; lia.
Qed.

(** A finite float that is not zero, divided by itself, is exactly one. *)
Lemma div_self (s : bool) (m : positive) (e : Z) :
  F32.div (S754_finite s m e) (S754_finite s m e) = f1.
Proof.
  unfold F32.div, SFdiv, SFdiv_core_binary.
  replace (Zdigits2 (Zpos m) + e - (Zdigits2 (Zpos m) + e)) with 0 by lia.
  rewrite Z.sub_diag.
  change (Z.min (fexp prec emax 0) 0) with (-24).
  change (0 - -24) with 24.
  cbv beta iota zeta.
  rewrite (div_eucl_mul m 24) by lia.
  replace (xorb s s) with false by now destruct s.
  destruct (Z.even (Zpos m)) eqn:Ev; unfold new_location; rewrite Ev;
    reflexivity.
Qed.

Lemma div_zero_finite (z : f32) (s : bool) (m : positive) (e : Z) :
  F32.is_zero z = true ->
  F32.is_zero (F32.div z (S754_finite s m e)) = true.
Proof. destruct z; try discriminate. reflexivity. Qed.

Lemma eqb_sym (a b : f32) : F32.eqb a b = true -> F32.eqb b a = true.
Proof.
  destruct (F32.is_nan a) eqn:Na;
    [destruct a; try discriminate Na; intros K; discriminate K |].
  destruct (F32.is_nan b) eqn:Nb;
    [destruct b; try discriminate Nb; destruct a; intros K; discriminate K |].
  destruct (compare_key a b Na Nb) as (c & Hc & _ & _ & Heq).
  destruct (compare_key b a Nb Na) as (c' & Hc' & _ & _ & Heq').
  unfold F32.eqb, SFeqb. rewrite Hc, Hc'. intros K.
  assert (E : c = Eq) by (destruct c; discriminate K || reflexivity).
  apply Heq in E. symmetry in E. apply Heq' in E. now rewrite E.
Qed.

(** A difference that is finite and not zero has operands that differ. *)
Lemma sub_finite_neq (a b : f32) (s : bool) (m : positive) (e : Z) :
  F32.is_finite a = true -> F32.sub b a = S754_finite s m e ->
  F32.eqb a b = false.
Proof.
  intros Fa H. destruct (F32.eqb a b) eqn:E; [exfalso | reflexivity].
  apply eqb_sym in E.
  pose proof (sub_eqb_zero a b Fa E) as Z0. rewrite H in Z0. discriminate Z0.
Qed.

(** X15: when [b - a] is a finite float that is not zero,
    [inverseLerp(a, b, a)] is a zero and [inverseLerp(a, b, b)] is exactly
    [1.0f]; hence [remap] sends the ends of the input interval to the ends
    of the output interval, [remap(a, b, lo, hi, a)] to [lo] and
    [remap(a, b, lo, hi, b)] to [hi], up to the sign of a zero, for valid
    finite [lo] and [hi]. *)
Theorem remap_end_points (a b lo hi : f32) (s : bool) (m : positive) (e : Z)
  (Ha : F32.is_finite a = true)
  (Hd : F32.sub b a = S754_finite s m e)
  (Hlo : f32_regular lo = true) (Hhi : f32_regular hi = true) :
  F32.is_zero (inverseLerp a b a) = true
  /\ inverseLerp a b b = f1
  /\ f32_same (remap a b lo hi a) lo
  /\ f32_same (remap a b lo hi b) hi.
Proof.
  pose proof (sub_finite_neq a b s m e Ha Hd) as Hne.
  assert (Z0 : F32.is_zero (inverseLerp a b a) = true).
  { unfold inverseLerp. rewrite Hne, Hd. apply div_zero_finite.
    destruct a as [sa | | | sa ma ea]; try discriminate Ha.
    - now destruct sa.
    - now rewrite sub_self. }
  assert (O1 : inverseLerp a b b = f1).
  { unfold inverseLerp. rewrite Hne, Hd. apply div_self. }
  split; [exact Z0 |]. split; [exact O1 |]. unfold remap. split.
  - now apply lerp_at_zero.
  - rewrite O1. now apply lerp_at_one.
Qed.

Lemma remap_end_points_witness :
  f32_same (remap f_milli f4 f2 f1 f_milli) f2
  /\ f32_same (remap f_milli f4 f2 f1 f4) f1.
Proof.
  destruct (remap_end_points f_milli f4 f2 f1 false 16773022 (-22)
              eq_refl eq_refl eq_refl eq_refl) as (_ & _ & H1 & H2).
  split; [exact H1 | exact H2].
Defined.

(** ** Wrapping of unsigned integers *)

Lemma u32_of_small (n : Z) : 0 <= n < 4294967296 -> u32_of n = n.
Proof. intros H. unfold u32_of. now apply Z.mod_small. Qed.

Lemma u32_of_range (n : Z) : 0 <= u32_of n < 4294967296.
Proof. unfold u32_of. apply Z.mod_pos_bound. lia. Qed.

(** X16: [wrap(n, min, max)] on [u32] values with [min <= max], unless
    the interval is the whole of [u32]: the result lies in [min, max]; on
    the interval itself [wrap] is the cyclic successor ([n + 1] below
    [max], [min] at [max]), not the identity. On the whole range
    ([min = 0], [max = 2^32 - 1]) the width wraps to 0 and [%] divides by
    zero. *)
Theorem wrap_cyclic_successor (n lo hi : Z)
  (Hn : 0 <= n < 4294967296) (Hlo : 0 <= lo) (Hhi : hi < 4294967296)
  (Hle : lo <= hi) (Hw : hi - lo + 1 < 4294967296) :
  (exists r, wrap n lo hi = Some r /\ lo <= r <= hi)
  /\ (lo <= n < hi -> wrap n lo hi = Some (n + 1))
  /\ (n = hi -> wrap n lo hi = Some lo)
  /\ wrap n 0 4294967295 = None.
Proof.
  assert (Hr : u32_of (hi - lo + 1) = hi - lo + 1) by (apply u32_of_small; lia).
  assert (Hz : (hi - lo + 1 =? 0) = false) by (apply Z.eqb_neq; lia).
  split; [| split; [| split]].
  - unfold wrap. rewrite Hr, Hz.
    pose proof (Z.mod_pos_bound (u32_of (n - lo + 1)) (hi - lo + 1)) as B.
    eexists. split; [reflexivity |].
    rewrite u32_of_small by lia. lia.
  - intros H. unfold wrap. rewrite Hr, Hz.
    rewrite (u32_of_small (n - lo + 1)) by lia.
    rewrite Z.mod_small by lia. rewrite u32_of_small by lia. f_equal. lia.
  - intros E. subst n. unfold wrap. rewrite !Hr, Hz.
    rewrite Z.mod_same by lia. rewrite u32_of_small by lia. f_equal.
  - reflexivity.
Qed.

Lemma wrap_cyclic_successor_witness :
  wrap 5 3 7 = Some 6 /\ wrap 7 3 7 = Some 3.
Proof.
  assert (H5 : 0 <= 5 < 4294967296) by lia.
  assert (H7 : 0 <= 7 < 4294967296) by lia.
  assert (H3 : 0 <= 3) by lia.
  assert (H7' : 7 < 4294967296) by lia.
  assert (H37 : 3 <= 7) by lia.
  assert (Hw : 7 - 3 + 1 < 4294967296) by lia.
  split.
  - destruct (wrap_cyclic_successor 5 3 7 H5 H3 H7' H37 Hw) as (_ & H & _).
    apply H. lia.
  - destruct (wrap_cyclic_successor 7 3 7 H7 H3 H7' H37 Hw) as (_ & _ & H & _).
    now apply H.
Defined.

(** X17: [wrapr(n, min, max)] on [u32] values with [min <= max] and an
    interval of at most 2^31 values: the result lies in [min, max], it is
    [n] itself when [n] is in the interval, and for [n >= min] it is
    [min + (n - min) mod range]. For [n < min] the subtraction wraps
    around 2^32 first, and the result is
    [min + (n - min + 2^32) mod range]. *)
Theorem wrapr_in_range (n lo hi : Z)
  (Hn : 0 <= n < 4294967296) (Hlo : 0 <= lo) (Hhi : hi < 4294967296)
  (Hle : lo <= hi) (Hw : hi - lo + 1 <= 2147483648) :
  (exists r, wrapr n lo hi = Some r /\ lo <= r <= hi)
  /\ (lo <= n <= hi -> wrapr n lo hi = Some n)
  /\ (lo <= n -> wrapr n lo hi = Some (lo + (n - lo) mod (hi - lo + 1)))
  /\ (n < lo ->
      wrapr n lo hi
      = Some (lo + (n - lo + 4294967296) mod (hi - lo + 1))).
Proof.
  assert (Hr : u32_of (hi - lo + 1) = hi - lo + 1) by (apply u32_of_small; lia).
  assert (Hz : (hi - lo + 1 =? 0) = false) by (apply Z.eqb_neq; lia).
  assert (G : forall d, 0 <= d < 4294967296 -> u32_of (n - lo) = d ->
              wrapr n lo hi = Some (lo + d mod (hi - lo + 1))).
  { intros d Hd E. unfold wrapr. rewrite Hr, Hz, E.
    pose proof (Z.mod_pos_bound d (hi - lo + 1)) as B.
    rewrite (u32_of_small (d mod (hi - lo + 1) + (hi - lo + 1))) by lia.
    rewrite <- (Z.mul_1_l (hi - lo + 1)) at 2.
    rewrite Z.mod_add by lia. rewrite Z.mod_mod by lia.
    rewrite u32_of_small by lia. f_equal. lia. }
  assert (D : 0 <= u32_of (n - lo) < 4294967296) by apply u32_of_range.
  split; [| split; [| split]].
  - rewrite (G _ D eq_refl).
    pose proof (Z.mod_pos_bound (u32_of (n - lo)) (hi - lo + 1)) as B.
    eexists. split; [reflexivity | lia].
  - intros H. rewrite (G (n - lo)); [| lia | apply u32_of_small; lia].
    rewrite Z.mod_small by lia. f_equal. lia.
  - intros H. apply G; [lia | apply u32_of_small; lia].
  - intros H. apply G; [lia |].
    unfold u32_of. rewrite <- (Z.mod_add _ 1) by lia.
    rewrite Z.mul_1_l. apply Z.mod_small. lia.
Qed.

Lemma wrapr_in_range_witness :
  wrapr 9 3 7 = Some 4 /\ wrapr 2 3 7 = Some 3.
Proof.
  assert (H9 : 0 <= 9 < 4294967296) by lia.
  assert (H2 : 0 <= 2 < 4294967296) by lia.
  assert (H3 : 0 <= 3) by lia.
  assert (H7' : 7 < 4294967296) by lia.
  assert (H37 : 3 <= 7) by lia.
  assert (Hw : 7 - 3 + 1 <= 2147483648) by lia.
  split.
  - destruct (wrapr_in_range 9 3 7 H9 H3 H7' H37 Hw) as (_ & _ & H & _).
    apply H. lia.
  - destruct (wrapr_in_range 2 3 7 H2 H3 H7' H37 Hw) as (_ & _ & _ & H).
    apply H. lia.
Defined.

Local Open Scope Q_scope.

(** ** The length of a normalized vector *)

Lemma to_Q_neg (x : f32) : F32.to_Q (F32.neg x) == - F32.to_Q x.
Proof.
  destruct x as [s | s | | s m e]; try reflexivity.
  unfold F32.neg, SFopp, F32.to_Q. fold (pow2 e). generalize (pow2 e).
  intros P. destruct s; cbn [negb cond_Zopp];
    change (Z.neg m) with (Z.opp (Zpos m)); rewrite ?inject_Z_opp; ring.
Qed.

(** The rounding error of a sum of positive normal numbers whose exact
    value is in the normal range. *)
Lemma add_spec (a b : f32) :
  pos_normal a -> pos_normal b ->
  pow2 (-126) <= F32.to_Q a + F32.to_Q b ->
  F32.to_Q a + F32.to_Q b < pow2 127 ->
  pos_normal (F32.add a b)
  /\ (F32.to_Q a + F32.to_Q b) * (1 - f32_eps) <= F32.to_Q (F32.add a b)
  /\ F32.to_Q (F32.add a b) <= (F32.to_Q a + F32.to_Q b) * (1 + f32_eps).
Proof.
  intros (ma & ea & -> & Ha) (mb & eb & -> & Hb).
  rewrite !to_Q_finite. intros Hlo Hhi.
  set (ez := Z.min ea eb).
  destruct (shl_align_le ma ea ez) as [Fa _]; [unfold ez; lia |].
  destruct (shl_align_le mb eb ez) as [Fb _]; [unfold ez; lia |].
  assert (HX : inject_Z (Zpos ma) * pow2 ea + inject_Z (Zpos mb) * pow2 eb
               == inject_Z (Zpos ma * 2 ^ (ea - ez) + Zpos mb * 2 ^ (eb - ez))
                  * pow2 ez).
  { rewrite (value_shift ma ea ez), (value_shift mb eb ez) by (unfold ez; lia).
    rewrite inject_Z_plus. ring. }
  rewrite HX in Hlo, Hhi |- *.
  unfold F32.add, SFadd. fold ez. cbn [cond_Zopp]. rewrite Fa, Fb.
  set (D := (Zpos ma * 2 ^ (ea - ez) + Zpos mb * 2 ^ (eb - ez))%Z) in *.
  assert (HD : (0 < D)%Z).
  { assert (0 < 2 ^ (ea - ez))%Z by (apply Z.pow_pos_nonneg; unfold ez; lia).
    assert (0 < 2 ^ (eb - ez))%Z by (apply Z.pow_pos_nonneg; unfold ez; lia).
    unfold D. nia. }
  destruct D as [| Dp | Dp]; try lia.
  cbn [binary_normalize].
  destruct (binary_round_normal false Dp ez Hlo Hhi)
    as (q & e & Hr & Hq & Hb1 & Hb2).
  rewrite Hr. split; [exists q, e; split; [reflexivity | exact Hq] |].
  rewrite to_Q_finite. split; [exact Hb1 | exact Hb2].
Qed.

Lemma pow2_lt (a b : Z) : (a < b)%Z -> pow2 a < pow2 b.
Proof. intros H. apply Qpower_lt_compat_l; [exact H | reflexivity]. Qed.

(** The magnitude of a moderate component. *)
Lemma moderate_value (s : bool) (m : positive) (e : Z) :
  f32_moderate (S754_finite s m e) = true ->
  pos_normal (S754_finite false m e)
  /\ pow2 (-60) <= inject_Z (Zpos m) * pow2 e
  /\ inject_Z (Zpos m) * pow2 e < pow2 61.
Proof.
  cbn [f32_moderate]. intros H.
  repeat (apply andb_prop in H; destruct H as [H ?]).
  apply Z.leb_le in H, H1, H0. apply Z.ltb_lt in H2.
  split.
  { exists m, e. split; [reflexivity |].
    change (2 ^ 23)%Z with 8388608%Z. change (2 ^ 24)%Z with 16777216%Z. lia. }
  pose proof (pow2_pos e) as Pe.
  rewrite Zle_Qle in H. rewrite Zlt_Qlt in H2.
  change (inject_Z 8388608) with (pow2 23) in H.
  change (inject_Z 16777216) with (pow2 24) in H2.
  split.
  - apply Qle_trans with (pow2 23 * pow2 e).
    + rewrite <- pow2_add. apply pow2_le. lia.
    + apply Qmult_le_compat_r; [exact H | apply Qlt_le_weak; exact Pe].
  - apply Qlt_le_trans with (pow2 24 * pow2 e).
    + apply Qmult_lt_compat_r; [exact Pe | exact H2].
    + rewrite <- pow2_add. apply pow2_le. lia.
Qed.

Lemma Qsquare_bounds (t lo hi : Q) :
  0 <= lo -> lo <= t -> t <= hi -> lo * lo <= t * t /\ t * t <= hi * hi.
Proof.
  intros H0 H1 H2.
  assert (0 <= t) by (apply Qle_trans with lo; assumption).
  split; apply Qmult_le_compat_nonneg; split; assumption.
Qed.

Lemma Qsquare_lt (t hi : Q) : 0 <= t -> t < hi -> t * t < hi * hi.
Proof.
  intros H0 H1.
  assert (0 < hi) by (apply Qle_lt_trans with t; assumption).
  apply Qle_lt_trans with (t * hi).
  - apply Qmult_le_compat_nonneg; split;
      [exact H0 | apply Qle_refl | exact H0 | apply Qlt_le_weak; exact H1].
  - apply Qmult_lt_compat_r; assumption.
Qed.

Lemma approx_ext (lo hi : Q) (s : f32) (X X' : Q) :
  X == X' -> approx lo hi s X -> approx lo hi s X'.
Proof.
  intros E [[H1 H2] | (N & R & L & U)]; [left | right].
  - split; [exact H1 | rewrite <- E; exact H2].
  - rewrite <- E. split; [exact N |]. split; [exact R |]. split; assumption.
Qed.

(** The square of a moderate component, as [x * x] computes it. *)
Lemma approx_square (x : f32) :
  f32_moderate x = true ->
  approx (1 - f32_eps) (1 + f32_eps) (F32.mul x x) (F32.to_Q x * F32.to_Q x)
  /\ 0 <= F32.to_Q x * F32.to_Q x
  /\ F32.to_Q x * F32.to_Q x < pow2 122.
Proof.
  destruct x as [s | s | | s m e]; try discriminate; intros Hx.
  - split; [left; split; [now destruct s | reflexivity] |].
    split; [apply Qle_refl | reflexivity].
  - destruct (moderate_value s m e Hx) as (Nx & Vlo & Vhi).
    set (A := inject_Z (Zpos m) * pow2 e) in *.
    assert (EA : F32.to_Q (S754_finite s m e) * F32.to_Q (S754_finite s m e)
                 == A * A).
    { unfold F32.to_Q, A. fold (pow2 e). generalize (pow2 e). intros P.
      destruct s; cbn [cond_Zopp];
        [change (- Zpos m)%Z with (Z.opp (Zpos m)); rewrite inject_Z_opp |];
        ring. }
    assert (P60 : 0 <= pow2 (-60)) by (apply Qlt_le_weak, pow2_pos).
    assert (A0 : 0 <= A) by (apply Qle_trans with (pow2 (-60)); assumption).
    destruct (Qsquare_bounds A (pow2 (-60)) A P60 Vlo (Qle_refl A)) as [Slo _].
    pose proof (Qsquare_lt A (pow2 61) A0 Vhi) as Shi.
    assert (E1 : pow2 (-60) * pow2 (-60) == pow2 (-120)) by reflexivity.
    assert (E2 : pow2 61 * pow2 61 == pow2 122) by reflexivity.
    rewrite E1 in Slo. rewrite E2 in Shi.
    assert (Rlo : pow2 (-126) <= A * A).
    { apply Qle_trans with (pow2 (-120)); [apply pow2_le; lia | exact Slo]. }
    assert (Rhi : A * A < pow2 127).
    { apply Qlt_le_trans with (pow2 122); [exact Shi | apply pow2_le; lia]. }
    assert (EM : F32.mul (S754_finite s m e) (S754_finite s m e)
                 = F32.mul (S754_finite false m e) (S754_finite false m e)).
    { unfold F32.mul, SFmul. now destruct s. }
    destruct (mul_spec _ _ Nx Nx) as (N & L & H);
      rewrite ?to_Q_finite; fold A; [exact Rlo | exact Rhi |].
    rewrite to_Q_finite in L, H. fold A in L, H.
    rewrite EM. split; [| rewrite EA; split;
                            [apply Qmult_le_0_compat; exact A0 | exact Shi]].
    apply (approx_ext _ _ _ (A * A)); [symmetry; exact EA |].
    right. split; [exact N |]. split; [exact Slo |]. split; assumption.
Qed.

Lemma approx_nonneg (lo hi : Q) (s : f32) (X : Q) :
  approx lo hi s X -> 0 <= X.
Proof.
  intros [[_ E] | (_ & H & _)].
  - rewrite E. apply Qle_refl.
  - apply Qle_trans with (pow2 (-120)); [apply Qlt_le_weak, pow2_pos | exact H].
Qed.

Lemma approx_weaken (lo hi lo' hi' : Q) (s : f32) (X : Q) :
  approx lo hi s X -> lo' <= lo -> hi <= hi' -> approx lo' hi' s X.
Proof.
  intros H Hlo Hhi. pose proof (approx_nonneg _ _ _ _ H) as X0.
  destruct H as [H | (N & R & L & U)]; [left; exact H | right].
  split; [exact N |]. split; [exact R |]. split.
  - apply Qle_trans with (X * lo); [| exact L].
    rewrite !(Qmult_comm X). apply Qmult_le_compat_r; assumption.
  - apply Qle_trans with (X * hi); [exact U |].
    rewrite !(Qmult_comm X). apply Qmult_le_compat_r; assumption.
Qed.

(** One addition of the sum of squares. *)
Lemma approx_add (lo hi : Q) (a b : f32) (A B : Q) :
  approx lo hi a A -> approx lo hi b B ->
  (1 # 2) <= lo -> lo <= 1 -> 1 <= hi -> hi <= 2 -> A + B < pow2 124 ->
  approx (lo * (1 - f32_eps)) (hi * (1 + f32_eps)) (F32.add a b) (A + B).
Proof.
  intros Ha Hb L1 L2 H1 H2 Hsum.
  pose proof (approx_nonneg _ _ _ _ Ha) as A0.
  pose proof (approx_nonneg _ _ _ _ Hb) as B0.
  assert (W : forall (s : f32) (X : Q),
             approx lo hi s X ->
             approx (lo * (1 - f32_eps)) (hi * (1 + f32_eps)) s X).
  { intros s X H. apply (approx_weaken lo hi); [exact H | |];
      unfold f32_eps.
    - assert (0 <= lo * (1 # 16777216)) by (apply Qmult_le_0_compat; lra). lra.
    - assert (0 <= hi * (1 # 16777216)) by (apply Qmult_le_0_compat; lra). lra. }
  destruct Ha as [[-> EA] | (Na & Ra & La & Ua)];
    destruct Hb as [[-> EB] | (Nb & Rb & Lb & Ub)].
  - left. split; [reflexivity | rewrite EA, EB; reflexivity].
  - assert (E : F32.add (S754_zero false) b = b)
      by (destruct Nb as (m & e & -> & _); reflexivity).
    rewrite E.
    assert (EX : A + B == B) by (rewrite EA; ring).
    destruct (W b B) as [[K _] | (N & R & L & U)];
      [right; split; [exact Nb | split; [exact Rb | split; assumption]] | |].
    + exfalso. destruct Nb as (m & e & K' & _). congruence.
    + right. rewrite EX. split; [exact N |]. split; [exact R |].
      split; assumption.
  - assert (E : F32.add a (S754_zero false) = a)
      by (destruct Na as (m & e & -> & _); reflexivity).
    rewrite E.
    assert (EX : A + B == A) by (rewrite EB; ring).
    destruct (W a A) as [[K _] | (N & R & L & U)];
      [right; split; [exact Na | split; [exact Ra | split; assumption]] | |].
    + exfalso. destruct Na as (m & e & K' & _). congruence.
    + right. rewrite EX. split; [exact N |]. split; [exact R |].
      split; assumption.
  - set (ta := F32.to_Q a) in *. set (tb := F32.to_Q b) in *.
    assert (P120 : pow2 (-120) == 1 # 1329227995784915872903807060280344576)
      by reflexivity.
    assert (Al : 0 <= A * lo) by (apply Qmult_le_0_compat; lra).
    assert (Bl : 0 <= B * lo) by (apply Qmult_le_0_compat; lra).
    assert (Ah : A * hi <= A * 2)
      by (rewrite !(Qmult_comm A); apply Qmult_le_compat_r; assumption).
    assert (Bh : B * hi <= B * 2)
      by (rewrite !(Qmult_comm B); apply Qmult_le_compat_r; assumption).
    assert (Al2 : A * (1 # 2) <= A * lo)
      by (rewrite !(Qmult_comm A); apply Qmult_le_compat_r; assumption).
    assert (Rlo : pow2 (-126) <= ta + tb).
    { apply Qle_trans with (pow2 (-121)); [apply pow2_le; lia |].
      assert (E : pow2 (-121) == pow2 (-120) * (1 # 2)) by reflexivity.
      rewrite E.
      assert (pow2 (-120) * (1 # 2) <= A * (1 # 2))
        by (apply Qmult_le_compat_r; [exact Ra | discriminate]).
      lra. }
    assert (Rhi : ta + tb < pow2 127).
    { apply Qle_lt_trans with ((A + B) * 2); [lra |].
      apply Qlt_le_trans with (pow2 124 * 2).
      - apply Qmult_lt_compat_r; [reflexivity | exact Hsum].
      - assert (E : pow2 124 * 2 == pow2 125) by reflexivity.
        rewrite E. apply pow2_le. lia. }
    destruct (add_spec a b Na Nb Rlo Rhi) as (N & L & U).
    fold ta tb in L, U. unfold f32_eps in *.
    right. split; [exact N |]. split; [lra |].
    set (T := F32.to_Q (F32.add a b)) in *.
    assert (Ahi : 0 <= A * hi) by (apply Qmult_le_0_compat; lra).
    assert (Bhi : 0 <= B * hi) by (apply Qmult_le_0_compat; lra).
    split; lra.
Qed.

Lemma is_pos_normal_of_value (s : f32) :
  pos_normal s -> pow2 (-126) <= F32.to_Q s -> F32.to_Q s < pow2 128 ->
  is_pos_normal s = true.
Proof.
  intros (m & e & -> & Hm). rewrite to_Q_finite. intros Hlo Hhi.
  pose proof (pow2_pos e) as Pe.
  assert (H24 : inject_Z (Zpos m) < pow2 24).
  { change (pow2 24) with (inject_Z 16777216). rewrite <- Zlt_Qlt.
    change (2 ^ 24)%Z with 16777216%Z in Hm. lia. }
  assert (H23 : pow2 23 <= inject_Z (Zpos m)).
  { change (pow2 23) with (inject_Z 8388608). rewrite <- Zle_Qle.
    change (2 ^ 23)%Z with 8388608%Z in Hm. lia. }
  assert (E1 : (-150 < e)%Z).
  { assert (K : pow2 (-126) < pow2 (24 + e)).
    { eapply Qle_lt_trans; [exact Hlo |]. rewrite pow2_add.
      apply Qmult_lt_compat_r; assumption. }
    apply pow2_lt_inv in K. lia. }
  assert (E2 : (e < 105)%Z).
  { assert (K : pow2 (23 + e) < pow2 128).
    { eapply Qle_lt_trans; [| exact Hhi]. rewrite pow2_add.
      apply Qmult_le_compat_r; [exact H23 | apply Qlt_le_weak; exact Pe]. }
    apply pow2_lt_inv in K. lia. }
  cbn [is_pos_normal]. change (2 ^ 23)%Z with 8388608%Z in Hm.
  change (2 ^ 24)%Z with 16777216%Z in Hm.
  apply andb_true_intro; split; [apply andb_true_intro; split;
    [apply andb_true_intro; split |] |].
  - apply Z.leb_le. lia.
  - apply Z.ltb_lt. lia.
  - apply Z.leb_le. lia.
  - apply Z.leb_le. lia.
Qed.

(** The result of [fisqrt] on a positive normal number is itself a
    positive normal number. *)
Lemma fisqrt_pos_normal (n : f32) :
  is_pos_normal n = true -> pos_normal (fisqrt n).
Proof.
  destruct n as [| | | [|] m e]; try discriminate. cbn [is_pos_normal].
  intros H. repeat (apply andb_prop in H; destruct H as [H ?]).
  apply Z.leb_le in H. apply Z.ltb_lt in H2.
  apply Z.leb_le in H1, H0.
  set (k := ((e + 23) / 2)%Z).
  set (r := ((e + 23) mod 2)%Z).
  assert (Hr : (0 <= r < 2)%Z) by (apply Z.mod_pos_bound; lia).
  assert (He : e = (-23 + r + 2 * k)%Z).
  { pose proof (Z.div_mod (e + 23) 2 ltac:(lia)). unfold r, k. lia. }
  assert (Hk : (-63 <= k <= 63)%Z) by lia.
  assert (Hchunks : fisqrt_chunks_ok (-23 + r) 1024 8388608 = true).
  { assert (Hr' : r = 0%Z \/ r = 1%Z) by lia.
    destruct Hr' as [-> | ->];
      [exact fisqrt_chunks_low | exact fisqrt_chunks_high]. }
  destruct (fisqrt_chunks_sound (-23 + r) 1024 8388608 m Hchunks)
    as (a & Hok & A1 & A2 & A3); [cbn; lia |].
  change (8192 * Z.of_nat 1024)%Z with 8388608%Z in A3.
  rewrite He.
  destruct (fisqrt_chunk_sound fisqrt_delta (-23 + r) k a (a + 8191) m Hok)
    as (Nr & _ & _);
    rewrite ?Pos2Z.inj_add; try (change (2 ^ 23)%Z with 8388608%Z);
    try (change (2 ^ 24)%Z with 16777216%Z); try lia.
  exact Nr.
Qed.

Lemma Qsquare_lt_inv (t b : Q) : 0 <= t -> 0 <= b -> t * t < b * b -> t < b.
Proof.
  intros Ht Hb H. destruct (Qlt_le_dec t b) as [L | G]; [exact L | exfalso].
  assert (b * b <= t * t)
    by (apply Qmult_le_compat_nonneg; split; assumption).
  apply (Qlt_irrefl (t * t)). eapply Qlt_le_trans; eassumption.
Qed.

(** The reciprocal square root of the computed sum of squares. *)
Lemma root_of_approx (lo hi : Q) (mag : f32) (S : Q) :
  approx lo hi mag S -> 0 < S -> S < pow2 124 ->
  (1 # 2) <= lo -> hi <= 2 ->
  let r := F32.to_Q (fisqrt mag) in
  pos_normal (fisqrt mag) /\ pow2 (-64) <= r
  /\ S * (r * r) * lo <= (1 + fisqrt_delta) * (1 + fisqrt_delta)
  /\ (1 - fisqrt_delta) * (1 - fisqrt_delta) <= S * (r * r) * hi.
Proof.
  intros [[_ E] | (N & R & L & U)] S0 S124 Hlo Hhi r.
  { exfalso. rewrite E in S0. discriminate S0. }
  set (T := F32.to_Q mag) in *.
  assert (SL : S * (1 # 2) <= S * lo)
    by (rewrite !(Qmult_comm S); apply Qmult_le_compat_r;
        [exact Hlo | apply Qlt_le_weak; exact S0]).
  assert (SH : S * hi <= S * 2)
    by (rewrite !(Qmult_comm S); apply Qmult_le_compat_r;
        [exact Hhi | apply Qlt_le_weak; exact S0]).
  assert (P120 : pow2 (-120) * (1 # 2) == pow2 (-121)) by reflexivity.
  assert (P124 : pow2 124 * 2 == pow2 125) by reflexivity.
  assert (T1 : pow2 (-121) <= T).
  { rewrite <- P120. apply Qle_trans with (S * (1 # 2)).
    - apply Qmult_le_compat_r; [exact R | discriminate].
    - lra. }
  assert (T2 : T < pow2 125).
  { rewrite <- P124. apply Qle_lt_trans with (S * 2); [lra |].
    apply Qmult_lt_compat_r; [reflexivity | exact S124]. }
  assert (IPN : is_pos_normal mag = true).
  { apply is_pos_normal_of_value; [exact N | |].
    - apply Qle_trans with (pow2 (-121)); [apply pow2_le; lia | exact T1].
    - apply Qlt_le_trans with (pow2 125); [exact T2 | apply pow2_le; lia]. }
  destruct (fisqrt_square_bounds mag IPN) as (_ & R0 & B1 & B2).
  fold r in R0, B1, B2. fold T in B1, B2.
  pose proof (fisqrt_pos_normal mag IPN) as Nr.
  assert (RR : 0 <= r * r)
    by (apply Qmult_le_0_compat; apply Qlt_le_weak; exact R0).
  split; [exact Nr |]. split; [| split].
  - destruct (Qlt_le_dec r (pow2 (-64))) as [K | K]; [exfalso | exact K].
    assert (K2 : r * r < pow2 (-64) * pow2 (-64)).
    { apply Qsquare_lt; [apply Qlt_le_weak; exact R0 | exact K]. }
    assert (E64 : pow2 (-64) * pow2 (-64) == pow2 (-128)) by reflexivity.
    rewrite E64 in K2.
    assert (K3 : r * r * T <= pow2 (-128) * pow2 125).
    { apply Qmult_le_compat_nonneg; split;
        [exact RR | apply Qlt_le_weak; exact K2
         | apply Qle_trans with (pow2 (-121));
             [apply Qlt_le_weak, pow2_pos | exact T1]
         | apply Qlt_le_weak; exact T2]. }
    assert (E3 : pow2 (-128) * pow2 125 == 1 # 8) by reflexivity.
    rewrite E3 in K3. unfold fisqrt_delta in B1. lra.
  - apply Qle_trans with (r * r * T); [| exact B2].
    setoid_replace (S * (r * r) * lo) with (r * r * (S * lo)) by ring.
    rewrite !(Qmult_comm (r * r)). apply Qmult_le_compat_r; assumption.
  - apply Qle_trans with (r * r * T); [exact B1 |].
    setoid_replace (S * (r * r) * hi) with (r * r * (S * hi)) by ring.
    rewrite !(Qmult_comm (r * r)). apply Qmult_le_compat_r; assumption.
Qed.

(** One component of the normalized vector, [x * root]. *)
Lemma component_scaled (x root : f32) (lo S : Q) :
  f32_moderate x = true -> pos_normal root ->
  pow2 (-64) <= F32.to_Q root ->
  (1 # 2) <= lo -> 0 < S ->
  F32.to_Q x * F32.to_Q x <= S ->
  S * (F32.to_Q root * F32.to_Q root) * lo
    <= (1 + fisqrt_delta) * (1 + fisqrt_delta) ->
  let X := F32.to_Q x * F32.to_Q x in
  let r := F32.to_Q root in
  let u := F32.to_Q (F32.mul x root) in
  F32.is_finite (F32.mul x root) = true
  /\ X * (r * r) * ((1 - f32_eps) * (1 - f32_eps)) <= u * u
  /\ u * u <= X * (r * r) * ((1 + f32_eps) * (1 + f32_eps))
  /\ Qabs (u - r * F32.to_Q x) <= f32_eps * r * Qabs (F32.to_Q x).
Proof.
  intros Hx Nr R64 Hlo S0 HXS HK X r u.
  pose proof (pos_normal_value root Nr) as R0. fold r in R0, R64, HK.
  destruct x as [s | s | | s m e]; try discriminate Hx.
  - (* a zero component *)
    assert (E : F32.mul (S754_zero s) root = S754_zero s).
    { destruct Nr as (mr & er & -> & _). cbn. now rewrite xorb_false_r. }
    unfold u, X. rewrite E. cbn [F32.to_Q].
    split; [reflexivity |].
    split; [ring_simplify; apply Qle_refl |].
    split; [ring_simplify; apply Qle_refl |].
    setoid_replace (0 - r * 0) with 0 by ring.
    cbn [Qabs Z.abs Qnum Qden]. ring_simplify. apply Qle_refl.
  - destruct (moderate_value s m e Hx) as (Nx & Vlo & Vhi).
    set (A := inject_Z (Zpos m) * pow2 e) in *.
    assert (A0 : 0 < A)
      by (apply Qlt_le_trans with (pow2 (-60)); [apply pow2_pos | exact Vlo]).
    assert (EX : F32.to_Q (S754_finite s m e)
                 == (if s then - A else A)).
    { unfold F32.to_Q, A. fold (pow2 e). generalize (pow2 e). intros P.
      destruct s; cbn [cond_Zopp];
        [change (- Zpos m)%Z with (Z.opp (Zpos m)); rewrite inject_Z_opp |];
        ring. }
    assert (EXX : X == A * A) by (unfold X; rewrite EX; destruct s; ring).
    assert (EM : F32.mul (S754_finite s m e) root
                 = if s then F32.neg (F32.mul (S754_finite false m e) root)
                   else F32.mul (S754_finite false m e) root).
    { destruct s; [| reflexivity].
      change (S754_finite true m e) with (F32.neg (S754_finite false m e)).
      apply mul_neg_l. }
    set (u' := F32.mul (S754_finite false m e) root) in *.
    (* the exact product is in the normal range *)
    assert (AR0 : 0 <= A * r)
      by (apply Qmult_le_0_compat; apply Qlt_le_weak; assumption).
    assert (Rlo : pow2 (-126) <= A * r).
    { apply Qle_trans with (pow2 (-60) * pow2 (-64)).
      - rewrite <- pow2_add. apply pow2_le. lia.
      - apply Qmult_le_compat_nonneg; split;
          [apply Qlt_le_weak, pow2_pos | exact Vlo
           | apply Qlt_le_weak, pow2_pos | exact R64]. }
    assert (Rhi : A * r < pow2 127).
    { apply Qlt_le_trans with 2; [| change 2 with (pow2 1); apply pow2_le; lia].
      apply Qsquare_lt_inv; [exact AR0 | discriminate |].
      assert (RR : 0 <= r * r)
        by (apply Qmult_le_0_compat; apply Qlt_le_weak; exact R0).
      assert (K1 : A * A * (r * r) <= S * (r * r))
        by (apply Qmult_le_compat_r; [rewrite <- EXX; exact HXS | exact RR]).
      assert (K2 : S * (r * r) * (1 # 2) <= S * (r * r) * lo).
      { rewrite !(Qmult_comm (S * (r * r))). apply Qmult_le_compat_r;
          [exact Hlo |].
        apply Qmult_le_0_compat; [apply Qlt_le_weak; exact S0 | exact RR]. }
      setoid_replace (A * r * (A * r)) with (A * A * (r * r)) by ring.
      unfold fisqrt_delta in HK. lra. }
    destruct (mul_spec _ _ Nx Nr) as (N & L & U);
      rewrite ?to_Q_finite; fold A r; [exact Rlo | exact Rhi |].
    rewrite to_Q_finite in L, U. fold A r u' in L, U, N.
    set (t := F32.to_Q u') in *.
    assert (Eu : u == (if s then - t else t)).
    { unfold u. rewrite EM. destruct s; [apply to_Q_neg | reflexivity]. }
    assert (Euu : u * u == t * t) by (rewrite Eu; destruct s; ring).
    destruct eps_bounds as [Em Ep].
    assert (L0 : 0 <= A * r * (1 - f32_eps))
      by (apply Qmult_le_0_compat; [exact AR0 | apply Qlt_le_weak; exact Em]).
    destruct (Qsquare_bounds t _ _ L0 L U) as [SL SU].
    split; [| split; [| split]].
    + rewrite EM. destruct N as (q & eq & K & _).
      destruct s; rewrite K; reflexivity.
    + rewrite Euu, EXX. eapply Qle_trans; [| exact SL].
      apply Qle_lteq. right. ring.
    + rewrite Euu, EXX. eapply Qle_trans; [exact SU |].
      apply Qle_lteq. right. ring.
    + rewrite Eu, EX.
      assert (EA : Qabs (if s then - A else A) == A).
      { destruct s; [rewrite Qabs_opp |]; apply Qabs_pos;
          apply Qlt_le_weak; exact A0. }
      rewrite EA.
      assert (ED : Qabs ((if s then - t else t) - r * (if s then - A else A))
                   == Qabs (t - A * r)).
      { destruct s.
        - setoid_replace (- t - r * - A) with (- (t - A * r)) by ring.
          apply Qabs_opp.
        - setoid_replace (t - r * A) with (t - A * r) by ring. reflexivity. }
      rewrite ED. apply Qabs_Qle_condition. unfold f32_eps in *. split; lra.
Qed.

Lemma moderate_square_pos (x : f32) :
  f32_moderate x = true -> F32.is_zero x = false ->
  0 < F32.to_Q x * F32.to_Q x.
Proof.
  destruct x as [s | s | | s m e]; try discriminate; intros Hx _.
  destruct (moderate_value s m e Hx) as (_ & Vlo & _).
  set (A := inject_Z (Zpos m) * pow2 e) in *.
  assert (A0 : 0 < A)
    by (apply Qlt_le_trans with (pow2 (-60)); [apply pow2_pos | exact Vlo]).
  assert (EX : F32.to_Q (S754_finite s m e) * F32.to_Q (S754_finite s m e)
               == A * A).
  { unfold F32.to_Q, A. fold (pow2 e). generalize (pow2 e). intros P.
    destruct s; cbn [cond_Zopp];
      [change (- Zpos m)%Z with (Z.opp (Zpos m)); rewrite inject_Z_opp |];
      ring. }
  rewrite EX. apply Qmult_lt_0_compat; exact A0.
Qed.

Ltac qconst := apply Qle_bool_iff; reflexivity.

(** The components of a normalized vector, from the computed sum of
    squares [mag] of the exact sum [S]. *)
Lemma normalized_components (mag : f32) (S : Q) :
  approx lo4 hi4 mag S -> 0 < S -> S < pow2 124 ->
  let r := F32.to_Q (fisqrt mag) in
  0 < r
  /\ S * (r * r) * lo4 <= (1 + fisqrt_delta) * (1 + fisqrt_delta)
  /\ (1 - fisqrt_delta) * (1 - fisqrt_delta) <= S * (r * r) * hi4
  /\ forall x : f32,
       f32_moderate x = true -> F32.to_Q x * F32.to_Q x <= S ->
       let X := F32.to_Q x * F32.to_Q x in
       let u := F32.to_Q (F32.mul x (fisqrt mag)) in
       f32_scaled r (F32.mul x (fisqrt mag)) x
       /\ X * (r * r) * ((1 - f32_eps) * (1 - f32_eps)) <= u * u
       /\ u * u <= X * (r * r) * ((1 + f32_eps) * (1 + f32_eps)).
Proof.
  intros Ha S0 S124 r.
  assert (L4 : (1 # 2) <= lo4) by qconst.
  assert (H4 : hi4 <= 2) by qconst.
  destruct (root_of_approx lo4 hi4 mag S Ha S0 S124 L4 H4)
    as (Nr & R64 & K1 & K2).
  fold r in R64, K1, K2.
  split; [apply (pos_normal_value _ Nr) |]. split; [exact K1 |].
  split; [exact K2 |]. intros x Hx HXS X u.
  destruct (component_scaled x (fisqrt mag) lo4 S Hx Nr R64 L4 S0 HXS K1)
    as (F & B1 & B2 & D).
  split; [split; [exact F | exact D] |]. split; [exact B1 | exact B2].
Qed.

Local Close Scope Q_scope.
Local Open Scope R_scope.

Lemma Q2R_one : Q2R 1 = 1.
Proof. unfold Q2R. cbn. Lra.lra. Qed.

(** From the bounds on the squared length to the length. *)
Lemma length_near_one (U P : Q) :
  (P * lo4 <= (1 + fisqrt_delta) * (1 + fisqrt_delta))%Q ->
  ((1 - fisqrt_delta) * (1 - fisqrt_delta) <= P * hi4)%Q ->
  (P * ((1 - f32_eps) * (1 - f32_eps)) <= U)%Q ->
  (U <= P * ((1 + f32_eps) * (1 + f32_eps)))%Q ->
  Rabs (sqrt (Q2R U) - 1) <= 2 / 1000.
Proof.
  intros H1 H2 H3 H4.
  assert (B : ((1 - (2 # 1000)) * (1 - (2 # 1000)) <= U
               /\ U <= (1 + (2 # 1000)) * (1 + (2 # 1000)))%Q).
  { unfold lo4, hi4, fisqrt_delta, f32_eps in *. split; lra. }
  destruct B as [B1 B2]. apply Qle_Rle in B1, B2.
  rewrite !Q2R_mult in B1, B2. rewrite Q2R_minus in B1. rewrite Q2R_plus in B2.
  rewrite Q2R_one in B1, B2.
  replace (Q2R (2 # 1000)) with (2 / 1000) in B1, B2
    by (unfold Q2R; cbn; Lra.lra).
  assert (U0 : 0 < Q2R U) by Lra.nra.
  apply square_bounds.
  - apply sqrt_lt_R0. exact U0.
  - Lra.lra.
  - rewrite sqrt_sqrt by Lra.lra. Lra.lra.
Qed.

Local Close Scope R_scope.
Local Open Scope Q_scope.

(** X18: for every [float3] whose components are zeros or normal numbers
    of magnitude between 2^-60 and 2^61, not all zero: [normalize()]
    leaves the vector that [normalized()] returns; its components are
    finite; its Euclidean length, in exact arithmetic, is within 0.002 of
    1; and each component is the input component times one positive
    factor [rho] (the value of [fisqrt(sqrMagnitude())]), up to a relative
    rounding error of 2^-24, so the direction is kept. *)
Theorem float3_normalized_length (v : float3)
  (Hv : float3_moderate v = true) (Hnz : float3_is_zero v = false) :
  float3_normalize v = float3_normalized v
  /\ float3_finite (float3_normalized v) = true
  /\ (Rabs (float3_length (float3_normalized v) - 1) <= 2 / 1000)%R
  /\ exists rho : Q,
       0 < rho
       /\ f32_scaled rho (float3_x (float3_normalized v)) (float3_x v)
       /\ f32_scaled rho (float3_y (float3_normalized v)) (float3_y v)
       /\ f32_scaled rho (float3_z (float3_normalized v)) (float3_z v).
Proof.
  destruct v as [x y z]. unfold float3_moderate, float3_is_zero in *.
  cbn [float3_x float3_y float3_z] in *.
  apply andb_prop in Hv as [Hv Hz]. apply andb_prop in Hv as [Hx Hy].
  split; [reflexivity |].
  destruct (approx_square x Hx) as (Ax & X0 & X1).
  destruct (approx_square y Hy) as (Ay & Y0 & Y1).
  destruct (approx_square z Hz) as (Az & Z0 & Z1).
  set (X := F32.to_Q x * F32.to_Q x) in *.
  set (Y := F32.to_Q y * F32.to_Q y) in *.
  set (Z := F32.to_Q z * F32.to_Q z) in *.
  assert (P122 : pow2 122 * 4 == pow2 124) by reflexivity.
  assert (S0 : 0 < X + Y + Z).
  { destruct (F32.is_zero x) eqn:Zx; [destruct (F32.is_zero y) eqn:Zy |].
    - cbn [andb] in Hnz. pose proof (moderate_square_pos z Hz Hnz) as K.
      fold Z in K. lra.
    - pose proof (moderate_square_pos y Hy Zy) as K. fold Y in K. lra.
    - pose proof (moderate_square_pos x Hx Zx) as K. fold X in K. lra. }
  assert (S1 : X + Y + Z < pow2 124) by lra.
  assert (A2 : approx ((1 - f32_eps) * (1 - f32_eps))
                      ((1 + f32_eps) * (1 + f32_eps))
                      (F32.add (F32.mul x x) (F32.mul y y)) (X + Y)).
  { apply approx_add; try assumption; try qconst. lra. }
  assert (A3 : approx ((1 - f32_eps) * (1 - f32_eps) * (1 - f32_eps))
                      ((1 + f32_eps) * (1 + f32_eps) * (1 + f32_eps))
                      (float3_sqrMagnitude (mkfloat3 x y z)) (X + Y + Z)).
  { unfold float3_sqrMagnitude. cbn [float3_x float3_y float3_z].
    apply approx_add; try assumption; try qconst.
    apply (approx_weaken _ _ _ _ _ _ Az); qconst. }
  apply (fun H => approx_weaken _ _ lo4 hi4 _ _ H) in A3; try qconst.
  destruct (normalized_components _ _ A3 S0 S1) as (R0 & K1 & K2 & C).
  unfold float3_normalized. cbn [float3_x float3_y float3_z].
  set (mag := float3_sqrMagnitude (mkfloat3 x y z)) in *.
  set (r := F32.to_Q (fisqrt mag)) in *.
  destruct (C x Hx) as (Dx & Lx & Ux); [fold X; lra |].
  destruct (C y Hy) as (Dy & Ly & Uy); [fold Y; lra |].
  destruct (C z Hz) as (Dz & Lz & Uz); [fold Z; lra |].
  fold X in Lx, Ux. fold Y in Ly, Uy. fold Z in Lz, Uz.
  split; [| split].
  - unfold float3_finite. cbn [float3_x float3_y float3_z].
    destruct Dx as [-> _], Dy as [-> _], Dz as [-> _]. reflexivity.
  - unfold float3_length, to_R. cbn [float3_x float3_y float3_z].
    rewrite <- !Q2R_mult, <- !Q2R_plus.
    apply (length_near_one _ ((X + Y + Z) * (r * r))); try assumption;
      unfold f32_eps in *; lra.
  - exists r. split; [exact R0 |]. split; [exact Dx |]. split; assumption.
Qed.

Lemma float3_normalized_length_witness :
  (Rabs (float3_length (float3_normalized (mkfloat3 f1 (F32.neg f2) f0)) - 1)
   <= 2 / 1000)%R.
Proof.
  exact (proj1 (proj2 (proj2 (float3_normalized_length
                                (mkfloat3 f1 (F32.neg f2) f0)
                                eq_refl eq_refl)))).
Defined.

(** X19: for every [float2] whose components are zeros or normal numbers
    of magnitude between 2^-60 and 2^61, not both zero: [normalize()]
    leaves the vector that [normalized()] returns, its components are
    finite, its Euclidean length in exact arithmetic is within 0.002 of 1,
    and each component is the input component times one positive factor,
    up to a relative rounding error of 2^-24. *)
Theorem float2_normalized_length (v : float2)
  (Hv : float2_moderate v = true) (Hnz : float2_is_zero v = false) :
  float2_normalize v = float2_normalized v
  /\ float2_finite (float2_normalized v) = true
  /\ (Rabs (float2_length (float2_normalized v) - 1) <= 2 / 1000)%R
  /\ exists rho : Q,
       0 < rho
       /\ f32_scaled rho (float2_x (float2_normalized v)) (float2_x v)
       /\ f32_scaled rho (float2_y (float2_normalized v)) (float2_y v).
Proof.
  destruct v as [x y]. unfold float2_moderate, float2_is_zero in *.
  cbn [float2_x float2_y] in *.
  apply andb_prop in Hv as [Hx Hy].
  split; [reflexivity |].
  destruct (approx_square x Hx) as (Ax & X0 & X1).
  destruct (approx_square y Hy) as (Ay & Y0 & Y1).
  set (X := F32.to_Q x * F32.to_Q x) in *.
  set (Y := F32.to_Q y * F32.to_Q y) in *.
  assert (P122 : pow2 122 * 4 == pow2 124) by reflexivity.
  assert (S0 : 0 < X + Y).
  { destruct (F32.is_zero x) eqn:Zx.
    - cbn [andb] in Hnz. pose proof (moderate_square_pos y Hy Hnz) as K.
      fold Y in K. lra.
    - pose proof (moderate_square_pos x Hx Zx) as K. fold X in K. lra. }
  assert (S1 : X + Y < pow2 124) by lra.
  assert (A2 : approx ((1 - f32_eps) * (1 - f32_eps))
                      ((1 + f32_eps) * (1 + f32_eps))
                      (float2_sqrMagnitude (mkfloat2 x y)) (X + Y)).
  { unfold float2_sqrMagnitude. cbn [float2_x float2_y].
    apply approx_add; try assumption; try qconst. }
  apply (fun H => approx_weaken _ _ lo4 hi4 _ _ H) in A2; try qconst.
  destruct (normalized_components _ _ A2 S0 S1) as (R0 & K1 & K2 & C).
  unfold float2_normalized. cbn [float2_x float2_y].
  set (mag := float2_sqrMagnitude (mkfloat2 x y)) in *.
  set (r := F32.to_Q (fisqrt mag)) in *.
  destruct (C x Hx) as (Dx & Lx & Ux); [fold X; lra |].
  destruct (C y Hy) as (Dy & Ly & Uy); [fold Y; lra |].
  fold X in Lx, Ux. fold Y in Ly, Uy.
  split; [| split].
  - unfold float2_finite. cbn [float2_x float2_y].
    destruct Dx as [-> _], Dy as [-> _]. reflexivity.
  - unfold float2_length, to_R. cbn [float2_x float2_y].
    rewrite <- !Q2R_mult, <- !Q2R_plus.
    apply (length_near_one _ ((X + Y) * (r * r))); try assumption;
      unfold f32_eps in *; lra.
  - exists r. split; [exact R0 |]. split; assumption.
Qed.

Lemma float2_normalized_length_witness :
  (Rabs (float2_length (float2_normalized (mkfloat2 f_milli f4)) - 1)
   <= 2 / 1000)%R.
Proof.
  exact (proj1 (proj2 (proj2 (float2_normalized_length
                                (mkfloat2 f_milli f4) eq_refl eq_refl)))).
Defined.

(** The sum of four squares, as [sqrMagnitude] of [float4] and of
    [quaternion] computes it. *)
Lemma approx_four_squares (x y z w : f32) :
  f32_moderate x = true -> f32_moderate y = true ->
  f32_moderate z = true -> f32_moderate w = true ->
  F32.is_zero x && F32.is_zero y && F32.is_zero z && F32.is_zero w = false ->
  let S := F32.to_Q x * F32.to_Q x + F32.to_Q y * F32.to_Q y
           + F32.to_Q z * F32.to_Q z + F32.to_Q w * F32.to_Q w in
  approx lo4 hi4
    (F32.add (F32.add (F32.add (F32.mul x x) (F32.mul y y)) (F32.mul z z))
             (F32.mul w w)) S
  /\ 0 < S /\ S < pow2 124
  /\ F32.to_Q x * F32.to_Q x <= S /\ F32.to_Q y * F32.to_Q y <= S
  /\ F32.to_Q z * F32.to_Q z <= S /\ F32.to_Q w * F32.to_Q w <= S.
Proof.
  intros Hx Hy Hz Hw Hnz.
  destruct (approx_square x Hx) as (Ax & X0 & X1).
  destruct (approx_square y Hy) as (Ay & Y0 & Y1).
  destruct (approx_square z Hz) as (Az & Z0 & Z1).
  destruct (approx_square w Hw) as (Aw & W0 & W1).
  set (X := F32.to_Q x * F32.to_Q x) in *.
  set (Y := F32.to_Q y * F32.to_Q y) in *.
  set (Z := F32.to_Q z * F32.to_Q z) in *.
  set (W := F32.to_Q w * F32.to_Q w) in *.
  assert (P122 : pow2 122 * 4 == pow2 124) by reflexivity.
  cbv zeta.
  assert (S0 : 0 < X + Y + Z + W).
  { destruct (F32.is_zero x) eqn:Zx; [destruct (F32.is_zero y) eqn:Zy;
      [destruct (F32.is_zero z) eqn:Zz |] |].
    - cbn [andb] in Hnz. pose proof (moderate_square_pos w Hw Hnz) as K.
      fold W in K. lra.
    - pose proof (moderate_square_pos z Hz Zz) as K. fold Z in K. lra.
    - pose proof (moderate_square_pos y Hy Zy) as K. fold Y in K. lra.
    - pose proof (moderate_square_pos x Hx Zx) as K. fold X in K. lra. }
  assert (S1 : X + Y + Z + W < pow2 124) by lra.
  assert (A2 : approx ((1 - f32_eps) * (1 - f32_eps))
                      ((1 + f32_eps) * (1 + f32_eps))
                      (F32.add (F32.mul x x) (F32.mul y y)) (X + Y)).
  { apply approx_add; try assumption; try qconst. lra. }
  assert (A3 : approx ((1 - f32_eps) * (1 - f32_eps) * (1 - f32_eps))
                      ((1 + f32_eps) * (1 + f32_eps) * (1 + f32_eps))
                      (F32.add (F32.add (F32.mul x x) (F32.mul y y))
                               (F32.mul z z)) (X + Y + Z)).
  { apply approx_add; try assumption; try qconst; [| lra].
    apply (approx_weaken _ _ _ _ _ _ Az); qconst. }
  assert (A4 : approx lo4 hi4
                 (F32.add (F32.add (F32.add (F32.mul x x) (F32.mul y y))
                                   (F32.mul z z)) (F32.mul w w))
                 (X + Y + Z + W)).
  { unfold lo4, hi4. apply approx_add; try assumption; try qconst.
    apply (approx_weaken _ _ _ _ _ _ Aw); qconst. }
  split; [exact A4 |]. split; [exact S0 |]. split; [exact S1 |].
  repeat split; lra.
Qed.

(** X20: for every [float4] whose components are zeros or normal numbers
    of magnitude between 2^-60 and 2^61, not all zero: [normalize()]
    leaves the vector that [normalized()] returns, its components are
    finite, its Euclidean length in exact arithmetic is within 0.002 of 1,
    and each component is the input component times one positive factor,
    up to a relative rounding error of 2^-24. *)
Theorem float4_normalized_length (v : float4)
  (Hv : float4_moderate v = true) (Hnz : float4_is_zero v = false) :
  float4_normalize v = float4_normalized v
  /\ float4_finite (float4_normalized v) = true
  /\ (Rabs (float4_length (float4_normalized v) - 1) <= 2 / 1000)%R
  /\ exists rho : Q,
       0 < rho
       /\ f32_scaled rho (float4_x (float4_normalized v)) (float4_x v)
       /\ f32_scaled rho (float4_y (float4_normalized v)) (float4_y v)
       /\ f32_scaled rho (float4_z (float4_normalized v)) (float4_z v)
       /\ f32_scaled rho (float4_w (float4_normalized v)) (float4_w v).
Proof.
  destruct v as [x y z w]. unfold float4_moderate, float4_is_zero in *.
  cbn [float4_x float4_y float4_z float4_w] in *.
  apply andb_prop in Hv as [Hv Hw]. apply andb_prop in Hv as [Hv Hz].
  apply andb_prop in Hv as [Hx Hy].
  split; [reflexivity |].
  destruct (approx_four_squares x y z w Hx Hy Hz Hw Hnz)
    as (A4 & S0 & S1 & BX & BY & BZ & BW).
  destruct (normalized_components _ _ A4 S0 S1) as (R0 & K1 & K2 & C).
  unfold float4_normalized, float4_sqrMagnitude.
  cbn [float4_x float4_y float4_z float4_w].
  set (mag := F32.add _ (F32.mul w w)) in *.
  set (r := F32.to_Q (fisqrt mag)) in *.
  destruct (C x Hx BX) as (Dx & Lx & Ux).
  destruct (C y Hy BY) as (Dy & Ly & Uy).
  destruct (C z Hz BZ) as (Dz & Lz & Uz).
  destruct (C w Hw BW) as (Dw & Lw & Uw).
  split; [| split].
  - unfold float4_finite. cbn [float4_x float4_y float4_z float4_w].
    destruct Dx as [-> _], Dy as [-> _], Dz as [-> _], Dw as [-> _].
    reflexivity.
  - unfold float4_length, to_R. cbn [float4_x float4_y float4_z float4_w].
    rewrite <- !Q2R_mult, <- !Q2R_plus.
    apply (length_near_one _ _ K1 K2); unfold f32_eps in *; lra.
  - exists r. split; [exact R0 |]. split; [exact Dx |]. split; [exact Dy |].
    split; assumption.
Qed.

Lemma float4_normalized_length_witness :
  (Rabs (float4_length (float4_normalized (mkfloat4 f1 f0 (F32.neg f4) f2)) - 1)
   <= 2 / 1000)%R.
Proof.
  exact (proj1 (proj2 (proj2 (float4_normalized_length
                                (mkfloat4 f1 f0 (F32.neg f4) f2)
                                eq_refl eq_refl)))).
Defined.

(** X21: for every [quaternion] whose components are zeros or normal
    numbers of magnitude between 2^-60 and 2^61, not all zero:
    [normalize()] leaves the quaternion that [normalized()] returns, its
    norm in exact arithmetic is within 0.002 of 1 (a unit quaternion up to
    0.2%), and each component is the input component times one positive
    factor, up to a relative rounding error of 2^-24. *)
Theorem quaternion_normalized_length (q : quaternion)
  (Hq : quaternion_moderate q = true) (Hnz : quaternion_is_zero q = false) :
  quaternion_normalize q = quaternion_normalized q
  /\ (Rabs (quaternion_length (quaternion_normalized q) - 1) <= 2 / 1000)%R
  /\ exists rho : Q,
       0 < rho
       /\ f32_scaled rho (quaternion_x (quaternion_normalized q)) (quaternion_x q)
       /\ f32_scaled rho (quaternion_y (quaternion_normalized q)) (quaternion_y q)
       /\ f32_scaled rho (quaternion_z (quaternion_normalized q)) (quaternion_z q)
       /\ f32_scaled rho (quaternion_w (quaternion_normalized q)) (quaternion_w q).
Proof.
  destruct q as [x y z w]. unfold quaternion_moderate, quaternion_is_zero in *.
  cbn [quaternion_x quaternion_y quaternion_z quaternion_w] in *.
  apply andb_prop in Hq as [Hq Hw]. apply andb_prop in Hq as [Hq Hz].
  apply andb_prop in Hq as [Hx Hy].
  split; [reflexivity |].
  destruct (approx_four_squares x y z w Hx Hy Hz Hw Hnz)
    as (A4 & S0 & S1 & BX & BY & BZ & BW).
  destruct (normalized_components _ _ A4 S0 S1) as (R0 & K1 & K2 & C).
  unfold quaternion_normalized, quaternion_sqrMagnitude.
  cbn [quaternion_x quaternion_y quaternion_z quaternion_w].
  set (mag := F32.add _ (F32.mul w w)) in *.
  set (r := F32.to_Q (fisqrt mag)) in *.
  destruct (C x Hx BX) as (Dx & Lx & Ux).
  destruct (C y Hy BY) as (Dy & Ly & Uy).
  destruct (C z Hz BZ) as (Dz & Lz & Uz).
  destruct (C w Hw BW) as (Dw & Lw & Uw).
  split.
  - unfold quaternion_length, to_R.
    cbn [quaternion_x quaternion_y quaternion_z quaternion_w].
    rewrite <- !Q2R_mult, <- !Q2R_plus.
    apply (length_near_one _ _ K1 K2); unfold f32_eps in *; lra.
  - exists r. split; [exact R0 |]. split; [exact Dx |]. split; [exact Dy |].
    split; assumption.
Qed.

Lemma quaternion_normalized_length_witness :
  (Rabs (quaternion_length
           (quaternion_normalized (mkquaternion f0 f_half f0 f_half)) - 1)
   <= 2 / 1000)%R.
Proof.
  exact (proj1 (proj2 (quaternion_normalized_length
                         (mkquaternion f0 f_half f0 f_half)
                         eq_refl eq_refl))).
Defined.

Local Close Scope Q_scope.

(** ** Normalizing a zero vector *)

Lemma fisqrt_zero : fisqrt (S754_zero false) = S754_finite false 8818068 41.
Proof. reflexivity. Qed.

Lemma zero_square (x : f32) :
  F32.is_zero x = true -> F32.mul x x = S754_zero false.
Proof. destruct x as [s | | |]; try discriminate. now destruct s. Qed.

Lemma zero_times_finite (x : f32) (m : positive) (e : Z) :
  F32.is_zero x = true -> F32.mul x (S754_finite false m e) = x.
Proof.
  destruct x as [s | | |]; try discriminate. intros _. cbn.
  now rewrite xorb_false_r.
Qed.

(** X22: a vector or quaternion whose components are all zeros (of
    either sign) is left unchanged by [normalize()] and [normalized()]:
    the sum of squares is [+0], [fisqrt(+0)] is the finite float
    8818068 * 2^41, and no component becomes a NaN or an infinity. *)
Theorem normalized_zero_vector (a : float2) (b : float3) (c : float4)
  (q : quaternion)
  (Ha : float2_is_zero a = true) (Hb : float3_is_zero b = true)
  (Hc : float4_is_zero c = true) (Hq : quaternion_is_zero q = true) :
  (float2_normalized a = a /\ float2_normalize a = a)
  /\ (float3_normalized b = b /\ float3_normalize b = b)
  /\ (float4_normalized c = c /\ float4_normalize c = c)
  /\ (quaternion_normalized q = q /\ quaternion_normalize q = q)
  /\ fisqrt f0 = S754_finite false 8818068 41.
Proof.
  destruct a as [ax ay], b as [bx by' bz], c as [cx cy cz cw],
    q as [qx qy qz qw].
  unfold float2_is_zero, float3_is_zero, float4_is_zero, quaternion_is_zero
    in *.
  cbn [float2_x float2_y float3_x float3_y float3_z
       float4_x float4_y float4_z float4_w
       quaternion_x quaternion_y quaternion_z quaternion_w] in *.
  repeat match goal with
         | H : _ && _ = true |- _ => apply andb_prop in H as [? ?]
         end.
  assert (E2 : float2_normalize (mkfloat2 ax ay)
               = float2_normalized (mkfloat2 ax ay)) by reflexivity.
  assert (E3 : float3_normalize (mkfloat3 bx by' bz)
               = float3_normalized (mkfloat3 bx by' bz)) by reflexivity.
  assert (E4 : float4_normalize (mkfloat4 cx cy cz cw)
               = float4_normalized (mkfloat4 cx cy cz cw)) by reflexivity.
  assert (E5 : quaternion_normalize (mkquaternion qx qy qz qw)
               = quaternion_normalized (mkquaternion qx qy qz qw))
    by reflexivity.
  rewrite E2, E3, E4, E5.
  unfold float2_normalized, float3_normalized, float4_normalized,
    quaternion_normalized, float2_sqrMagnitude, float3_sqrMagnitude,
    float4_sqrMagnitude, quaternion_sqrMagnitude.
  cbn [float2_x float2_y float3_x float3_y float3_z
       float4_x float4_y float4_z float4_w
       quaternion_x quaternion_y quaternion_z quaternion_w].
  rewrite !zero_square by assumption.
  repeat change (F32.add (S754_zero false) (S754_zero false))
    with (S754_zero false).
  rewrite fisqrt_zero. rewrite !zero_times_finite by assumption.
  repeat split.
Qed.

Lemma normalized_zero_vector_witness :
  float3_normalized (mkfloat3 f0 (F32.neg f0) f0) = mkfloat3 f0 (F32.neg f0) f0.
Proof.
  exact (proj1 (proj1 (proj2
    (normalized_zero_vector (mkfloat2 f0 f0) (mkfloat3 f0 (F32.neg f0) f0)
       (mkfloat4 f0 f0 f0 f0) (mkquaternion f0 f0 f0 f0)
       eq_refl eq_refl eq_refl eq_refl)))).
Defined.

(** ** Dot and cross products *)

(** X23: the dot products of [float2], [float3], [float4] and
    [quaternion] are symmetric in their two arguments, exactly, for all
    binary32 values (NaN and infinities included). *)
Theorem dot_symmetric (a2 b2 : float2) (a3 b3 : float3) (a4 b4 : float4)
  (p q : quaternion) :
  float2_dot a2 b2 = float2_dot b2 a2
  /\ float3_dot a3 b3 = float3_dot b3 a3
  /\ float4_dot a4 b4 = float4_dot b4 a4
  /\ quaternion_dot p q = quaternion_dot q p.
Proof.
  unfold float2_dot, float3_dot, float4_dot, quaternion_dot.
  repeat split;
    repeat match goal with
           | |- context [F32.mul (?f a2) (?g b2)] =>
               rewrite (f32_mul_comm (f a2) (g b2))
           | |- context [F32.mul (?f a3) (?g b3)] =>
               rewrite (f32_mul_comm (f a3) (g b3))
           | |- context [F32.mul (?f a4) (?g b4)] =>
               rewrite (f32_mul_comm (f a4) (g b4))
           | |- context [F32.mul (?f p) (?g q)] =>
               rewrite (f32_mul_comm (f p) (g q))
           end; reflexivity.
Qed.

(** X24: [float2::det(a, b)] computes [a.x * b.x - a.y * b.y]: it is
    symmetric in its arguments for all binary32 values, and on a vector
    with itself, [det(a, a)], it is [x * x - y * y]; a 2x2 determinant
    changes sign when its arguments are exchanged and vanishes on equal
    arguments. On the unit vectors [right() = (1, 0)] and [up() = (0, 1)]
    it returns 0 in both orders, where the determinant is 1 and -1. *)
Theorem float2_det_symmetric (a b : float2) :
  float2_det a b = float2_det b a
  /\ float2_det a a
     = F32.sub (F32.mul (float2_x a) (float2_x a))
               (F32.mul (float2_y a) (float2_y a))
  /\ float2_det (mkfloat2 f1 f0) (mkfloat2 f0 f1) = f0
  /\ float2_det (mkfloat2 f0 f1) (mkfloat2 f1 f0) = f0.
Proof.
  unfold float2_det. split; [| split; [reflexivity | split; reflexivity]].
  now rewrite (f32_mul_comm (float2_x a)), (f32_mul_comm (float2_y a)).
Qed.

(** X25: the vector interpolations [float2::lerp], [float3::lerp] and
    [float4::lerp] are the scalar [lerp] applied to each component,
    exactly, for all binary32 values (the vector form multiplies
    [v.x * scalar], the scalar form [scalar * a]). *)
Theorem vector_lerp_componentwise (t : f32) (a2 b2 : float2)
  (a3 b3 : float3) (a4 b4 : float4) :
  float2_lerp a2 b2 t
  = mkfloat2 (lerp (float2_x a2) (float2_x b2) t)
             (lerp (float2_y a2) (float2_y b2) t)
  /\ float3_lerp a3 b3 t
     = mkfloat3 (lerp (float3_x a3) (float3_x b3) t)
                (lerp (float3_y a3) (float3_y b3) t)
                (lerp (float3_z a3) (float3_z b3) t)
  /\ float4_lerp a4 b4 t
     = mkfloat4 (lerp (float4_x a4) (float4_x b4) t)
                (lerp (float4_y a4) (float4_y b4) t)
                (lerp (float4_z a4) (float4_z b4) t)
                (lerp (float4_w a4) (float4_w b4) t).
Proof.
  unfold float2_lerp, float3_lerp, float4_lerp, float2_add, float3_add,
    float4_add, float2_scale, float3_scale, float4_scale, lerp.
  cbn [float2_x float2_y float3_x float3_y float3_z
       float4_x float4_y float4_z float4_w].
  repeat split;
    rewrite ?(f32_mul_comm (F32.sub f1 t)), ?(f32_mul_comm t); reflexivity.
Qed.

Lemma sub_same_finite (t : f32) :
  F32.is_finite t = true -> F32.sub t t = S754_zero false.
Proof.
  destruct t as [s | | | s m e]; try discriminate; intros _.
  - now destruct s.
  - apply sub_self.
Qed.

Lemma sub_antisym (p q : f32) :
  f32_same (F32.sub p q) (F32.neg (F32.sub q p)).
Proof.
  destruct p as [sp | sp | | sp mp ep], q as [sq | sq | | sq mq eq];
    try (left; reflexivity);
    try (destruct sp, sq; (left; reflexivity) || (right; split; reflexivity)).
  unfold F32.sub, SFsub.
  rewrite (Z.min_comm eq ep).
  set (P := cond_Zopp sp (Zpos (fst (shl_align mp ep (Z.min ep eq))))).
  set (Q := cond_Zopp sq (Zpos (fst (shl_align mq eq (Z.min ep eq))))).
  destruct (Z.eq_dec (Q - P) 0) as [E | N].
  - right. replace (P - Q)%Z with 0%Z by lia. rewrite E.
    split; reflexivity.
  - left. replace (P - Q)%Z with (- (Q - P))%Z by lia.
    now apply binary_normalize_opp.
Qed.

(** X26: [cross] is antisymmetric: for all [float3] [a] and [b],
    infinities and NaN included, [a.cross(b)] is [-(b.cross(a))]
    componentwise, up to the sign of a zero; and the cross product of a
    vector with itself is exactly (0, 0, 0) whenever the three products of
    its components are finite. *)
Theorem cross_antisymmetric (a b : float3) :
  float3_same (float3_cross a b) (float3_neg (float3_cross b a))
  /\ (F32.is_finite (F32.mul (float3_y a) (float3_z a)) = true ->
      F32.is_finite (F32.mul (float3_z a) (float3_x a)) = true ->
      F32.is_finite (F32.mul (float3_x a) (float3_y a)) = true ->
      float3_cross a a = float3_zero).
Proof.
  destruct a as [ax ay az], b as [bx by' bz].
  cbn [float3_x float3_y float3_z] in *. split.
  - unfold float3_same, float3_cross, float3_neg.
    cbn [float3_x float3_y float3_z].
    rewrite (f32_mul_comm by' az), (f32_mul_comm bz ay), (f32_mul_comm bz ax),
      (f32_mul_comm bx az), (f32_mul_comm bx ay), (f32_mul_comm by' ax).
    repeat split; apply sub_antisym.
  - intros Hyz Hzx Hxy.
    unfold float3_cross, float3_zero. cbn [float3_x float3_y float3_z].
    rewrite (f32_mul_comm az ay), (f32_mul_comm ax az), (f32_mul_comm ay ax).
    now rewrite !sub_same_finite.
Qed.

(** The antisymmetry on a vector with an infinite component, and the
    product of (1, 2, 0.001) with itself. *)
Lemma cross_antisymmetric_witness :
  float3_same
    (float3_cross (mkfloat3 (S754_infinity false) f1 f1) float3_up)
    (float3_neg (float3_cross float3_up (mkfloat3 (S754_infinity false) f1 f1)))
  /\ float3_cross (mkfloat3 f1 f2 f_milli) (mkfloat3 f1 f2 f_milli)
     = float3_zero.
Proof.
  split.
  - exact (proj1 (cross_antisymmetric (mkfloat3 (S754_infinity false) f1 f1)
                    float3_up)).
  - exact (proj2 (cross_antisymmetric (mkfloat3 f1 f2 f_milli) float3_up)
             eq_refl eq_refl eq_refl).
Defined.

(** ** The identity matrix, translations and scalings *)

(** X27: for every matrix [m] with valid finite entries, the products
    [float4x4() * m] and [m * float4x4()] with the default (identity)
    matrix are defined and have the entries of [m], up to the sign of a
    zero. *)
Theorem float4x4_identity_neutral (m : float4x4)
  (Hm : float4x4_regular m = true) :
  (exists p, float4x4_mul float4x4_identity m = Some p /\ float4x4_same p m)
  /\ (exists p, float4x4_mul m float4x4_identity = Some p /\ float4x4_same p m).
Proof.
  destruct m as [[a0 a1 a2 a3] [b0 b1 b2 b3] [c0 c1 c2 c3] [d0 d1 d2 d3]].
  unfold float4x4_regular, float4_regular in Hm.
  cbn [rows_a rows_b rows_c rows_d float4_x float4_y float4_z float4_w] in Hm.
  repeat match goal with
         | H : _ && _ = true |- _ => apply andb_prop in H as [? ?]
         end.
  repeat match goal with
         | H : f32_regular _ = true |- _ => apply regular_inv in H as [? ?]
         end.
  split; (eexists; split; [reflexivity |]);
    unfold float4x4_same, float4_same, float4_dot, float4x4_identity;
    cbn [rows_a rows_b rows_c rows_d float4_x float4_y float4_z float4_w];
    repeat split; solve_same.
Qed.

Lemma float4x4_identity_neutral_witness :
  exists p, float4x4_mul float4x4_identity rotation_z90 = Some p
            /\ float4x4_same p rotation_z90.
Proof. exact (proj1 (float4x4_identity_neutral rotation_z90 eq_refl)). Defined.

Lemma same_add_congr (a x t : f32) :
  f32_same a x -> f32_same (F32.add a t) (F32.add x t).
Proof.
  intros [-> | [Ha Hx]]; [now left |].
  destruct a as [sa | | |], x as [sx | | |]; try discriminate.
  destruct t as [st | st | | st mt et]; try (left; reflexivity).
  right. split; now apply add_zero_zero.
Qed.

(** X28: for a point [v] and vectors [t], [s] with valid finite
    components, [translate(t) * v] is [v + t] and [scale(s) * v] is the
    componentwise product of [s] and [v], up to the sign of a zero: the
    zero entries of the two matrices add nothing. *)
Theorem translate_and_scale_apply (t s v : float3)
  (Ht : float3_regular t = true) (Hs : float3_regular s = true)
  (Hv : float3_regular v = true) :
  float3_same (float4x4_mul_float3 (float4x4_translate t) v) (float3_add v t)
  /\ float3_same (float4x4_mul_float3 (float4x4_scale s) v)
       (mkfloat3 (F32.mul (float3_x s) (float3_x v))
                 (F32.mul (float3_y s) (float3_y v))
                 (F32.mul (float3_z s) (float3_z v))).
Proof.
  destruct t as [tx ty tz], s as [sx sy sz], v as [vx vy vz].
  unfold float3_regular in *.
  cbn [float3_x float3_y float3_z] in *.
  repeat match goal with
         | H : _ && _ = true |- _ => apply andb_prop in H as [? ?]
         end.
  repeat match goal with
         | H : f32_regular _ = true |- _ => apply regular_inv in H as [? ?]
         end.
  unfold float3_same, float4x4_mul_float3, float4x4_mul_float4,
    float4x4_translate, float4x4_scale, float3_of_float4, float3_add,
    float4_dot.
  cbn [rows_a rows_b rows_c rows_d float4_x float4_y float4_z float4_w
       float3_x float3_y float3_z].
  split; repeat split.
  - rewrite (mul_one_r tx) by assumption. apply same_add_congr. solve_same.
  - rewrite (mul_one_r ty) by assumption. apply same_add_congr. solve_same.
  - rewrite (mul_one_r tz) by assumption. apply same_add_congr. solve_same.
  - solve_same.
  - solve_same.
  - solve_same.
Qed.

Lemma translate_and_scale_apply_witness :
  float3_same
    (float4x4_mul_float3 (float4x4_translate (mkfloat3 f1 f2 f4))
                         (mkfloat3 f_half f0 f_milli))
    (float3_add (mkfloat3 f_half f0 f_milli) (mkfloat3 f1 f2 f4)).
Proof.
  exact (proj1 (translate_and_scale_apply (mkfloat3 f1 f2 f4)
                  (mkfloat3 f1 f1 f1) (mkfloat3 f_half f0 f_milli)
                  eq_refl eq_refl eq_refl)).
Defined.

(** ** Perspective division by an affine matrix *)

Lemma zero_mul_zero_or_nan (z x : f32) :
  F32.is_zero z = true ->
  F32.is_zero (F32.mul z x) || F32.is_nan (F32.mul z x) = true.
Proof. destruct z; try discriminate. now destruct x. Qed.

Lemma mul_zero_zero_or_nan (x : f32) :
  F32.is_zero (F32.mul x f0) || F32.is_nan (F32.mul x f0) = true.
Proof. now destruct x. Qed.

Lemma add_zero_or_nan (a b : f32) :
  F32.is_zero a || F32.is_nan a = true ->
  F32.is_zero b || F32.is_nan b = true ->
  F32.is_zero (F32.add a b) || F32.is_nan (F32.add a b) = true.
Proof.
  destruct a as [sa | | |], b as [sb | | |]; try discriminate; intros _ _;
    try reflexivity. now destruct sa, sb.
Qed.

Lemma one_div_zero_or_nan (w : f32) :
  F32.is_zero w || F32.is_nan w = true -> F32.is_finite (F32.div f1 w) = false.
Proof. destruct w; try discriminate; reflexivity. Qed.

Lemma mul_not_finite (a b : f32) :
  F32.is_finite b = false -> F32.is_finite (F32.mul a b) = false.
Proof. destruct a, b; try discriminate; reflexivity. Qed.

(** X29: [perspectiveMul] converts its [float3] argument to a [float4]
    with [w = 0]; so for every matrix whose fourth row begins with three
    zeros, of either sign and whatever its fourth entry (the identity,
    [translate(t)], [scale(s)], [fromRotation(q)]: fourth row
    (0, 0, 0, 1)), the divisor [w] is a zero or a NaN, and no component of
    the result is finite, for every vector. *)
Theorem perspectiveMul_affine_not_finite (m : float4x4) (v : float3)
  (H0 : F32.is_zero (m30 m) = true) (H1 : F32.is_zero (m31 m) = true)
  (H2 : F32.is_zero (m32 m) = true) :
  F32.is_finite (float3_x (float4x4_perspectiveMul m v)) = false
  /\ F32.is_finite (float3_y (float4x4_perspectiveMul m v)) = false
  /\ F32.is_finite (float3_z (float4x4_perspectiveMul m v)) = false.
Proof.
  destruct v as [vx vy vz]. destruct m as [ra rb rc [d0 d1 d2 d3]].
  unfold m30, m31, m32 in *.
  cbn [rows_d float4_x float4_y float4_z] in *.
  unfold float4x4_perspectiveMul.
  cbn [rows_a rows_b rows_c rows_d float3_x float3_y float3_z].
  set (w := F32.div f1 _).
  assert (Hw : F32.is_finite w = false).
  { unfold w. apply one_div_zero_or_nan.
    unfold float4_dot, float4_of_float3.
    cbn [float4_x float4_y float4_z float4_w float3_x float3_y float3_z].
    repeat apply add_zero_or_nan;
      try (apply zero_mul_zero_or_nan; assumption).
    apply mul_zero_zero_or_nan. }
  repeat split; now apply mul_not_finite.
Qed.

(** The identity, and a matrix with a fourth row (-0, -0, -0, 2). *)
Lemma perspectiveMul_affine_not_finite_witness :
  F32.is_finite
    (float3_x (float4x4_perspectiveMul float4x4_identity (mkfloat3 f1 f2 f4)))
  = false
  /\ F32.is_finite
       (float3_z (float4x4_perspectiveMul
                    (mkfloat4x4 (mkfloat4 f1 f0 f0 f2) (mkfloat4 f0 f1 f0 f2)
                                (mkfloat4 f0 f0 f1 f2)
                                (mkfloat4 (F32.neg f0) (F32.neg f0)
                                          (F32.neg f0) f2))
                    (mkfloat3 f1 f2 f4)))
     = false.
Proof.
  split.
  - exact (proj1 (perspectiveMul_affine_not_finite float4x4_identity
                    (mkfloat3 f1 f2 f4) eq_refl eq_refl eq_refl)).
  - exact (proj2 (proj2 (perspectiveMul_affine_not_finite
                    (mkfloat4x4 (mkfloat4 f1 f0 f0 f2) (mkfloat4 f0 f1 f0 f2)
                                (mkfloat4 f0 f0 f1 f2)
                                (mkfloat4 (F32.neg f0) (F32.neg f0)
                                          (F32.neg f0) f2))
                    (mkfloat3 f1 f2 f4) eq_refl eq_refl eq_refl))).
Defined.

(** ** Dividing by one, and a scalar by a vector *)

(** Rounding a valid float gives it back. *)
Lemma round_canonical_exact (s : bool) (m : positive) (e : Z) :
  bounded prec emax m e = true ->
  binary_round_aux prec emax s (Zpos m) e loc_Exact = S754_finite s m e.
Proof.
  intros Hb. unfold bounded, canonical_mantissa in Hb.
  apply andb_prop in Hb as [Hc He]. apply Z.eqb_eq in Hc.
  unfold binary_round_aux, shr_fexp.
  change (Zdigits2 (Zpos m)) with (Zpos (digits2_pos m)).
  rewrite Hc, Z.sub_diag. cbn [shr shr_record_of_loc shr_m loc_of_shr_record
                               round_nearest_even].
  change (Zdigits2 (Zpos m)) with (Zpos (digits2_pos m)).
  rewrite Hc, Z.sub_diag. cbn [shr shr_record_of_loc shr_m].
  now rewrite He.
Qed.

Lemma div_eucl_pow (q : Z) :
  0 <= q -> Z.div_eucl (q * 8388608) 8388608 = (q, 0).
Proof.
  intros Hq.
  pose proof (Z.div_mul q 8388608) as Hd.
  pose proof (Z.mod_mul q 8388608) as Hr.
  unfold Z.div, Z.modulo in Hd, Hr.
  destruct (Z.div_eucl (q * 8388608) 8388608) as [q' r'].
  f_equal; [apply Hd | apply Hr]; lia.
Qed.

Lemma div_one_r (x : f32) : F32.valid x = true -> F32.div x f1 = x.
Proof.
  destruct x as [s | s | | s m e]; intros Hv;
    try reflexivity; try (now destruct s).
  assert (Hb := Hv). unfold F32.valid, valid_binary, bounded,
    canonical_mantissa in Hb.
  apply andb_prop in Hb as [Hc He]. apply Z.eqb_eq in Hc.
  pose proof (digits2_bounds m) as [Mlo Mhi].
  set (d := Zpos (digits2_pos m)) in *.
  unfold F32.div, SFdiv, SFdiv_core_binary, f1.
  change (Zdigits2 (Zpos m)) with d.
  change (Zdigits2 (Zpos 8388608)) with 24.
  rewrite xorb_false_r.
  assert (Hf : fexp prec emax (d + e - (24 + -23)) = e - 1
               \/ fexp prec emax (d + e - (24 + -23)) = e).
  { revert Hc. unfold fexp, emin, prec, emax. lia. }
  assert (Hmin : forall z, z = e - 1 \/ z = e -> Z.min z (e - -23) = z)
    by (intros z [-> | ->]; lia).
  rewrite (Hmin _ Hf).
  destruct Hf as [-> | ->].
  - replace (e - -23 - (e - 1)) with 24 by lia.
    rewrite Z.shiftl_mul_pow2 by lia.
    replace (Zpos m * 2 ^ 24) with (Zpos m * 2 * 8388608) by lia.
    rewrite div_eucl_pow by lia.
    change (new_location 8388608 0) with loc_Exact.
    replace (Zpos m * 2) with (Zpos m * 2 ^ 1) by lia.
    apply round_scaled_exact; [lia | exact Hv].
  - replace (e - -23 - e) with 23 by lia.
    rewrite Z.shiftl_mul_pow2 by lia.
    change (2 ^ 23) with 8388608.
    rewrite div_eucl_pow by lia.
    change (new_location 8388608 0) with loc_Exact.
    apply round_canonical_exact. exact Hv.
Qed.

(** X30: [operator /(f32 scalar, v)] divides the vector by the scalar,
    as [v / scalar] does, for [float2], [float3] and [float4] and all
    arguments: [scalar / v] is not the componentwise quotient of the scalar
    by the components. In particular [1.0f / v] is [v] itself, exactly,
    for every vector of valid binary32 components (and not the vector of
    reciprocals). *)
Theorem scalar_over_vector (scalar : f32) (a2 : float2) (a3 : float3)
  (a4 : float4)
  (H2 : F32.valid (float2_x a2) && F32.valid (float2_y a2) = true)
  (H3 : F32.valid (float3_x a3) && F32.valid (float3_y a3)
        && F32.valid (float3_z a3) = true)
  (H4 : F32.valid (float4_x a4) && F32.valid (float4_y a4)
        && F32.valid (float4_z a4) && F32.valid (float4_w a4) = true) :
  float2_div_scalar_first scalar a2 = float2_div a2 scalar
  /\ float3_div_scalar_first scalar a3 = float3_div a3 scalar
  /\ float4_div_scalar_first scalar a4 = float4_div a4 scalar
  /\ float2_div_scalar_first f1 a2 = a2
  /\ float3_div_scalar_first f1 a3 = a3
  /\ float4_div_scalar_first f1 a4 = a4.
Proof.
  destruct a2 as [x2 y2], a3 as [x3 y3 z3], a4 as [x4 y4 z4 w4].
  cbn [float2_x float2_y float3_x float3_y float3_z
       float4_x float4_y float4_z float4_w] in *.
  repeat match goal with
         | H : _ && _ = true |- _ => apply andb_prop in H as [? ?]
         end.
  split; [reflexivity |]. split; [reflexivity |]. split; [reflexivity |].
  unfold float2_div_scalar_first, float3_div_scalar_first,
    float4_div_scalar_first.
  cbn [float2_x float2_y float3_x float3_y float3_z
       float4_x float4_y float4_z float4_w].
  rewrite !div_one_r by assumption. repeat split.
Qed.

Lemma scalar_over_vector_witness :
  float2_div_scalar_first f1 (mkfloat2 f2 f4) = mkfloat2 f2 f4.
Proof.
  exact (proj1 (proj2 (proj2 (proj2
    (scalar_over_vector f2 (mkfloat2 f2 f4) (mkfloat3 f1 f2 f4)
       (mkfloat4 f1 f2 f4 f_milli) eq_refl eq_refl eq_refl))))).
Defined.

(** * Euler angles: the pitch at the singularity *)

Lemma geb_key (x y : f32) :
  F32.is_nan x = false -> F32.is_nan y = false ->
  (F32.geb x y = true <-> key_le (order_key y) (order_key x)).
Proof.
  intros Hx Hy. destruct (compare_key x y Hx Hy) as (c & Hc & Hlt & Hgt & Heq).
  unfold F32.geb, key_le. rewrite Hc.
  destruct c; split; intros H; try reflexivity.
  - right. symmetry. now apply Heq.
  - discriminate H.
  - exfalso. assert (G : key_lt (order_key x) (order_key y)) by now apply Hlt.
    destruct H as [H | H].
    + revert H G. unfold key_lt.
      destruct (order_key x) as [[a1 a2] a3], (order_key y) as [[b1 b2] b3]. lia.
    + revert G. rewrite H. unfold key_lt.
      destruct (order_key x) as [[b1 b2] b3]. lia.
  - left. now apply Hgt.
Qed.

Lemma key_le_spec (a1 a2 a3 b1 b2 b3 : Z) :
  key_le (a1, a2, a3) (b1, b2, b3)
  <-> a1 < b1 \/ (a1 = b1 /\ (a2 < b2 \/ (a2 = b2 /\ a3 <= b3))).
Proof.
  unfold key_le, key_lt. split.
  - intros [H | H]; [lia | injection H as -> -> ->; lia].
  - intros H.
    destruct (Z.eq_dec a1 b1) as [E1 | N1];
      [destruct (Z.eq_dec a2 b2) as [E2 | N2];
         [destruct (Z.eq_dec a3 b3) as [E3 | N3] | ] | ].
    + right. congruence.
    + left. lia.
    + left. lia.
    + left. lia.
Qed.

(** The guard [abs(sin) >= 1.0f] of [toEulerAngles], in terms of the
    comparisons of binary32 on [sin] itself. *)
Lemma pitch_guard (s : f32) :
  (F32.leb f1 s = true -> F32.geb (abs s) f1 = true /\ F32.geb s f0 = true)
  /\ (F32.leb s (F32.neg f1) = true ->
      F32.geb (abs s) f1 = true /\ F32.geb s f0 = false)
  /\ (F32.ltb (F32.neg f1) s = true -> F32.ltb s f1 = true ->
      F32.geb (abs s) f1 = false)
  /\ (F32.is_nan s = true -> F32.geb (abs s) f1 = false).
Proof.
  destruct s as [[|] | [|] | | [|] m e];
    try (split; [| split; [| split]]; try (intros H; discriminate H);
         try (intros _; split; reflexivity); try (intros _ H; discriminate H);
         try (intros _ _; reflexivity); try (intros _; reflexivity); fail).
  - (* negative finite *)
    change (abs (S754_finite true m e)) with (S754_finite false m e).
    change (F32.geb (S754_finite true m e) f0) with false.
    rewrite (leb_key f1 (S754_finite true m e)), (leb_key (S754_finite true m e)),
      (ltb_key (F32.neg f1)), (ltb_key (S754_finite true m e)) by reflexivity.
    assert (G : F32.geb (S754_finite false m e) f1 = true
                <-> key_le (order_key f1) (order_key (S754_finite false m e)))
      by (apply geb_key; reflexivity).
    cbn [order_key f1 F32.neg SFopp negb] in *.
    rewrite !key_le_spec in *. unfold key_lt.
    split; [lia |]. split; [| split; [| intros H; discriminate H]].
    + intros H. split; [apply G; lia | reflexivity].
    + intros H1 H2. destruct (F32.geb (S754_finite false m e) f1);
        [exfalso | reflexivity].
      assert (K := proj1 G eq_refl). lia.
  - (* positive finite *)
    change (abs (S754_finite false m e)) with (S754_finite false m e).
    change (F32.geb (S754_finite false m e) f0) with true.
    rewrite (leb_key f1 (S754_finite false m e)),
      (leb_key (S754_finite false m e)),
      (ltb_key (F32.neg f1)), (ltb_key (S754_finite false m e)) by reflexivity.
    assert (G : F32.geb (S754_finite false m e) f1 = true
                <-> key_le (order_key f1) (order_key (S754_finite false m e)))
      by (apply geb_key; reflexivity).
    cbn [order_key f1 F32.neg SFopp negb] in *.
    rewrite !key_le_spec in *. unfold key_lt.
    split; [| split; [lia | split; [| intros H; discriminate H]]].
    + intros H. split; [apply G; exact H | reflexivity].
    + intros H1 H2. destruct (F32.geb (S754_finite false m e) f1);
        [exfalso | reflexivity].
      assert (K := proj1 G eq_refl). lia.
Qed.

Section EulerAngles.

Variable asinf : f32 -> f32.
Variable atan2f : f32 -> f32 -> f32.

(** C9: write [s] for the pitch sine term [2.0f * (w * y - z * x)] of a
    quaternion.  When [s >= 1] the pitch is exactly a quarter turn
    ([TAU / 4] computed in binary32), when [s <= -1] it is exactly minus a
    quarter turn (the sign of the term, infinities included), and in both
    cases the result does not depend on the inverse sine at all (any other
    [asin] gives the same three angles).  When [-1 < s < 1], and when [s]
    is a NaN, the pitch is the inverse sine of [s]. *)
Theorem toEulerAngles_pitch (q : quaternion) :
  let s := pitch_sine q in
  let pitch := float3_y (quaternion_toEulerAngles asinf atan2f q) in
  F32.div TAU f4 = quarter_turn
  /\ (F32.leb f1 s = true ->
      pitch = quarter_turn
      /\ forall asinf' : f32 -> f32,
           quaternion_toEulerAngles asinf' atan2f q
           = quaternion_toEulerAngles asinf atan2f q)
  /\ (F32.leb s (F32.neg f1) = true ->
      pitch = F32.neg quarter_turn
      /\ forall asinf' : f32 -> f32,
           quaternion_toEulerAngles asinf' atan2f q
           = quaternion_toEulerAngles asinf atan2f q)
  /\ (F32.ltb (F32.neg f1) s = true -> F32.ltb s f1 = true ->
      pitch = asinf s)
  /\ (F32.is_nan s = true -> pitch = asinf s).
Proof.
  cbv zeta. destruct (pitch_guard (pitch_sine q)) as (Hpos & Hneg & Hmid & Hnan).
  split; [reflexivity |].
  unfold quaternion_toEulerAngles. fold (pitch_sine q). cbv zeta.
  split; [| split; [| split]].
  - intros H. destruct (Hpos H) as [G S]. rewrite G.
    cbn [float3_x float3_y float3_z].
    split; [| reflexivity]. rewrite quarter_turn_signed. now rewrite S.
  - intros H. destruct (Hneg H) as [G S]. rewrite G.
    cbn [float3_x float3_y float3_z].
    split; [| reflexivity]. rewrite quarter_turn_signed. now rewrite S.
  - intros H1 H2. rewrite (Hmid H1 H2). reflexivity.
  - intros H. rewrite (Hnan H). reflexivity.
Qed.

End EulerAngles.

(** For q = (0, 1, 0, 1) the term is 2 and the pitch is a quarter turn;
    for q = (0, -1, 0, 1) the term is -2 and the pitch is minus a quarter
    turn; for q = (0, 0.5, 0, 0.5) the term is 0.5 and the pitch is its
    inverse sine. *)
Lemma toEulerAngles_pitch_witness :
  float3_y (quaternion_toEulerAngles (fun v => v) (fun v _ => v)
              (mkquaternion f0 f1 f0 f1))
  = quarter_turn
  /\ float3_y (quaternion_toEulerAngles (fun v => v) (fun v _ => v)
                 (mkquaternion f0 (F32.neg f1) f0 f1))
     = F32.neg quarter_turn
  /\ float3_y (quaternion_toEulerAngles (fun v => f4) (fun v _ => v)
                 (mkquaternion f0 f_half f0 f_half))
     = f4.
Proof.
  split; [| split].
  - destruct (toEulerAngles_pitch (fun v => v) (fun v _ => v)
                (mkquaternion f0 f1 f0 f1)) as (_ & H & _).
    exact (proj1 (H eq_refl)).
  - destruct (toEulerAngles_pitch (fun v => v) (fun v _ => v)
                (mkquaternion f0 (F32.neg f1) f0 f1)) as (_ & _ & H & _).
    exact (proj1 (H eq_refl)).
  - destruct (toEulerAngles_pitch (fun v => f4) (fun v _ => v)
                (mkquaternion f0 f_half f0 f_half)) as (_ & _ & _ & H & _).
    exact (H eq_refl eq_refl).
Defined.

(** * The standard model of binary32 arithmetic *)

(** ** Rounding in the normal and in the subnormal range *)

Lemma fexp_cases (x : Z) :
  (fexp prec emax x = x - 24 /\ -149 <= x - 24)
  \/ (fexp prec emax x = -149 /\ x - 24 <= -149).
Proof. unfold fexp, emin, prec, emax. lia. Qed.

Lemma canonical_inv (m : positive) (e : Z) :
  bounded prec emax m e = true ->
  -149 <= e <= 104 /\ Zpos (digits2_pos m) <= 24
  /\ (Zpos (digits2_pos m) = 24 \/ e = -149).
Proof.
  unfold bounded, canonical_mantissa. intros H.
  apply andb_prop in H as [Hc He]. apply Z.eqb_eq in Hc. apply Z.leb_le in He.
  unfold emax, prec in He.
  destruct (fexp_cases (Zpos (digits2_pos m) + e)) as [[F L] | [F L]];
    rewrite F in Hc; lia.
Qed.

Lemma canonical_intro (m : positive) (e : Z) :
  -149 <= e <= 104 -> Zpos (digits2_pos m) <= 24 ->
  (Zpos (digits2_pos m) = 24 \/ e = -149) ->
  bounded prec emax m e = true.
Proof.
  intros He Hd Hc. unfold bounded, canonical_mantissa.
  apply andb_true_intro. split.
  - apply Z.eqb_eq.
    destruct (fexp_cases (Zpos (digits2_pos m) + e)) as [[F L] | [F L]];
      rewrite F; lia.
  - apply Z.leb_le. unfold emax, prec. lia.
Qed.

(** Rounding the integer [M * 2^E] to the exponent [e = fexp (digits M + E)]
    when no left shift is needed ([E <= e]) and the result does not
    overflow: the result is a zero or a valid finite float, within half a
    unit of [2^e] of the integer, and equal to it when [e = E]. *)
Lemma round_general (s : bool) (M : positive) (E : Z) :
  let e := fexp prec emax (Zpos (digits2_pos M) + E) in
  E <= e -> e <= 103 ->
  exists (q e' : Z),
    0 <= q /\ E <= e'
    /\ binary_round_aux prec emax s (Zpos M) E loc_Exact
       = match q with
         | Z0 => S754_zero s
         | Zpos p => S754_finite s p e'
         | Zneg _ => S754_nan
         end
    /\ (forall p, q = Zpos p -> bounded prec emax p e' = true)
    /\ 2 * Z.abs (q * 2 ^ (e' - E) - Zpos M) <= 2 ^ (e - E)
    /\ (e = E -> q = Zpos M /\ e' = E).
Proof.
  intros e HE He.
  pose proof (digits2_bounds M) as [Mlo Mhi].
  set (d := Zpos (digits2_pos M)) in *.
  assert (Hd : 0 < d) by (unfold d; lia).
  set (n := e - E).
  assert (Hn : 0 <= n) by (unfold n; lia).
  assert (Hemin : -149 <= e)
    by (unfold e; destruct (fexp_cases (d + E)) as [[F L] | [F L]]; lia).
  assert (Hge : d + E - 24 <= e)
    by (unfold e; destruct (fexp_cases (d + E)) as [[F L] | [F L]]; lia).
  unfold binary_round_aux, shr_fexp.
  change (Zdigits2 (Zpos M)) with d. fold e. fold n.
  destruct (shr_inv_shr (Zpos M) (shr_record_of_loc (Zpos M) loc_Exact) E n Hn)
    as [Hinv He']; [apply shr_inv_start; lia |].
  destruct (shr (shr_record_of_loc (Zpos M) loc_Exact) E n) as [mrs' e1].
  cbn [fst snd] in Hinv, He'. subst e1.
  replace (E + n) with e by (unfold n; lia).
  destruct (round_nearest_even_inv (Zpos M) n mrs' Hn Hinv) as [Hq Hnear].
  destruct Hinv as [Hm' (rem & HM & Hrem & _ & _)].
  set (q' := round_nearest_even (shr_m mrs') (loc_of_shr_record mrs')) in *.
  assert (HP : 0 < 2 ^ n) by (apply Z.pow_pos_nonneg; lia).
  (* the shifted mantissa has at most 24 digits *)
  assert (Hm24 : shr_m mrs' < 2 ^ 24).
  { assert (H : 2 ^ d <= 2 ^ 24 * 2 ^ n).
    { rewrite <- Z.pow_add_r by lia. apply Z.pow_le_mono_r; unfold n; lia. }
    nia. }
  assert (Hq24 : 0 <= q' <= 2 ^ 24) by lia.
  destruct (Z.eq_dec q' (2 ^ 24)) as [Eq | Nq].
  - (* a carry into a 25th digit *)
    rewrite Eq. change (Zdigits2 (2 ^ 24)) with 25.
    assert (F : fexp prec emax (25 + e) = e + 1)
      by (destruct (fexp_cases (25 + e)) as [[F L] | [F L]]; lia).
    rewrite F. replace (e + 1 - e) with 1 by lia.
    cbn [shr shr_record_of_loc iter_pos shr_1 shr_m].
    change (shr_m (shr_1 {| shr_m := 2 ^ 24; shr_r := false; shr_s := false |}))
      with (Zpos 8388608).
    assert (Hle : (e + 1 <=? emax - prec) = true)
      by (apply Z.leb_le; unfold emax, prec; lia).
    rewrite Hle. exists (Zpos 8388608), (e + 1).
    split; [lia |]. split; [lia |]. split; [reflexivity |].
    split; [| split].
    + intros p Hp. injection Hp as <-. apply canonical_intro;
        [lia | cbn; lia | left; reflexivity].
    + replace (e + 1 - E) with (n + 1) by (unfold n; lia).
      rewrite Z.pow_add_r, Z.pow_1_r by lia.
      rewrite Eq in Hnear. change (2 ^ 24) with 16777216 in Hnear.
      fold n. lia.
    + intros K. exfalso. assert (n = 0) by (unfold n; lia).
      rewrite H in *. change (2 ^ 0) with 1 in *.
      change (2 ^ 24) with 16777216 in *. lia.
  - destruct q' as [| qp | qp] eqn:Eqp; try lia.
    + (* the value rounds to zero *)
      change (Zdigits2 0) with 0.
      assert (F : fexp prec emax (0 + e) - e <= 0)
        by (destruct (fexp_cases (0 + e)) as [[F L] | [F L]]; lia).
      assert (S0 : forall k, k <= 0 ->
                 shr (shr_record_of_loc 0 loc_Exact) e k
                 = (shr_record_of_loc 0 loc_Exact, e))
        by (intros [| k | k] Hk; try reflexivity; lia).
      rewrite (S0 _ F). cbn [shr_record_of_loc shr_m].
      exists 0, e. split; [lia |]. split; [lia |]. split; [reflexivity |].
      split; [intros p Hp; discriminate Hp |]. split.
      * fold n. lia.
      * intros K. exfalso. assert (n = 0) by (unfold n; lia).
        rewrite H in *. change (2 ^ 0) with 1 in *. lia.
    + pose proof (digits2_bounds qp) as [Qlo Qhi].
      set (dq := Zpos (digits2_pos qp)) in *.
      assert (Hdq : dq <= 24).
      { destruct (Z.le_gt_cases dq 24) as [L | G]; [exact L | exfalso].
        assert (2 ^ 24 <= 2 ^ (dq - 1)) by (apply Z.pow_le_mono_r; lia). lia. }
      change (Zdigits2 (Zpos qp)) with dq.
      assert (F : fexp prec emax (dq + e) - e <= 0)
        by (destruct (fexp_cases (dq + e)) as [[F L] | [F L]]; lia).
      assert (S0 : forall k, k <= 0 ->
                 shr (shr_record_of_loc (Zpos qp) loc_Exact) e k
                 = (shr_record_of_loc (Zpos qp) loc_Exact, e))
        by (intros [| k | k] Hk; try reflexivity; lia).
      rewrite (S0 _ F). cbn [shr_record_of_loc shr_m].
      assert (Hle : (e <=? emax - prec) = true)
        by (apply Z.leb_le; unfold emax, prec; lia).
      rewrite Hle. exists (Zpos qp), e.
      split; [lia |]. split; [lia |]. split; [reflexivity |].
      split; [| split].
      * intros p Hp. injection Hp as <-. apply canonical_intro; [lia | exact Hdq |].
        destruct (Z.eq_dec e (-149)) as [E149 | N149]; [right; exact E149 | left].
        assert (En : n = d - 24).
        { unfold n, e. destruct (fexp_cases (d + E)) as [[F' L] | [F' L]];
            [lia | exfalso; unfold e in N149; lia]. }
        assert (H23 : 2 ^ 23 <= shr_m mrs').
        { assert (H : 2 ^ (d - 1) = 2 ^ 23 * 2 ^ n).
          { rewrite <- Z.pow_add_r by lia. f_equal. lia. }
          nia. }
        fold dq. apply digits2_unique. change (24 - 1) with 23.
        change (2 ^ 24) with 16777216 in *. lia.
      * fold n. exact Hnear.
      * intros K. assert (N0 : n = 0) by (unfold n; lia).
        rewrite N0 in Hnear. change (2 ^ 0) with 1 in Hnear.
        split; [lia | exact K].
Qed.

Local Open Scope Q_scope.

(** The value of a finite float, by its sign. *)
Lemma to_Q_signed (s : bool) (m : positive) (e : Z) :
  F32.to_Q (S754_finite s m e)
  == (if s then - (inject_Z (Zpos m) * pow2 e) else inject_Z (Zpos m) * pow2 e).
Proof.
  unfold F32.to_Q. fold (pow2 e). generalize (pow2 e). intros P.
  destruct s; cbn [cond_Zopp];
    [change (- Zpos m)%Z with (Z.opp (Zpos m)); rewrite inject_Z_opp |]; ring.
Qed.

Lemma Qabs_signed (s : bool) (t : Q) :
  0 <= t -> Qabs (if s then - t else t) == t.
Proof.
  intros H. destruct s; [rewrite Qabs_opp |]; now apply Qabs_pos.
Qed.

Lemma half_pow2 (z : Z) : pow2 z == 2 * pow2 (z - 1).
Proof.
  replace z with (1 + (z - 1))%Z at 1 by lia. rewrite pow2_add. reflexivity.
Qed.

(** [round_general] in terms of values: the magnitude [t] of the result
    is within [eps] of the value relatively, or within [2^-150] of it in
    the subnormal range, and exact when nothing is shifted out. *)
Lemma round_value_general (s : bool) (M : positive) (E : Z) :
  let e := fexp prec emax (Zpos (digits2_pos M) + E) in
  let v := inject_Z (Zpos M) * pow2 E in
  (E <= e)%Z -> v < pow2 127 ->
  let r := binary_round_aux prec emax s (Zpos M) E loc_Exact in
  f32_regular r = true
  /\ exists t : Q,
       0 <= t /\ F32.to_Q r == (if s then - t else t)
       /\ Qabs (t - v) <= f32_eps * v + pow2 (-150)
       /\ ((-149 <= E)%Z -> Qabs (t - v) <= f32_eps * v).
Proof.
  intros e v HE Hv r.
  destruct (inject_pos_bounds M) as [Mlo Mhi].
  set (d := Zpos (digits2_pos M)) in *.
  pose proof (pow2_pos E) as PE.
  assert (V0 : 0 < v)
    by (apply Qmult_lt_0_compat; [reflexivity | exact PE]).
  assert (Hd : (d + E <= 127)%Z).
  { assert (H : pow2 (d - 1 + E) < pow2 127).
    { eapply Qle_lt_trans; [| exact Hv]. rewrite pow2_add.
      apply Qmult_le_compat_r; [exact Mlo | apply Qlt_le_weak; exact PE]. }
    apply pow2_lt_inv in H. lia. }
  assert (He : (e <= 103)%Z)
    by (unfold e; fold d; destruct (fexp_cases (d + E)) as [[F L] | [F L]]; lia).
  destruct (round_general s M E HE He) as (q & e' & Hq & He' & Hr & Hb & Hn & Hx).
  fold e in Hn, Hx. fold r in Hr.
  set (t := inject_Z q * pow2 e').
  assert (T0 : 0 <= t).
  { apply Qmult_le_0_compat; [| apply Qlt_le_weak, pow2_pos].
    change 0 with (inject_Z 0). rewrite <- Zle_Qle. exact Hq. }
  assert (Hreg : f32_regular r = true /\ F32.to_Q r == (if s then - t else t)).
  { rewrite Hr. destruct q as [| p | p]; [| | lia].
    - split; [reflexivity |]. unfold t. cbn [F32.to_Q]. destruct s; ring.
    - split; [| apply to_Q_signed].
      unfold f32_regular, F32.valid, valid_binary, F32.is_finite.
      now rewrite (Hb p eq_refl). }
  destruct Hreg as [Hreg Hval]. split; [exact Hreg |].
  exists t. split; [exact T0 |]. split; [exact Hval |].
  (* the error in units of 2^E *)
  assert (Herr : Qabs (t - v) * 2 <= pow2 e).
  { assert (Et : t == inject_Z (q * 2 ^ (e' - E)) * pow2 E).
    { unfold t. rewrite inject_Z_mult, pow2_inject by lia.
      rewrite <- Qmult_assoc, <- pow2_add.
      replace (e' - E + E)%Z with e' by lia. reflexivity. }
    assert (Ee : pow2 e == inject_Z (2 ^ (e - E)) * pow2 E).
    { rewrite pow2_inject by lia. rewrite <- pow2_add.
      replace (e - E + E)%Z with e by lia. reflexivity. }
    rewrite Et, Ee. unfold v.
    setoid_replace (inject_Z (q * 2 ^ (e' - E)) * pow2 E
                    - inject_Z (Zpos M) * pow2 E)
      with ((inject_Z (q * 2 ^ (e' - E)) - inject_Z (Zpos M)) * pow2 E) by ring.
    rewrite Qabs_Qmult, (Qabs_pos (pow2 E)) by (apply Qlt_le_weak; exact PE).
    setoid_replace (Qabs (inject_Z (q * 2 ^ (e' - E)) - inject_Z (Zpos M))
                    * pow2 E * 2)
      with (2 * Qabs (inject_Z (q * 2 ^ (e' - E)) - inject_Z (Zpos M)) * pow2 E)
      by ring.
    apply Qmult_le_compat_r; [| apply Qlt_le_weak; exact PE].
    assert (EA : Qabs (inject_Z (q * 2 ^ (e' - E)) - inject_Z (Zpos M))
                 == inject_Z (Z.abs (q * 2 ^ (e' - E) - Zpos M))).
    { unfold Qminus. rewrite <- inject_Z_opp, <- inject_Z_plus.
      unfold Qabs, inject_Z. cbn. reflexivity. }
    rewrite EA. change 2 with (inject_Z 2). rewrite <- inject_Z_mult.
    rewrite <- Zle_Qle. exact Hn. }
  assert (Hrel : (e = d + E - 24)%Z -> Qabs (t - v) <= f32_eps * v).
  { intros Ee.
    assert (H1 : pow2 e == 2 * (f32_eps * pow2 (d - 1 + E))).
    { rewrite Ee. change f32_eps with (pow2 (-24)).
      rewrite <- pow2_add, (half_pow2 (d + E - 24)).
      replace (-24 + (d - 1 + E))%Z with (d + E - 24 - 1)%Z by lia.
      reflexivity. }
    assert (H2 : pow2 (d - 1 + E) <= v).
    { rewrite pow2_add. apply Qmult_le_compat_r;
        [exact Mlo | apply Qlt_le_weak; exact PE]. }
    assert (H3 : f32_eps * pow2 (d - 1 + E) <= f32_eps * v).
    { rewrite !(Qmult_comm f32_eps). apply Qmult_le_compat_r;
        [exact H2 | discriminate]. }
    rewrite H1 in Herr. lra. }
  assert (Hexact : (e = E)%Z -> Qabs (t - v) <= 0).
  { intros Ee. destruct (Hx Ee) as [-> ->].
    unfold t, v. setoid_replace (inject_Z (Zpos M) * pow2 E
                                 - inject_Z (Zpos M) * pow2 E) with 0 by ring.
    apply Qle_refl. }
  assert (EV : 0 <= f32_eps * v)
    by (apply Qmult_le_0_compat; [discriminate | apply Qlt_le_weak; exact V0]).
  pose proof (pow2_pos (-150)) as P150.
  split.
  - unfold e in *. fold d in Herr, Hrel, Hexact.
    destruct (fexp_cases (d + E)) as [[F L] | [F L]].
    + specialize (Hrel F). lra.
    + rewrite F in Herr.
      assert (pow2 (-149) == 2 * pow2 (-150)) by reflexivity. lra.
  - intros HE149. unfold e in *. fold d in Herr, Hrel, Hexact, HE.
    destruct (fexp_cases (d + E)) as [[F L] | [F L]].
    + exact (Hrel F).
    + assert (Ee : (fexp prec emax (d + E) = E)%Z) by lia.
      specialize (Hexact Ee). lra.
Qed.

(** ** Products, sums and differences of valid finite floats *)

Lemma digits_mul (ma mb : positive) :
  (Zpos (digits2_pos ma) + Zpos (digits2_pos mb) - 1
   <= Zpos (digits2_pos (ma * mb)))%Z.
Proof.
  pose proof (digits2_bounds ma) as [Alo _].
  pose proof (digits2_bounds mb) as [Blo _].
  pose proof (digits2_bounds (ma * mb)) as [_ Phi].
  set (da := Zpos (digits2_pos ma)) in *. set (db := Zpos (digits2_pos mb)) in *.
  set (d := Zpos (digits2_pos (ma * mb))) in *.
  assert (0 < da)%Z by (unfold da; lia). assert (0 < db)%Z by (unfold db; lia).
  destruct (Z.le_gt_cases (da + db - 1) d) as [L | G]; [exact L | exfalso].
  assert (H1 : (2 ^ d <= 2 ^ (da - 1 + (db - 1)))%Z)
    by (apply Z.pow_le_mono_r; lia).
  rewrite Z.pow_add_r in H1 by lia. rewrite Pos2Z.inj_mul in Phi.
  assert (0 < 2 ^ (da - 1))%Z by (apply Z.pow_pos_nonneg; lia).
  assert (0 < 2 ^ (db - 1))%Z by (apply Z.pow_pos_nonneg; lia).
  nia.
Qed.

Lemma regular_finite_inv (s : bool) (m : positive) (e : Z) :
  f32_regular (S754_finite s m e) = true -> bounded prec emax m e = true.
Proof.
  unfold f32_regular, F32.valid, valid_binary. intros H.
  now apply andb_prop in H as [H _].
Qed.

(** The standard model for a product: a relative error of at most
    [2^-24], and an absolute error of at most [2^-150] where the product
    is subnormal. *)
Lemma mul_general (a b : f32) :
  f32_regular a = true -> f32_regular b = true ->
  Qabs (F32.to_Q a * F32.to_Q b) < pow2 127 ->
  f32_regular (F32.mul a b) = true
  /\ Qabs (F32.to_Q (F32.mul a b) - F32.to_Q a * F32.to_Q b)
     <= f32_eps * Qabs (F32.to_Q a * F32.to_Q b) + pow2 (-150).
Proof.
  intros Ha Hb Hv.
  assert (Z0 : forall z, z == 0 ->
             Qabs (0 - z) <= f32_eps * Qabs z + pow2 (-150)).
  { intros z Ez. rewrite Ez. cbn. discriminate. }
  destruct a as [sa | sa | | sa ma ea]; try discriminate Ha;
    destruct b as [sb | sb | | sb mb eb]; try discriminate Hb;
    try (split; [reflexivity | apply Z0; cbn [F32.to_Q]; ring]).
  apply regular_finite_inv in Ha, Hb.
  destruct (canonical_inv ma ea Ha) as (Ea & Da & Ca).
  destruct (canonical_inv mb eb Hb) as (Eb & Db & Cb).
  pose proof (digits_mul ma mb) as Dm.
  set (v := inject_Z (Zpos (ma * mb)) * pow2 (ea + eb)).
  assert (V0 : 0 <= v).
  { apply Qmult_le_0_compat; [discriminate | apply Qlt_le_weak, pow2_pos]. }
  assert (EP : F32.to_Q (S754_finite sa ma ea) * F32.to_Q (S754_finite sb mb eb)
               == (if xorb sa sb then - v else v)).
  { rewrite !to_Q_signed. unfold v.
    destruct sa, sb; cbn [xorb];
      rewrite Pos2Z.inj_mul, inject_Z_mult, pow2_add; ring. }
  rewrite EP in Hv |- *. rewrite (Qabs_signed _ v V0) in Hv |- *.
  assert (HE : (ea + eb
                <= fexp prec emax (Zpos (digits2_pos (ma * mb)) + (ea + eb)))%Z).
  { destruct (fexp_cases (Zpos (digits2_pos (ma * mb)) + (ea + eb)))
      as [[F L] | [F L]]; rewrite F; lia. }
  destruct (round_value_general (xorb sa sb) (ma * mb) (ea + eb) HE Hv)
    as (Hreg & t & T0 & Et & Herr & _).
  unfold F32.mul, SFmul. split; [exact Hreg |].
  rewrite Et. fold v in Herr.
  assert (ED : Qabs ((if xorb sa sb then - t else t)
                     - (if xorb sa sb then - v else v)) == Qabs (t - v)).
  { destruct (xorb sa sb); [| reflexivity].
    setoid_replace (- t - - v) with (- (t - v)) by ring. apply Qabs_opp. }
  rewrite ED. exact Herr.
Qed.

(** Rounding an integer at an exponent of the format: a relative error
    only. *)
Lemma binary_round_general (s : bool) (M : positive) (E : Z) :
  (-149 <= E)%Z -> inject_Z (Zpos M) * pow2 E < pow2 127 ->
  let v := inject_Z (Zpos M) * pow2 E in
  let r := binary_round prec emax s M E in
  f32_regular r = true
  /\ exists t : Q,
       0 <= t /\ F32.to_Q r == (if s then - t else t)
       /\ Qabs (t - v) <= f32_eps * v.
Proof.
  intros HE Hv v r. unfold r, binary_round.
  set (d := Zpos (digits2_pos M)).
  set (f := fexp prec emax (d + E)).
  destruct (Z.le_gt_cases E f) as [L | G].
  - rewrite shl_align_ge by exact L.
    destruct (round_value_general s M E L Hv) as (Hreg & t & T0 & Et & _ & Hrel).
    split; [exact Hreg |]. exists t. split; [exact T0 |].
    split; [exact Et | exact (Hrel HE)].
  - destruct (shl_align_le M E f) as [Hm He]; [lia |].
    destruct (shl_align M E f) as [mz ez]. cbn [fst snd] in Hm, He. subst ez.
    pose proof (digits2_bounds M) as [Mlo Mhi]. fold d in Mlo, Mhi.
    assert (Hd : (0 < d)%Z) by (unfold d; lia).
    assert (HP : (0 < 2 ^ (E - f))%Z) by (apply Z.pow_pos_nonneg; lia).
    assert (Hdz : Zpos (digits2_pos mz) = (d + (E - f))%Z).
    { apply digits2_unique. rewrite Hm.
      replace (d + (E - f) - 1)%Z with (d - 1 + (E - f))%Z by lia.
      rewrite !Z.pow_add_r by lia. split; nia. }
    assert (EV : inject_Z (Zpos mz) * pow2 f == v).
    { unfold v. rewrite Hm. symmetry. apply value_shift. lia. }
    assert (Ff : (-149 <= f)%Z)
      by (unfold f; destruct (fexp_cases (d + E)) as [[F' L'] | [F' L']]; lia).
    assert (HEz : (f <= fexp prec emax (Zpos (digits2_pos mz) + f))%Z).
    { rewrite Hdz. replace (d + (E - f) + f)%Z with (d + E)%Z by lia.
      fold f. lia. }
    assert (Hvz : inject_Z (Zpos mz) * pow2 f < pow2 127)
      by (rewrite EV; exact Hv).
    destruct (round_value_general s mz f HEz Hvz)
      as (Hreg & t & T0 & Et & _ & Hrel).
    split; [exact Hreg |]. exists t. split; [exact T0 |].
    split; [exact Et |]. specialize (Hrel Ff). rewrite EV in Hrel. exact Hrel.
Qed.

Lemma to_Q_zero (s : bool) : F32.to_Q (S754_zero s) = 0.
Proof. reflexivity. Qed.

(** The standard model for a sum: a relative error of at most [2^-24]
    (a sum in the subnormal range is exact). *)
Lemma add_general (a b : f32) :
  f32_regular a = true -> f32_regular b = true ->
  Qabs (F32.to_Q a + F32.to_Q b) < pow2 127 ->
  f32_regular (F32.add a b) = true
  /\ Qabs (F32.to_Q (F32.add a b) - (F32.to_Q a + F32.to_Q b))
     <= f32_eps * Qabs (F32.to_Q a + F32.to_Q b).
Proof.
  intros Ha Hb Hv.
  assert (X0 : forall x z : Q, x == z ->
             Qabs (x - z) <= f32_eps * Qabs z).
  { intros x z Ez. setoid_replace (x - z) with 0 by (rewrite Ez; ring).
    apply Qmult_le_0_compat; [discriminate | apply Qabs_nonneg]. }
  destruct a as [sa | sa | | sa ma ea]; try discriminate Ha;
    destruct b as [sb | sb | | sb mb eb]; try discriminate Hb.
  - split; [now destruct sa, sb |].
    apply X0. destruct sa, sb; reflexivity.
  - split; [exact Hb |]. apply X0. cbn [F32.add SFadd]. rewrite to_Q_zero. ring.
  - split; [exact Ha |]. apply X0. cbn [F32.add SFadd]. rewrite to_Q_zero. ring.
  - pose proof (regular_finite_inv _ _ _ Ha) as Ba.
    pose proof (regular_finite_inv _ _ _ Hb) as Bb.
    destruct (canonical_inv ma ea Ba) as (Ea & _ & _).
    destruct (canonical_inv mb eb Bb) as (Eb & _ & _).
    set (ez := Z.min ea eb).
    destruct (shl_align_le ma ea ez) as [Fa _]; [unfold ez; lia |].
    destruct (shl_align_le mb eb ez) as [Fb _]; [unfold ez; lia |].
    set (D := (cond_Zopp sa (Zpos ma * 2 ^ (ea - ez))
               + cond_Zopp sb (Zpos mb * 2 ^ (eb - ez)))%Z).
    assert (EV : F32.to_Q (S754_finite sa ma ea) + F32.to_Q (S754_finite sb mb eb)
                 == inject_Z D * pow2 ez).
    { rewrite !to_Q_signed. unfold D. rewrite inject_Z_plus.
      assert (VA := value_shift ma ea ez ltac:(unfold ez; lia)).
      assert (VB := value_shift mb eb ez ltac:(unfold ez; lia)).
      destruct sa, sb; cbn [cond_Zopp]; rewrite ?inject_Z_opp, VA, VB; ring. }
    rewrite EV in Hv |- *.
    unfold F32.add, SFadd. fold ez. rewrite Fa, Fb. fold D.
    pose proof (pow2_pos ez) as Pz.
    destruct D as [| Dp | Dp] eqn:ED; cbn [binary_normalize].
    + split; [reflexivity |]. apply X0. cbn [F32.to_Q]. ring.
    + assert (Hv' : inject_Z (Zpos Dp) * pow2 ez < pow2 127).
      { rewrite Qabs_pos in Hv; [exact Hv |].
        apply Qmult_le_0_compat; [discriminate | apply Qlt_le_weak; exact Pz]. }
      destruct (binary_round_general false Dp ez) as (Hreg & t & T0 & Et & Herr);
        [unfold ez; lia | exact Hv' |].
      split; [exact Hreg |]. rewrite Et.
      rewrite (Qabs_pos (inject_Z (Zpos Dp) * pow2 ez))
        by (apply Qmult_le_0_compat; [discriminate | apply Qlt_le_weak; exact Pz]).
      exact Herr.
    + set (v := inject_Z (Zpos Dp) * pow2 ez).
      assert (V0 : 0 <= v)
        by (apply Qmult_le_0_compat; [discriminate | apply Qlt_le_weak; exact Pz]).
      assert (EN : inject_Z (Zneg Dp) * pow2 ez == - v).
      { unfold v. change (Zneg Dp) with (Z.opp (Zpos Dp)).
        rewrite inject_Z_opp. ring. }
      rewrite EN in Hv |- *. rewrite Qabs_opp in Hv |- *.
      rewrite (Qabs_pos v V0) in Hv |- *.
      destruct (binary_round_general true Dp ez) as (Hreg & t & T0 & Et & Herr);
        [unfold ez; lia | exact Hv |].
      split; [exact Hreg |]. rewrite Et. fold v in Herr.
      setoid_replace (- t - - v) with (- (t - v)) by ring.
      rewrite Qabs_opp. exact Herr.
Qed.

Lemma regular_neg (x : f32) :
  f32_regular x = true -> f32_regular (F32.neg x) = true.
Proof. destruct x; intros H; exact H. Qed.

(** The standard model for a difference. *)
Lemma sub_general (a b : f32) :
  f32_regular a = true -> f32_regular b = true ->
  Qabs (F32.to_Q a - F32.to_Q b) < pow2 127 ->
  f32_regular (F32.sub a b) = true
  /\ Qabs (F32.to_Q (F32.sub a b) - (F32.to_Q a - F32.to_Q b))
     <= f32_eps * Qabs (F32.to_Q a - F32.to_Q b).
Proof.
  intros Ha Hb Hv. rewrite <- add_neg_r.
  assert (E : F32.to_Q a - F32.to_Q b == F32.to_Q a + F32.to_Q (F32.neg b))
    by (rewrite to_Q_neg; ring).
  rewrite E in Hv |- *.
  apply add_general; [exact Ha | now apply regular_neg | exact Hv].
Qed.

(** ** Bounds on absolute values *)

Lemma Qabs_le_inv (x y : Q) : Qabs x <= y -> - y <= x /\ x <= y.
Proof. apply Qabs_Qle_condition. Qed.

Lemma Qabs_le_intro (x y : Q) : - y <= x -> x <= y -> Qabs x <= y.
Proof. intros H1 H2. apply Qabs_Qle_condition. now split. Qed.

Lemma Qabs_mul_bound (a b x y : Q) :
  Qabs a <= x -> Qabs b <= y -> Qabs (a * b) <= x * y.
Proof.
  intros Ha Hb. rewrite Qabs_Qmult.
  apply Qmult_le_compat_nonneg; split;
    [apply Qabs_nonneg | exact Ha | apply Qabs_nonneg | exact Hb].
Qed.

Lemma Qabs_square (x : Q) : Qabs x * Qabs x == x * x.
Proof. rewrite <- Qabs_Qmult. apply Qabs_pos. nra. Qed.

(** A bound on a square gives a bound on the number. *)
Lemma Qabs_of_square (x b : Q) : 0 <= b -> x * x <= b * b -> Qabs x <= b.
Proof.
  intros Hb H. destruct (Qlt_le_dec b (Qabs x)) as [L | G]; [exfalso | exact G].
  assert (K : b * b < Qabs x * Qabs x).
  { apply Qle_lt_trans with (b * Qabs x).
    - apply Qmult_le_compat_nonneg; split;
        [exact Hb | apply Qle_refl | exact Hb | apply Qlt_le_weak; exact L].
    - apply Qmult_lt_compat_r; [| exact L].
      apply Qle_lt_trans with b; assumption. }
  rewrite Qabs_square in K. lra.
Qed.

(** ** Signs of products and sums *)

Lemma round_aux_nonneg (m e : Z) (l : location) :
  0 <= F32.to_Q (binary_round_aux prec emax false m e l).
Proof.
  unfold binary_round_aux.
  destruct (shr_fexp prec emax m e l) as [mrs' e'].
  destruct (shr_fexp prec emax _ e' loc_Exact) as [mrs'' e''].
  destruct (shr_m mrs''); try apply Qle_refl.
  destruct (e'' <=? emax - prec)%Z; [| apply Qle_refl].
  rewrite to_Q_finite. apply Qmult_le_0_compat;
    [discriminate | apply Qlt_le_weak, pow2_pos].
Qed.

Lemma mul_self_nonneg (x : f32) : 0 <= F32.to_Q (F32.mul x x).
Proof.
  destruct x as [s | s | | s m e]; try apply Qle_refl.
  unfold F32.mul, SFmul. replace (xorb s s) with false by now destruct s.
  apply round_aux_nonneg.
Qed.

(** The sum of two floats of non-negative value. *)
Lemma add_nonneg (a b : f32) :
  f32_regular a = true -> f32_regular b = true ->
  0 <= F32.to_Q a -> 0 <= F32.to_Q b ->
  F32.to_Q a + F32.to_Q b < pow2 127 ->
  f32_regular (F32.add a b) = true
  /\ (F32.to_Q a + F32.to_Q b) * (1 - f32_eps) <= F32.to_Q (F32.add a b)
  /\ F32.to_Q (F32.add a b) <= (F32.to_Q a + F32.to_Q b) * (1 + f32_eps).
Proof.
  intros Ha Hb A0 B0 Hv.
  assert (T0 : 0 <= F32.to_Q a + F32.to_Q b) by lra.
  destruct (add_general a b Ha Hb) as [Hreg Herr].
  { rewrite Qabs_pos by exact T0. exact Hv. }
  rewrite (Qabs_pos _ T0) in Herr. apply Qabs_le_inv in Herr as [E1 E2].
  split; [exact Hreg |]. unfold f32_eps in *. split; lra.
Qed.

Lemma is_pos_normal_regular (x : f32) :
  is_pos_normal x = true -> f32_regular x = true.
Proof.
  destruct x as [| | | [|] m e]; try discriminate. cbn [is_pos_normal].
  intros H. repeat (apply andb_prop in H; destruct H as [H ?]).
  apply Z.leb_le in H. apply Z.ltb_lt in H2. apply Z.leb_le in H1, H0.
  unfold f32_regular, F32.valid, valid_binary, F32.is_finite.
  rewrite canonical_intro; [reflexivity | lia | |].
  - rewrite (digits2_unique m 24); [lia |].
    change (2 ^ (24 - 1))%Z with 8388608%Z. change (2 ^ 24)%Z with 16777216%Z.
    lia.
  - left. apply digits2_unique.
    change (2 ^ (24 - 1))%Z with 8388608%Z. change (2 ^ 24)%Z with 16777216%Z.
    lia.
Qed.

(** A valid float of value at least [2^-126] is a positive normal
    number. *)
Lemma regular_pos_normal (x : f32) :
  f32_regular x = true -> pow2 (-126) <= F32.to_Q x ->
  is_pos_normal x = true.
Proof.
  intros Hx Hv. pose proof (pow2_pos (-126)) as P.
  destruct x as [s | s | | s m e]; try discriminate Hx.
  - exfalso. cbn [F32.to_Q] in Hv. lra.
  - pose proof (regular_finite_inv _ _ _ Hx) as Hb.
    destruct (canonical_inv m e Hb) as (He & Hd & Hc).
    pose proof (pow2_pos e) as Pe.
    assert (V0 : 0 < inject_Z (Zpos m) * pow2 e)
      by (apply Qmult_lt_0_compat; [reflexivity | exact Pe]).
    destruct s.
    { exfalso. rewrite to_Q_signed in Hv. lra. }
    rewrite to_Q_finite in Hv.
    destruct (inject_pos_bounds m) as [Mlo Mhi].
    pose proof (digits2_bounds m) as [Zlo Zhi].
    set (d := Zpos (digits2_pos m)) in *.
    assert (D24 : d = 24%Z).
    { destruct Hc as [K | K]; [exact K |]. subst e.
      assert (H : pow2 (-126) < pow2 (d + -149)).
      { eapply Qle_lt_trans; [exact Hv |]. rewrite pow2_add.
        apply Qmult_lt_compat_r; assumption. }
      apply pow2_lt_inv in H. lia. }
    rewrite D24 in Zlo, Zhi.
    change (2 ^ (24 - 1))%Z with 8388608%Z in Zlo.
    change (2 ^ 24)%Z with 16777216%Z in Zhi.
    cbn [is_pos_normal].
    apply andb_true_intro; split; [apply andb_true_intro; split;
      [apply andb_true_intro; split |] |].
    + apply Z.leb_le. lia.
    + apply Z.ltb_lt. lia.
    + apply Z.leb_le. lia.
    + apply Z.leb_le. lia.
Qed.

(** ** Normalization of a vector of any length *)

Ltac qlit c := let v := eval vm_compute in c in change c with v in *.

Lemma within_inv (B : Q) (x : f32) :
  f32_within B x = true ->
  f32_regular x = true /\ Qabs (F32.to_Q x) <= B.
Proof.
  unfold f32_within. intros H. apply andb_prop in H as [H1 H2].
  split; [exact H1 | apply Qle_bool_iff; exact H2].
Qed.

Lemma float3_within_inv (B : Q) (v : float3) :
  float3_within B v = true ->
  (f32_regular (float3_x v) = true /\ Qabs (F32.to_Q (float3_x v)) <= B)
  /\ (f32_regular (float3_y v) = true /\ Qabs (F32.to_Q (float3_y v)) <= B)
  /\ (f32_regular (float3_z v) = true /\ Qabs (F32.to_Q (float3_z v)) <= B).
Proof.
  unfold float3_within. intros H.
  apply andb_prop in H as [H Hz]. apply andb_prop in H as [Hx Hy].
  split; [| split]; now apply within_inv.
Qed.

Lemma is_pos_normal_pos_normal (x : f32) :
  is_pos_normal x = true -> pos_normal x.
Proof.
  destruct x as [| | | [|] m e]; try discriminate. cbn [is_pos_normal].
  intros H. repeat (apply andb_prop in H; destruct H as [H ?]).
  apply Z.leb_le in H. apply Z.ltb_lt in H2.
  exists m, e. split; [reflexivity |].
  change (2 ^ 23)%Z with 8388608%Z. change (2 ^ 24)%Z with 16777216%Z. lia.
Qed.

(** The square of one component. *)
Lemma sqr_general (x : f32) :
  f32_regular x = true ->
  Qabs (F32.to_Q x) <= pow2 61 * (1 + f32_eps) ->
  f32_regular (F32.mul x x) = true
  /\ 0 <= F32.to_Q (F32.mul x x)
  /\ 0 <= F32.to_Q x * F32.to_Q x
  /\ F32.to_Q x * F32.to_Q x <= 5 * pow2 120
  /\ F32.to_Q x * F32.to_Q x * (1 - f32_eps) - pow2 (-150)
     <= F32.to_Q (F32.mul x x)
  /\ F32.to_Q (F32.mul x x)
     <= F32.to_Q x * F32.to_Q x * (1 + f32_eps) + pow2 (-150).
Proof.
  intros Hx Hb. set (X := F32.to_Q x) in *.
  pose proof (Qabs_mul_bound _ _ _ _ Hb Hb) as B.
  assert (XX0 : 0 <= X * X) by nra.
  rewrite (Qabs_pos _ XX0) in B.
  qlit (pow2 61 * (1 + f32_eps) * (pow2 61 * (1 + f32_eps))).
  qlit (pow2 120). qlit (pow2 (-150)).
  destruct (mul_general x x Hx Hx) as [Hreg Herr].
  { fold X. rewrite (Qabs_pos _ XX0). qlit (pow2 127). lra. }
  fold X in Herr. rewrite (Qabs_pos _ XX0) in Herr.
  apply Qabs_le_inv in Herr as [E1 E2].
  qlit (pow2 (-150)). unfold f32_eps in *.
  split; [exact Hreg |]. split; [apply mul_self_nonneg |].
  split; [exact XX0 |]. split; [lra |]. split; lra.
Qed.

(** The computed sum of the three squares. *)
Lemma sqrMagnitude_general (v : float3) :
  float3_within (pow2 61 * (1 + f32_eps)) v = true ->
  let S := float3_length2 v in
  let mag := F32.to_Q (float3_sqrMagnitude v) in
  f32_regular (float3_sqrMagnitude v) = true
  /\ 0 <= S /\ S < pow2 124
  /\ S * (1 - 4 * f32_eps) - 4 * pow2 (-150) <= mag
  /\ mag <= S * (1 + 4 * f32_eps) + 4 * pow2 (-150).
Proof.
  intros H. apply float3_within_inv in H as ((Rx & Bx) & (Ry & By) & (Rz & Bz)).
  destruct (sqr_general _ Rx Bx) as (Qx & Px & Ex & Ux & Lx & Hx).
  destruct (sqr_general _ Ry By) as (Qy & Py & Ey & Uy & Ly & Hy).
  destruct (sqr_general _ Rz Bz) as (Qz & Pz & Ez & Uz & Lz & Hz).
  unfold float3_length2, float3_inner, float3_sqrMagnitude.
  destruct v as [x y z]. cbn [float3_x float3_y float3_z] in *.
  set (XX := F32.to_Q x * F32.to_Q x) in *.
  set (YY := F32.to_Q y * F32.to_Q y) in *.
  set (ZZ := F32.to_Q z * F32.to_Q z) in *.
  set (sx := F32.mul x x) in *. set (sy := F32.mul y y) in *.
  set (sz := F32.mul z z) in *.
  qlit (pow2 120). qlit (pow2 (-150)). qlit (pow2 124).
  destruct (add_nonneg sx sy Qx Qy Px Py) as (Q1 & L1 & H1).
  { qlit (pow2 127). unfold f32_eps in *. lra. }
  set (s1 := F32.add sx sy) in *.
  assert (P1 : 0 <= F32.to_Q s1) by (unfold f32_eps in *; lra).
  destruct (add_nonneg s1 sz Q1 Qz P1 Pz) as (Q2 & L2 & H2).
  { qlit (pow2 127). unfold f32_eps in *. lra. }
  cbv zeta. fold s1. set (s2 := F32.add s1 sz) in *.
  unfold f32_eps in *.
  split; [exact Q2 |]. split; [lra |]. split; [lra |]. split; lra.
Qed.

Lemma square_close (U p d b : Q) :
  Qabs (U - p) <= d -> Qabs p <= b ->
  Qabs (U * U - p * p) <= d * (2 * b + d).
Proof.
  intros H1 H2.
  assert (E : U * U - p * p == (U - p) * (U + p)) by ring.
  rewrite E. apply Qabs_mul_bound; [exact H1 |].
  apply Qabs_le_inv in H1 as [A1 A2]. apply Qabs_le_inv in H2 as [B1 B2].
  apply Qabs_le_intro; lra.
Qed.

(** One component of the normalized vector. *)
Lemma scaled_general (x root : f32) (S : Q) :
  f32_regular x = true -> f32_regular root = true ->
  let X := F32.to_Q x in
  let r := F32.to_Q root in
  0 < r -> X * X <= S -> r * r * S <= 10035 # 10000 ->
  let U := F32.to_Q (F32.mul x root) in
  f32_regular (F32.mul x root) = true
  /\ Qabs (X * r) <= 1002 # 1000
  /\ Qabs (U - X * r) <= 2 * f32_eps
  /\ Qabs (U * U - (X * r) * (X * r)) <= 5 * f32_eps.
Proof.
  intros Hx Hr X r R0 XS P U.
  assert (RR : 0 <= r * r) by nra.
  assert (K : X * X * (r * r) <= S * (r * r))
    by (apply Qmult_le_compat_r; assumption).
  assert (B : Qabs (X * r) <= 1002 # 1000).
  { apply Qabs_of_square; [discriminate |].
    setoid_replace (X * r * (X * r)) with (X * X * (r * r)) by ring. lra. }
  destruct (mul_general x root Hx Hr) as [Hreg Herr].
  { fold X r. eapply Qle_lt_trans; [exact B | reflexivity]. }
  fold X r U in Herr.
  assert (D : Qabs (U - X * r) <= 2 * f32_eps).
  { eapply Qle_trans; [exact Herr |]. qlit (pow2 (-150)).
    unfold f32_eps. lra. }
  split; [exact Hreg |]. split; [exact B |]. split; [exact D |].
  eapply Qle_trans; [apply (square_close _ _ _ _ D B) |].
  unfold f32_eps. apply Qle_bool_iff. reflexivity.
Qed.

(** The normalized vector: its components are the exact ones scaled by
    the computed reciprocal root [r], up to two roundings' worth, and its
    squared length is within 4/1000 of 1. *)
Lemma normalized_general (v : float3) :
  float3_within (pow2 61 * (1 + f32_eps)) v = true ->
  pow2 (-100) <= float3_length2 v ->
  let r := F32.to_Q (fisqrt (float3_sqrMagnitude v)) in
  let u := float3_normalized v in
  0 < r
  /\ r * r * float3_length2 v <= 10035 # 10000
  /\ 9966 # 10000 <= r * r * float3_length2 v
  /\ float3_within (1003 # 1000) u = true
  /\ Qabs (F32.to_Q (float3_x u) - F32.to_Q (float3_x v) * r) <= 2 * f32_eps
  /\ Qabs (F32.to_Q (float3_y u) - F32.to_Q (float3_y v) * r) <= 2 * f32_eps
  /\ Qabs (F32.to_Q (float3_z u) - F32.to_Q (float3_z v) * r) <= 2 * f32_eps
  /\ Qabs (float3_length2 u - 1) <= 4 # 1000.
Proof.
  intros Hv HS.
  destruct (sqrMagnitude_general v Hv) as (Rm & S0 & S124 & Lm & Um).
  apply float3_within_inv in Hv as ((Rx & _) & (Ry & _) & (Rz & _)).
  cbv zeta in Lm, Um.
  unfold float3_normalized. cbv zeta. cbn [float3_x float3_y float3_z].
  set (mag := float3_sqrMagnitude v) in *.
  set (S := float3_length2 v) in *.
  set (N := F32.to_Q mag) in *.
  assert (M4 : 4 * pow2 (-150) <= (1 # 281474976710656) * S).
  { qlit (pow2 (-150)). qlit (pow2 (-100)). lra. }
  assert (L5 : S * (1 - 5 * f32_eps) <= N) by (unfold f32_eps in *; lra).
  assert (U5 : N <= S * (1 + 5 * f32_eps)) by (unfold f32_eps in *; lra).
  assert (SP : 0 < S).
  { eapply Qlt_le_trans; [apply (pow2_pos (-100)) | exact HS]. }
  assert (IPN : is_pos_normal mag = true).
  { apply regular_pos_normal; [exact Rm |]. fold N.
    qlit (pow2 (-126)). qlit (pow2 (-100)). unfold f32_eps in *. lra. }
  assert (AP : approx (1 - 5 * f32_eps) (1 + 5 * f32_eps) mag S).
  { right. split; [apply is_pos_normal_pos_normal; exact IPN |].
    split; [| split; assumption].
    eapply Qle_trans; [apply (pow2_le (-120) (-100)); lia | exact HS]. }
  destruct (root_of_approx _ _ _ _ AP SP S124) as (Nr & R64 & P1 & P2);
    try (apply Qle_bool_iff; reflexivity).
  set (root := fisqrt mag) in *. set (r := F32.to_Q root) in *.
  assert (R0 : 0 < r).
  { eapply Qlt_le_trans; [apply (pow2_pos (-64)) | exact R64]. }
  assert (RR : 0 <= r * r) by nra.
  assert (PE : S * (r * r) == r * r * S) by ring.
  assert (PU : r * r * S <= 10035 # 10000).
  { unfold fisqrt_delta, f32_eps in *. lra. }
  assert (PL : 9966 # 10000 <= r * r * S).
  { unfold fisqrt_delta, f32_eps in *. lra. }
  assert (Rr : f32_regular root = true).
  { apply is_pos_normal_regular, is_pos_normal_of_value;
      [exact Nr | | ].
    - eapply Qle_trans; [apply (pow2_le (-126) (-64)); lia | exact R64].
    - apply Qlt_trans with (pow2 51); [| apply pow2_lt; lia].
      apply Qsquare_lt_inv;
        [apply Qlt_le_weak; exact R0 | apply Qlt_le_weak, pow2_pos |].
      assert (K : r * r * pow2 (-100) <= r * r * S).
      { rewrite !(Qmult_comm (r * r)). apply Qmult_le_compat_r; assumption. }
      qlit (pow2 51 * pow2 51). qlit (pow2 (-100)). fold r. lra. }
  unfold S, float3_length2, float3_inner in *.
  destruct v as [x y z]. cbn [float3_x float3_y float3_z] in *.
  set (X := F32.to_Q x) in *. set (Y := F32.to_Q y) in *.
  set (Z := F32.to_Q z) in *.
  assert (XX : 0 <= X * X) by nra. assert (YY : 0 <= Y * Y) by nra.
  assert (ZZ : 0 <= Z * Z) by nra.
  assert (SX : X * X <= X * X + Y * Y + Z * Z) by lra.
  assert (SY : Y * Y <= X * X + Y * Y + Z * Z) by lra.
  assert (SZ : Z * Z <= X * X + Y * Y + Z * Z) by lra.
  destruct (scaled_general x root _ Rx Rr R0 SX PU) as (Qx & Bx & Dx & Ex).
  destruct (scaled_general y root _ Ry Rr R0 SY PU) as (Qy & By & Dy & Ey).
  destruct (scaled_general z root _ Rz Rr R0 SZ PU) as (Qz & Bz & Dz & Ez).
  fold X r in Bx, Dx, Ex. fold Y r in By, Dy, Ey. fold Z r in Bz, Dz, Ez.
  set (Ux := F32.to_Q (F32.mul x root)) in *.
  set (Uy := F32.to_Q (F32.mul y root)) in *.
  set (Uz := F32.to_Q (F32.mul z root)) in *.
  split; [exact R0 |]. split; [exact PU |]. split; [exact PL |].
  split; [| split; [exact Dx | split; [exact Dy | split; [exact Dz |]]]].
  - unfold float3_within, f32_within. cbn [float3_x float3_y float3_z].
    rewrite Qx, Qy, Qz. cbn [andb].
    assert (W : forall U p, Qabs (U - p) <= 2 * f32_eps ->
                  Qabs p <= 1002 # 1000 ->
                  Qle_bool (Qabs U) (1003 # 1000) = true).
    { intros U p H1 H2. apply Qle_bool_iff.
      apply Qabs_le_inv in H1 as [A1 A2]. apply Qabs_le_inv in H2 as [B1 B2].
      unfold f32_eps in *. apply Qabs_le_intro; lra. }
    fold Ux Uy Uz.
    rewrite (W _ _ Dx Bx), (W _ _ Dy By), (W _ _ Dz Bz). reflexivity.
  - apply Qabs_le_inv in Ex as [Ex1 Ex2]. apply Qabs_le_inv in Ey as [Ey1 Ey2].
    apply Qabs_le_inv in Ez as [Ez1 Ez2].
    assert (EP : X * r * (X * r) + Y * r * (Y * r) + Z * r * (Z * r)
                 == r * r * (X * X + Y * Y + Z * Z)) by ring.
    unfold f32_eps in *. apply Qabs_le_intro; lra.
Qed.

(** ** Rounding errors of products, cross products and inner products *)

Lemma mul_bounded (a b : f32) (ka kb : Q) :
  f32_regular a = true -> f32_regular b = true ->
  Qabs (F32.to_Q a) <= ka -> Qabs (F32.to_Q b) <= kb ->
  ka * kb < pow2 127 ->
  f32_regular (F32.mul a b) = true
  /\ Qabs (F32.to_Q a * F32.to_Q b) <= ka * kb
  /\ Qabs (F32.to_Q (F32.mul a b) - F32.to_Q a * F32.to_Q b)
     <= f32_eps * (ka * kb) + pow2 (-150).
Proof.
  intros Ha Hb Ka Kb K.
  pose proof (Qabs_mul_bound _ _ _ _ Ka Kb) as B.
  destruct (mul_general a b Ha Hb) as [Hreg Herr].
  { eapply Qle_lt_trans; [exact B | exact K]. }
  split; [exact Hreg |]. split; [exact B |].
  eapply Qle_trans; [exact Herr |]. unfold f32_eps in *. lra.
Qed.

Lemma add_bounded (a b : f32) (k : Q) :
  f32_regular a = true -> f32_regular b = true ->
  Qabs (F32.to_Q a + F32.to_Q b) <= k -> k < pow2 127 ->
  f32_regular (F32.add a b) = true
  /\ Qabs (F32.to_Q (F32.add a b) - (F32.to_Q a + F32.to_Q b))
     <= f32_eps * k.
Proof.
  intros Ha Hb B K.
  destruct (add_general a b Ha Hb) as [Hreg Herr].
  { eapply Qle_lt_trans; [exact B | exact K]. }
  split; [exact Hreg |].
  eapply Qle_trans; [exact Herr |]. unfold f32_eps in *. lra.
Qed.

Lemma sub_bounded (a b : f32) (k : Q) :
  f32_regular a = true -> f32_regular b = true ->
  Qabs (F32.to_Q a - F32.to_Q b) <= k -> k < pow2 127 ->
  f32_regular (F32.sub a b) = true
  /\ Qabs (F32.to_Q (F32.sub a b) - (F32.to_Q a - F32.to_Q b))
     <= f32_eps * k.
Proof.
  intros Ha Hb B K.
  destruct (sub_general a b Ha Hb) as [Hreg Herr].
  { eapply Qle_lt_trans; [exact B | exact K]. }
  split; [exact Hreg |].
  eapply Qle_trans; [exact Herr |]. unfold f32_eps in *. lra.
Qed.

(** One component of a cross product of vectors with components of
    magnitude at most 21/20. *)
Lemma cross_component (p q r s : f32) :
  f32_within (21 # 20) p = true -> f32_within (21 # 20) q = true ->
  f32_within (21 # 20) r = true -> f32_within (21 # 20) s = true ->
  let t := F32.sub (F32.mul p q) (F32.mul r s) in
  let T := F32.to_Q p * F32.to_Q q - F32.to_Q r * F32.to_Q s in
  f32_regular t = true
  /\ Qabs (F32.to_Q t - T) <= 5 * f32_eps
  /\ Qabs T <= 2206 # 1000.
Proof.
  intros Hp Hq Hr Hs t T.
  apply within_inv in Hp as [Rp Bp]. apply within_inv in Hq as [Rq Bq].
  apply within_inv in Hr as [Rr Br]. apply within_inv in Hs as [Rs Bs].
  destruct (mul_bounded p q _ _ Rp Rq Bp Bq) as (R1 & B1 & E1);
    [reflexivity |].
  destruct (mul_bounded r s _ _ Rr Rs Br Bs) as (R2 & B2 & E2);
    [reflexivity |].
  unfold t, T.
  set (PQ := F32.to_Q p * F32.to_Q q) in *.
  set (RS := F32.to_Q r * F32.to_Q s) in *.
  set (m1 := F32.mul p q) in *. set (m2 := F32.mul r s) in *.
  qlit (pow2 (-150)). unfold f32_eps in *.
  apply Qabs_le_inv in B1 as [B1l B1h]. apply Qabs_le_inv in B2 as [B2l B2h].
  apply Qabs_le_inv in E1 as [E1l E1h]. apply Qabs_le_inv in E2 as [E2l E2h].
  destruct (sub_bounded m1 m2 (2206 # 1000) R1 R2) as (R3 & E3);
    [apply Qabs_le_intro; lra | reflexivity |].
  unfold f32_eps in E3. apply Qabs_le_inv in E3 as [E3l E3h].
  split; [exact R3 |]. split; apply Qabs_le_intro; lra.
Qed.

(** The computed cross product of two such vectors is within [5 eps]
    of the exact one, component by component. *)
Lemma cross_general (a b : float3) :
  float3_within (21 # 20) a = true -> float3_within (21 # 20) b = true ->
  let c := float3_cross a b in
  let A1 := F32.to_Q (float3_x a) in let A2 := F32.to_Q (float3_y a) in
  let A3 := F32.to_Q (float3_z a) in
  let B1 := F32.to_Q (float3_x b) in let B2 := F32.to_Q (float3_y b) in
  let B3 := F32.to_Q (float3_z b) in
  float3_regular c = true
  /\ (Qabs (F32.to_Q (float3_x c) - (A2 * B3 - A3 * B2)) <= 5 * f32_eps
      /\ Qabs (A2 * B3 - A3 * B2) <= 2206 # 1000)
  /\ (Qabs (F32.to_Q (float3_y c) - (A3 * B1 - A1 * B3)) <= 5 * f32_eps
      /\ Qabs (A3 * B1 - A1 * B3) <= 2206 # 1000)
  /\ (Qabs (F32.to_Q (float3_z c) - (A1 * B2 - A2 * B1)) <= 5 * f32_eps
      /\ Qabs (A1 * B2 - A2 * B1) <= 2206 # 1000).
Proof.
  unfold float3_within. intros Ha Hb.
  apply andb_prop in Ha as [Ha Ha3]. apply andb_prop in Ha as [Ha1 Ha2].
  apply andb_prop in Hb as [Hb Hb3]. apply andb_prop in Hb as [Hb1 Hb2].
  destruct (cross_component _ _ _ _ Ha2 Hb3 Ha3 Hb2) as (R1 & E1 & K1).
  destruct (cross_component _ _ _ _ Ha3 Hb1 Ha1 Hb3) as (R2 & E2 & K2).
  destruct (cross_component _ _ _ _ Ha1 Hb2 Ha2 Hb1) as (R3 & E3 & K3).
  cbv zeta. unfold float3_cross, float3_regular.
  cbn [float3_x float3_y float3_z].
  rewrite R1, R2, R3. repeat split; assumption.
Qed.

(** The computed inner product of a vector with components of magnitude at
    most 21/20 and a vector with components of magnitude at most [B]. *)
Lemma dot_general (a v : float3) (B : Q) :
  float3_within (21 # 20) a = true -> float3_within B v = true ->
  B <= pow2 60 ->
  f32_regular (float3_dot a v) = true
  /\ Qabs (F32.to_Q (float3_dot a v) - float3_inner a v)
     <= 9 * f32_eps * B + 4 * pow2 (-150).
Proof.
  intros Ha Hv HB.
  apply float3_within_inv in Ha as ((Ra1 & Ba1) & (Ra2 & Ba2) & (Ra3 & Ba3)).
  apply float3_within_inv in Hv as ((Rv1 & Bv1) & (Rv2 & Bv2) & (Rv3 & Bv3)).
  assert (B0 : 0 <= B)
    by (eapply Qle_trans; [apply Qabs_nonneg | exact Bv1]).
  assert (K : (21 # 20) * B < pow2 127) by (qlit (pow2 127); qlit (pow2 60); lra).
  destruct (mul_bounded _ _ _ _ Ra1 Rv1 Ba1 Bv1 K) as (R1 & B1 & E1).
  destruct (mul_bounded _ _ _ _ Ra2 Rv2 Ba2 Bv2 K) as (R2 & B2 & E2).
  destruct (mul_bounded _ _ _ _ Ra3 Rv3 Ba3 Bv3 K) as (R3 & B3 & E3).
  unfold float3_dot, float3_inner. destruct a as [a1 a2 a3], v as [v1 v2 v3].
  cbn [float3_x float3_y float3_z] in *.
  set (M1 := F32.to_Q a1 * F32.to_Q v1) in *.
  set (M2 := F32.to_Q a2 * F32.to_Q v2) in *.
  set (M3 := F32.to_Q a3 * F32.to_Q v3) in *.
  set (p1 := F32.mul a1 v1) in *. set (p2 := F32.mul a2 v2) in *.
  set (p3 := F32.mul a3 v3) in *.
  qlit (pow2 (-150)). qlit (pow2 127). qlit (pow2 60). unfold f32_eps in *.
  apply Qabs_le_inv in B1 as [B1l B1h]. apply Qabs_le_inv in B2 as [B2l B2h].
  apply Qabs_le_inv in B3 as [B3l B3h].
  apply Qabs_le_inv in E1 as [E1l E1h]. apply Qabs_le_inv in E2 as [E2l E2h].
  apply Qabs_le_inv in E3 as [E3l E3h].
  destruct (add_bounded p1 p2 ((22 # 10) * B + 2 * pow2 (-150)) R1 R2)
    as (R4 & E4); [qlit (pow2 (-150)); apply Qabs_le_intro; lra
    | qlit (pow2 127); qlit (pow2 (-150)); lra |].
  set (s1 := F32.add p1 p2) in *.
  qlit (pow2 (-150)). unfold f32_eps in E4. apply Qabs_le_inv in E4 as [E4l E4h].
  destruct (add_bounded s1 p3 ((33 # 10) * B + 4 * pow2 (-150)) R4 R3)
    as (R5 & E5); [qlit (pow2 (-150)); apply Qabs_le_intro; lra
    | qlit (pow2 127); qlit (pow2 (-150)); lra |].
  qlit (pow2 (-150)). unfold f32_eps in E5. apply Qabs_le_inv in E5 as [E5l E5h].
  split; [exact R5 |]. apply Qabs_le_intro; lra.
Qed.

(** ** Orthogonality and length of nearly exact cross products *)

Ltac qabs_inv :=
  repeat match goal with
         | H : Qabs _ <= _ |- _ => apply Qabs_le_inv in H; destruct H
         end.

Lemma Qabs_scale (r x : Q) : 0 < r -> Qabs (r * x) == r * Qabs x.
Proof.
  intros H. rewrite Qabs_Qmult, (Qabs_pos r); [reflexivity |].
  apply Qlt_le_weak; exact H.
Qed.

(** A vector [X] within [2 eps] of [r C], where [C] is within [5 eps] of
    the cross product [U x Z], is nearly orthogonal to [Z]. *)
Lemma inner_small (X1 X2 X3 Z1 Z2 Z3 C1 C2 C3 U1 U2 U3 r : Q) :
  0 < r -> r <= 129 ->
  Qabs (X1 - C1 * r) <= 2 * f32_eps -> Qabs (X2 - C2 * r) <= 2 * f32_eps ->
  Qabs (X3 - C3 * r) <= 2 * f32_eps ->
  Qabs (C1 - (U2 * Z3 - U3 * Z2)) <= 5 * f32_eps ->
  Qabs (C2 - (U3 * Z1 - U1 * Z3)) <= 5 * f32_eps ->
  Qabs (C3 - (U1 * Z2 - U2 * Z1)) <= 5 * f32_eps ->
  Qabs Z1 <= 1003 # 1000 -> Qabs Z2 <= 1003 # 1000 ->
  Qabs Z3 <= 1003 # 1000 ->
  Qabs (X1 * Z1 + X2 * Z2 + X3 * Z3) <= 1 # 1000.
Proof.
  intros R0 R1 HX1 HX2 HX3 HC1 HC2 HC3 HZ1 HZ2 HZ3.
  pose proof (Qabs_mul_bound _ _ _ _ HX1 HZ1) as T1.
  pose proof (Qabs_mul_bound _ _ _ _ HX2 HZ2) as T2.
  pose proof (Qabs_mul_bound _ _ _ _ HX3 HZ3) as T3.
  pose proof (Qabs_mul_bound _ _ _ _ HC1 HZ1) as V1.
  pose proof (Qabs_mul_bound _ _ _ _ HC2 HZ2) as V2.
  pose proof (Qabs_mul_bound _ _ _ _ HC3 HZ3) as V3.
  set (t1 := (X1 - C1 * r) * Z1) in *. set (t2 := (X2 - C2 * r) * Z2) in *.
  set (t3 := (X3 - C3 * r) * Z3) in *.
  set (v1 := (C1 - (U2 * Z3 - U3 * Z2)) * Z1) in *.
  set (v2 := (C2 - (U3 * Z1 - U1 * Z3)) * Z2) in *.
  set (v3 := (C3 - (U1 * Z2 - U2 * Z1)) * Z3) in *.
  assert (HR : Qabs r <= 129)
    by (rewrite Qabs_pos; [exact R1 | apply Qlt_le_weak; exact R0]).
  assert (HV : Qabs (v1 + v2 + v3) <= 3 * (5 * f32_eps * (1003 # 1000))).
  { clear T1 T2 T3 HX1 HX2 HX3 HC1 HC2 HC3 HZ1 HZ2 HZ3 HR.
    qabs_inv. apply Qabs_le_intro; lra. }
  pose proof (Qabs_mul_bound _ _ _ _ HR HV) as W.
  set (w := r * (v1 + v2 + v3)) in *.
  assert (E : X1 * Z1 + X2 * Z2 + X3 * Z3 == t1 + t2 + t3 + w).
  { unfold t1, t2, t3, w, v1, v2, v3. ring. }
  rewrite E.
  clear E HX1 HX2 HX3 HC1 HC2 HC3 HZ1 HZ2 HZ3 HR HV V1 V2 V3.
  unfold f32_eps in *. qabs_inv. apply Qabs_le_intro; lra.
Qed.

(** A vector within [5 eps] of the cross product [Z x X] is nearly
    orthogonal to [Z] and to [X]. *)
Lemma cross_inner_small (Y1 Y2 Y3 Z1 Z2 Z3 X1 X2 X3 : Q) :
  Qabs (Y1 - (Z2 * X3 - Z3 * X2)) <= 5 * f32_eps ->
  Qabs (Y2 - (Z3 * X1 - Z1 * X3)) <= 5 * f32_eps ->
  Qabs (Y3 - (Z1 * X2 - Z2 * X1)) <= 5 * f32_eps ->
  Qabs Z1 <= 1003 # 1000 -> Qabs Z2 <= 1003 # 1000 ->
  Qabs Z3 <= 1003 # 1000 ->
  Qabs X1 <= 1003 # 1000 -> Qabs X2 <= 1003 # 1000 ->
  Qabs X3 <= 1003 # 1000 ->
  Qabs (Y1 * Z1 + Y2 * Z2 + Y3 * Z3) <= 1 # 1000
  /\ Qabs (X1 * Y1 + X2 * Y2 + X3 * Y3) <= 1 # 1000.
Proof.
  intros HY1 HY2 HY3 HZ1 HZ2 HZ3 HX1 HX2 HX3.
  pose proof (Qabs_mul_bound _ _ _ _ HY1 HZ1) as V1.
  pose proof (Qabs_mul_bound _ _ _ _ HY2 HZ2) as V2.
  pose proof (Qabs_mul_bound _ _ _ _ HY3 HZ3) as V3.
  pose proof (Qabs_mul_bound _ _ _ _ HY1 HX1) as W1.
  pose proof (Qabs_mul_bound _ _ _ _ HY2 HX2) as W2.
  pose proof (Qabs_mul_bound _ _ _ _ HY3 HX3) as W3.
  set (v1 := (Y1 - (Z2 * X3 - Z3 * X2)) * Z1) in *.
  set (v2 := (Y2 - (Z3 * X1 - Z1 * X3)) * Z2) in *.
  set (v3 := (Y3 - (Z1 * X2 - Z2 * X1)) * Z3) in *.
  set (w1 := (Y1 - (Z2 * X3 - Z3 * X2)) * X1) in *.
  set (w2 := (Y2 - (Z3 * X1 - Z1 * X3)) * X2) in *.
  set (w3 := (Y3 - (Z1 * X2 - Z2 * X1)) * X3) in *.
  assert (E1 : Y1 * Z1 + Y2 * Z2 + Y3 * Z3 == v1 + v2 + v3)
    by (unfold v1, v2, v3; ring).
  assert (E2 : X1 * Y1 + X2 * Y2 + X3 * Y3 == w1 + w2 + w3)
    by (unfold w1, w2, w3; ring).
  rewrite E1, E2. clear E1 E2 HY1 HY2 HY3 HZ1 HZ2 HZ3 HX1 HX2 HX3.
  unfold f32_eps in *. qabs_inv. split; apply Qabs_le_intro; lra.
Qed.

(** The product of two numbers near 1. *)
Lemma product_near_one (a b : Q) :
  Qabs (a - 1) <= 4 # 1000 -> Qabs (b - 1) <= 4 # 1000 ->
  (992 # 1000) <= a * b /\ a * b <= 1009 # 1000.
Proof.
  intros Ha Hb. qabs_inv.
  assert (L : (996 # 1000) * (996 # 1000) <= a * b)
    by (apply Qmult_le_compat_nonneg; split; lra).
  assert (U : a * b <= (1004 # 1000) * (1004 # 1000))
    by (apply Qmult_le_compat_nonneg; split; lra).
  split; lra.
Qed.

(** The squared length of a vector within [5 eps] of the cross product of
    two nearly orthogonal vectors of length near 1. *)
Lemma cross_length (Y1 Y2 Y3 Z1 Z2 Z3 X1 X2 X3 : Q) :
  Qabs (Y1 - (Z2 * X3 - Z3 * X2)) <= 5 * f32_eps ->
  Qabs (Y2 - (Z3 * X1 - Z1 * X3)) <= 5 * f32_eps ->
  Qabs (Y3 - (Z1 * X2 - Z2 * X1)) <= 5 * f32_eps ->
  Qabs (Z2 * X3 - Z3 * X2) <= 2206 # 1000 ->
  Qabs (Z3 * X1 - Z1 * X3) <= 2206 # 1000 ->
  Qabs (Z1 * X2 - Z2 * X1) <= 2206 # 1000 ->
  Qabs (Z1 * Z1 + Z2 * Z2 + Z3 * Z3 - 1) <= 4 # 1000 ->
  Qabs (X1 * X1 + X2 * X2 + X3 * X3 - 1) <= 4 # 1000 ->
  Qabs (X1 * Z1 + X2 * Z2 + X3 * Z3) <= 1 # 1000 ->
  Qabs (Y1 * Y1 + Y2 * Y2 + Y3 * Y3 - 1) <= 1 # 100.
Proof.
  intros HY1 HY2 HY3 HC1 HC2 HC3 HZ HX HXZ.
  pose proof (square_close _ _ _ _ HY1 HC1) as S1.
  pose proof (square_close _ _ _ _ HY2 HC2) as S2.
  pose proof (square_close _ _ _ _ HY3 HC3) as S3.
  destruct (product_near_one _ _ HZ HX) as [PL PU].
  pose proof (Qabs_mul_bound _ _ _ _ HXZ HXZ) as D2.
  set (SZ := Z1 * Z1 + Z2 * Z2 + Z3 * Z3) in *.
  set (SX := X1 * X1 + X2 * X2 + X3 * X3) in *.
  set (d := X1 * Z1 + X2 * Z2 + X3 * Z3) in *.
  assert (LG : (Z2 * X3 - Z3 * X2) * (Z2 * X3 - Z3 * X2)
               + (Z3 * X1 - Z1 * X3) * (Z3 * X1 - Z1 * X3)
               + (Z1 * X2 - Z2 * X1) * (Z1 * X2 - Z2 * X1)
               == SZ * SX - d * d)
    by (unfold SZ, SX, d; ring).
  set (c1 := Z2 * X3 - Z3 * X2) in *. set (c2 := Z3 * X1 - Z1 * X3) in *.
  set (c3 := Z1 * X2 - Z2 * X1) in *.
  set (P := SZ * SX) in *. set (dd := d * d) in *.
  set (q1 := c1 * c1) in *. set (q2 := c2 * c2) in *.
  set (q3 := c3 * c3) in *.
  clear HY1 HY2 HY3 HC1 HC2 HC3 HZ HX HXZ.
  unfold f32_eps in *. qabs_inv. apply Qabs_le_intro; lra.
Qed.

(** ** The directions of the computed axes *)

(** A rounded value [d] of [D]: its magnitude is that of [D] up to the
    factor [1 +- eps]. *)
Lemma rounded_abs (d D : Q) :
  Qabs (d - D) <= f32_eps * Qabs D ->
  Qabs D * (1 - f32_eps) <= Qabs d /\ Qabs d <= Qabs D * (1 + f32_eps).
Proof.
  intros H.
  pose proof (Qabs_triangle_reverse d D) as T1.
  pose proof (Qabs_triangle_reverse D d) as T2.
  rewrite (Qabs_Qminus D d) in T2.
  split; lra.
Qed.

Lemma rounded_square (d D : Q) :
  Qabs (d - D) <= f32_eps * Qabs D ->
  D * D * (1 - 2 * f32_eps) <= d * d /\ d * d <= D * D * (1 + 3 * f32_eps).
Proof.
  intros H. destruct (rounded_abs d D H) as [L U].
  pose proof (Qabs_nonneg D) as A0.
  assert (L0 : 0 <= Qabs D * (1 - f32_eps)).
  { apply Qmult_le_0_compat; [exact A0 | unfold f32_eps; lra]. }
  destruct (Qsquare_bounds _ _ _ L0 L U) as [S1 S2].
  rewrite <- (Qabs_square d), <- (Qabs_square D).
  set (a := Qabs D) in *. set (b := Qabs d) in *.
  assert (AA : 0 <= a * a) by nra.
  set (aa := a * a) in *.
  assert (E1 : a * (1 - f32_eps) * (a * (1 - f32_eps))
               == aa * ((1 - f32_eps) * (1 - f32_eps))) by (unfold aa; ring).
  assert (E2 : a * (1 + f32_eps) * (a * (1 + f32_eps))
               == aa * ((1 + f32_eps) * (1 + f32_eps))) by (unfold aa; ring).
  rewrite E1 in S1. rewrite E2 in S2. unfold f32_eps in *. split; lra.
Qed.

(** The computed difference of two components. *)
Lemma difference_general (p e : f32) (B : Q) :
  f32_within (pow2 60) p = true -> f32_within B e = true -> B <= pow2 60 ->
  f32_within (pow2 61 * (1 + f32_eps)) (F32.sub p e) = true
  /\ Qabs (F32.to_Q (F32.sub p e) - (F32.to_Q p - F32.to_Q e))
     <= f32_eps * Qabs (F32.to_Q p - F32.to_Q e).
Proof.
  intros Hp He HB.
  apply within_inv in Hp as [Rp Bp]. apply within_inv in He as [Re Be].
  assert (K : Qabs (F32.to_Q p - F32.to_Q e) <= pow2 61).
  { qlit (pow2 61). qlit (pow2 60). qabs_inv. apply Qabs_le_intro; lra. }
  destruct (sub_general p e Rp Re) as [Hreg Herr].
  { eapply Qle_lt_trans; [exact K | reflexivity]. }
  split; [| exact Herr].
  unfold f32_within. rewrite Hreg. cbn [andb]. apply Qle_bool_iff.
  destruct (rounded_abs _ _ Herr) as [_ U].
  eapply Qle_trans; [exact U |].
  apply Qmult_le_compat_r; [exact K | unfold f32_eps; lra].
Qed.

(** A normalized component [F] of the rounded difference [d] is the exact
    difference [D] scaled by the same factor, up to [4 eps]. *)
Lemma scaled_close (F r d D : Q) :
  0 < r -> Qabs (F - d * r) <= 2 * f32_eps -> Qabs (d * r) <= 1004 # 1000 ->
  Qabs (d - D) <= f32_eps * Qabs D ->
  Qabs (F - r * D) <= 4 * f32_eps /\ Qabs (r * D) <= 1005 # 1000.
Proof.
  intros R0 HF Hd H. destruct (rounded_abs d D H) as [L _].
  assert (E1 : Qabs (d * r) == r * Qabs d)
    by (rewrite Qmult_comm; apply Qabs_scale; exact R0).
  rewrite E1 in Hd.
  assert (M1 : r * (Qabs D * (1 - f32_eps)) <= r * Qabs d).
  { rewrite !(Qmult_comm r). apply Qmult_le_compat_r;
      [exact L | apply Qlt_le_weak; exact R0]. }
  assert (M2 : r * Qabs (d - D) <= r * (f32_eps * Qabs D)).
  { rewrite !(Qmult_comm r). apply Qmult_le_compat_r;
      [exact H | apply Qlt_le_weak; exact R0]. }
  rewrite <- (Qabs_scale r (d - D) R0) in M2.
  pose proof (Qabs_scale r D R0) as E2.
  pose proof (Qabs_nonneg D) as A0.
  assert (RA0 : 0 <= r * Qabs D)
    by (apply Qmult_le_0_compat; [apply Qlt_le_weak; exact R0 | exact A0]).
  set (ra := r * Qabs D) in *.
  assert (E3 : r * (Qabs D * (1 - f32_eps)) == ra * (1 - f32_eps))
    by (unfold ra; ring).
  assert (E4 : r * (f32_eps * Qabs D) == f32_eps * ra) by (unfold ra; ring).
  rewrite E3 in M1. rewrite E4 in M2.
  assert (RA : ra <= 1005 # 1000) by (unfold f32_eps in *; lra).
  split; [| rewrite E2; exact RA].
  assert (E5 : F - r * D == (F - d * r) + r * (d - D)) by ring.
  rewrite E5. set (t := r * (d - D)) in *. set (s := F - d * r) in *.
  clear E5 E1 E2 E3 E4. unfold f32_eps in *.
  apply Qabs_le_inv in HF as [HF1 HF2]. apply Qabs_le_inv in M2 as [M21 M22].
  apply Qabs_le_intro; lra.
Qed.

(** One component of the cross product of two perturbed vectors. *)
Lemma cross_scaled (u2 u3 z2 z3 a2 a3 b2 b3 : Q) :
  Qabs (u2 - a2) <= 2 * f32_eps -> Qabs (u3 - a3) <= 2 * f32_eps ->
  Qabs (z2 - b2) <= 4 * f32_eps -> Qabs (z3 - b3) <= 4 * f32_eps ->
  Qabs u2 <= 1003 # 1000 -> Qabs u3 <= 1003 # 1000 ->
  Qabs b2 <= 1005 # 1000 -> Qabs b3 <= 1005 # 1000 ->
  Qabs ((u2 * z3 - u3 * z2) - (a2 * b3 - a3 * b2)) <= 13 * f32_eps.
Proof.
  intros Hu2 Hu3 Hz2 Hz3 Bu2 Bu3 Bb2 Bb3.
  pose proof (Qabs_mul_bound _ _ _ _ Bu2 Hz3) as T1.
  pose proof (Qabs_mul_bound _ _ _ _ Hu2 Bb3) as T2.
  pose proof (Qabs_mul_bound _ _ _ _ Bu3 Hz2) as T3.
  pose proof (Qabs_mul_bound _ _ _ _ Hu3 Bb2) as T4.
  set (t1 := u2 * (z3 - b3)) in *. set (t2 := (u2 - a2) * b3) in *.
  set (t3 := u3 * (z2 - b2)) in *. set (t4 := (u3 - a3) * b2) in *.
  assert (E : u2 * z3 - u3 * z2 - (a2 * b3 - a3 * b2)
              == t1 + t2 - t3 - t4) by (unfold t1, t2, t3, t4; ring).
  rewrite E. clear E Hu2 Hu3 Hz2 Hz3 Bu2 Bu3 Bb2 Bb3.
  unfold f32_eps in *. qabs_inv. apply Qabs_le_intro; lra.
Qed.

(** One of three squares carries a third of their sum. *)
Lemma big_component (c1 c2 c3 K : Q) :
  3 * K <= c1 + c2 + c3 -> K <= c1 \/ K <= c2 \/ K <= c3.
Proof.
  intros H.
  destruct (Qlt_le_dec c1 K) as [L1 | G1]; [| left; exact G1].
  destruct (Qlt_le_dec c2 K) as [L2 | G2]; [| right; left; exact G2].
  right; right. lra.
Qed.

(** A number within [18 eps] of one whose square is at least
    [(89/10000)^2] has a square of at least [2^-14]. *)
Lemma square_lower (c g : Q) :
  Qabs (c - g) <= 18 * f32_eps ->
  (89 # 10000) * (89 # 10000) <= g * g ->
  pow2 (-14) <= c * c.
Proof.
  intros H G.
  assert (GA : 89 # 10000 <= Qabs g).
  { destruct (Qlt_le_dec (Qabs g) (89 # 10000)) as [L | K]; [| exact K].
    exfalso. pose proof (Qsquare_lt _ _ (Qabs_nonneg g) L) as S.
    rewrite Qabs_square in S. lra. }
  pose proof (Qabs_triangle_reverse g c) as T.
  rewrite (Qabs_Qminus g c) in T.
  assert (CA : 88 # 10000 <= Qabs c) by (unfold f32_eps in *; lra).
  destruct (Qsquare_bounds (Qabs c) (88 # 10000) (Qabs c)
              ltac:(discriminate) CA ltac:(apply Qle_refl)) as [S _].
  rewrite Qabs_square in S. qlit (pow2 (-14)). lra.
Qed.

(** The scaled cross product component keeps a third of the squared sine
    of the angle. *)
Lemma scaled_square_lower (c g ru rd Su SD : Q) :
  g == (ru * rd) * c ->
  (1 # 12288) * (Su * SD) <= c * c ->
  9966 # 10000 <= ru * ru * Su -> 996 # 1000 <= rd * rd * SD ->
  (89 # 10000) * (89 # 10000) <= g * g.
Proof.
  intros E H PU PD.
  assert (W : 0 <= (ru * ru) * (rd * rd)) by nra.
  pose proof (Qmult_le_compat_r _ _ _ H W) as M.
  assert (P : (9966 # 10000) * (996 # 1000) <= (ru * ru * Su) * (rd * rd * SD)).
  { apply Qmult_le_compat_nonneg; split;
      [discriminate | exact PU | discriminate | exact PD]. }
  assert (E1 : (1 # 12288) * (Su * SD) * (ru * ru * (rd * rd))
               == (1 # 12288) * ((ru * ru * Su) * (rd * rd * SD))) by ring.
  assert (E2 : c * c * (ru * ru * (rd * rd)) == g * g)
    by (rewrite E; ring).
  rewrite E1, E2 in M.
  set (pp := (ru * ru * Su) * (rd * rd * SD)) in *. lra.
Qed.

(** The computed right axis against the scaled exact cross product. *)
Lemma right_close (X C g rc : Q) :
  0 < rc -> rc <= 129 ->
  Qabs (X - C * rc) <= 2 * f32_eps -> Qabs (C - g) <= 18 * f32_eps ->
  Qabs (X - rc * g) <= 1 # 1000.
Proof.
  intros R0 R1 HX HC.
  assert (HR : Qabs rc <= 129)
    by (rewrite Qabs_pos; [exact R1 | apply Qlt_le_weak; exact R0]).
  pose proof (Qabs_mul_bound _ _ _ _ HR HC) as T.
  assert (E : X - rc * g == (X - C * rc) + rc * (C - g)) by ring.
  rewrite E. set (t := rc * (C - g)) in *. set (s := X - C * rc) in *.
  clear E HC HR. unfold f32_eps in *. qabs_inv. apply Qabs_le_intro; lra.
Qed.

Lemma float3_within_weaken (B B' : Q) (v : float3) :
  B <= B' -> float3_within B v = true -> float3_within B' v = true.
Proof.
  intros HB H.
  apply float3_within_inv in H as ((R1 & B1) & (R2 & B2) & (R3 & B3)).
  unfold float3_within, f32_within. rewrite R1, R2, R3. cbn [andb].
  assert (W : forall x, Qabs x <= B -> Qle_bool (Qabs x) B' = true).
  { intros x Hx. apply Qle_bool_iff. eapply Qle_trans; [exact Hx | exact HB]. }
  rewrite (W _ B1), (W _ B2), (W _ B3). reflexivity.
Qed.

Lemma float3_within_intro (B : Q) (x y z : f32) :
  f32_regular x = true -> f32_regular y = true -> f32_regular z = true ->
  Qabs (F32.to_Q x) <= B -> Qabs (F32.to_Q y) <= B ->
  Qabs (F32.to_Q z) <= B ->
  float3_within B (mkfloat3 x y z) = true.
Proof.
  intros R1 R2 R3 B1 B2 B3. unfold float3_within, f32_within.
  cbn [float3_x float3_y float3_z]. rewrite R1, R2, R3. cbn [andb].
  apply Qle_bool_iff in B1, B2, B3. rewrite B1, B2, B3. reflexivity.
Qed.

(** ** The three axes of the view matrix *)

(** The forward axis: the normalized computed difference is the exact
    difference scaled by a positive factor, up to [4 eps]. *)
Lemma forward_axis (B : Q) (point eye : float3) :
  float3_within (pow2 60) point = true -> float3_within B eye = true ->
  B <= pow2 60 ->
  let D := qvec_sub (float3_value point) (float3_value eye) in
  pow2 (-99) <= qvec_length2 D ->
  let z := float3_normalized (float3_sub point eye) in
  float3_within (1003 # 1000) z = true
  /\ Qabs (float3_length2 z - 1) <= 4 # 1000
  /\ exists rd : Q,
       0 < rd /\ 996 # 1000 <= rd * rd * qvec_length2 D
       /\ (Qabs (F32.to_Q (float3_x z) - rd * qx D) <= 4 * f32_eps
           /\ Qabs (rd * qx D) <= 1005 # 1000)
       /\ (Qabs (F32.to_Q (float3_y z) - rd * qy D) <= 4 * f32_eps
           /\ Qabs (rd * qy D) <= 1005 # 1000)
       /\ (Qabs (F32.to_Q (float3_z z) - rd * qz D) <= 4 * f32_eps
           /\ Qabs (rd * qz D) <= 1005 # 1000).
Proof.
  intros Hp He HB D HD z.
  destruct point as [p1 p2 p3], eye as [e1 e2 e3].
  unfold float3_within in Hp, He. cbn [float3_x float3_y float3_z] in Hp, He.
  apply andb_prop in Hp as [Hp Hp3]. apply andb_prop in Hp as [Hp1 Hp2].
  apply andb_prop in He as [He He3]. apply andb_prop in He as [He1 He2].
  destruct (difference_general _ _ _ Hp1 He1 HB) as [W1 E1].
  destruct (difference_general _ _ _ Hp2 He2 HB) as [W2 E2].
  destruct (difference_general _ _ _ Hp3 He3 HB) as [W3 E3].
  unfold D, qvec_length2, qvec_sub, float3_value in *.
  cbn [qx qy qz float3_x float3_y float3_z] in *.
  set (D1 := F32.to_Q p1 - F32.to_Q e1) in *.
  set (D2 := F32.to_Q p2 - F32.to_Q e2) in *.
  set (D3 := F32.to_Q p3 - F32.to_Q e3) in *.
  destruct (rounded_square _ _ E1) as [L1 U1].
  destruct (rounded_square _ _ E2) as [L2 U2].
  destruct (rounded_square _ _ E3) as [L3 U3].
  assert (Wd : float3_within (pow2 61 * (1 + f32_eps))
                 (float3_sub (mkfloat3 p1 p2 p3) (mkfloat3 e1 e2 e3)) = true).
  { unfold float3_within, float3_sub. cbn [float3_x float3_y float3_z].
    rewrite W1, W2, W3. reflexivity. }
  assert (Q1 : 0 <= D1 * D1) by nra. assert (Q2 : 0 <= D2 * D2) by nra.
  assert (Q3 : 0 <= D3 * D3) by nra.
  assert (Sd : pow2 (-100)
               <= float3_length2
                    (float3_sub (mkfloat3 p1 p2 p3) (mkfloat3 e1 e2 e3))).
  { unfold float3_length2, float3_inner, float3_sub.
    cbn [float3_x float3_y float3_z].
    qlit (pow2 (-100)). qlit (pow2 (-99)). unfold f32_eps in *. lra. }
  destruct (normalized_general _ Wd Sd)
    as (R0 & PU & PL & Wz & F1 & F2 & F3 & Lz).
  fold z in Wz, F1, F2, F3, Lz.
  set (rd := F32.to_Q (fisqrt (float3_sqrMagnitude
               (float3_sub (mkfloat3 p1 p2 p3) (mkfloat3 e1 e2 e3))))) in *.
  unfold float3_length2 at 1, float3_inner, float3_sub in PL.
  unfold float3_sub in F1, F2, F3.
  cbn [float3_x float3_y float3_z] in PL, F1, F2, F3.
  split; [exact Wz |]. split; [exact Lz |].
  pose proof (float3_within_inv _ _ Wz) as ((_ & Z1) & (_ & Z2) & (_ & Z3)).
  assert (K : forall F t, Qabs F <= 1003 # 1000 ->
                Qabs (F - t) <= 2 * f32_eps -> Qabs t <= 1004 # 1000).
  { intros F t HF Ht. unfold f32_eps in *. qabs_inv. apply Qabs_le_intro; lra. }
  exists rd. split; [exact R0 |]. split.
  - assert (RR : 0 <= rd * rd) by nra.
    set (S := F32.to_Q (F32.sub p1 e1) * F32.to_Q (F32.sub p1 e1)
              + F32.to_Q (F32.sub p2 e2) * F32.to_Q (F32.sub p2 e2)
              + F32.to_Q (F32.sub p3 e3) * F32.to_Q (F32.sub p3 e3)) in *.
    assert (SU : S <= (D1 * D1 + D2 * D2 + D3 * D3) * (1 + 3 * f32_eps))
      by (unfold S; lra).
    assert (M : rd * rd * S
                <= rd * rd * ((D1 * D1 + D2 * D2 + D3 * D3)
                              * (1 + 3 * f32_eps))).
    { rewrite !(Qmult_comm (rd * rd)). apply Qmult_le_compat_r; assumption. }
    set (P := rd * rd * (D1 * D1 + D2 * D2 + D3 * D3)) in *.
    assert (EM : rd * rd * ((D1 * D1 + D2 * D2 + D3 * D3)
                            * (1 + 3 * f32_eps))
                 == P * (1 + 3 * f32_eps)) by (unfold P; ring).
    rewrite EM in M. unfold f32_eps in *. lra.
  - split; [| split].
    + exact (scaled_close _ _ _ _ R0 F1 (K _ _ Z1 F1) E1).
    + exact (scaled_close _ _ _ _ R0 F2 (K _ _ Z2 F2) E2).
    + exact (scaled_close _ _ _ _ R0 F3 (K _ _ Z3 F3) E3).
Qed.

Lemma close_trans (x y z : Q) :
  Qabs (x - y) <= 5 * f32_eps -> Qabs (y - z) <= 13 * f32_eps ->
  Qabs (x - z) <= 18 * f32_eps.
Proof.
  intros H1 H2. unfold f32_eps in *. qabs_inv. apply Qabs_le_intro; lra.
Qed.

(** The right axis: the normalized computed cross product of the
    normalized [up] and the forward axis is nearly orthogonal to the forward
    axis, of length near 1, and along the exact cross product of the exact
    vectors [Up] and [D]. *)
Lemma right_axis (u z : float3) (Up D : qvec) (ru rd : Q) :
  float3_within (1003 # 1000) u = true ->
  float3_within (1003 # 1000) z = true ->
  0 < ru -> 0 < rd ->
  9966 # 10000 <= ru * ru * qvec_length2 Up ->
  996 # 1000 <= rd * rd * qvec_length2 D ->
  Qabs (F32.to_Q (float3_x u) - qx Up * ru) <= 2 * f32_eps ->
  Qabs (F32.to_Q (float3_y u) - qy Up * ru) <= 2 * f32_eps ->
  Qabs (F32.to_Q (float3_z u) - qz Up * ru) <= 2 * f32_eps ->
  Qabs (F32.to_Q (float3_x z) - rd * qx D) <= 4 * f32_eps
  /\ Qabs (rd * qx D) <= 1005 # 1000 ->
  Qabs (F32.to_Q (float3_y z) - rd * qy D) <= 4 * f32_eps
  /\ Qabs (rd * qy D) <= 1005 # 1000 ->
  Qabs (F32.to_Q (float3_z z) - rd * qz D) <= 4 * f32_eps
  /\ Qabs (rd * qz D) <= 1005 # 1000 ->
  pow2 (-12) * (qvec_length2 Up * qvec_length2 D)
  <= qvec_length2 (qvec_cross Up D) ->
  let x := float3_normalized (float3_cross u z) in
  float3_within (1003 # 1000) x = true
  /\ Qabs (float3_length2 x - 1) <= 4 # 1000
  /\ Qabs (float3_inner x z) <= 1 # 1000
  /\ exists rho : Q,
       0 < rho /\ qvec_close (1 # 1000) x (qvec_scale rho (qvec_cross Up D)).
Proof.
  intros Wu Wz Ru Rd PLu PLd Du1 Du2 Du3 [Dz1 Bz1] [Dz2 Bz2] [Dz3 Bz3] HX x.
  assert (Wu' : float3_within (21 # 20) u = true)
    by (apply (float3_within_weaken (1003 # 1000)); [discriminate | exact Wu]).
  assert (Wz' : float3_within (21 # 20) z = true)
    by (apply (float3_within_weaken (1003 # 1000)); [discriminate | exact Wz]).
  destruct (cross_general u z Wu' Wz')
    as (Rc & (EC1 & KC1) & (EC2 & KC2) & (EC3 & KC3)).
  pose proof (float3_within_inv _ _ Wu) as ((_ & BU1) & (_ & BU2) & (_ & BU3)).
  pose proof (float3_within_inv _ _ Wz) as ((_ & BZ1) & (_ & BZ2) & (_ & BZ3)).
  destruct u as [u1 u2 u3], z as [z1 z2 z3], Up as [a1 a2 a3], D as [d1 d2 d3].
  unfold qvec_length2, qvec_cross, qvec_close, qvec_scale in *.
  cbn [float3_x float3_y float3_z qx qy qz] in *.
  set (U1 := F32.to_Q u1) in *. set (U2 := F32.to_Q u2) in *.
  set (U3 := F32.to_Q u3) in *.
  set (Z1 := F32.to_Q z1) in *. set (Z2 := F32.to_Q z2) in *.
  set (Z3 := F32.to_Q z3) in *.
  set (c := float3_cross (mkfloat3 u1 u2 u3) (mkfloat3 z1 z2 z3)) in *.
  set (C1 := F32.to_Q (float3_x c)) in *. set (C2 := F32.to_Q (float3_y c)) in *.
  set (C3 := F32.to_Q (float3_z c)) in *.
  (* the computed cross product against the scaled exact one *)
  pose proof (close_trans _ _ _ EC1
                (cross_scaled _ _ _ _ _ _ _ _ Du2 Du3 Dz2 Dz3 BU2 BU3 Bz2 Bz3))
    as G1.
  pose proof (close_trans _ _ _ EC2
                (cross_scaled _ _ _ _ _ _ _ _ Du3 Du1 Dz3 Dz1 BU3 BU1 Bz3 Bz1))
    as G2.
  pose proof (close_trans _ _ _ EC3
                (cross_scaled _ _ _ _ _ _ _ _ Du1 Du2 Dz1 Dz2 BU1 BU2 Bz1 Bz2))
    as G3.
  set (g1 := a2 * ru * (rd * d3) - a3 * ru * (rd * d2)) in *.
  set (g2 := a3 * ru * (rd * d1) - a1 * ru * (rd * d3)) in *.
  set (g3 := a1 * ru * (rd * d2) - a2 * ru * (rd * d1)) in *.
  assert (Eg1 : g1 == ru * rd * (a2 * d3 - a3 * d2)) by (unfold g1; ring).
  assert (Eg2 : g2 == ru * rd * (a3 * d1 - a1 * d3)) by (unfold g2; ring).
  assert (Eg3 : g3 == ru * rd * (a1 * d2 - a2 * d1)) by (unfold g3; ring).
  (* its squared length is at least 2^-14 *)
  assert (Q1 : 0 <= C1 * C1) by nra. assert (Q2 : 0 <= C2 * C2) by nra.
  assert (Q3 : 0 <= C3 * C3) by nra.
  assert (SC : pow2 (-14) <= C1 * C1 + C2 * C2 + C3 * C3).
  { set (SS := (a1 * a1 + a2 * a2 + a3 * a3) * (d1 * d1 + d2 * d2 + d3 * d3))
      in *.
    assert (H3 : 3 * ((1 # 12288) * SS)
                 <= (a2 * d3 - a3 * d2) * (a2 * d3 - a3 * d2)
                    + (a3 * d1 - a1 * d3) * (a3 * d1 - a1 * d3)
                    + (a1 * d2 - a2 * d1) * (a1 * d2 - a2 * d1)).
    { qlit (pow2 (-12)). lra. }
    destruct (big_component _ _ _ _ H3) as [K | [K | K]].
    - pose proof (square_lower _ _ G1
                    (scaled_square_lower _ _ _ _ _ _ Eg1 K PLu PLd)) as L. lra.
    - pose proof (square_lower _ _ G2
                    (scaled_square_lower _ _ _ _ _ _ Eg2 K PLu PLd)) as L. lra.
    - pose proof (square_lower _ _ G3
                    (scaled_square_lower _ _ _ _ _ _ Eg3 K PLu PLd)) as L. lra. }
  assert (Wc : float3_within (pow2 61 * (1 + f32_eps)) c = true).
  { unfold float3_regular in Rc.
    apply andb_prop in Rc as [Rc Rc3]. apply andb_prop in Rc as [Rc1 Rc2].
    assert (W : forall C t, Qabs (C - t) <= 5 * f32_eps ->
                  Qabs t <= 2206 # 1000 ->
                  Qabs C <= pow2 61 * (1 + f32_eps)).
    { intros C t H1 H2. qlit (pow2 61 * (1 + f32_eps)). unfold f32_eps in *.
      qabs_inv. apply Qabs_le_intro; lra. }
    pose proof (W _ _ EC1 KC1) as W1. pose proof (W _ _ EC2 KC2) as W2.
    pose proof (W _ _ EC3 KC3) as W3.
    apply Qle_bool_iff in W1, W2, W3.
    unfold float3_within, f32_within. fold C1 C2 C3.
    rewrite Rc1, Rc2, Rc3, W1, W2, W3. reflexivity. }
  assert (Sc : pow2 (-100) <= float3_length2 c).
  { unfold float3_length2, float3_inner. fold C1 C2 C3.
    eapply Qle_trans; [apply (pow2_le (-100) (-14)); lia | exact SC]. }
  destruct (normalized_general c Wc Sc)
    as (R0 & PU & _ & Wx & DX1 & DX2 & DX3 & Lx).
  fold x in Wx, DX1, DX2, DX3, Lx. fold C1 C2 C3 in DX1, DX2, DX3.
  unfold float3_length2 at 1, float3_inner in PU. fold C1 C2 C3 in PU.
  set (rc := F32.to_Q (fisqrt (float3_sqrMagnitude c))) in *.
  assert (RC : rc <= 129).
  { apply Qlt_le_weak, Qsquare_lt_inv;
      [apply Qlt_le_weak; exact R0 | discriminate |].
    assert (RR : 0 <= rc * rc) by nra.
    assert (M : rc * rc * pow2 (-14)
                <= rc * rc * (C1 * C1 + C2 * C2 + C3 * C3)).
    { rewrite !(Qmult_comm (rc * rc)). apply Qmult_le_compat_r; assumption. }
    qlit (pow2 (-14)). lra. }
  split; [exact Wx |]. split; [exact Lx |]. split.
  - unfold float3_inner. cbn [float3_x float3_y float3_z]. fold Z1 Z2 Z3.
    exact (inner_small _ _ _ _ _ _ _ _ _ _ _ _ _ R0 RC DX1 DX2 DX3
             EC1 EC2 EC3 BZ1 BZ2 BZ3).
  - exists (rc * (ru * rd)). split.
    + apply Qmult_lt_0_compat; [exact R0 |].
      apply Qmult_lt_0_compat; assumption.
    + pose proof (right_close _ _ _ _ R0 RC DX1 G1) as X1.
      pose proof (right_close _ _ _ _ R0 RC DX2 G2) as X2.
      pose proof (right_close _ _ _ _ R0 RC DX3 G3) as X3.
      assert (F1 : rc * g1 == rc * (ru * rd) * (a2 * d3 - a3 * d2))
        by (rewrite Eg1; ring).
      assert (F2 : rc * g2 == rc * (ru * rd) * (a3 * d1 - a1 * d3))
        by (rewrite Eg2; ring).
      assert (F3 : rc * g3 == rc * (ru * rd) * (a1 * d2 - a2 * d1))
        by (rewrite Eg3; ring).
      rewrite F1 in X1. rewrite F2 in X2. rewrite F3 in X3.
      split; [| split]; assumption.
Qed.

(** The recomputed up axis: the computed cross product of the forward and
    right axes. *)
Lemma recomputed_up (z x : float3) :
  float3_within (1003 # 1000) z = true ->
  float3_within (1003 # 1000) x = true ->
  Qabs (float3_length2 z - 1) <= 4 # 1000 ->
  Qabs (float3_length2 x - 1) <= 4 # 1000 ->
  Qabs (float3_inner x z) <= 1 # 1000 ->
  let y := float3_cross z x in
  float3_within (21 # 20) y = true
  /\ qvec_close (5 * f32_eps) y (qvec_cross (float3_value z) (float3_value x))
  /\ Qabs (float3_length2 y - 1) <= 1 # 100
  /\ Qabs (float3_inner x y) <= 1 # 1000
  /\ Qabs (float3_inner y z) <= 1 # 1000.
Proof.
  intros Wz Wx Lz Lx Ixz y.
  assert (Wz' : float3_within (21 # 20) z = true)
    by (apply (float3_within_weaken (1003 # 1000)); [discriminate | exact Wz]).
  assert (Wx' : float3_within (21 # 20) x = true)
    by (apply (float3_within_weaken (1003 # 1000)); [discriminate | exact Wx]).
  destruct (cross_general z x Wz' Wx')
    as (Ry & (EY1 & KY1) & (EY2 & KY2) & (EY3 & KY3)).
  pose proof (float3_within_inv _ _ Wz) as ((_ & BZ1) & (_ & BZ2) & (_ & BZ3)).
  pose proof (float3_within_inv _ _ Wx) as ((_ & BX1) & (_ & BX2) & (_ & BX3)).
  fold y in Ry, EY1, EY2, EY3.
  unfold float3_length2, float3_inner, qvec_close, qvec_cross, float3_value
    in *.
  cbn [qx qy qz] in *.
  set (Z1 := F32.to_Q (float3_x z)) in *. set (Z2 := F32.to_Q (float3_y z)) in *.
  set (Z3 := F32.to_Q (float3_z z)) in *.
  set (X1 := F32.to_Q (float3_x x)) in *. set (X2 := F32.to_Q (float3_y x)) in *.
  set (X3 := F32.to_Q (float3_z x)) in *.
  set (Y1 := F32.to_Q (float3_x y)) in *. set (Y2 := F32.to_Q (float3_y y)) in *.
  set (Y3 := F32.to_Q (float3_z y)) in *.
  pose proof (cross_length _ _ _ _ _ _ _ _ _ EY1 EY2 EY3 KY1 KY2 KY3 Lz Lx Ixz)
    as Ly.
  destruct (cross_inner_small _ _ _ _ _ _ _ _ _ EY1 EY2 EY3
              BZ1 BZ2 BZ3 BX1 BX2 BX3) as [Iyz Ixy].
  split; [| split; [split; [exact EY1 | split; [exact EY2 | exact EY3]] |
            split; [exact Ly | split; [exact Ixy | exact Iyz]]]].
  unfold float3_regular in Ry.
  apply andb_prop in Ry as [Ry Ry3]. apply andb_prop in Ry as [Ry1 Ry2].
  assert (W : forall a b c, 0 <= b -> 0 <= c ->
                Qabs (a * a + b + c - 1) <= 1 # 100 ->
                Qle_bool (Qabs a) (21 # 20) = true).
  { intros a b c Hb Hc H. apply Qle_bool_iff, Qabs_of_square; [discriminate |].
    apply Qabs_le_inv in H as [_ H]. lra. }
  assert (Q1 : 0 <= Y1 * Y1) by nra. assert (Q2 : 0 <= Y2 * Y2) by nra.
  assert (Q3 : 0 <= Y3 * Y3) by nra.
  unfold float3_within, f32_within. fold Y1 Y2 Y3.
  rewrite Ry1, Ry2, Ry3. cbn [andb].
  rewrite (W Y1 _ _ Q2 Q3 Ly).
  assert (E2 : Y2 * Y2 + Y1 * Y1 + Y3 * Y3 - 1
               == Y1 * Y1 + Y2 * Y2 + Y3 * Y3 - 1) by ring.
  assert (E3 : Y3 * Y3 + Y1 * Y1 + Y2 * Y2 - 1
               == Y1 * Y1 + Y2 * Y2 + Y3 * Y3 - 1) by ring.
  rewrite (W Y2 (Y1 * Y1) (Y3 * Y3) Q1 Q3) by (rewrite E2; exact Ly).
  rewrite (W Y3 (Y1 * Y1) (Y2 * Y2) Q1 Q2) by (rewrite E3; exact Ly).
  reflexivity.
Qed.

(** One entry of the fourth row: the negated inner product with [eye]. *)
Lemma translation_entry (a eye : float3) (B : Q) :
  float3_within (21 # 20) a = true -> float3_within B eye = true ->
  B <= pow2 60 ->
  f32_regular (F32.neg (float3_dot a eye)) = true
  /\ Qabs (F32.to_Q (F32.neg (float3_dot a eye)) + float3_inner a eye)
     <= 9 * f32_eps * B + 4 * pow2 (-150).
Proof.
  intros Wa We HB. destruct (dot_general a eye B Wa We HB) as [R E].
  split; [apply regular_neg; exact R |].
  rewrite to_Q_neg.
  assert (K : - F32.to_Q (float3_dot a eye) + float3_inner a eye
              == - (F32.to_Q (float3_dot a eye) - float3_inner a eye)) by ring.
  rewrite K, Qabs_opp. exact E.
Qed.

(** * The view matrix *)

(** The matrix in terms of its three axes. *)
Lemma lookAt_rows (target eye up : float3) :
  let z := float3_normalized (float3_sub target eye) in
  let x := float3_normalized (float3_cross (float3_normalized up) z) in
  let y := float3_cross z x in
  float4x4_lookAt target eye up
  = mkfloat4x4 (float4_of_float3 x) (float4_of_float3 y) (float4_of_float3 z)
      (mkfloat4 (F32.neg (float3_dot x eye)) (F32.neg (float3_dot y eye))
         (F32.neg (float3_dot z eye)) f1).
Proof. reflexivity. Qed.

(** C7: [lookAt(target, eye, up)] is the view matrix of the three axes
    forward = normalized(target - eye), right = normalized(up x forward)
    with [up] normalized in place before the product, and the recomputed
    up = forward x right: rows right, up, forward (each padded with 0) and a
    fourth row (-right.eye, -up.eye, -forward.eye, 1).

    For inputs away from overflow, underflow and the degenerate directions
    ([lookAt_well_posed], a condition on the exact values of the inputs),
    the rows are an orthonormal basis within tolerance, as rational
    numbers: every entry is a valid finite float; the forward row is the
    exact difference [target - eye] times a positive factor, up to
    [4 * 2^-24] per component; the right row is the exact cross product
    [up x (target - eye)] times a positive factor, up to 1/1000; the up row
    is the exact cross product of the forward and right rows, up to
    [5 * 2^-24]; the squared lengths of the rows are within 4/1000, 1/100
    and 4/1000 of 1, and their pairwise inner products within 1/1000 of 0;
    the last column is (0, 0, 0, 1); and each of the first three entries of
    the fourth row is minus the exact inner product of its row with [eye],
    up to [9 * 2^-24 * B + 2^-148] where [B] bounds the components of
    [eye].

    For target = (0,0,1), eye = (0,0,0), up = (0,1,0) every entry is within
    0.001 of the identity matrix; for target = (1,3,4), eye = (1,3,2),
    up = (0,3,0) every entry is within 0.001 of the matrix with the rows
    (1,0,0,0), (0,1,0,0), (0,0,1,0) and (-1,-3,-2,1). *)
Theorem lookAt_view_matrix :
  (forall target eye up : float3,
      let forward := float3_normalized (float3_sub target eye) in
      let right := float3_normalized (float3_cross (float3_normalize up) forward) in
      let up' := float3_cross forward right in
      float4x4_lookAt target eye up = view_matrix right up' forward eye)
  /\ (forall (B : Q) (target eye up : float3),
        lookAt_well_posed B target eye up = true ->
        let m := float4x4_lookAt target eye up in
        let right := float3_of_float4 (rows_a m) in
        let up' := float3_of_float4 (rows_b m) in
        let forward := float3_of_float4 (rows_c m) in
        let D := qvec_sub (float3_value target) (float3_value eye) in
        float4x4_regular m = true
        /\ (exists rho : Q,
              0 < rho /\ qvec_close (4 * f32_eps) forward (qvec_scale rho D))
        /\ (exists rho : Q,
              0 < rho
              /\ qvec_close (1 # 1000) right
                   (qvec_scale rho (qvec_cross (float3_value up) D)))
        /\ qvec_close (5 * f32_eps) up'
             (qvec_cross (float3_value forward) (float3_value right))
        /\ Qabs (float3_length2 right - 1) <= 4 # 1000
        /\ Qabs (float3_length2 up' - 1) <= 1 # 100
        /\ Qabs (float3_length2 forward - 1) <= 4 # 1000
        /\ Qabs (float3_inner right up') <= 1 # 1000
        /\ Qabs (float3_inner right forward) <= 1 # 1000
        /\ Qabs (float3_inner up' forward) <= 1 # 1000
        /\ (m03 m = f0 /\ m13 m = f0 /\ m23 m = f0 /\ m33 m = f1)
        /\ Qabs (F32.to_Q (m30 m) + float3_inner right eye)
           <= 9 * f32_eps * B + 4 * pow2 (-150)
        /\ Qabs (F32.to_Q (m31 m) + float3_inner up' eye)
           <= 9 * f32_eps * B + 4 * pow2 (-150)
        /\ Qabs (F32.to_Q (m32 m) + float3_inner forward eye)
           <= 9 * f32_eps * B + 4 * pow2 (-150))
  /\ float4x4_close (1 # 1000)
       (float4x4_lookAt (mkfloat3 f0 f0 f1) float3_zero float3_up)
       float4x4_identity = true
  /\ float4x4_close (1 # 1000)
       (float4x4_lookAt (mkfloat3 f1 f3 f4) (mkfloat3 f1 f3 f2)
          (mkfloat3 f0 f3 f0))
       (mkfloat4x4 (mkfloat4 f1 f0 f0 f0) (mkfloat4 f0 f1 f0 f0)
          (mkfloat4 f0 f0 f1 f0)
          (mkfloat4 (F32.neg f1) (F32.neg f3) (F32.neg f2) f1)) = true.
Proof.
  split; [intros target eye up; reflexivity |].
  split; [| split; vm_compute; reflexivity].
  intros B target eye up WP.
  pose proof (lookAt_rows target eye up) as E. cbv zeta in E.
  unfold lookAt_well_posed in WP. cbv zeta in WP.
  repeat match type of WP with
         | _ && _ = true => let H := fresh "H" in apply andb_prop in WP as [WP H]
         end.
  rename WP into Wt, H4 into We, H3 into HB, H2 into Wup, H1 into Su,
         H0 into SD, H into HX.
  apply Qle_bool_iff in HB, Su, SD, HX.
  (* the forward axis *)
  destruct (forward_axis B target eye Wt We HB SD)
    as (Wz & Lz & rd & Rd & PLd & Dz1 & Dz2 & Dz3).
  remember (float3_normalized (float3_sub target eye)) as z eqn:Ez.
  (* the normalized up *)
  assert (Wup' : float3_within (pow2 61 * (1 + f32_eps)) up = true).
  { apply (float3_within_weaken (pow2 60)); [| exact Wup].
    apply Qle_bool_iff. reflexivity. }
  destruct (normalized_general up Wup' Su)
    as (Ru & _ & PLu & Wu & Du1 & Du2 & Du3 & _).
  set (ru := F32.to_Q (fisqrt (float3_sqrMagnitude up))) in *.
  remember (float3_normalized up) as u eqn:Eu.
  (* the right axis *)
  destruct (right_axis u z (float3_value up)
              (qvec_sub (float3_value target) (float3_value eye)) ru rd
              Wu Wz Ru Rd PLu PLd Du1 Du2 Du3 Dz1 Dz2 Dz3 HX)
    as (Wx & Lx & Ixz & rho & Rho & Cx).
  remember (float3_normalized (float3_cross u z)) as x eqn:Ex.
  (* the recomputed up axis *)
  destruct (recomputed_up z x Wz Wx Lz Lx Ixz) as (Wy & Cy & Ly & Ixy & Iyz).
  remember (float3_cross z x) as y eqn:Ey.
  (* the fourth row *)
  assert (Wx' : float3_within (21 # 20) x = true)
    by (apply (float3_within_weaken (1003 # 1000)); [discriminate | exact Wx]).
  assert (Wz' : float3_within (21 # 20) z = true)
    by (apply (float3_within_weaken (1003 # 1000)); [discriminate | exact Wz]).
  destruct (translation_entry x eye B Wx' We HB) as [Rtx Etx].
  destruct (translation_entry y eye B Wy We HB) as [Rty Ety].
  destruct (translation_entry z eye B Wz' We HB) as [Rtz Etz].
  cbv zeta. rewrite E. clear E Ez Eu Ex Ey.
  destruct x as [x1 x2 x3], y as [y1 y2 y3], z as [z1 z2 z3].
  unfold m03, m13, m23, m33, m30, m31, m32, float3_of_float4, float4_of_float3.
  cbn [rows_a rows_b rows_c rows_d float4_x float4_y float4_z float4_w
       float3_x float3_y float3_z].
  split.
  { apply float3_within_inv in Wx as ((X1 & _) & (X2 & _) & (X3 & _)).
    apply float3_within_inv in Wy as ((Y1 & _) & (Y2 & _) & (Y3 & _)).
    apply float3_within_inv in Wz as ((Z1 & _) & (Z2 & _) & (Z3 & _)).
    cbn [float3_x float3_y float3_z] in *.
    unfold float4x4_regular, float4_regular.
    cbn [rows_a rows_b rows_c rows_d float4_x float4_y float4_z float4_w].
    rewrite X1, X2, X3, Y1, Y2, Y3, Z1, Z2, Z3, Rtx, Rty, Rtz. reflexivity. }
  split.
  { exists rd. split; [exact Rd |].
    split; [exact (proj1 Dz1) | split; [exact (proj1 Dz2) | exact (proj1 Dz3)]]. }
  split; [exists rho; split; [exact Rho | exact Cx] |].
  split; [exact Cy |].
  split; [exact Lx |]. split; [exact Ly |]. split; [exact Lz |].
  split; [exact Ixy |]. split; [exact Ixz |]. split; [exact Iyz |].
  split; [repeat split |].
  split; [exact Etx |]. split; [exact Ety | exact Etz].
Qed.

(** The inputs target = (4,1,2), eye = (1,2,4), up = (0,2,0) are well
    posed, and so are those of the scenario target = (0,0,1), eye = (0,0,0),
    up = (0,1,0). *)
Lemma lookAt_view_matrix_witness :
  lookAt_well_posed 0 (mkfloat3 f0 f0 f1) float3_zero float3_up = true
  /\ lookAt_well_posed 4 (mkfloat3 f4 f1 f2) (mkfloat3 f1 f2 f4)
    (mkfloat3 f0 f2 f0) = true
  /\ float4x4_regular
       (float4x4_lookAt (mkfloat3 f4 f1 f2) (mkfloat3 f1 f2 f4)
          (mkfloat3 f0 f2 f0)) = true
  /\ Qabs (float3_length2
             (float3_of_float4
                (rows_b (float4x4_lookAt (mkfloat3 f4 f1 f2)
                           (mkfloat3 f1 f2 f4) (mkfloat3 f0 f2 f0)))) - 1)
     <= 1 # 100
  /\ Qabs (float3_inner
             (float3_of_float4
                (rows_a (float4x4_lookAt (mkfloat3 f4 f1 f2)
                           (mkfloat3 f1 f2 f4) (mkfloat3 f0 f2 f0))))
             (float3_of_float4
                (rows_c (float4x4_lookAt (mkfloat3 f4 f1 f2)
                           (mkfloat3 f1 f2 f4) (mkfloat3 f0 f2 f0)))))
     <= 1 # 1000
  /\ Qabs (F32.to_Q
             (m32 (float4x4_lookAt (mkfloat3 f4 f1 f2) (mkfloat3 f1 f2 f4)
                     (mkfloat3 f0 f2 f0)))
           + float3_inner
               (float3_of_float4
                  (rows_c (float4x4_lookAt (mkfloat3 f4 f1 f2)
                             (mkfloat3 f1 f2 f4) (mkfloat3 f0 f2 f0))))
               (mkfloat3 f1 f2 f4))
     <= 9 * f32_eps * 4 + 4 * pow2 (-150).
Proof.
  pose proof (proj1 (proj2 lookAt_view_matrix) 4 (mkfloat3 f4 f1 f2)
                (mkfloat3 f1 f2 f4) (mkfloat3 f0 f2 f0) eq_refl) as H.
  cbv zeta in H.
  destruct H as (H1 & _ & _ & _ & _ & H6 & _ & _ & H9 & _ & _ & _ & _ & H14).
  split; [reflexivity |]. split; [reflexivity |].
  split; [exact H1 |]. split; [exact H6 |]. split; [exact H9 | exact H14].
Defined.

Local Close Scope Q_scope.
